(** * Pane Fullscreen content script: a shallow embedding and its properties

    The content script (detection of playable elements, scoring, selection,
    snapshot / restore of a relocated element, the overlay session and the
    interactive picker) is embedded over an explicit model of the DOM it
    manipulates.

    Modelling conventions

    - A page is a forest of node identifiers (the main document first, then
      the documents of embedded frames and the detached trees) together with
      a store mapping every identifier to the data of its node.  The module
      level variables of the script are the fields of [State].
    - JavaScript numbers are rationals: CSS pixel lengths and the scores built
      from them by multiplication are computed exactly.
    - The [class] attribute is represented by its token list (the
      [DOMTokenList] that [classList] exposes); [className] reads and writes
      that list.
    - A call that raises leaves the mutations made before it in place:
      operations return an [Outcome] carrying the state reached. *)

From stdpp Require Import base gmap.
From Stdlib Require Import List String Ascii QArith Qminmax Bool Arith Lia Lqa Permutation DecimalString.
Import ListNotations.
Close Scope Q_scope.
Open Scope string_scope.
Open Scope list_scope.

(* ------------------------------------------------------------------ *)
(** ** Trees of node identifiers *)

(** Nodes are identified by natural numbers. *)
Abbreviation NodeId := nat (only parsing).

#[local] Unset Elimination Schemes.
Inductive Tree := T (i : NodeId) (ks : list Tree).
#[local] Set Elimination Schemes.

Definition root (t : Tree) : NodeId := match t with T i _ => i end.
Definition kids (t : Tree) : list Tree := match t with T _ ks => ks end.

Section FirstSome.
Context {A B : Type} (f : A -> option B).
Fixpoint first_some (l : list A) : option B :=
    match l with
    | [] => None
    | a :: l' => match f a with Some b => Some b | None => first_some l' end
    end.
End FirstSome.

(** Identifiers in tree order (preorder, depth first). *)
Fixpoint ids (t : Tree) : list NodeId :=
  match t with T i ks => i :: flat_map ids ks end.

Definition idsF (f : list Tree) : list NodeId := flat_map ids f.

(** The subtree rooted at [n]. *)
Fixpoint subtree (n : NodeId) (t : Tree) : option Tree :=
  match t with
  | T i ks => if Nat.eqb i n then Some t else first_some (subtree n) ks
  end.

Definition subtreeF (n : NodeId) (f : list Tree) : option Tree :=
  first_some (subtree n) f.

Definition has_child (n : NodeId) (ks : list Tree) : bool :=
  existsb (fun c => Nat.eqb (root c) n) ks.

(** The node one of whose children is [n]. *)
Fixpoint parentT (n : NodeId) (t : Tree) : option Tree :=
  match t with
  | T i ks => if has_child n ks then Some t else first_some (parentT n) ks
  end.

Definition parentF (n : NodeId) (f : list Tree) : option Tree :=
  first_some (parentT n) f.

(** The identifier that follows [n] in a list of siblings. *)
Fixpoint next_after (n : NodeId) (l : list NodeId) : option NodeId :=
  match l with
  | [] => None
  | a :: l' => if Nat.eqb a n then hd_error l' else next_after n l'
  end.

(** Inclusive ancestors of [n], from the root of the tree down to [n];
    empty when [n] is not in the tree. *)
Fixpoint pathT (n : NodeId) (t : Tree) : list NodeId :=
  match t with
  | T i ks =>
      if Nat.eqb i n then [i]
      else match first_some (fun c => match pathT n c with [] => None | p => Some p end) ks with
           | Some p => i :: p
           | None => []
           end
  end.

Definition pathF (n : NodeId) (f : list Tree) : list NodeId :=
  match first_some (fun c => match pathT n c with [] => None | p => Some p end) f with
  | Some p => p
  | None => []
  end.

(** Removal of the child subtree rooted at [n], wherever it is. *)
Fixpoint remove_sub (n : NodeId) (t : Tree) : Tree :=
  match t with
  | T i ks => T i (List.filter (fun c => negb (Nat.eqb (root c) n)) (map (remove_sub n) ks))
  end.

Definition removeF (n : NodeId) (f : list Tree) : list Tree :=
  List.filter (fun c => negb (Nat.eqb (root c) n)) (map (remove_sub n) f).

(** Insertion of [c] in a list of siblings, before the sibling [r], or at
    the end when there is no reference sibling. *)
Fixpoint insert_before (ref : option NodeId) (c : Tree) (ks : list Tree) : list Tree :=
  match ks with
  | [] => [c]
  | k :: ks' =>
      match ref with
      | Some r => if Nat.eqb (root k) r then c :: k :: ks' else k :: insert_before ref c ks'
      | None => k :: insert_before ref c ks'
      end
  end.

(** Insertion of the tree [c] as a child of the node [p]. *)
Fixpoint insert_sub (p : NodeId) (ref : option NodeId) (c : Tree) (t : Tree) : Tree :=
  match t with
  | T i ks =>
      if Nat.eqb i p then T i (insert_before ref c ks)
      else T i (map (insert_sub p ref c) ks)
  end.

Definition insertF (p : NodeId) (ref : option NodeId) (c : Tree) (f : list Tree) : list Tree :=
  map (insert_sub p ref c) f.

(* ------------------------------------------------------------------ *)
(** ** Node data *)

Inductive Kind := KVideo | KIframe | KContainer.

Inductive Duration := DNaN | DInfinity | DSeconds (q : Q).

(** [x], [y], [width], [height] of a [DOMRect]; the four edges are derived
    as the DOM defines them. *)
Record DOMRect := mkRect { rx : Q; ry : Q; width : Q; height : Q }.

Definition top (r : DOMRect) : Q := Qmin (ry r) (ry r + height r).
Definition bottom (r : DOMRect) : Q := Qmax (ry r) (ry r + height r).
Definition left (r : DOMRect) : Q := Qmin (rx r) (rx r + width r).
Definition right (r : DOMRect) : Q := Qmax (rx r) (rx r + width r).

(** What [iframe.contentDocument || iframe.contentWindow?.document] gives:
    nothing, a security error, or the document of a same-origin frame. *)
Inductive FrameDoc := NoDocument | CrossOrigin | SameOrigin (doc : NodeId).

Record Media := mkMedia {
  paused : bool;
  ended : bool;
  duration : Duration;
  currentTime : Q
}.

Inductive Listener := LExit | LSelect (k : Kind).

(** An element, with the interface of [HTMLElement]: its [className] is a
    string that can be assigned.  The tag name is in upper case for an HTML
    element of an HTML document and as written otherwise (an XML document
    reports [video]).  A frame keeps its document when it is moved. *)
Record Elem := mkElem {
  tagName : string;                (* upper case for HTML elements *)
  idAttr : string;                 (* [element.id], empty when absent *)
  styleAttr : option string;       (* [getAttribute('style')] *)
  classList : list string;         (* tokens of the class attribute *)
  rect : DOMRect;                  (* [getBoundingClientRect()] *)
  src : string;                    (* [iframe.src] *)
  datasetSrc : option string;      (* [iframe.dataset.src] *)
  contentDocument : FrameDoc;
  media : Media;
  paneFullscreenType : option Kind;     (* [dataset.paneFullscreenType] *)
  paneFullscreenHandler : option Kind;  (* [_paneFullscreenHandler] *)
  listeners : list Listener             (* click listeners of the script *)
}.

Inductive NodeData :=
| DocumentNode
| TextNode (data : string)
| ElementNode (e : Elem).

Definition noMedia : Media := mkMedia true false DNaN 0.
Definition noRect : DOMRect := mkRect 0 0 0 0.

(** A fresh element, as [document.createElement] returns it. *)
Definition newElem (tag : string) : Elem :=
  mkElem tag "" None [] noRect "" None NoDocument noMedia None None [].

Definition set_idAttr (v : string) (e : Elem) : Elem :=
  mkElem (tagName e) v (styleAttr e) (classList e) (rect e) (src e) (datasetSrc e)
         (contentDocument e) (media e) (paneFullscreenType e) (paneFullscreenHandler e) (listeners e).
Definition set_styleAttr (v : option string) (e : Elem) : Elem :=
  mkElem (tagName e) (idAttr e) v (classList e) (rect e) (src e) (datasetSrc e)
         (contentDocument e) (media e) (paneFullscreenType e) (paneFullscreenHandler e) (listeners e).
Definition set_classList (v : list string) (e : Elem) : Elem :=
  mkElem (tagName e) (idAttr e) (styleAttr e) v (rect e) (src e) (datasetSrc e)
         (contentDocument e) (media e) (paneFullscreenType e) (paneFullscreenHandler e) (listeners e).
Definition set_rect (v : DOMRect) (e : Elem) : Elem :=
  mkElem (tagName e) (idAttr e) (styleAttr e) (classList e) v (src e) (datasetSrc e)
         (contentDocument e) (media e) (paneFullscreenType e) (paneFullscreenHandler e) (listeners e).
Definition set_media (v : Media) (e : Elem) : Elem :=
  mkElem (tagName e) (idAttr e) (styleAttr e) (classList e) (rect e) (src e) (datasetSrc e)
         (contentDocument e) v (paneFullscreenType e) (paneFullscreenHandler e) (listeners e).
Definition set_paneFullscreenType (v : option Kind) (e : Elem) : Elem :=
  mkElem (tagName e) (idAttr e) (styleAttr e) (classList e) (rect e) (src e) (datasetSrc e)
         (contentDocument e) (media e) v (paneFullscreenHandler e) (listeners e).
Definition set_paneFullscreenHandler (v : option Kind) (e : Elem) : Elem :=
  mkElem (tagName e) (idAttr e) (styleAttr e) (classList e) (rect e) (src e) (datasetSrc e)
         (contentDocument e) (media e) (paneFullscreenType e) v (listeners e).
Definition set_listeners (v : list Listener) (e : Elem) : Elem :=
  mkElem (tagName e) (idAttr e) (styleAttr e) (classList e) (rect e) (src e) (datasetSrc e)
         (contentDocument e) (media e) (paneFullscreenType e) (paneFullscreenHandler e) v.

(** [classList.add] and [classList.remove] on the token list. *)
Definition has_token (c : string) (l : list string) : bool := existsb (String.eqb c) l.
Definition add_token (c : string) (l : list string) : list string :=
  if has_token c l then l else l ++ [c].
Definition remove_token (c : string) (l : list string) : list string :=
  List.filter (fun x => negb (String.eqb x c)) l.

Definition Kind_eqb (a b : Kind) : bool :=
  match a, b with
  | KVideo, KVideo | KIframe, KIframe | KContainer, KContainer => true
  | _, _ => false
  end.

Definition Listener_eqb (a b : Listener) : bool :=
  match a, b with
  | LExit, LExit => true
  | LSelect j, LSelect k => Kind_eqb j k
  | _, _ => false
  end.

(** Removal of the first listener equal to [x]. *)
Fixpoint remove_listener (x : Listener) (l : list Listener) : list Listener :=
  match l with
  | [] => []
  | y :: l' => if Listener_eqb x y then l' else y :: remove_listener x l'
  end.

(* ------------------------------------------------------------------ *)
(** ** Strings *)

Definition lower_ascii (c : ascii) : ascii :=
  let n := nat_of_ascii c in
  if Nat.leb 65 n && Nat.leb n 90 then ascii_of_nat (n + 32) else c.

Fixpoint toLowerCase (s : string) : string :=
  match s with
  | EmptyString => EmptyString
  | String c s' => String (lower_ascii c) (toLowerCase s')
  end.

(** [includes p s]: the string [p] occurs in [s]. *)
Fixpoint includes (p s : string) : bool :=
  if String.prefix p s then true
  else match s with
       | EmptyString => false
       | String _ s' => includes p s'
       end.

(* ------------------------------------------------------------------ *)
(** ** The page: documents, detached trees, node store, window *)

Record Page := mkPage {
  document : Tree;                      (* the main document *)
  others : list Tree;                   (* frame documents and detached trees *)
  store : gmap NodeId NodeData;
  nextId : NodeId;                      (* the next identifier to allocate *)
  innerWidth : Q;
  innerHeight : Q;
  autoplayAllowed : bool                (* whether [play()] is honoured *)
}.

Definition set_trees (doc : Tree) (oth : list Tree) (p : Page) : Page :=
  mkPage doc oth (store p) (nextId p) (innerWidth p) (innerHeight p) (autoplayAllowed p).
Definition set_store (st : gmap NodeId NodeData) (p : Page) : Page :=
  mkPage (document p) (others p) st (nextId p) (innerWidth p) (innerHeight p) (autoplayAllowed p).
Definition set_nextId (n : NodeId) (p : Page) : Page :=
  mkPage (document p) (others p) (store p) n (innerWidth p) (innerHeight p) (autoplayAllowed p).

Definition forest (p : Page) : list Tree := document p :: others p.

Definition elem (p : Page) (n : NodeId) : option Elem :=
  match store p !! n with
  | Some (ElementNode e) => Some e
  | _ => None
  end.

Definition is_element (p : Page) (n : NodeId) : bool :=
  match elem p n with Some _ => true | None => false end.

(** Update of the data of the element [n]; other nodes are left alone. *)
Definition update_elem (n : NodeId) (f : Elem -> Elem) (p : Page) : Page :=
  match elem p n with
  | Some e => set_store (<[n := ElementNode (f e)]> (store p)) p
  | None => p
  end.

(** *** Tree accessors *)

Definition parentNode (p : Page) (n : NodeId) : option NodeId :=
  option_map root (parentF n (forest p)).

Definition parentElement (p : Page) (n : NodeId) : option NodeId :=
  match parentNode p n with
  | Some q => if is_element p q then Some q else None
  | None => None
  end.

Definition nextSibling (p : Page) (n : NodeId) : option NodeId :=
  match parentF n (forest p) with
  | Some t => next_after n (map root (kids t))
  | None => None
  end.

(** [a.contains(b)]: [b] is [a] or a descendant of [a]. *)
Definition contains (p : Page) (a b : NodeId) : bool :=
  match subtreeF a (forest p) with
  | Some t => existsb (Nat.eqb b) (ids t)
  | None => false
  end.

(** Strict descendants of [a], in tree order. *)
Definition descendants (p : Page) (a : NodeId) : list NodeId :=
  match subtreeF a (forest p) with
  | Some t => idsF (kids t)
  | None => []
  end.

(** Nodes of the main document, in tree order. *)
Definition documentNodes (p : Page) : list NodeId := ids (document p).

Definition inDocument (p : Page) (n : NodeId) : bool :=
  existsb (Nat.eqb n) (documentNodes p).

(** *** Selectors *)

Inductive Selector :=
| ByTag (tag : string)             (* [video] *)
| ById (v : string)                (* [#player] *)
| ByClass (v : string)             (* [.video-player] *)
| ClassContains (v : string)       (* [[class*="video-player"]] *)
| IdContains (v : string).         (* [[id*="video-player"]] *)

Definition matches1 (e : Elem) (s : Selector) : bool :=
  match s with
  | ByTag tag => String.eqb (toLowerCase (tagName e)) tag
  | ById v => String.eqb (idAttr e) v
  | ByClass v => has_token v (classList e)
  | ClassContains v => existsb (includes v) (classList e)
  | IdContains v => includes v (idAttr e)
  end.

(** [element.matches(s1, s2, ...)] for a selector list. *)
Definition matches (e : Elem) (sels : list Selector) : bool :=
  existsb (matches1 e) sels.

Definition node_matches (p : Page) (sels : list Selector) (n : NodeId) : bool :=
  match elem p n with
  | Some e => matches e sels
  | None => false
  end.

(** [root.querySelectorAll(sels)]: the matching descendants of the root of
    [t], in tree order. *)
Definition querySelectorAllT (p : Page) (sels : list Selector) (t : Tree) : list NodeId :=
  List.filter (node_matches p sels) (idsF (kids t)).

Definition querySelectorAll (p : Page) (sels : list Selector) : list NodeId :=
  querySelectorAllT p sels (document p).

(** [element.querySelector(sels)]. *)
Definition querySelector (p : Page) (a : NodeId) (sels : list Selector) : option NodeId :=
  List.find (node_matches p sels) (descendants p a).

(** [element.closest(sels)]: the nearest inclusive ancestor that matches. *)
Definition closest (p : Page) (n : NodeId) (sels : list Selector) : option NodeId :=
  List.find (node_matches p sels) (rev (pathF n (forest p))).

Definition getElementById (p : Page) (v : string) : option NodeId :=
  List.find (node_matches p [ById v]) (idsF (kids (document p))).

(** [document.documentElement] and [document.body]. *)
Definition documentElement (p : Page) : option NodeId :=
  List.find (is_element p) (map root (kids (document p))).

Definition is_body_tag (p : Page) (n : NodeId) : bool :=
  match elem p n with
  | Some e => String.eqb (tagName e) "BODY" || String.eqb (tagName e) "FRAMESET"
  | None => false
  end.

Definition body (p : Page) : option NodeId :=
  match documentElement p with
  | Some h =>
      match elem p h, subtree h (document p) with
      | Some e, Some t =>
          if String.eqb (tagName e) "HTML"
          then List.find (is_body_tag p) (map root (kids t))
          else None
      | _, _ => None
      end
  | None => None
  end.

(** *** Mutation *)

Inductive Exception := TypeError | HierarchyRequestError | NotFoundError.

(** [parent.insertBefore(node, child)] for an element [parent]; [child] is
    [None] for [null].  The checks are those of the DOM's pre-insertion
    validity; the script only ever inserts under elements, and a parent of
    another kind is refused. *)
Definition insertBefore (parent node : NodeId) (child : option NodeId) (p : Page)
  : Exception + Page :=
  match store p !! node, subtreeF node (forest p), subtreeF parent (forest p) with
  | Some d, Some sub, Some _ =>
      if negb (is_element p parent) then inl HierarchyRequestError
      else if contains p node parent then inl HierarchyRequestError
      else if match child with
              | Some r => match parentNode p r with
                          | Some q => negb (Nat.eqb q parent)
                          | None => true
                          end
              | None => false
              end then inl NotFoundError
      else match d with
           | DocumentNode => inl HierarchyRequestError
           | _ =>
               let ref := match child with
                          | Some r => if Nat.eqb r node then nextSibling p node else child
                          | None => None
                          end in
               inr (set_trees (insert_sub parent ref sub (remove_sub node (document p)))
                              (insertF parent ref sub (removeF node (others p))) p)
           end
  | _, _, _ => inl TypeError   (* not nodes of the page *)
  end.

Definition appendChild (parent node : NodeId) (p : Page) : Exception + Page :=
  insertBefore parent node None p.

(** [node.remove()]: the subtree of [node] becomes a detached tree. *)
Definition remove (node : NodeId) (p : Page) : Page :=
  match parentNode p node, subtreeF node (forest p) with
  | Some _, Some sub =>
      set_trees (remove_sub node (document p)) (removeF node (others p) ++ [sub]) p
  | _, _ => p
  end.

(** Storing the data of a list of nodes. *)
Definition insertAll (l : list (NodeId * NodeData)) (st : gmap NodeId NodeData)
  : gmap NodeId NodeData :=
  fold_right (fun x acc => <[fst x := snd x]> acc) st l.

(** A detached tree of fresh nodes, as a run of [document.createElement],
    [innerHTML], [textContent] and [appendChild] on the new nodes builds
    it.  The tree takes [size] fresh identifiers: [shape] is given the
    first of them, and [data k] is the data of the node that gets the
    [k]-th. *)
Definition createTree (shape : NodeId -> Tree) (data : nat -> NodeData)
           (size : nat) (p : Page) : NodeId * Page :=
  let n := nextId p in
  (n, mkPage (document p) (others p ++ [shape n])
             (insertAll (map (fun k => (k + n, data k)) (seq 0 size)) (store p))
             (size + n)
             (innerWidth p) (innerHeight p) (autoplayAllowed p)).

(** [element.play().catch(() => {})]: playback starts when the platform
    allows it; a rejection is discarded. *)
Definition play (n : NodeId) (p : Page) : Page :=
  if autoplayAllowed p
  then update_elem n (fun e => set_media (mkMedia false (ended (media e)) (duration (media e))
                                                  (currentTime (media e))) e) p
  else p.

(* ------------------------------------------------------------------ *)
(** ** Constants of the script *)

Definition OVERLAY_ID : string := "pane-fullscreen-overlay".
Definition CONTAINER_ID : string := "pane-fullscreen-container".

(** The patterns are literal, case-insensitive regular expressions: each
    one is given by the lower-case text it looks for. *)
Definition VIDEO_IFRAME_PATTERNS : list string :=
  [ "player."; "embed"; "video"; "stream"; "megaplay"; "aniwave";
    "youtube.com/embed"; "youtube-nocookie.com/embed"; "player.vimeo.com";
    "dailymotion.com/embed"; "twitch.tv/embed"; "facebook.com/plugins/video";
    "streamable.com"; "vidyard"; "wistia"; "jwplatform"; "brightcove";
    "kaltura"; "ooyala"; "vidcloud"; "mp4upload"; "gogoplay"; "streamsb";
    "fembed"; "mixdrop" ].

Definition VIDEO_CONTAINER_SELECTORS : list Selector :=
  [ ById "video-player"; ById "player-container"; ById "player";
    ByClass "video-player"; ByClass "player-container"; ByClass "video-container";
    ByClass "player-wrapper"; ByClass "video-wrapper";
    ClassContains "video-player"; ClassContains "player-container";
    IdContains "video-player"; IdContains "player-container" ].

(* ------------------------------------------------------------------ *)
(** ** Candidate scanner *)

Definition isVideoIframe (iframe : Elem) : bool :=
  let s := if String.eqb (src iframe) "" then
             match datasetSrc iframe with Some d => d | None => "" end
           else src iframe in
  if String.eqb s "" then false
  else existsb (fun pattern => includes pattern (toLowerCase s)) VIDEO_IFRAME_PATTERNS.

(** The videos of the document of a frame, when it can be reached. *)
Definition frameVideos (p : Page) (iframe : NodeId) : list NodeId :=
  match elem p iframe with
  | Some e =>
      match contentDocument e with
      | SameOrigin doc =>
          match List.find (fun t => Nat.eqb (root t) doc) (others p) with
          | Some t => querySelectorAllT p [ByTag "video"] t
          | None => []
          end
      | _ => []
      end
  | None => []
  end.

Definition findAllVideos (p : Page) : list NodeId :=
  querySelectorAll p [ByTag "video"]
  ++ flat_map (frameVideos p) (querySelectorAll p [ByTag "iframe"]).

Definition Qgeb (a b : Q) : bool := Qle_bool b a.
Definition Qgtb (a b : Q) : bool := negb (Qle_bool a b).
Definition Qltb (a b : Q) : bool := negb (Qle_bool b a).

Definition isPlayerFrame (p : Page) (iframe : NodeId) : bool :=
  match elem p iframe with
  | Some e =>
      if isVideoIframe e then true
      else
        let r := rect e in
        if Qgeb (width r) 200 && Qgeb (height r) 150 then
          match closest p iframe VIDEO_CONTAINER_SELECTORS with
          | Some _ => true
          | None =>
              let aspectRatio := (width r / height r)%Q in
              Qgeb aspectRatio (12 # 10) && Qle_bool aspectRatio (25 # 10)
          end
        else false
  | None => false
  end.

Definition findVideoIframes (p : Page) : list NodeId :=
  List.filter (isPlayerFrame p) (querySelectorAll p [ByTag "iframe"]).

Definition hasMedia (p : Page) (container : NodeId) : bool :=
  match querySelector p container [ByTag "iframe"; ByTag "video"] with
  | Some _ => true
  | None => false
  end.

Definition reasonableSize (p : Page) (n : NodeId) : bool :=
  match elem p n with
  | Some e => Qgeb (width (rect e)) 200 && Qgeb (height (rect e)) 150
  | None => false
  end.

Definition findVideoContainers (p : Page) : list NodeId :=
  flat_map (fun selector =>
              List.filter (fun container => hasMedia p container || reasonableSize p container)
                          (querySelectorAll p [selector]))
           VIDEO_CONTAINER_SELECTORS.

(* ------------------------------------------------------------------ *)
(** ** Scorer *)

Definition isVisible (p : Page) (r : DOMRect) : bool :=
  Qgtb (width r) 0 && Qgtb (height r) 0 &&
  Qltb (top r) (innerHeight p) && Qgtb (bottom r) 0 &&
  Qltb (left r) (innerWidth p) && Qgtb (right r) 0.

Definition durationExceeds (d : Duration) (q : Q) : bool :=
  match d with
  | DNaN => false
  | DInfinity => true
  | DSeconds x => Qgtb x q
  end.

Definition scoreOf (p : Page) (e : Elem) : Q :=
  let r := rect e in
  let area := (width r * height r)%Q in
  if negb (isVisible p r) then 0
  else
    let score := area in
    let score :=
      if String.eqb (tagName e) "VIDEO" then
        let score := if negb (paused (media e)) && negb (ended (media e))
                     then (score * 2)%Q else score in
        if durationExceeds (duration (media e)) 60 then (score * (3 # 2))%Q else score
      else score in
    if String.eqb (tagName e) "IFRAME" then
      if isVideoIframe e then (score * (3 # 2))%Q else score
    else score.

Definition getElementScore (p : Page) (element : NodeId) : Q :=
  match elem p element with
  | Some e => scoreOf p e
  | None => 0
  end.

(* ------------------------------------------------------------------ *)
(** ** Selector *)

Section Best.
Variable score : NodeId -> Q.

  (** The loop shared by [findBestVideo], [findBestIframe] and
      [findBestContainer]: the accumulator is the pair of the best element
      and the best score so far. *)
Definition bestStep (acc : option NodeId * Q) (x : NodeId) : option NodeId * Q :=
    if Qgtb (score x) (snd acc) then (Some x, score x) else acc.

Definition findBest (l : list NodeId) : option NodeId :=
    fst (fold_left bestStep l (None, 0%Q)).
End Best.

Definition findBestVideo (p : Page) : option NodeId :=
  findBest (getElementScore p) (findAllVideos p).
Definition findBestIframe (p : Page) : option NodeId :=
  findBest (getElementScore p) (findVideoIframes p).
Definition findBestContainer (p : Page) : option NodeId :=
  findBest (getElementScore p) (findVideoContainers p).

Definition findBestPlayableElement (p : Page) : option (NodeId * Kind) :=
  match findBestVideo p with
  | Some video => Some (video, KVideo)
  | None =>
      match findBestIframe p with
      | Some iframe => Some (iframe, KIframe)
      | None =>
          match findBestContainer p with
          | Some container => Some (container, KContainer)
          | None => None
          end
      end
  end.

Definition hasFoundIframe (p : Page) (elements : list (NodeId * Kind)) (c : NodeId) : bool :=
  existsb (fun e => Kind_eqb (snd e) KIframe && contains p c (fst e)) elements.

Definition getAllSelectableElements (p : Page) : list (NodeId * Kind) :=
  let elements := map (fun v => (v, KVideo)) (findAllVideos p) in
  let elements := elements ++ map (fun i => (i, KIframe)) (findVideoIframes p) in
  fold_left (fun elements c =>
               if hasFoundIframe p elements c then elements
               else elements ++ [(c, KContainer)])
            (findVideoContainers p) elements.

(* ------------------------------------------------------------------ *)
(** ** State of the script *)

(** The object built by [saveElementState]. *)
Record ElementState := mkElementState {
  s_element : NodeId;
  s_parent : option NodeId;
  s_nextSibling : option NodeId;
  s_style : string;
  s_className : list string;
  s_type : string;
  s_wasPlaying : option bool;      (* set for videos only *)
  s_currentTime : option Q         (* set for videos only *)
}.

(** Deferred callbacks: the hint's fade-out timer, the animation frame that
    activates the overlay, the time-out of the select mode. *)
Inductive Callback :=
| CbHintFade (hint : NodeId)
| CbActivate
| CbPickTimeout.

Record State := mkState {
  page : Page;
  isActive : bool;
  currentElement : option NodeId;
  overlay : option NodeId;
  elementContainer : option NodeId;
  originalElementState : option ElementState;
  selectMode : bool;
  timers : list Callback;          (* callbacks not run yet *)
  cancelSelect : nat               (* armed one-shot [keydown] listeners *)
}.

Definition set_page (p : Page) (s : State) : State :=
  mkState p (isActive s) (currentElement s) (overlay s) (elementContainer s)
          (originalElementState s) (selectMode s) (timers s) (cancelSelect s).
Definition set_isActive (b : bool) (s : State) : State :=
  mkState (page s) b (currentElement s) (overlay s) (elementContainer s)
          (originalElementState s) (selectMode s) (timers s) (cancelSelect s).
Definition set_currentElement (v : option NodeId) (s : State) : State :=
  mkState (page s) (isActive s) v (overlay s) (elementContainer s)
          (originalElementState s) (selectMode s) (timers s) (cancelSelect s).
Definition set_overlay (v : option NodeId) (s : State) : State :=
  mkState (page s) (isActive s) (currentElement s) v (elementContainer s)
          (originalElementState s) (selectMode s) (timers s) (cancelSelect s).
Definition set_elementContainer (v : option NodeId) (s : State) : State :=
  mkState (page s) (isActive s) (currentElement s) (overlay s) v
          (originalElementState s) (selectMode s) (timers s) (cancelSelect s).
Definition set_originalElementState (v : option ElementState) (s : State) : State :=
  mkState (page s) (isActive s) (currentElement s) (overlay s) (elementContainer s)
          v (selectMode s) (timers s) (cancelSelect s).
Definition set_selectMode (b : bool) (s : State) : State :=
  mkState (page s) (isActive s) (currentElement s) (overlay s) (elementContainer s)
          (originalElementState s) b (timers s) (cancelSelect s).
Definition set_timers (v : list Callback) (s : State) : State :=
  mkState (page s) (isActive s) (currentElement s) (overlay s) (elementContainer s)
          (originalElementState s) (selectMode s) v (cancelSelect s).
Definition set_cancelSelect (v : nat) (s : State) : State :=
  mkState (page s) (isActive s) (currentElement s) (overlay s) (elementContainer s)
          (originalElementState s) (selectMode s) (timers s) v.

(** The state in which the script starts on a page. *)
Definition initial (p : Page) : State :=
  mkState p false None None None None false [] 0.

(** *** Computations that may raise *)

Inductive Outcome (A : Type) :=
| Ok (a : A) (s : State)
| Throw (e : Exception) (s : State).
Arguments Ok {A} a s.
Arguments Throw {A} e s.

Definition M (A : Type) : Type := State -> Outcome A.

Definition ret {A} (a : A) : M A := fun s => Ok a s.
Definition bind {A B} (m : M A) (k : A -> M B) : M B :=
  fun s => match m s with
           | Ok a s' => k a s'
           | Throw e s' => Throw e s'
           end.
Definition throw {A} (e : Exception) : M A := fun s => Throw e s.
Definition gets {A} (f : State -> A) : M A := fun s => Ok (f s) s.
Definition modify (f : State -> State) : M unit := fun s => Ok tt (f s).
Definition onPage (f : Page -> Page) : M unit :=
  modify (fun s => set_page (f (page s)) s).
Definition tryPage (f : Page -> Exception + Page) : M unit :=
  fun s => match f (page s) with
           | inr p => Ok tt (set_page p s)
           | inl e => Throw e s
           end.
Definition withPage {A} (f : Page -> A * Page) : M A :=
  fun s => let '(a, p) := f (page s) in Ok a (set_page p s).

Declare Scope script_scope.
Delimit Scope script_scope with script.
Notation "'let*' x ':=' m 'in' k" := (bind m (fun x => k))
  (at level 10, x name, m at level 100, k at level 200) : script_scope.
Notation "m ';;' k" := (bind m (fun _ => k))
  (at level 100, k at level 200, right associativity) : script_scope.
Open Scope script_scope.

Fixpoint forEach {A} (l : list A) (f : A -> M unit) : M unit :=
  match l with
  | [] => ret tt
  | a :: l' => f a ;; forEach l' f
  end.

Definition stateOf {A} (o : Outcome A) : State :=
  match o with Ok _ s => s | Throw _ s => s end.

(* ------------------------------------------------------------------ *)
(** ** State snapshot and restore *)

Definition saveElementState (element : NodeId) : M ElementState :=
  fun s =>
    let p := page s in
    match elem p element with
    | None => Throw TypeError s
    | Some e =>
        let video := String.eqb (tagName e) "VIDEO" in
        Ok (mkElementState
              element
              (parentElement p element)
              (nextSibling p element)
              (match styleAttr e with Some v => v | None => "" end)
              (classList e)
              (toLowerCase (tagName e))
              (if video then Some (negb (paused (media e))) else None)
              (if video then Some (currentTime (media e)) else None))
           s
    end.


Definition restoreElementState (element : option NodeId) (state : option ElementState) : M unit :=
  match state, element with
  | Some state, Some element =>
      (* Restore original styles *)
      onPage (update_elem element (set_styleAttr (Some (s_style state)))) ;;
      onPage (update_elem element (set_classList (s_className state))) ;;
      (* Remove our custom classes *)
      onPage (update_elem element
                (fun e => set_classList (remove_token "pane-fullscreen-video" (classList e)) e)) ;;
      onPage (update_elem element
                (fun e => set_classList (remove_token "pane-fullscreen-iframe" (classList e)) e)) ;;
      onPage (update_elem element
                (fun e => set_classList (remove_token "pane-fullscreen-container" (classList e)) e)) ;;
      (* Move element back to original position *)
      match s_parent state with
      | Some parent =>
          match s_nextSibling state with
          | Some next => tryPage (insertBefore parent element (Some next))
          | None => tryPage (appendChild parent element)
          end
      | None => ret tt
      end
  | _, _ => ret tt
  end.

(* ------------------------------------------------------------------ *)
(** ** Overlay session *)

Definition removeOverlay : M unit :=
  onPage (fun p => match getElementById p OVERLAY_ID with
                   | Some existingOverlay => remove existingOverlay p
                   | None => p
                   end) ;;
  modify (set_overlay None) ;;
  modify (set_elementContainer None).

Definition overlayElem : Elem :=
  set_classList ["pane-fullscreen-overlay"] (set_idAttr OVERLAY_ID (newElem "DIV")).
Definition containerElem : Elem :=
  set_classList ["pane-fullscreen-video-container"] (set_idAttr CONTAINER_ID (newElem "DIV")).
Definition closeBtnElem : Elem :=
  set_listeners [LExit] (set_classList ["pane-fullscreen-close-btn"] (newElem "BUTTON")).
Definition hintElem : Elem :=
  set_classList ["pane-fullscreen-hint"] (newElem "DIV").

(** The overlay before it is put in the document: the element container,
    the close button with the markup assigned to its [innerHTML] (an [svg]
    element with two [line] children and the white space around them), and
    the hint with its text. *)
Definition overlayTree (o : NodeId) : Tree :=
  T o [ T (1 + o) [];
        T (2 + o) [ T (3 + o) [];
                    T (4 + o) [ T (5 + o) []; T (6 + o) []; T (7 + o) [];
                                T (8 + o) []; T (9 + o) [] ];
                    T (10 + o) [] ];
        T (11 + o) [ T (12 + o) [] ] ].

Definition overlayData (k : nat) : NodeData :=
  match k with
  | 0 => ElementNode overlayElem
  | 1 => ElementNode containerElem
  | 2 => ElementNode closeBtnElem
  | 4 => ElementNode (newElem "svg")
  | 6 | 8 => ElementNode (newElem "line")
  | 11 => ElementNode hintElem
  | 12 => TextNode "Press ESC to exit"
  | _ => TextNode " "
  end.

Definition createOverlay : M (NodeId * NodeId) :=
  (* Remove existing overlay if any *)
  removeOverlay ;;
  (* Create overlay container, element container, close button, hint text *)
  let* o := withPage (createTree overlayTree overlayData 13) in
  modify (set_overlay (Some o)) ;;
  modify (set_elementContainer (Some (1 + o))) ;;
  (* Show hint briefly then fade out *)
  modify (fun s => set_timers (timers s ++ [CbHintFade (11 + o)]) s) ;;
  let* b := gets (fun s => body (page s)) in
  match b with
  | Some b => tryPage (appendChild b o) ;; ret (o, 1 + o)
  | None => throw TypeError
  end.

Definition markerClass (type : Kind) : string :=
  match type with
  | KVideo => "pane-fullscreen-video"
  | KIframe => "pane-fullscreen-iframe"
  | KContainer => "pane-fullscreen-container"
  end.

Definition exitPaneFullscreen : M unit :=
  let* active := gets isActive in
  if negb active then ret tt
  else
    let* cur := gets currentElement in
    let* st := gets originalElementState in
    (* Restore element *)
    match cur, st with
    | Some element, Some state =>
        restoreElementState cur st ;;
        (* For videos, resume playback if it was playing *)
        if String.eqb (s_type state) "video" &&
           match s_wasPlaying state with Some true => true | _ => false end
        then onPage (play element)
        else ret tt
    | _, _ => ret tt
    end ;;
    (* Remove overlay *)
    removeOverlay ;;
    (* Reset state *)
    modify (set_isActive false) ;;
    modify (set_currentElement None) ;;
    modify (set_originalElementState None).

Definition enterPaneFullscreen (element : option NodeId) (type : Kind) : M bool :=
  match element with
  | None => ret false
  | Some element =>
      let* active := gets isActive in
      (if active then exitPaneFullscreen else ret tt) ;;
      (* Save original state *)
      let* state := saveElementState element in
      modify (set_originalElementState (Some state)) ;;
      modify (set_currentElement (Some element)) ;;
      (* Create overlay *)
      let* _ := createOverlay in
      (* Add appropriate class based on type *)
      onPage (update_elem element
                (fun e => set_classList (add_token (markerClass type) (classList e)) e)) ;;
      (* Move element to overlay container *)
      let* container := gets elementContainer in
      match container with
      | Some container => tryPage (appendChild container element)
      | None => throw TypeError
      end ;;
      (* For videos, ensure it keeps playing *)
      (if Kind_eqb type KVideo &&
          match s_wasPlaying state with Some true => true | _ => false end
       then onPage (play element)
       else ret tt) ;;
      modify (set_isActive true) ;;
      (* Focus overlay for keyboard events: the focus is not part of the state *)
      (* Trigger animation *)
      modify (fun s => set_timers (timers s ++ [CbActivate]) s) ;;
      ret true
  end.

(* ------------------------------------------------------------------ *)
(** ** Interactive picker *)

Definition bodyClass (f : list string -> list string) : M unit :=
  let* b := gets (fun s => body (page s)) in
  match b with
  | Some b => onPage (update_elem b (fun e => set_classList (f (classList e)) e))
  | None => throw TypeError
  end.

Definition offer (c : NodeId * Kind) : M unit :=
  let '(element, type) := c in
  onPage (update_elem element
            (fun e => set_classList (add_token "pane-fullscreen-selectable" (classList e)) e)) ;;
  onPage (update_elem element (set_paneFullscreenType (Some type))) ;;
  (* Add click handler *)
  onPage (update_elem element (fun e => set_listeners (listeners e ++ [LSelect type]) e)) ;;
  onPage (update_elem element (set_paneFullscreenHandler (Some type))).

(** The result is [None] where the script returns [undefined]. *)
Definition enableSelectMode : M (option nat) :=
  let* on := gets selectMode in
  if on then ret None
  else
    modify (set_selectMode true) ;;
    (* Add selection styling to body *)
    bodyClass (add_token "pane-fullscreen-select-mode") ;;
    (* Find all selectable elements *)
    let* selectables := gets (fun s => getAllSelectableElements (page s)) in
    forEach selectables offer ;;
    (* Cancel on ESC *)
    modify (fun s => set_cancelSelect (S (cancelSelect s)) s) ;;
    (* Auto-cancel after 15 seconds *)
    modify (fun s => set_timers (timers s ++ [CbPickTimeout]) s) ;;
    ret (Some (List.length selectables)).

Definition withdraw (element : NodeId) : M unit :=
  onPage (update_elem element
            (fun e => set_classList (remove_token "pane-fullscreen-selectable" (classList e)) e)) ;;
  onPage (update_elem element (set_paneFullscreenType None)) ;;
  onPage (update_elem element
            (fun e => match paneFullscreenHandler e with
                      | Some k => set_paneFullscreenHandler None
                                    (set_listeners (remove_listener (LSelect k) (listeners e)) e)
                      | None => e
                      end)).

Definition disableSelectMode : M unit :=
  let* on := gets selectMode in
  if negb on then ret tt
  else
    modify (set_selectMode false) ;;
    bodyClass (remove_token "pane-fullscreen-select-mode") ;;
    (* Remove selection styling and handlers from all elements *)
    let* marked := gets (fun s => querySelectorAll (page s) [ByClass "pane-fullscreen-selectable"]) in
    forEach marked withdraw.

Definition handleElementSelect (element : NodeId) (type : Kind) : M unit :=
  disableSelectMode ;;
  let* _ := enterPaneFullscreen (Some element) type in
  ret tt.

Definition handleKeydown (key : string) : M unit :=
  let* active := gets isActive in
  if String.eqb key "Escape" && active then exitPaneFullscreen else ret tt.

(* ------------------------------------------------------------------ *)
(** ** Messages from the popup *)

Inductive Action := autoFullscreen | selectVideo | exitFullscreen | getStatus | unknownAction.

Inductive Response :=
| Reply (success : bool) (message : string)
| Status (active : bool) (hasVideos : bool) (count : nat).

Definition kindLabel (type : Kind) : string :=
  match type with
  | KVideo => "Video"
  | KIframe => "Player"
  | KContainer => "Container"
  end.

(** Text of a count inside a template literal. *)
Definition showCount (count : option nat) : string :=
  match count with
  | Some n => NilZero.string_of_uint (Nat.to_uint n)
  | None => "undefined"
  end.

Definition onMessage (action : Action) : M Response :=
  match action with
  | autoFullscreen =>
      let* result := gets (fun s => findBestPlayableElement (page s)) in
      match result with
      | Some (element, type) =>
          let* success := enterPaneFullscreen (Some element) type in
          ret (Reply success
                 (if success then (kindLabel type ++ " expanded to pane fullscreen")%string
                  else "Failed to expand element"))
      | None => ret (Reply false "No video or player found on this page")
      end
  | selectVideo =>
      let* count := enableSelectMode in
      match count with
      | Some O =>
          disableSelectMode ;;
          ret (Reply false "No videos or players found on this page")
      | _ =>
          ret (Reply true ("Found " ++ showCount count ++ " element(s). Click one to select.")%string)
      end
  | exitFullscreen =>
      exitPaneFullscreen ;;
      ret (Reply true "Exited pane fullscreen")
  | getStatus =>
      let* selectables := gets (fun s => getAllSelectableElements (page s)) in
      let* active := gets isActive in
      ret (Status active (Nat.ltb 0 (List.length selectables)) (List.length selectables))
  | unknownAction => ret (Reply false "Unknown action")
  end.

(* ------------------------------------------------------------------ *)
(** ** Events and reachable states *)

Definition Callback_eqb (a b : Callback) : bool :=
  match a, b with
  | CbHintFade h, CbHintFade k => Nat.eqb h k
  | CbActivate, CbActivate => true
  | CbPickTimeout, CbPickTimeout => true
  | _, _ => false
  end.

Fixpoint remove_callback (x : Callback) (l : list Callback) : list Callback :=
  match l with
  | [] => []
  | y :: l' => if Callback_eqb x y then l' else y :: remove_callback x l'
  end.

Definition runCallback (cb : Callback) : M unit :=
  match cb with
  | CbHintFade hint =>
      onPage (update_elem hint (fun e => set_classList (add_token "fade-out" (classList e)) e))
  | CbActivate =>
      let* o := gets overlay in
      match o with
      | Some o => onPage (update_elem o (fun e => set_classList (add_token "active" (classList e)) e))
      | None => throw TypeError
      end
  | CbPickTimeout =>
      let* on := gets selectMode in
      if on then disableSelectMode else ret tt
  end.

(** What the environment can make happen: a message of the popup, a key
    press, a click that reaches one of the script's listeners, a deferred
    callback coming due, and the page's layout or playback changing.  Every
    listener that is installed can be reached by a click: the listeners of
    the page that could stop an event on its way are not modelled. *)
Inductive Event :=
| EvMessage (action : Action)
| EvKeydown (key : string)
| EvClick (target : NodeId) (l : Listener)
| EvCallback (cb : Callback)
| EvLayout (n : NodeId) (r : DOMRect) (m : Media)
| EvResize (w h : Q).

Definition enabled (ev : Event) (s : State) : Prop :=
  match ev with
  | EvClick target l =>
      In target (idsF (forest (page s))) /\
      match elem (page s) target with
      | Some e => In l (listeners e)
      | None => False
      end
  | EvCallback cb => In cb (timers s)
  | _ => True
  end.

Definition dispatch (ev : Event) : M unit :=
  match ev with
  | EvMessage action => let* _ := onMessage action in ret tt
  | EvKeydown key =>
      let* active := gets isActive in
      handleKeydown key ;;
      (* the capturing handler stops the event when it exits a session *)
      if String.eqb key "Escape" && active then ret tt
      else
        let* armed := gets cancelSelect in
        modify (set_cancelSelect 0) ;;
        if Nat.ltb 0 armed && String.eqb key "Escape" then disableSelectMode else ret tt
  | EvClick target LExit => exitPaneFullscreen
  | EvClick target (LSelect type) =>
      (* a one-shot listener is removed before it runs *)
      onPage (update_elem target
                (fun e => set_listeners (remove_listener (LSelect type) (listeners e)) e)) ;;
      handleElementSelect target type
  | EvCallback cb =>
      modify (fun s => set_timers (remove_callback cb (timers s)) s) ;;
      runCallback cb
  | EvLayout n r m => onPage (update_elem n (fun e => set_media m (set_rect r e)))
  | EvResize w h =>
      onPage (fun p => mkPage (document p) (others p) (store p) (nextId p) w h (autoplayAllowed p))
  end.

Definition step (s s' : State) : Prop :=
  exists ev, enabled ev s /\ s' = stateOf (dispatch ev s).

Definition isOverlay (p : Page) (n : NodeId) : bool :=
  node_matches p [ById OVERLAY_ID] n.

(** The overlay elements present in the document. *)
Definition overlaysIn (p : Page) : list NodeId :=
  List.filter (isOverlay p) (documentNodes p).

(** A page as the script finds it: identifiers are unique and allocated
    below [nextId], every node has data, and nothing of the script is there
    yet (no element carries the overlay's id or one of its listeners). *)
Definition untouched (d : NodeData) : bool :=
  match d with
  | ElementNode e =>
      negb (String.eqb (idAttr e) OVERLAY_ID) &&
      match listeners e with [] => true | _ => false end
  | _ => true
  end.

Record wfPage (p : Page) : Prop := mkWf {
  wf_nodup : NoDup (idsF (forest p));
  wf_bound : forall i, In i (idsF (forest p)) -> i < nextId p;
  wf_data : forall i, In i (idsF (forest p)) -> store p !! i <> None;
  wf_doc : store p !! root (document p) = Some DocumentNode
}.

Definition cleanPage (p : Page) : Prop :=
  wfPage p /\
  forall i d, In i (idsF (forest p)) -> store p !! i = Some d -> untouched d = true.

(** Both conditions are decidable on a given page. *)
Fixpoint nodupb (l : list NodeId) : bool :=
  match l with
  | [] => true
  | a :: l' => negb (existsb (Nat.eqb a) l') && nodupb l'
  end.

Definition wfPageb (p : Page) : bool :=
  nodupb (idsF (forest p)) &&
  forallb (fun i => Nat.ltb i (nextId p) &&
                    match store p !! i with Some _ => true | None => false end)
          (idsF (forest p)) &&
  match store p !! root (document p) with Some DocumentNode => true | _ => false end.

Definition cleanPageb (p : Page) : bool :=
  wfPageb p &&
  forallb (fun i => match store p !! i with Some d => untouched d | None => true end)
          (idsF (forest p)).

Inductive reachable (p0 : Page) : State -> Prop :=
| reach_init : cleanPage p0 -> reachable p0 (initial p0)
| reach_step s s' : reachable p0 s -> step s s' -> reachable p0 s'.

(* ------------------------------------------------------------------ *)
(** ** Notions used to state the properties *)



(** [x] is the first element of [l] that has the highest score, and that
    score is positive. *)
Definition firstBest (score : NodeId -> Q) (l : list NodeId) (x : NodeId) : Prop :=
  exists l1 l2, l = l1 ++ x :: l2 /\
    (0 < score x)%Q /\
    (forall y, In y l1 -> (score y < score x)%Q) /\
    (forall y, In y l2 -> (score y <= score x)%Q).

(** What a call returned, if it did. *)
Definition returned {A} (o : Outcome A) : option A :=
  match o with Ok a _ => Some a | Throw _ _ => None end.

(** All the subtrees of a tree, in tree order. *)
Fixpoint subtrees (t : Tree) : list Tree :=
  match t with T i ks => t :: flat_map subtrees ks end.

Definition subtreesF (f : list Tree) : list Tree := flat_map subtrees f.

(** The class list that [restoreElementState] leaves: the recorded one
    without the marker classes of the script. *)
Definition stripMarkers (l : list string) : list string :=
  remove_token "pane-fullscreen-container"
    (remove_token "pane-fullscreen-iframe" (remove_token "pane-fullscreen-video" l)).

(** The page after the style and class assignments of
    [restoreElementState]. *)
Definition restoreAttrs (element : NodeId) (state : ElementState) (p : Page) : Page :=
  update_elem element
              (fun e => set_classList (remove_token "pane-fullscreen-container" (classList e)) e)
    (update_elem element
                 (fun e => set_classList (remove_token "pane-fullscreen-iframe" (classList e)) e)
       (update_elem element
                    (fun e => set_classList (remove_token "pane-fullscreen-video" (classList e)) e)
          (update_elem element (set_classList (s_className state))
             (update_elem element (set_styleAttr (Some (s_style state))) p)))).

(** The snapshot that [saveElementState] builds for the element [e]. *)
Definition snapshot (p : Page) (element : NodeId) (e : Elem) : ElementState :=
  mkElementState element (parentElement p element) (nextSibling p element)
                 (match styleAttr e with Some v => v | None => "" end)
                 (classList e) (toLowerCase (tagName e))
                 (if String.eqb (tagName e) "VIDEO" then Some (negb (paused (media e))) else None)
                 (if String.eqb (tagName e) "VIDEO" then Some (currentTime (media e)) else None).

(* ------------------------------------------------------------------ *)
(** ** Invariants of the reachable states *)

Definition overlayFree (p : Page) (l : list NodeId) : Prop :=
  forall i, In i l -> isOverlay p i = false.

(** An overlay element is as the script made it: the script has only added
    the class of the animation to it. *)
Definition overlayShape (e : Elem) : Prop :=
  tagName e = "DIV" /\
  (classList e = ["pane-fullscreen-overlay"] \/
   classList e = ["pane-fullscreen-overlay"; "active"]) /\
  listeners e = [].

Record PageInv (p : Page) : Prop := mkPageInv {
  pi_wf : wfPage p;
  (* at most one overlay element in the document *)
  pi_one : forall i j, In i (ids (document p)) -> In j (ids (document p)) ->
                       isOverlay p i = true -> isOverlay p j = true -> i = j;
  (* in the other trees an overlay element can only be a root *)
  pi_others : forall t, In t (others p) -> overlayFree p (idsF (kids t));
  pi_shape : forall i e, In i (idsF (forest p)) -> elem p i = Some e ->
                         idAttr e = OVERLAY_ID -> overlayShape e
}.

(** While a session is active the relocated element is inside the overlay
    element of the document, and the recorded parent is outside it. *)
Definition SessionInv (s : State) : Prop :=
  exists c st o so,
    currentElement s = Some c /\
    originalElementState s = Some st /\
    overlay s = Some o /\
    isOverlay (page s) o = true /\
    In o (idsF (kids (document (page s)))) /\
    subtree o (document (page s)) = Some so /\
    In c (idsF (kids so)) /\
    (* the overlay holds its own parts, which are newer than the snapshot,
       and the relocated subtree *)
    (forall i, In i (ids so) -> o <= i \/ contains (page s) c i = true) /\
    (forall q, s_parent st = Some q -> q < o) /\
    (forall r, s_nextSibling st = Some r -> r < o) /\
    s_nextSibling st <> Some c.

Record Inv (s : State) : Prop := mkInv {
  inv_page : PageInv (page s);
  inv_hint : forall h, In (CbHintFade h) (timers s) ->
                       h < nextId (page s) /\ isOverlay (page s) h = false;
  inv_session : isActive s = true -> SessionInv s
}.

(** What the script leaves alone.  The class names that the script itself
    adds to elements, and the class list of an element without them. *)
Definition SCRIPT_CLASSES : list string :=
  [ "pane-fullscreen-selectable"; "pane-fullscreen-select-mode";
    "pane-fullscreen-video"; "pane-fullscreen-iframe"; "pane-fullscreen-container";
    "fade-out"; "active" ].

Definition ownClasses (l : list string) : list string :=
  List.filter (fun c => negb (has_token c SCRIPT_CLASSES)) l.

(** [e] is the element [e0] up to what the script and the layout may
    change: same tag, id, source and frame document, same class names of
    its own, and the same style attribute or that attribute as
    [saveElementState] records it. *)
Definition sameElement (e0 e : Elem) : Prop :=
  tagName e = tagName e0 /\ idAttr e = idAttr e0 /\ src e = src e0 /\
  datasetSrc e = datasetSrc e0 /\ contentDocument e = contentDocument e0 /\
  ownClasses (classList e) = ownClasses (classList e0) /\
  (styleAttr e = styleAttr e0 \/
   styleAttr e = Some (match styleAttr e0 with Some v => v | None => "" end)).

Definition sameNode (d0 d : NodeData) : Prop :=
  match d0, d with
  | ElementNode e0, ElementNode e => sameElement e0 e
  | ElementNode _, _ => False
  | _, _ => d = d0
  end.

(** A snapshot of an element of the page [p0] records that element's own
    class names and its style. *)
Definition snapshotOf (p0 : Page) (st : ElementState) : Prop :=
  forall e0, s_element st < nextId p0 -> elem p0 (s_element st) = Some e0 ->
    ownClasses (s_className st) = ownClasses (classList e0) /\
    s_style st = match styleAttr e0 with Some v => v | None => "" end.

(** The nodes of [p0] are still what they were, and the snapshot that the
    script holds is one of its current element. *)
Definition Preserved (p0 : Page) (s : State) : Prop :=
  nextId p0 <= nextId (page s) /\
  (forall m d0, m < nextId p0 -> store p0 !! m = Some d0 ->
                exists d, store (page s) !! m = Some d /\ sameNode d0 d) /\
  (forall st, originalElementState s = Some st -> snapshotOf p0 st) /\
  (forall c st, currentElement s = Some c -> originalElementState s = Some st ->
                s_element st = c).

(** What the scanner and the scorer read.  [e'] is the element [e] as far
    as they can tell: the same tag, id, rectangle, source, frame document
    and media state, and the same outcome for every container selector. *)
Definition scanSame (e e' : Elem) : Prop :=
  tagName e' = tagName e /\ idAttr e' = idAttr e /\ rect e' = rect e /\
  src e' = src e /\ datasetSrc e' = datasetSrc e /\
  contentDocument e' = contentDocument e /\ media e' = media e /\
  forall sel, In sel VIDEO_CONTAINER_SELECTORS -> matches1 e' sel = matches1 e sel.

Definition scanEq (p p' : Page) : Prop :=
  document p' = document p /\ others p' = others p /\
  innerWidth p' = innerWidth p /\ innerHeight p' = innerHeight p /\
  forall n, match elem p n, elem p' n with
            | Some e, Some e' => scanSame e e'
            | None, None => True
            | _, _ => False
            end.

(** The page after [removeOverlay]. *)
Definition removeOverlayPage (p : Page) : Page :=
  match getElementById p OVERLAY_ID with
  | Some existingOverlay => remove existingOverlay p
  | None => p
  end.

(** The page after the resumption of playback in [exitPaneFullscreen]. *)
Definition resumePage (state : ElementState) (element : NodeId) (p : Page) : Page :=
  if String.eqb (s_type state) "video" &&
     match s_wasPlaying state with Some true => true | _ => false end
  then play element p else p.

(** The state in which [exitPaneFullscreen] ends once the element has been
    restored. *)
Definition exitTail (state : ElementState) (element : NodeId) (s : State) : State :=
  mkState (removeOverlayPage (resumePage state element (page s)))
          false None None None None (selectMode s) (timers s) (cancelSelect s).

(** The page with the detached overlay that [createOverlay] builds. *)
Definition withOverlay (p : Page) : Page := snd (createTree overlayTree overlayData 13 p).

(** The state in which [createOverlay] is when it looks for [body]. *)
Definition overlayCreated (s : State) : State :=
  mkState (withOverlay (removeOverlayPage (page s)))
          (isActive s) (currentElement s)
          (Some (nextId (removeOverlayPage (page s))))
          (Some (1 + nextId (removeOverlayPage (page s))))
          (originalElementState s) (selectMode s)
          (timers s ++ [CbHintFade (11 + nextId (removeOverlayPage (page s)))])
          (cancelSelect s).

(** The page after the marker class has been added in
    [enterPaneFullscreen]. *)
Definition markPage (element : NodeId) (type : Kind) (p : Page) : Page :=
  update_elem element (fun e => set_classList (add_token (markerClass type) (classList e)) e) p.

(** The state in which [enterPaneFullscreen] ends once the element is in
    the overlay. *)
Definition enterTail (type : Kind) (state : ElementState) (element : NodeId) (s : State) : State :=
  mkState (if Kind_eqb type KVideo &&
              match s_wasPlaying state with Some true => true | _ => false end
           then play element (page s) else page s)
          true (currentElement s) (overlay s) (elementContainer s)
          (originalElementState s) (selectMode s) (timers s ++ [CbActivate]) (cancelSelect s).

(** Two pages with the same nodes, of which the same are overlay
    elements. *)
Definition sameNodes (p p' : Page) : Prop :=
  nextId p' = nextId p /\
  Permutation (idsF (forest p')) (idsF (forest p)) /\
  forall i, isOverlay p' i = isOverlay p i.

(** The nodes of [l] can be relocated: they are nodes of the page and none
    is an overlay element. *)
Definition Ready (l : list NodeId) (s : State) : Prop :=
  Inv s /\
  forall n, In n l -> In n (idsF (forest (page s))) /\ isOverlay (page s) n = false.

(** From a state in [P] the computation [m] returns in a state in [R], or
    raises in a state in [Q]. *)
Definition triple {A} (P : State -> Prop) (m : M A)
           (R : A -> State -> Prop) (Q : State -> Prop) : Prop :=
  forall s, P s -> match m s with Ok a s' => R a s' | Throw _ s' => Q s' end.

(** The computation [m] keeps [Preserved p0], whether it returns or raises. *)
Abbreviation keeps p0 m := (triple (Preserved p0) m (fun _ => Preserved p0) (Preserved p0)).

(** A computation that always returns, and only changes the page. *)
Definition pageOnly (m : M unit) (g : Page -> Page) : Prop :=
  forall s, m s = Ok tt (set_page (g (page s)) s).

(** The page after [offer] and after [withdraw]. *)
Definition offerPage (c : NodeId * Kind) (p : Page) : Page :=
  let '(element, type) := c in
  update_elem element (set_paneFullscreenHandler (Some type))
    (update_elem element (fun e => set_listeners (listeners e ++ [LSelect type]) e)
       (update_elem element (set_paneFullscreenType (Some type))
          (update_elem element
             (fun e => set_classList (add_token "pane-fullscreen-selectable" (classList e)) e) p))).

Definition withdrawPage (element : NodeId) (p : Page) : Page :=
  update_elem element
    (fun e => match paneFullscreenHandler e with
              | Some k => set_paneFullscreenHandler None
                            (set_listeners (remove_listener (LSelect k) (listeners e)) e)
              | None => e
              end)
    (update_elem element (set_paneFullscreenType None)
       (update_elem element
          (fun e => set_classList (remove_token "pane-fullscreen-selectable" (classList e)) e) p)).

(** What [offer] and [withdraw] do to the element itself, and the kinds
    under which an element occurs in a list of selectable elements. *)
Definition offerElem (type : Kind) (e : Elem) : Elem :=
  set_paneFullscreenHandler (Some type)
    (set_listeners (listeners e ++ [LSelect type])
       (set_paneFullscreenType (Some type)
          (set_classList (add_token "pane-fullscreen-selectable" (classList e)) e))).

Definition withdrawElem (e : Elem) : Elem :=
  match paneFullscreenHandler e with
  | Some k =>
      set_paneFullscreenHandler None
        (set_listeners (remove_listener (LSelect k) (listeners e))
           (set_paneFullscreenType None
              (set_classList (remove_token "pane-fullscreen-selectable" (classList e)) e)))
  | None =>
      set_paneFullscreenType None
        (set_classList (remove_token "pane-fullscreen-selectable" (classList e)) e)
  end.

Definition offersFor (m : NodeId) (l : list (NodeId * Kind)) : list Kind :=
  map snd (List.filter (fun c => Nat.eqb (fst c) m) l).

(** The page after the class of the select mode has been added to [body],
    and after it has been removed. *)
Definition markBody (b : NodeId) (p : Page) : Page :=
  update_elem b (fun e => set_classList (add_token "pane-fullscreen-select-mode" (classList e)) e) p.

Definition unmarkBody (b : NodeId) (p : Page) : Page :=
  update_elem b (fun e => set_classList (remove_token "pane-fullscreen-select-mode" (classList e)) e) p.

(** The body of the loop over the containers in [getAllSelectableElements]. *)
Definition offerContainer (p : Page) (elements : list (NodeId * Kind)) (c : NodeId)
  : list (NodeId * Kind) :=
  if hasFoundIframe p elements c then elements else elements ++ [(c, KContainer)].

(** The specification's wording of the container rule, "directly contains a
    frame or video node": a child of the container is one. *)
Definition hasMediaChild (p : Page) (container : NodeId) : bool :=
  match subtreeF container (forest p) with
  | Some t => existsb (node_matches p [ByTag "iframe"; ByTag "video"]) (map root (kids t))
  | None => false
  end.

Definition specContainer (p : Page) (n : NodeId) : bool :=
  node_matches p VIDEO_CONTAINER_SELECTORS n &&
  (reasonableSize p n || hasMediaChild p n).

(** The specification's wording of the de-duplication rule, "spatially
    contains": the rectangle of [c] encloses the rectangle of [f]. *)
Definition spatiallyContains (p : Page) (c f : NodeId) : bool :=
  match elem p c, elem p f with
  | Some ec, Some ef =>
      Qle_bool (left (rect ec)) (left (rect ef)) && Qle_bool (top (rect ec)) (top (rect ef)) &&
      Qle_bool (right (rect ef)) (right (rect ec)) && Qle_bool (bottom (rect ef)) (bottom (rect ec))
  | _, _ => false
  end.

(* ------------------------------------------------------------------ *)
(** ** Example pages *)

Definition plain (tag : string) : NodeData := ElementNode (newElem tag).

Definition box (tag : string) (classes : list string) (r : DOMRect) : NodeData :=
  ElementNode (set_rect r (set_classList classes (newElem tag))).

Definition video (r : DOMRect) (m : Media) : NodeData :=
  ElementNode (set_media m (set_rect r (newElem "VIDEO"))).

Definition frame (r : DOMRect) (url : string) (doc : FrameDoc) : NodeData :=
  ElementNode (mkElem "IFRAME" "" None [] r url None doc noMedia None None []).

(** A paused video, a text node, a player frame and an empty container
    that surrounds the frame on screen without being its ancestor. *)
Definition pageTiers : Page :=
  mkPage (T 0 [T 1 [T 2 []; T 3 [T 4 []; T 5 []; T 6 []; T 7 []]]]) []
         (list_to_map
            [ (0, DocumentNode); (1, plain "HTML"); (2, plain "HEAD"); (3, plain "BODY");
              (4, video (mkRect 0 0 800 450) (mkMedia true false DNaN 0));
              (5, TextNode "caption");
              (6, frame (mkRect 10 460 640 360) "https://www.youtube.com/embed/x" CrossOrigin);
              (7, box "DIV" ["video-player"] (mkRect 0 455 900 500)) ])
         8 1280 2000 true.

(** The two videos of the scenario: a paused 800x450 one and a playing
    400x225 one that lasts 100 seconds. *)
Definition pageTwoVideos : Page :=
  mkPage (T 0 [T 1 [T 2 []; T 3 [T 4 []; T 5 []]]]) []
         (list_to_map
            [ (0, DocumentNode); (1, plain "HTML"); (2, plain "HEAD"); (3, plain "BODY");
              (4, video (mkRect 0 0 800 450) (mkMedia true false DNaN 0));
              (5, video (mkRect 0 460 400 225) (mkMedia false false (DSeconds 100) 12)) ])
         6 1280 720 true.

(** A small container whose video is a grandchild. *)
Definition pageNested : Page :=
  mkPage (T 0 [T 1 [T 2 []; T 3 [T 4 [T 5 [T 6 []]]]]]) []
         (list_to_map
            [ (0, DocumentNode); (1, plain "HTML"); (2, plain "HEAD"); (3, plain "BODY");
              (4, box "DIV" ["video-player"] (mkRect 0 0 100 100));
              (5, plain "DIV");
              (6, video (mkRect 0 0 0 0) noMedia) ])
         7 1280 720 true.

(** A page whose [body] carries a player class and that has no video. *)
Definition pageBody : Page :=
  mkPage (T 0 [T 1 [T 2 []; T 3 [T 4 []]]]) []
         (list_to_map
            [ (0, DocumentNode); (1, plain "HTML"); (2, plain "HEAD");
              (3, box "BODY" ["video-player-page"] (mkRect 0 0 1280 720));
              (4, plain "P") ])
         5 1280 720 true.

(** A same-origin frame whose document has a video as its root element. *)
Definition pageFrame : Page :=
  mkPage (T 0 [T 1 [T 2 []; T 3 [T 4 []]]]) [T 5 [T 6 []]]
         (list_to_map
            [ (0, DocumentNode); (1, plain "HTML"); (2, plain "HEAD"); (3, plain "BODY");
              (4, frame (mkRect 0 0 640 360) "" (SameOrigin 5));
              (5, DocumentNode);
              (6, video (mkRect 0 0 640 360) (mkMedia false false (DSeconds 30) 1)) ])
         7 1280 720 true.

(** A [body] with a player class whose video has not been laid out yet. *)
Definition pageStale : Page :=
  mkPage (T 0 [T 1 [T 2 []; T 3 [T 4 []]]]) []
         (list_to_map
            [ (0, DocumentNode); (1, plain "HTML"); (2, plain "HEAD");
              (3, box "BODY" ["video-player-page"] (mkRect 0 0 1280 720));
              (4, video (mkRect 0 0 0 0) noMedia) ])
         5 1280 720 true.


(** A page whose root element carries a player class and that has no video. *)
Definition pageHtml : Page :=
  mkPage (T 0 [T 1 [T 2 []; T 3 [T 4 []]]]) []
         (list_to_map
            [ (0, DocumentNode);
              (1, box "HTML" ["video-player-page"] (mkRect 0 0 1280 720));
              (2, plain "HEAD"); (3, plain "BODY"); (4, plain "P") ])
         5 1280 720 true.

(* ================================================================== *)
(** * Properties *)

(** ** Comparisons on rationals *)

Lemma Qgtb_true (a b : Q) : Qgtb a b = true <-> (b < a)%Q.
Proof.
  unfold Qgtb. rewrite negb_true_iff. split; intro H.
  - apply Qnot_le_lt. intro L. apply Qle_bool_iff in L. congruence.
  - destruct (Qle_bool a b) eqn:E; [|reflexivity].
    apply Qle_bool_iff in E. exfalso. apply (Qlt_not_le _ _ H E).
Qed.

Lemma Qgtb_false (a b : Q) : Qgtb a b = false <-> (a <= b)%Q.
Proof.
  unfold Qgtb. rewrite negb_false_iff. apply Qle_bool_iff.
Qed.

Lemma Qltb_true (a b : Q) : Qltb a b = true <-> (a < b)%Q.
Proof. apply (Qgtb_true b a). Qed.

Lemma Qgeb_true (a b : Q) : Qgeb a b = true <-> (b <= a)%Q.
Proof. apply Qle_bool_iff. Qed.

(** ** Scorer *)

Lemma isVisible_true (p : Page) (r : DOMRect) :
  isVisible p r = true <->
  (0 < width r /\ 0 < height r /\
   top r < innerHeight p /\ 0 < bottom r /\ left r < innerWidth p /\ 0 < right r)%Q.
Proof.
  unfold isVisible. rewrite !andb_true_iff, !Qgtb_true, !Qltb_true. tauto.
Qed.

(** C3. An element whose rectangle has a zero dimension, or does not
    intersect the viewport, scores exactly 0 whatever its area, tag or
    playback state. *)
Theorem getElementScore_not_visible (p : Page) (element : NodeId) (e : Elem) :
  elem p element = Some e ->
  (width (rect e) == 0 \/ height (rect e) == 0 \/
   ~ (top (rect e) < innerHeight p /\ 0 < bottom (rect e) /\
      left (rect e) < innerWidth p /\ 0 < right (rect e)))%Q ->
  getElementScore p element = 0%Q.
Proof.
  intros He H. unfold getElementScore. rewrite He. unfold scoreOf.
  destruct (isVisible p (rect e)) eqn:V; [|reflexivity].
  exfalso. apply isVisible_true in V.
  destruct V as (Hw & Hh & Ht & Hb & Hl & Hr).
  destruct H as [H | [H | H]].
  - rewrite H in Hw. apply (Qlt_irrefl _ Hw).
  - rewrite H in Hh. apply (Qlt_irrefl _ Hh).
  - apply H. tauto.
Qed.


(** ** Selector: the loop that keeps the best element *)

Section BestFacts.
Variable score : NodeId -> Q.

Lemma bestAcc_spec (l : list NodeId) :
    match fold_left (bestStep score) l (None, 0%Q) with
    | (Some x, b) => b = score x /\ firstBest score l x
    | (None, b) => b = 0%Q /\ forall y, In y l -> (score y <= 0)%Q
    end.
  Proof.
    induction l as [|y l IH] using rev_ind.
    - simpl. split; [reflexivity | intros y []].
    - rewrite fold_left_app. simpl.
      destruct (fold_left (bestStep score) l (None, 0%Q)) as [[x|] b].
      + destruct IH as [-> (l1 & l2 & -> & Hpos & H1 & H2)].
        unfold bestStep. simpl. destruct (Qgtb (score y) (score x)) eqn:G.
        * apply Qgtb_true in G. split; [reflexivity|].
          exists (l1 ++ x :: l2), []. repeat split.
          -- eapply Qlt_trans; eassumption.
          -- intros z Hz. apply in_app_or in Hz. destruct Hz as [Hz | [<- | Hz]].
             ++ eapply Qlt_trans; [apply H1, Hz | exact G].
             ++ exact G.
             ++ eapply Qle_lt_trans; [apply H2, Hz | exact G].
          -- intros z [].
        * apply Qgtb_false in G. split; [reflexivity|].
          exists l1, (l2 ++ [y]). repeat split.
          -- rewrite <- app_assoc. reflexivity.
          -- exact Hpos.
          -- exact H1.
          -- intros z Hz. apply in_app_or in Hz. destruct Hz as [Hz | [<- | []]].
             ++ apply H2, Hz.
             ++ exact G.
      + destruct IH as [-> H0].
        unfold bestStep. simpl. destruct (Qgtb (score y) 0) eqn:G.
        * apply Qgtb_true in G. split; [reflexivity|].
          exists l, []. repeat split.
          -- exact G.
          -- intros z Hz. eapply Qle_lt_trans; [apply H0, Hz | exact G].
          -- intros z [].
        * apply Qgtb_false in G. split; [reflexivity|].
          intros z Hz. apply in_app_or in Hz. destruct Hz as [Hz | [<- | []]].
          -- apply H0, Hz.
          -- exact G.
  Qed.

Lemma findBest_Some (l : list NodeId) (x : NodeId) :
    findBest score l = Some x -> firstBest score l x.
  Proof.
    unfold findBest. pose proof (bestAcc_spec l) as H.
    destruct (fold_left (bestStep score) l (None, 0%Q)) as [[z|] b]; simpl; intro E.
    - injection E as <-. apply H.
    - discriminate.
  Qed.

Lemma findBest_None (l : list NodeId) :
    findBest score l = None -> forall y, In y l -> (score y <= 0)%Q.
  Proof.
    unfold findBest. pose proof (bestAcc_spec l) as H.
    destruct (fold_left (bestStep score) l (None, 0%Q)) as [[z|] b]; simpl; intro E.
    - discriminate.
    - apply H.
  Qed.

Lemma findBest_scoring (l : list NodeId) (y : NodeId) :
    In y l -> (0 < score y)%Q -> exists x, findBest score l = Some x /\ firstBest score l x.
  Proof.
    intros Hy Hpos. destruct (findBest score l) as [x|] eqn:E.
    - exists x. split; [reflexivity | apply findBest_Some, E].
    - exfalso. apply (Qlt_not_le _ _ Hpos). eapply findBest_None; eassumption.
  Qed.

Lemma findBest_none_scoring (l : list NodeId) :
    (forall y, In y l -> ~ (0 < score y)%Q) -> findBest score l = None.
  Proof.
    intro H. destruct (findBest score l) as [x|] eqn:E; [|reflexivity].
    exfalso. apply findBest_Some in E. destruct E as (l1 & l2 & -> & Hpos & _).
    apply (H x); [apply in_elt | exact Hpos].
  Qed.

Lemma firstBest_unique_scoring (l : list NodeId) (x v : NodeId) :
    firstBest score l x ->
    (forall y, In y l -> (0 < score y)%Q -> y = v) -> x = v.
  Proof.
    intros (l1 & l2 & -> & Hpos & _) H. apply H; [apply in_elt | exact Hpos].
  Qed.
End BestFacts.

Lemma firstBest_In (score : NodeId -> Q) (l : list NodeId) (x : NodeId) :
  firstBest score l x -> In x l.
Proof. intros (l1 & l2 & -> & _). apply in_elt. Qed.


(** C2. The selector answers from the first tier that has a scoring
    element: videos, then player frames, then containers; inside the tier
    it returns the first element with the highest score; it answers nothing
    when no tier has a scoring element.  With one scoring video, a scoring
    frame and a scoring container present, the video is returned. *)
Theorem findBestPlayableElement_tiers (p : Page) :
  let score := getElementScore p in
  let scoring := fun l : list NodeId => exists y, In y l /\ (0 < score y)%Q in
  (scoring (findAllVideos p) ->
   exists x, findBestPlayableElement p = Some (x, KVideo) /\
             firstBest score (findAllVideos p) x) /\
  (~ scoring (findAllVideos p) -> scoring (findVideoIframes p) ->
   exists x, findBestPlayableElement p = Some (x, KIframe) /\
             firstBest score (findVideoIframes p) x) /\
  (~ scoring (findAllVideos p) -> ~ scoring (findVideoIframes p) ->
   scoring (findVideoContainers p) ->
   exists x, findBestPlayableElement p = Some (x, KContainer) /\
             firstBest score (findVideoContainers p) x) /\
  (~ scoring (findAllVideos p) -> ~ scoring (findVideoIframes p) ->
   ~ scoring (findVideoContainers p) ->
   findBestPlayableElement p = None) /\
  (forall v f c,
     In v (findAllVideos p) -> (0 < score v)%Q ->
     (forall y, In y (findAllVideos p) -> (0 < score y)%Q -> y = v) ->
     In f (findVideoIframes p) -> (0 < score f)%Q ->
     In c (findVideoContainers p) -> (0 < score c)%Q ->
     findBestPlayableElement p = Some (v, KVideo)).
Proof.
  intros score scoring.
  assert (Hnone : forall l, ~ scoring l -> findBest score l = None).
  { intros l H. apply findBest_none_scoring. intros y Hy Hp. apply H. exists y. auto. }
  assert (Hsome : forall l, scoring l -> exists x, findBest score l = Some x /\ firstBest score l x).
  { intros l (y & Hy & Hp). eapply findBest_scoring; eassumption. }
  unfold findBestPlayableElement, findBestVideo, findBestIframe, findBestContainer.
  fold score. repeat split.
  - intro Hv. destruct (Hsome _ Hv) as (x & -> & Hx). eauto.
  - intros Hv Hf. rewrite (Hnone _ Hv). destruct (Hsome _ Hf) as (x & -> & Hx). eauto.
  - intros Hv Hf Hc. rewrite (Hnone _ Hv), (Hnone _ Hf).
    destruct (Hsome _ Hc) as (x & -> & Hx). eauto.
  - intros Hv Hf Hc. rewrite (Hnone _ Hv), (Hnone _ Hf), (Hnone _ Hc). reflexivity.
  - intros v f c Hv Hpos Huniq _ _ _ _.
    destruct (Hsome (findAllVideos p)) as (x & -> & Hx); [exists v; auto|].
    rewrite (firstBest_unique_scoring score _ x v Hx Huniq). reflexivity.
Qed.

Lemma findAllVideos_tag (p : Page) (n : NodeId) :
  In n (findAllVideos p) -> node_matches p [ByTag "video"] n = true.
Proof.
  unfold findAllVideos. intro H. apply in_app_or in H. destruct H as [H|H].
  - apply filter_In in H. apply H.
  - apply in_flat_map in H. destruct H as (fr & _ & H).
    unfold frameVideos in H. destruct (elem p fr) as [e|]; [|contradiction].
    destruct (contentDocument e) as [| |doc]; try contradiction.
    destruct (find (fun t => Nat.eqb (root t) doc) (others p)) as [t|]; [|contradiction].
    apply filter_In in H. apply H.
Qed.





Lemma findBestPlayableElement_tiers_witness :
  findBestPlayableElement pageTiers = Some (4, KVideo).
Proof.
  apply (proj2 (proj2 (proj2 (proj2 (findBestPlayableElement_tiers pageTiers)))) 4 6 7).
  - vm_compute. tauto.
  - vm_compute. reflexivity.
  - intros y Hy _. vm_compute in Hy. destruct Hy as [<- | []]. reflexivity.
  - vm_compute. tauto.
  - vm_compute. reflexivity.
  - vm_compute. tauto.
  - vm_compute. reflexivity.
Defined.



Lemma getElementScore_not_visible_witness :
  getElementScore pageNested 6 = 0%Q.
Proof.
  eapply getElementScore_not_visible.
  - vm_compute. reflexivity.
  - left. vm_compute. reflexivity.
Defined.

(** ** Candidate scanner *)

Lemma node_matches_exists (p : Page) (sels : list Selector) (n : NodeId) :
  node_matches p sels n = true <->
  exists sel, In sel sels /\ node_matches p [sel] n = true.
Proof.
  unfold node_matches. destruct (elem p n) as [e|].
  - unfold matches. rewrite existsb_exists. split.
    + intros (sel & Hs & Hm). exists sel. split; [exact Hs|]. simpl. rewrite Hm. reflexivity.
    + intros (sel & Hs & Hm). exists sel. split; [exact Hs|].
      simpl in Hm. rewrite orb_false_r in Hm. exact Hm.
  - split; [discriminate | intros (? & _ & ?); discriminate].
Qed.

Lemma hasMedia_true (p : Page) (n : NodeId) :
  hasMedia p n = true <->
  exists m, In m (descendants p n) /\
            node_matches p [ByTag "iframe"; ByTag "video"] m = true.
Proof.
  unfold hasMedia, querySelector.
  destruct (find _ (descendants p n)) as [m|] eqn:F.
  - apply find_some in F. split; [intros _; exists m; exact F | reflexivity].
  - split; [discriminate|]. intros (m & Hm & Hx).
    rewrite (find_none _ _ F m Hm) in Hx. discriminate.
Qed.

Lemma reasonableSize_true (p : Page) (n : NodeId) :
  reasonableSize p n = true <->
  exists e, elem p n = Some e /\ (200 <= width (rect e))%Q /\ (150 <= height (rect e))%Q.
Proof.
  unfold reasonableSize. destruct (elem p n) as [e|].
  - rewrite andb_true_iff, !Qgeb_true. split.
    + intros [H1 H2]. exists e. auto.
    + intros (e' & E & H1 & H2). injection E as <-. auto.
  - split; [discriminate | intros (e & E & _); discriminate].
Qed.

(** C8, as the code has it.  An element is in the container list exactly
    when it is an element of the document that matches one of the container
    selectors and either its rectangle is at least 200x150 or a frame or a
    video is among its descendants, at any depth. *)
Theorem findVideoContainers_spec (p : Page) (n : NodeId) :
  In n (findVideoContainers p) <->
  In n (idsF (kids (document p))) /\
  node_matches p VIDEO_CONTAINER_SELECTORS n = true /\
  ((exists e, elem p n = Some e /\ (200 <= width (rect e))%Q /\ (150 <= height (rect e))%Q) \/
   (exists m, In m (descendants p n) /\
              node_matches p [ByTag "iframe"; ByTag "video"] m = true)).
Proof.
  unfold findVideoContainers. rewrite in_flat_map.
  rewrite <- hasMedia_true, <- reasonableSize_true, node_matches_exists.
  split.
  - intros (sel & Hs & Hn). apply filter_In in Hn. destruct Hn as [Hq Hc].
    unfold querySelectorAll, querySelectorAllT in Hq. apply filter_In in Hq.
    destruct Hq as [Hd Hm]. apply orb_true_iff in Hc.
    split; [exact Hd|]. split; [exists sel; auto | tauto].
  - intros (Hd & (sel & Hs & Hm) & Hc). exists sel. split; [exact Hs|].
    apply filter_In. split.
    + unfold querySelectorAll, querySelectorAllT. apply filter_In. auto.
    + apply orb_true_iff. tauto.
Qed.

(** C8, as the specification words it, fails: the container of
    [pageNested] is listed although it is smaller than 200x150 and none of
    its children is a frame or a video. *)
Lemma findVideoContainers_not_direct :
  In 4 (findVideoContainers pageNested) /\ specContainer pageNested 4 = false.
Proof. split; [vm_compute; tauto | vm_compute; reflexivity]. Qed.

(** ** Selectable elements *)

Lemma hasFoundIframe_false (p : Page) (elements : list (NodeId * Kind)) (c : NodeId) :
  hasFoundIframe p elements c = false <->
  forall f, In (f, KIframe) elements -> contains p c f = false.
Proof.
  unfold hasFoundIframe. split.
  - intros H f Hf. destruct (contains p c f) eqn:C; [|reflexivity].
    assert (X : existsb (fun e => Kind_eqb (snd e) KIframe && contains p c (fst e)) elements = true).
    { apply existsb_exists. exists (f, KIframe). split; [exact Hf|]. simpl. exact C. }
    congruence.
  - intro H. destruct (existsb _ elements) eqn:X; [|reflexivity].
    apply existsb_exists in X. destruct X as ([f k] & Hf & Hx). simpl in Hx.
    apply andb_true_iff in Hx. destruct Hx as [Hk Hc].
    destruct k; try discriminate. rewrite (H f Hf) in Hc. discriminate.
Qed.

Lemma offer_iframes (p : Page) (cs : list NodeId) (acc : list (NodeId * Kind)) (f : NodeId) :
  In (f, KIframe) (fold_left (offerContainer p) cs acc) <-> In (f, KIframe) acc.
Proof.
  revert acc. induction cs as [|c cs IH]; intro acc; simpl; [tauto|].
  rewrite IH. unfold offerContainer. destruct (hasFoundIframe p acc c); [tauto|].
  rewrite in_app_iff. simpl. split; [|tauto].
  intros [H | [H | []]]; [exact H | discriminate].
Qed.

Lemma offer_containers (p : Page) (cs : list NodeId) (acc : list (NodeId * Kind)) (c : NodeId) :
  In (c, KContainer) (fold_left (offerContainer p) cs acc) <->
  In (c, KContainer) acc \/
  (In c cs /\ forall f, In (f, KIframe) acc -> contains p c f = false).
Proof.
  revert acc. induction cs as [|x cs IH]; intro acc; simpl; [tauto|].
  rewrite IH. unfold offerContainer.
  destruct (hasFoundIframe p acc x) eqn:H.
  - split; [tauto|]. intros [Hc | [[<- | Hc] Hf]]; auto.
    apply hasFoundIframe_false in Hf. congruence.
  - rewrite hasFoundIframe_false in H. rewrite in_app_iff. simpl. split.
    + intros [[Hc | [Hc | []]] | [Hc Hf]].
      * tauto.
      * injection Hc as <-. right. split; [tauto | exact H].
      * right. split; [tauto|]. intros f Hf'. apply Hf. apply in_or_app. tauto.
    + intros [Hc | [[<- | Hc] Hf]].
      * tauto.
      * left. right. left. reflexivity.
      * right. split; [exact Hc|]. intros f Hf'.
        apply in_app_or in Hf'. destruct Hf' as [Hf' | [Hf' | []]]; [auto | discriminate].
Qed.

Lemma getAllSelectableElements_fold (p : Page) :
  getAllSelectableElements p =
  fold_left (offerContainer p) (findVideoContainers p)
            (map (fun v => (v, KVideo)) (findAllVideos p) ++
             map (fun i => (i, KIframe)) (findVideoIframes p)).
Proof. reflexivity. Qed.

Lemma selectable_iframes (p : Page) (f : NodeId) :
  In (f, KIframe) (getAllSelectableElements p) <-> In f (findVideoIframes p).
Proof.
  rewrite getAllSelectableElements_fold, offer_iframes, in_app_iff, !in_map_iff.
  split.
  - intros [(v & E & _) | (i & E & Hi)]; [discriminate | injection E as <-; exact Hi].
  - intro H. right. exists f. auto.
Qed.

(** C9, as the code has it.  A container is listed exactly when it is in
    the container list and no listed frame is the container itself or one of
    its descendants: a container that has a listed frame inside it in the
    tree does not appear beside that frame. *)
Theorem getAllSelectableElements_containers (p : Page) (c : NodeId) :
  In (c, KContainer) (getAllSelectableElements p) <->
  In c (findVideoContainers p) /\
  forall f, In (f, KIframe) (getAllSelectableElements p) -> contains p c f = false.
Proof.
  rewrite getAllSelectableElements_fold at 1. rewrite offer_containers. split.
  - intros [H | [Hc Hf]].
    + apply in_app_or in H. rewrite !in_map_iff in H.
      destruct H as [(v & E & _) | (i & E & _)]; discriminate.
    + split; [exact Hc|]. intros f Hin. apply Hf.
      rewrite getAllSelectableElements_fold, offer_iframes in Hin. exact Hin.
  - intros [Hc Hf]. right. split; [exact Hc|]. intros f Hin. apply Hf.
    rewrite getAllSelectableElements_fold, offer_iframes. exact Hin.
Qed.

(** C9, as the specification words it, fails: on [pageTiers] the container
    7 encloses the frame 6 on screen, and both are listed. *)
Lemma getAllSelectableElements_spatial :
  spatiallyContains pageTiers 7 6 = true /\
  In (6, KIframe) (getAllSelectableElements pageTiers) /\
  In (7, KContainer) (getAllSelectableElements pageTiers).
Proof. vm_compute. tauto. Qed.

Lemma getAllSelectableElements_containers_witness :
  contains pageTiers 7 6 = false.
Proof.
  apply (proj1 (getAllSelectableElements_containers pageTiers 7)); vm_compute; tauto.
Defined.

(** ** The node store under updates *)

Lemma elem_update_elem (n : NodeId) (f : Elem -> Elem) (p : Page) (m : NodeId) :
  elem (update_elem n f p) m =
  if Nat.eqb m n then option_map f (elem p n) else elem p m.
Proof.
  unfold update_elem. destruct (elem p n) as [e|] eqn:E.
  - unfold elem at 1. simpl. destruct (Nat.eqb_spec m n) as [->|Hne].
    + rewrite lookup_insert_eq. reflexivity.
    + rewrite lookup_insert_ne by congruence. reflexivity.
  - destruct (Nat.eqb_spec m n) as [->|Hne]; [rewrite E|]; reflexivity.
Qed.

Lemma elem_update_elem_eq (n : NodeId) (f : Elem -> Elem) (p : Page) :
  elem (update_elem n f p) n = option_map f (elem p n).
Proof. rewrite elem_update_elem, Nat.eqb_refl. reflexivity. Qed.

Lemma elem_update_elem_ne (n : NodeId) (f : Elem -> Elem) (p : Page) (m : NodeId) :
  m <> n -> elem (update_elem n f p) m = elem p m.
Proof.
  intro H. rewrite elem_update_elem. destruct (Nat.eqb_spec m n); [contradiction | reflexivity].
Qed.

Lemma document_update_elem (n : NodeId) (f : Elem -> Elem) (p : Page) :
  document (update_elem n f p) = document p.
Proof. unfold update_elem. destruct (elem p n); reflexivity. Qed.

Lemma others_update_elem (n : NodeId) (f : Elem -> Elem) (p : Page) :
  others (update_elem n f p) = others p.
Proof. unfold update_elem. destruct (elem p n); reflexivity. Qed.

Lemma forest_update_elem (n : NodeId) (f : Elem -> Elem) (p : Page) :
  forest (update_elem n f p) = forest p.
Proof. unfold forest. rewrite document_update_elem, others_update_elem. reflexivity. Qed.

Lemma nextId_update_elem (n : NodeId) (f : Elem -> Elem) (p : Page) :
  nextId (update_elem n f p) = nextId p.
Proof. unfold update_elem. destruct (elem p n); reflexivity. Qed.

Lemma is_element_update_elem (n : NodeId) (f : Elem -> Elem) (p : Page) (m : NodeId) :
  is_element (update_elem n f p) m = is_element p m.
Proof.
  unfold is_element. rewrite elem_update_elem.
  destruct (Nat.eqb_spec m n) as [->|]; [destruct (elem p n)|]; reflexivity.
Qed.

(** Functions of the page that read an element only through some of its
    fields are not affected by an update that keeps those fields. *)
Lemma find_ext_in {A} (f g : A -> bool) (l : list A) :
  (forall a, In a l -> f a = g a) -> find f l = find g l.
Proof.
  induction l as [|a l IH]; intro H; simpl; [reflexivity|].
  rewrite (H a) by (left; reflexivity). destruct (g a); [reflexivity|].
  apply IH. intros b Hb. apply H. right. exact Hb.
Qed.

Lemma body_update_elem (n : NodeId) (f : Elem -> Elem) (p : Page) :
  (forall e, tagName (f e) = tagName e) ->
  body (update_elem n f p) = body p.
Proof.
  intro Ht. unfold body, documentElement.
  rewrite document_update_elem.
  rewrite (find_ext_in (is_element (update_elem n f p)) (is_element p))
    by (intros; apply is_element_update_elem).
  destruct (find (is_element p) (map root (kids (document p)))) as [h|]; [|reflexivity].
  assert (Hb : forall m, is_body_tag (update_elem n f p) m = is_body_tag p m).
  { intro m. unfold is_body_tag. rewrite elem_update_elem.
    destruct (Nat.eqb_spec m n) as [->|]; [|reflexivity].
    destruct (elem p n); simpl; [rewrite Ht|]; reflexivity. }
  rewrite elem_update_elem. destruct (Nat.eqb_spec h n) as [->|].
  - destruct (elem p n) as [e|]; simpl; [|reflexivity]. rewrite Ht.
    destruct (subtree n (document p)); [|reflexivity].
    destruct (String.eqb (tagName e) "HTML"); [|reflexivity].
    apply find_ext_in. intros; apply Hb.
  - destruct (elem p h) as [e|]; [|reflexivity].
    destruct (subtree h (document p)); [|reflexivity].
    destruct (String.eqb (tagName e) "HTML"); [|reflexivity].
    apply find_ext_in. intros; apply Hb.
Qed.

(** ** Computations that only change the page *)

Lemma pageOnly_onPage (f : Page -> Page) : pageOnly (onPage f) f.
Proof. intro s. reflexivity. Qed.

Lemma pageOnly_ret : pageOnly (ret tt) (fun p => p).
Proof. intros [? ? ? ? ? ? ? ? ?]. reflexivity. Qed.

Lemma pageOnly_seq (m k : M unit) (g h : Page -> Page) :
  pageOnly m g -> pageOnly k h -> pageOnly (m ;; k) (fun p => h (g p)).
Proof.
  intros Hm Hk s. unfold bind. rewrite Hm, Hk. reflexivity.
Qed.

Lemma pageOnly_forEach {A} (f : A -> M unit) (g : A -> Page -> Page) (l : list A) :
  (forall a, pageOnly (f a) (g a)) ->
  pageOnly (forEach l f) (fun p => fold_left (fun q a => g a q) l p).
Proof.
  intro H. induction l as [|a l IH]; simpl.
  - apply pageOnly_ret.
  - apply (pageOnly_seq _ _ (g a) _ (H a) IH).
Qed.

Lemma pageOnly_offer (c : NodeId * Kind) : pageOnly (offer c) (offerPage c).
Proof. destruct c as [element type]. intro s. reflexivity. Qed.

Lemma pageOnly_withdraw (element : NodeId) : pageOnly (withdraw element) (withdrawPage element).
Proof. intro s. reflexivity. Qed.

(** ** Interactive picker *)

Lemma body_markBody (b : NodeId) (p : Page) : body (markBody b p) = body p.
Proof. apply body_update_elem. reflexivity. Qed.

Lemma enableSelectMode_active (s : State) :
  selectMode s = true -> enableSelectMode s = Ok None s.
Proof.
  intro H. unfold enableSelectMode, bind, gets. rewrite H. reflexivity.
Qed.

Lemma enableSelectMode_fresh (s : State) (b : NodeId) :
  selectMode s = false -> body (page s) = Some b ->
  enableSelectMode s =
  Ok (Some (List.length (getAllSelectableElements (markBody b (page s)))))
     (mkState (fold_left (fun q c => offerPage c q)
                         (getAllSelectableElements (markBody b (page s)))
                         (markBody b (page s)))
              (isActive s) (currentElement s) (overlay s) (elementContainer s)
              (originalElementState s) true (timers s ++ [CbPickTimeout])
              (S (cancelSelect s))).
Proof.
  intros H Hb. unfold enableSelectMode, bind, gets. rewrite H. simpl.
  unfold bodyClass, bind, gets. simpl. rewrite Hb. simpl.
  rewrite (pageOnly_forEach offer offerPage _ pageOnly_offer). reflexivity.
Qed.

Lemma disableSelectMode_active (s : State) (b : NodeId) :
  selectMode s = true -> body (page s) = Some b ->
  disableSelectMode s =
  Ok tt (mkState (fold_left (fun q c => withdrawPage c q)
                            (querySelectorAll (unmarkBody b (page s))
                                              [ByClass "pane-fullscreen-selectable"])
                            (unmarkBody b (page s)))
                 (isActive s) (currentElement s) (overlay s) (elementContainer s)
                 (originalElementState s) false (timers s) (cancelSelect s)).
Proof.
  intros H Hb. unfold disableSelectMode, bind, gets. rewrite H. simpl.
  unfold bodyClass, bind, gets. simpl. rewrite Hb. simpl.
  rewrite (pageOnly_forEach withdraw withdrawPage _ pageOnly_withdraw). reflexivity.
Qed.

(** C7.  [enableSelectMode] does nothing when the select mode is already
    on, and then returns no count; when it turns the mode on it returns the
    number of elements offered; [selectVideo] turns the mode off again and
    reports failure when that number is zero, and, run while the mode is
    on, reports success with the text of a missing count. *)
Theorem enableSelectMode_count :
  (forall s, selectMode s = true -> enableSelectMode s = Ok None s) /\
  (forall s b, selectMode s = false -> body (page s) = Some b ->
     exists s',
       enableSelectMode s =
       Ok (Some (List.length (getAllSelectableElements (markBody b (page s))))) s' /\
       selectMode s' = true) /\
  (forall s b, selectMode s = false -> body (page s) = Some b ->
     getAllSelectableElements (markBody b (page s)) = [] ->
     exists s',
       onMessage selectVideo s = Ok (Reply false "No videos or players found on this page") s' /\
       selectMode s' = false) /\
  (forall s, selectMode s = true ->
     onMessage selectVideo s =
     Ok (Reply true "Found undefined element(s). Click one to select.") s).
Proof.
  repeat split.
  - apply enableSelectMode_active.
  - intros s b H Hb. eexists. split; [apply enableSelectMode_fresh; assumption | reflexivity].
  - intros s b H Hb Hnil. simpl. unfold bind at 1.
    rewrite (enableSelectMode_fresh s b H Hb), Hnil. simpl. unfold bind.
    erewrite disableSelectMode_active; [| reflexivity | simpl; rewrite body_markBody; exact Hb].
    simpl. eexists. split; reflexivity.
  - intros s H. simpl. unfold bind. rewrite (enableSelectMode_active s H). reflexivity.
Qed.

Lemma enableSelectMode_count_witness :
  onMessage selectVideo (stateOf (onMessage selectVideo (initial pageTiers))) =
  Ok (Reply true "Found undefined element(s). Click one to select.")
     (stateOf (onMessage selectVideo (initial pageTiers))).
Proof.
  apply (proj2 (proj2 (proj2 enableSelectMode_count))). vm_compute. reflexivity.
Defined.

(** ** Entering a session: what is returned *)

Lemma bind_Ok {A B} (m : M A) (k : A -> M B) (s s' : State) (b : B) :
  bind m k s = Ok b s' -> exists a s1, m s = Ok a s1 /\ k a s1 = Ok b s'.
Proof.
  unfold bind. destruct (m s) as [a s1|e s1]; [eauto | discriminate].
Qed.

Lemma enterPaneFullscreen_null (type : Kind) (s : State) :
  enterPaneFullscreen None type s = Ok false s.
Proof. reflexivity. Qed.

Lemma enterPaneFullscreen_returns_true (element : NodeId) (type : Kind) (s s' : State) (b : bool) :
  enterPaneFullscreen (Some element) type s = Ok b s' -> b = true.
Proof.
  unfold enterPaneFullscreen. intro H.
  repeat (apply bind_Ok in H; destruct H as (? & ? & _ & H)).
  unfold ret in H. congruence.
Qed.

(** C6, on the code.  Without a node [enterPaneFullscreen] returns [false]
    and leaves the state as it is; with a node it never returns [false];
    but it does not return at all for the [body] of [pageBody], the element
    that the selector of the script picks there: the call raises after the
    overlay has been put in the document, and no session is active. *)
Theorem enterPaneFullscreen_result :
  (forall type s, enterPaneFullscreen None type s = Ok false s) /\
  (forall element type s s' b,
     enterPaneFullscreen (Some element) type s = Ok b s' -> b = true) /\
  findBestPlayableElement pageBody = Some (3, KContainer) /\
  exists s',
    enterPaneFullscreen (Some 3) KContainer (initial pageBody) = Throw HierarchyRequestError s' /\
    onMessage autoFullscreen (initial pageBody) = Throw HierarchyRequestError s' /\
    isActive s' = false /\
    currentElement s' = Some 3 /\
    overlaysIn (page s') = [5].
Proof.
  split; [exact enterPaneFullscreen_null|].
  split; [exact enterPaneFullscreen_returns_true|].
  split; [vm_compute; reflexivity|].
  eexists. split; [vm_compute; reflexivity|].
  split; [vm_compute; reflexivity|].
  vm_compute. auto.
Qed.

Lemma enterPaneFullscreen_result_witness :
  returned (enterPaneFullscreen (Some 4) KVideo (initial pageTiers)) = Some true.
Proof.
  destruct (enterPaneFullscreen (Some 4) KVideo (initial pageTiers)) as [b s'|e s'] eqn:E.
  - apply (proj1 (proj2 enterPaneFullscreen_result)) in E. rewrite E. reflexivity.
  - vm_compute in E. discriminate.
Defined.

(* ================================================================== *)
(** * Trees *)

Lemma Tree_ind (P : Tree -> Prop) :
  (forall i ks, Forall P ks -> P (T i ks)) -> forall t, P t.
Proof.
  intro H. fix IH 1. intros [i ks]. apply H.
  induction ks as [|k ks IHks]; constructor; [apply IH | exact IHks].
Qed.

(** All the subtrees of a tree, in tree order. *)
Lemma subtrees_self (t : Tree) : In t (subtrees t).
Proof. destruct t. left. reflexivity. Qed.

Lemma subtreesF_cons (t : Tree) (f : list Tree) :
  subtreesF (t :: f) = subtrees t ++ subtreesF f.
Proof. reflexivity. Qed.

Lemma idsF_cons (t : Tree) (f : list Tree) : idsF (t :: f) = ids t ++ idsF f.
Proof. reflexivity. Qed.

Lemma idsF_app (f g : list Tree) : idsF (f ++ g) = idsF f ++ idsF g.
Proof. unfold idsF. apply flat_map_app. Qed.

Lemma ids_root (t : Tree) : In (root t) (ids t).
Proof. destruct t. left. reflexivity. Qed.

Lemma ids_unfold (t : Tree) : ids t = root t :: idsF (kids t).
Proof. destruct t. reflexivity. Qed.

Lemma in_idsF (f : list Tree) (i : NodeId) :
  In i (idsF f) <-> exists t, In t f /\ In i (ids t).
Proof. unfold idsF. apply in_flat_map. Qed.

Lemma in_subtreesF (f : list Tree) (s : Tree) :
  In s (subtreesF f) <-> exists t, In t f /\ In s (subtrees t).
Proof. unfold subtreesF. apply in_flat_map. Qed.

Lemma subtrees_unfold (t : Tree) : subtrees t = t :: subtreesF (kids t).
Proof. destruct t. reflexivity. Qed.

(** The identifiers of a tree are the roots of its subtrees. *)
Lemma ids_subtrees (t : Tree) : ids t = map root (subtrees t).
Proof.
  induction t as [i ks IH] using Tree_ind. simpl. f_equal.
  induction IH as [|k ks Hk _ IHks]; simpl; [reflexivity|].
  rewrite map_app, Hk, IHks. reflexivity.
Qed.

Lemma idsF_subtreesF (f : list Tree) : idsF f = map root (subtreesF f).
Proof.
  induction f as [|t f IH]; simpl; [reflexivity|].
  rewrite map_app, ids_subtrees, <- IH. reflexivity.
Qed.

Lemma subtrees_ids_incl (t s : Tree) :
  In s (subtrees t) -> incl (ids s) (ids t).
Proof.
  revert s. induction t as [i ks IH] using Tree_ind. intros s [<- | Hs].
  - apply incl_refl.
  - apply in_flat_map in Hs. destruct Hs as (k & Hk & Hs).
    rewrite Forall_forall in IH. intros x Hx. right.
    apply in_flat_map. exists k. split; [exact Hk | apply (IH k Hk s Hs x Hx)].
Qed.

Lemma subtrees_trans (t s u : Tree) :
  In s (subtrees t) -> In u (subtrees s) -> In u (subtrees t).
Proof.
  revert s u. induction t as [i ks IH] using Tree_ind. intros s u [<- | Hs] Hu.
  - exact Hu.
  - apply in_flat_map in Hs. destruct Hs as (k & Hk & Hs).
    rewrite Forall_forall in IH. right.
    apply in_flat_map. exists k. split; [exact Hk | apply (IH k Hk s u Hs Hu)].
Qed.

Lemma subtrees_NoDup (t s : Tree) :
  NoDup (ids t) -> In s (subtrees t) -> NoDup (ids s).
Proof.
  revert s. induction t as [i ks IH] using Tree_ind. intros s Hnd [<- | Hs].
  - exact Hnd.
  - apply in_flat_map in Hs. destruct Hs as (k & Hk & Hs).
    rewrite Forall_forall in IH. apply (IH k Hk s); [|exact Hs].
    simpl in Hnd. apply NoDup_cons_iff in Hnd. destruct Hnd as [_ Hnd].
    clear -Hnd Hk. induction ks as [|a ks IHks]; [destruct Hk|].
    simpl in Hnd. apply NoDup_app_remove_l in Hnd as Hr.
    destruct Hk as [-> | Hk]; [|apply IHks; assumption].
    apply NoDup_app_remove_r in Hnd. exact Hnd.
Qed.

(** *** Lists *)

Lemma NoDup_map_In_inj {A B} (f : A -> B) (l : list A) (a b : A) :
  NoDup (map f l) -> In a l -> In b l -> f a = f b -> a = b.
Proof.
  induction l as [|x l IH]; intros Hnd Ha Hb E; [destruct Ha|].
  simpl in Hnd. apply NoDup_cons_iff in Hnd. destruct Hnd as [Hx Hnd].
  destruct Ha as [<- | Ha], Hb as [<- | Hb].
  - reflexivity.
  - exfalso. apply Hx. rewrite E. apply in_map, Hb.
  - exfalso. apply Hx. rewrite <- E. apply in_map, Ha.
  - apply IH; assumption.
Qed.

Lemma NoDup_app_disjoint {A} (l1 l2 : list A) (a : A) :
  NoDup (l1 ++ l2) -> In a l1 -> In a l2 -> False.
Proof.
  induction l1 as [|x l1 IH]; intros Hnd H1 H2; [destruct H1|].
  simpl in Hnd. apply NoDup_cons_iff in Hnd. destruct Hnd as [Hx Hnd].
  destruct H1 as [<- | H1].
  - apply Hx. apply in_or_app. right. exact H2.
  - apply IH; assumption.
Qed.

Lemma NoDup_app_l {A} (l1 l2 : list A) : NoDup (l1 ++ l2) -> NoDup l1.
Proof. apply NoDup_app_remove_r. Qed.

Lemma NoDup_app_r {A} (l1 l2 : list A) : NoDup (l1 ++ l2) -> NoDup l2.
Proof. apply NoDup_app_remove_l. Qed.

Lemma first_some_Some {A B} (f : A -> option B) (l : list A) (b : B) :
  first_some f l = Some b -> exists a, In a l /\ f a = Some b.
Proof.
  induction l as [|a l IH]; simpl; [discriminate|].
  destruct (f a) as [b'|] eqn:E.
  - intro H. injection H as <-. exists a. auto.
  - intro H. destruct (IH H) as (a' & Ha & Hf). exists a'. auto.
Qed.

Lemma first_some_None {A B} (f : A -> option B) (l : list A) :
  first_some f l = None <-> forall a, In a l -> f a = None.
Proof.
  induction l as [|a l IH]; simpl.
  - split; [intros _ a [] | reflexivity].
  - destruct (f a) as [b|] eqn:E.
    + split; [discriminate|]. intro H. rewrite <- E. apply H. left. reflexivity.
    + rewrite IH. split.
      * intros H x [<- | Hx]; [exact E | apply H, Hx].
      * intros H x Hx. apply H. right. exact Hx.
Qed.

Lemma first_some_split {A B} (f : A -> option B) (l1 l2 : list A) (a : A) :
  (forall x, In x l1 -> f x = None) ->
  first_some f (l1 ++ a :: l2) =
  match f a with Some b => Some b | None => first_some f l2 end.
Proof.
  intro H. induction l1 as [|x l1 IH]; simpl; [reflexivity|].
  rewrite (H x) by (left; reflexivity). apply IH. intros y Hy. apply H. right. exact Hy.
Qed.

Lemma has_child_true (n : NodeId) (ks : list Tree) :
  has_child n ks = true <-> In n (map root ks).
Proof.
  unfold has_child. rewrite existsb_exists, in_map_iff. split.
  - intros (c & Hc & E). apply Nat.eqb_eq in E. eauto.
  - intros (c & E & Hc). exists c. split; [exact Hc | apply Nat.eqb_eq, E].
Qed.

Lemma roots_in_idsF (ks : list Tree) (n : NodeId) :
  In n (map root ks) -> In n (idsF ks).
Proof.
  rewrite in_map_iff. intros (c & <- & Hc). apply in_idsF. exists c. split; [exact Hc | apply ids_root].
Qed.

(** *** Looking a node up *)

Lemma subtrees_unique (t s u : Tree) :
  NoDup (ids t) -> In s (subtrees t) -> In u (subtrees t) -> root s = root u -> s = u.
Proof. rewrite ids_subtrees. apply NoDup_map_In_inj. Qed.

Lemma subtreesF_unique (f : list Tree) (s u : Tree) :
  NoDup (idsF f) -> In s (subtreesF f) -> In u (subtreesF f) -> root s = root u -> s = u.
Proof. rewrite idsF_subtreesF. apply NoDup_map_In_inj. Qed.

Lemma subtree_Some (n : NodeId) (t s : Tree) :
  subtree n t = Some s -> In s (subtrees t) /\ root s = n.
Proof.
  revert s. induction t as [i ks IH] using Tree_ind. intros s. simpl.
  destruct (Nat.eqb_spec i n) as [->|Hne].
  - intro H. injection H as <-. split; [left|]; reflexivity.
  - intro H. apply first_some_Some in H. destruct H as (k & Hk & Hs).
    rewrite Forall_forall in IH. destruct (IH k Hk s Hs) as [Hin Hr].
    split; [|exact Hr]. right. apply in_flat_map. eauto.
Qed.

Lemma subtree_None (n : NodeId) (t : Tree) :
  subtree n t = None <-> ~ In n (ids t).
Proof.
  induction t as [i ks IH] using Tree_ind. simpl.
  rewrite Forall_forall in IH.
  destruct (Nat.eqb_spec i n) as [->|Hne].
  - split; [discriminate | intro H; exfalso; apply H; left; reflexivity].
  - rewrite first_some_None. split.
    + intros H [E | Hin]; [contradiction|].
      apply in_flat_map in Hin. destruct Hin as (k & Hk & Hin).
      apply (IH k Hk); [apply H, Hk | exact Hin].
    + intros H k Hk. apply (IH k Hk). intro Hin. apply H. right.
      apply in_flat_map. eauto.
Qed.

Lemma subtree_of_subtrees (t s : Tree) :
  NoDup (ids t) -> In s (subtrees t) -> subtree (root s) t = Some s.
Proof.
  intros Hnd Hs. destruct (subtree (root s) t) as [u|] eqn:E.
  - apply subtree_Some in E. destruct E as [Hu Hr].
    f_equal. apply (subtrees_unique t); auto.
  - exfalso. apply subtree_None in E. apply E.
    apply (subtrees_ids_incl t s Hs). apply ids_root.
Qed.

Lemma subtreeF_Some (n : NodeId) (f : list Tree) (s : Tree) :
  subtreeF n f = Some s -> In s (subtreesF f) /\ root s = n.
Proof.
  intro H. apply first_some_Some in H. destruct H as (t & Ht & Hs).
  apply subtree_Some in Hs. destruct Hs as [Hs Hr]. split; [|exact Hr].
  apply in_subtreesF. eauto.
Qed.

Lemma subtreeF_None (n : NodeId) (f : list Tree) :
  subtreeF n f = None <-> ~ In n (idsF f).
Proof.
  unfold subtreeF. rewrite first_some_None, in_idsF. split.
  - intros H (t & Ht & Hin). apply (proj1 (subtree_None n t) (H t Ht)), Hin.
  - intros H t Ht. apply subtree_None. intro Hin. apply H. eauto.
Qed.

Lemma subtreeF_of_subtreesF (f : list Tree) (s : Tree) :
  NoDup (idsF f) -> In s (subtreesF f) -> subtreeF (root s) f = Some s.
Proof.
  intros Hnd Hs. destruct (subtreeF (root s) f) as [u|] eqn:E.
  - apply subtreeF_Some in E. destruct E as [Hu Hr].
    f_equal. apply (subtreesF_unique f); auto.
  - exfalso. apply subtreeF_None in E. apply E.
    rewrite idsF_subtreesF. apply in_map, Hs.
Qed.

Lemma subtreesF_ids_incl (f : list Tree) (s : Tree) :
  In s (subtreesF f) -> incl (ids s) (idsF f).
Proof.
  intros Hs x Hx. apply in_subtreesF in Hs. destruct Hs as (t & Ht & Hs).
  apply in_idsF. exists t. split; [exact Ht | apply (subtrees_ids_incl t s Hs x Hx)].
Qed.

Lemma subtreesF_NoDup (f : list Tree) (s : Tree) :
  NoDup (idsF f) -> In s (subtreesF f) -> NoDup (ids s).
Proof.
  intros Hnd Hs. apply in_subtreesF in Hs. destruct Hs as (t & Ht & Hs).
  apply (subtrees_NoDup t s); [|exact Hs].
  apply in_split in Ht. destruct Ht as (l1 & l2 & ->).
  rewrite idsF_app, idsF_cons in Hnd.
  apply NoDup_app_r, NoDup_app_l in Hnd. exact Hnd.
Qed.

(** *** The parent of a node *)

Lemma parentT_Some (n : NodeId) (t s : Tree) :
  parentT n t = Some s -> In s (subtrees t) /\ In n (map root (kids s)).
Proof.
  revert s. induction t as [i ks IH] using Tree_ind. intros s. simpl.
  destruct (has_child n ks) eqn:C.
  - intro H. injection H as <-. split; [left; reflexivity|].
    apply has_child_true, C.
  - intro H. apply first_some_Some in H. destruct H as (k & Hk & Hs).
    rewrite Forall_forall in IH. destruct (IH k Hk s Hs) as [Hin Hc].
    split; [|exact Hc]. right. apply in_flat_map. eauto.
Qed.

Lemma parentT_in (n : NodeId) (t s : Tree) :
  parentT n t = Some s -> In n (idsF (kids t)).
Proof.
  intro H. apply parentT_Some in H. destruct H as [Hs Hc].
  apply roots_in_idsF in Hc.
  rewrite subtrees_unfold in Hs. destruct Hs as [<- | Hs]; [exact Hc|].
  apply (subtreesF_ids_incl _ s Hs). rewrite ids_unfold. right. exact Hc.
Qed.

Lemma parentT_of_subtrees (n : NodeId) (t s : Tree) :
  NoDup (ids t) -> In s (subtrees t) -> In n (map root (kids s)) ->
  parentT n t = Some s.
Proof.
  revert s. induction t as [i ks IH] using Tree_ind. intros s Hnd Hs Hc.
  simpl. destruct Hs as [<- | Hs].
  - simpl in Hc. apply has_child_true in Hc. rewrite Hc. reflexivity.
  - apply in_flat_map in Hs. destruct Hs as (k & Hk & Hs).
    simpl in Hnd. apply NoDup_cons_iff in Hnd. destruct Hnd as [_ Hnd].
    apply in_split in Hk. destruct Hk as (l1 & l2 & ->).
    fold (idsF (l1 ++ k :: l2)) in Hnd. rewrite idsF_app, idsF_cons in Hnd.
    assert (Hnk : In n (idsF (kids k))).
    { apply roots_in_idsF in Hc. rewrite subtrees_unfold in Hs.
      destruct Hs as [<- | Hs]; [exact Hc|].
      apply (subtreesF_ids_incl _ s Hs). rewrite ids_unfold. right. exact Hc. }
    assert (Hk' : NoDup (ids k)) by (apply NoDup_app_r, NoDup_app_l in Hnd; exact Hnd).
    assert (Hnk' : In n (ids k)) by (rewrite ids_unfold; right; exact Hnk).
    destruct (has_child n (l1 ++ k :: l2)) eqn:C.
    + exfalso. apply has_child_true in C. rewrite map_app in C. simpl in C.
      apply in_app_or in C. destruct C as [C | [C | C]].
      * apply roots_in_idsF in C.
        apply (NoDup_app_disjoint _ _ n Hnd C). apply in_or_app. left. exact Hnk'.
      * rewrite ids_unfold in Hk'. apply NoDup_cons_iff in Hk'. destruct Hk' as [Hk' _].
        apply Hk'. rewrite C. exact Hnk.
      * apply roots_in_idsF in C. apply NoDup_app_r in Hnd.
        apply (NoDup_app_disjoint _ _ n Hnd Hnk' C).
    + rewrite first_some_split.
      * rewrite Forall_forall in IH.
        rewrite (IH k (in_elt k l1 l2) s Hk' Hs Hc). reflexivity.
      * intros x Hx. destruct (parentT n x) as [u|] eqn:E; [|reflexivity].
        exfalso. apply parentT_in in E.
        apply (NoDup_app_disjoint _ _ n Hnd).
        -- apply in_idsF. exists x. split; [exact Hx|]. rewrite ids_unfold. right. exact E.
        -- apply in_or_app. left. exact Hnk'.
Qed.

Lemma parentF_Some (n : NodeId) (f : list Tree) (s : Tree) :
  parentF n f = Some s -> In s (subtreesF f) /\ In n (map root (kids s)).
Proof.
  intro H. apply first_some_Some in H. destruct H as (t & Ht & Hs).
  apply parentT_Some in Hs. destruct Hs as [Hs Hc]. split; [|exact Hc].
  apply in_subtreesF. eauto.
Qed.

Lemma parentF_of_subtreesF (n : NodeId) (f : list Tree) (s : Tree) :
  NoDup (idsF f) -> In s (subtreesF f) -> In n (map root (kids s)) ->
  parentF n f = Some s.
Proof.
  intros Hnd Hs Hc. apply in_subtreesF in Hs. destruct Hs as (t & Ht & Hs).
  apply in_split in Ht. destruct Ht as (l1 & l2 & ->).
  rewrite idsF_app, idsF_cons in Hnd.
  assert (Ht : NoDup (ids t)) by (apply NoDup_app_r, NoDup_app_l in Hnd; exact Hnd).
  assert (Hn : In n (ids t)).
  { apply (subtrees_ids_incl t s Hs). rewrite ids_unfold. right. apply roots_in_idsF, Hc. }
  unfold parentF. rewrite first_some_split.
  - rewrite (parentT_of_subtrees n t s Ht Hs Hc). reflexivity.
  - intros x Hx. destruct (parentT n x) as [u|] eqn:E; [|reflexivity].
    exfalso. apply parentT_in in E.
    apply (NoDup_app_disjoint _ _ n Hnd).
    + apply in_idsF. exists x. split; [exact Hx|]. rewrite ids_unfold. right. exact E.
    + apply in_or_app. left. exact Hn.
Qed.

Lemma parentF_None_root (f : list Tree) (t : Tree) :
  NoDup (idsF f) -> In t f -> parentF (root t) f = None.
Proof.
  intros Hnd Ht. destruct (parentF (root t) f) as [s|] eqn:E; [|reflexivity].
  exfalso. apply parentF_Some in E. destruct E as [Hs Hc].
  apply in_map_iff in Hc. destruct Hc as (c & Hr & Hc).
  assert (Hcs : In c (subtreesF f)).
  { apply in_subtreesF in Hs. destruct Hs as (u & Hu & Hs). apply in_subtreesF.
    exists u. split; [exact Hu|]. apply (subtrees_trans u s c Hs).
    rewrite subtrees_unfold. right. apply in_subtreesF. exists c.
    split; [exact Hc | apply subtrees_self]. }
  assert (Hts : In t (subtreesF f)).
  { apply in_subtreesF. exists t. split; [exact Ht | apply subtrees_self]. }
  pose proof (subtreesF_unique f c t Hnd Hcs Hts Hr) as ->.
  (* [t] is a child of [s], so its root occurs twice in [s] or [s] is deeper *)
  assert (Hss : NoDup (ids s)) by (apply (subtreesF_NoDup f s Hnd Hs)).
  apply in_subtreesF in Hs. destruct Hs as (u & Hu & Hs).
  assert (Hru : In (root t) (idsF (kids u))).
  { rewrite subtrees_unfold in Hs. destruct Hs as [<- | Hs].
    - apply roots_in_idsF, in_map, Hc.
    - apply (subtreesF_ids_incl _ s Hs). rewrite ids_unfold. right.
      apply roots_in_idsF, in_map, Hc. }
  (* the root of [t] occurs in [t] and strictly inside [u] *)
  apply in_split in Hu. destruct Hu as (l1 & l2 & ->).
  rewrite idsF_app, idsF_cons in Hnd.
  apply in_app_or in Ht. destruct Ht as [Ht | [-> | Ht]].
  - apply (NoDup_app_disjoint _ _ (root t) Hnd).
    + apply in_idsF. exists t. split; [exact Ht | apply ids_root].
    + apply in_or_app. left. rewrite ids_unfold. right. exact Hru.
  - apply NoDup_app_r, NoDup_app_l in Hnd. rewrite ids_unfold in Hnd.
    apply NoDup_cons_iff in Hnd. destruct Hnd as [Hnd _]. apply Hnd, Hru.
  - apply NoDup_app_r in Hnd. apply (NoDup_app_disjoint _ _ (root t) Hnd).
    + rewrite ids_unfold. right. exact Hru.
    + apply in_idsF. exists t. split; [exact Ht | apply ids_root].
Qed.

(** *** Removing a subtree *)

Lemma forest_shared_id (f : list Tree) (a b : Tree) (x : NodeId) :
  NoDup (idsF f) -> In a f -> In b f -> In x (ids a) -> In x (ids b) -> a = b.
Proof.
  induction f as [|t f IH]; intros Hnd Ha Hb Hxa Hxb; [destruct Ha|].
  rewrite idsF_cons in Hnd.
  destruct Ha as [<- | Ha], Hb as [<- | Hb].
  - reflexivity.
  - exfalso. apply (NoDup_app_disjoint _ _ x Hnd Hxa). apply in_idsF. eauto.
  - exfalso. apply (NoDup_app_disjoint _ _ x Hnd Hxb). apply in_idsF. eauto.
  - apply IH; auto. apply NoDup_app_r in Hnd. exact Hnd.
Qed.

Lemma map_id_in {A} (f : A -> A) (l : list A) :
  (forall a, In a l -> f a = a) -> map f l = l.
Proof.
  induction l as [|a l IH]; intro H; simpl; [reflexivity|].
  rewrite (H a) by (left; reflexivity). f_equal. apply IH. intros b Hb. apply H. right. exact Hb.
Qed.

Lemma filter_id_in {A} (f : A -> bool) (l : list A) :
  (forall a, In a l -> f a = true) -> List.filter f l = l.
Proof.
  induction l as [|a l IH]; intro H; simpl; [reflexivity|].
  rewrite (H a) by (left; reflexivity). f_equal. apply IH. intros b Hb. apply H. right. exact Hb.
Qed.

Lemma remove_sub_unfold (n : NodeId) (t : Tree) :
  remove_sub n t = T (root t) (removeF n (kids t)).
Proof. destruct t. reflexivity. Qed.

Lemma root_remove_sub (n : NodeId) (t : Tree) : root (remove_sub n t) = root t.
Proof. destruct t. reflexivity. Qed.

Lemma removeF_cons (n : NodeId) (t : Tree) (f : list Tree) :
  removeF n (t :: f) =
  if Nat.eqb (root t) n then removeF n f else remove_sub n t :: removeF n f.
Proof.
  unfold removeF. simpl. rewrite root_remove_sub.
  destruct (Nat.eqb (root t) n); reflexivity.
Qed.

Lemma removeF_app (n : NodeId) (f g : list Tree) :
  removeF n (f ++ g) = removeF n f ++ removeF n g.
Proof. unfold removeF. rewrite map_app, filter_app. reflexivity. Qed.

Lemma remove_sub_absent (n : NodeId) (t : Tree) :
  ~ In n (idsF (kids t)) -> remove_sub n t = t.
Proof.
  induction t as [i ks IH] using Tree_ind. intro H. simpl in *.
  rewrite Forall_forall in IH. f_equal.
  rewrite map_id_in.
  - apply filter_id_in. intros k Hk. apply negb_true_iff, Nat.eqb_neq.
    intros E. apply H. apply in_idsF. exists k. split; [exact Hk|].
    rewrite <- E. apply ids_root.
  - intros k Hk. apply (IH k Hk). intro Hin. apply H. apply in_idsF.
    exists k. split; [exact Hk|]. rewrite ids_unfold. right. exact Hin.
Qed.

Lemma removeF_absent (n : NodeId) (f : list Tree) :
  ~ In n (idsF f) -> removeF n f = f.
Proof.
  intro H. change (removeF n f) with (kids (remove_sub n (T 0 f))).
  rewrite remove_sub_absent; [reflexivity | exact H].
Qed.

Lemma ids_remove_sub_incl (n : NodeId) (t : Tree) (x : NodeId) :
  In x (ids (remove_sub n t)) -> In x (ids t).
Proof.
  revert x. induction t as [i ks IH] using Tree_ind. intros x. simpl.
  intros [E | H]; [left; exact E | right].
  apply in_flat_map in H. destruct H as (k' & Hk' & Hx).
  apply filter_In in Hk'. destruct Hk' as [Hk' _].
  apply in_map_iff in Hk'. destruct Hk' as (k & <- & Hk).
  rewrite Forall_forall in IH. apply in_flat_map. exists k.
  split; [exact Hk | apply (IH k Hk x Hx)].
Qed.

Lemma idsF_removeF_incl (n : NodeId) (f : list Tree) (x : NodeId) :
  In x (idsF (removeF n f)) -> In x (idsF f).
Proof.
  intro H. apply in_flat_map in H. destruct H as (k' & Hk' & Hx).
  apply filter_In in Hk'. destruct Hk' as [Hk' _].
  apply in_map_iff in Hk'. destruct Hk' as (k & <- & Hk).
  apply ids_remove_sub_incl in Hx. apply in_idsF. eauto.
Qed.

Lemma in_removeF (n : NodeId) (f : list Tree) (k' : Tree) :
  In k' (removeF n f) <-> exists k, In k f /\ root k <> n /\ k' = remove_sub n k.
Proof.
  unfold removeF. rewrite filter_In, in_map_iff. split.
  - intros [(k & <- & Hk) Hr]. exists k. rewrite root_remove_sub in Hr.
    apply negb_true_iff, Nat.eqb_neq in Hr. auto.
  - intros (k & Hk & Hr & ->). split; [eauto|].
    rewrite root_remove_sub. apply negb_true_iff, Nat.eqb_neq, Hr.
Qed.

(** Removal takes away exactly the identifiers of the removed subtree. *)
Lemma removeF_perm_aux (ks : list Tree) :
  Forall (fun k => forall n s, NoDup (idsF (kids k)) -> subtreeF n (kids k) = Some s ->
                   Permutation (idsF (kids k)) (idsF (removeF n (kids k)) ++ ids s)) ks ->
  forall n s, NoDup (idsF ks) -> subtreeF n ks = Some s ->
  Permutation (idsF ks) (idsF (removeF n ks) ++ ids s).
Proof.
  induction 1 as [|k ks Hk _ IH]; intros n s Hnd Hs; [discriminate|].
  rewrite idsF_cons in *. rewrite removeF_cons.
  unfold subtreeF in Hs. simpl in Hs. fold (subtreeF n ks) in Hs.
  destruct (subtree n k) as [s'|] eqn:E.
  - injection Hs as ->.
    assert (Hn : In n (ids k)).
    { destruct (subtree_Some n k s E) as [Hin <-].
      apply (subtrees_ids_incl k s Hin), ids_root. }
    assert (Habs : removeF n ks = ks).
    { apply removeF_absent. intro Hin. apply (NoDup_app_disjoint _ _ n Hnd Hn Hin). }
    rewrite Habs. destruct (Nat.eqb_spec (root k) n) as [Hr|Hr].
    + assert (s = k) as ->.
      { destruct k as [i cs]. simpl in E, Hr. subst i.
        rewrite Nat.eqb_refl in E. congruence. }
      apply Permutation_app_comm.
    + assert (Es : subtreeF n (kids k) = Some s).
      { destruct k as [i cs]. simpl in E, Hr. apply Nat.eqb_neq in Hr.
        rewrite Hr in E. exact E. }
      rewrite idsF_cons, remove_sub_unfold. simpl.
      rewrite (ids_unfold k) in *. simpl.
      apply perm_skip.
      assert (Hkk : NoDup (idsF (kids k))).
      { apply NoDup_app_l in Hnd. apply NoDup_cons_iff in Hnd. apply Hnd. }
      rewrite (Hk n s Hkk Es) at 1.
      rewrite <- !app_assoc. apply Permutation_app_head. apply Permutation_app_comm.
  - assert (Hn : ~ In n (ids k)) by (apply subtree_None, E).
    destruct (Nat.eqb_spec (root k) n) as [Hr|Hr].
    { exfalso. apply Hn. rewrite <- Hr. apply ids_root. }
    rewrite idsF_cons, remove_sub_absent.
    + rewrite <- app_assoc. apply Permutation_app_head.
      apply IH; [apply NoDup_app_r in Hnd; exact Hnd | exact Hs].
    + intro Hin. apply Hn. rewrite ids_unfold. right. exact Hin.
Qed.

Lemma removeF_perm (f : list Tree) (n : NodeId) (s : Tree) :
  NoDup (idsF f) -> subtreeF n f = Some s ->
  Permutation (idsF f) (idsF (removeF n f) ++ ids s).
Proof.
  revert n s. change f with (kids (T 0 f)). generalize (T 0 f). clear f.
  intro t. induction t as [i ks IH] using Tree_ind. simpl.
  apply removeF_perm_aux. exact IH.
Qed.

Lemma removeF_NoDup (f : list Tree) (n : NodeId) :
  NoDup (idsF f) -> NoDup (idsF (removeF n f)).
Proof.
  intro Hnd. destruct (subtreeF n f) as [s|] eqn:E.
  - pose proof (removeF_perm f n s Hnd E) as P.
    apply (Permutation_NoDup P) in Hnd. apply NoDup_app_l in Hnd. exact Hnd.
  - apply subtreeF_None in E. rewrite removeF_absent; assumption.
Qed.

Lemma removeF_gone (f : list Tree) (n : NodeId) (s : Tree) (x : NodeId) :
  NoDup (idsF f) -> subtreeF n f = Some s -> In x (ids s) ->
  ~ In x (idsF (removeF n f)).
Proof.
  intros Hnd E Hx Hin. pose proof (removeF_perm f n s Hnd E) as P.
  apply (Permutation_NoDup P) in Hnd.
  apply (NoDup_app_disjoint _ _ x Hnd Hin Hx).
Qed.

Lemma removeF_kept (f : list Tree) (n : NodeId) (s : Tree) (x : NodeId) :
  NoDup (idsF f) -> subtreeF n f = Some s -> In x (idsF f) -> ~ In x (ids s) ->
  In x (idsF (removeF n f)).
Proof.
  intros Hnd E Hx Hns. pose proof (removeF_perm f n s Hnd E) as P.
  apply (Permutation_in _ P) in Hx. apply in_app_or in Hx. tauto.
Qed.

Lemma remove_sub_NoDup (t : Tree) (n : NodeId) :
  NoDup (ids t) -> NoDup (ids (remove_sub n t)).
Proof.
  rewrite remove_sub_unfold, (ids_unfold t). simpl. fold (idsF (removeF n (kids t))).
  rewrite !NoDup_cons_iff. intros [Hr Hnd]. split.
  - intro Hin. apply Hr. apply (idsF_removeF_incl n _ _ Hin).
  - apply removeF_NoDup, Hnd.
Qed.

(** The subtrees that survive a removal. *)
Lemma subtrees_remove_sub (t : Tree) :
  forall s n, NoDup (ids t) -> In s (subtrees t) ->
  In (root s) (ids (remove_sub n t)) ->
  In (remove_sub n s) (subtrees (remove_sub n t)).
Proof.
  induction t as [i ks IH] using Tree_ind. intros s n Hnd Hs Hsurv.
  rewrite Forall_forall in IH.
  destruct Hs as [<- | Hs]; [apply subtrees_self|].
  apply in_flat_map in Hs. destruct Hs as (k & Hk & Hs).
  change (remove_sub n (T i ks)) with (T i (removeF n ks)) in *. simpl in *. right.
  apply NoDup_cons_iff in Hnd. destruct Hnd as [Hi Hnd].
  fold (idsF ks) in Hi, Hnd.
  assert (Hrs : In (root s) (ids k)) by (apply (subtrees_ids_incl k s Hs), ids_root).
  destruct Hsurv as [E | Hsurv].
  { exfalso. apply Hi. rewrite E. apply in_idsF. eauto. }
  apply in_flat_map in Hsurv. destruct Hsurv as (k' & Hk' & Hx).
  apply in_removeF in Hk'. destruct Hk' as (k0 & Hk0 & Hr & ->).
  assert (k0 = k) as ->.
  { apply (forest_shared_id ks k0 k (root s) Hnd Hk0 Hk); [|exact Hrs].
    apply (ids_remove_sub_incl n k0 _ Hx). }
  apply in_flat_map. exists (remove_sub n k). split.
  - apply in_removeF. eauto.
  - apply IH; auto.
    apply in_split in Hk. destruct Hk as (l1 & l2 & ->).
    rewrite idsF_app, idsF_cons in Hnd. apply NoDup_app_r, NoDup_app_l in Hnd. exact Hnd.
Qed.

Lemma subtreesF_removeF (f : list Tree) (s : Tree) (n : NodeId) :
  NoDup (idsF f) -> In s (subtreesF f) ->
  In (root s) (idsF (removeF n f)) ->
  In (remove_sub n s) (subtreesF (removeF n f)).
Proof.
  intros Hnd Hs Hsurv.
  apply in_subtreesF in Hs. destruct Hs as (k & Hk & Hs).
  assert (Hrs : In (root s) (ids k)) by (apply (subtrees_ids_incl k s Hs), ids_root).
  apply in_idsF in Hsurv. destruct Hsurv as (k' & Hk' & Hx).
  apply in_removeF in Hk'. destruct Hk' as (k0 & Hk0 & Hr & ->).
  assert (k0 = k) as ->.
  { apply (forest_shared_id f k0 k (root s) Hnd Hk0 Hk); [|exact Hrs].
    apply (ids_remove_sub_incl n k0 _ Hx). }
  apply in_subtreesF. exists (remove_sub n k). split.
  - apply in_removeF. eauto.
  - apply subtrees_remove_sub; auto.
    apply in_split in Hk. destruct Hk as (l1 & l2 & ->).
    rewrite idsF_app, idsF_cons in Hnd. apply NoDup_app_r, NoDup_app_l in Hnd. exact Hnd.
Qed.

(** *** Inserting a subtree *)

Lemma insert_sub_absent (p : NodeId) (ref : option NodeId) (c t : Tree) :
  ~ In p (ids t) -> insert_sub p ref c t = t.
Proof.
  induction t as [i ks IH] using Tree_ind. intro H. simpl in *.
  rewrite Forall_forall in IH.
  destruct (Nat.eqb_spec i p) as [E|E]; [tauto|].
  f_equal. apply map_id_in. intros k Hk. apply (IH k Hk).
  intro Hin. apply H. right. apply in_flat_map. eauto.
Qed.

Lemma insertF_absent (p : NodeId) (ref : option NodeId) (c : Tree) (f : list Tree) :
  ~ In p (idsF f) -> insertF p ref c f = f.
Proof.
  intro H. apply map_id_in. intros k Hk. apply insert_sub_absent.
  intro Hin. apply H. apply in_idsF. eauto.
Qed.

Lemma root_insert_sub (p : NodeId) (ref : option NodeId) (c t : Tree) :
  root (insert_sub p ref c t) = root t.
Proof. destruct t as [i ks]. simpl. destruct (Nat.eqb i p); reflexivity. Qed.

Lemma insert_before_perm (ref : option NodeId) (c : Tree) (ks : list Tree) :
  Permutation (insert_before ref c ks) (ks ++ [c]).
Proof.
  induction ks as [|k ks IH]; simpl; [apply Permutation_refl|].
  destruct ref as [r|].
  - destruct (Nat.eqb (root k) r).
    + change (k :: ks ++ [c]) with ((k :: ks) ++ [c]).
      apply (Permutation_cons_append (k :: ks) c).
    + apply perm_skip, IH.
  - apply perm_skip, IH.
Qed.

Lemma idsF_perm (f g : list Tree) : Permutation f g -> Permutation (idsF f) (idsF g).
Proof. intro H. unfold idsF. apply Permutation_flat_map, H. Qed.

Lemma insertF_perm_aux (p : NodeId) (ref : option NodeId) (c : Tree) (ks : list Tree) :
  Forall (fun k => NoDup (ids k) -> In p (ids k) ->
                   Permutation (ids (insert_sub p ref c k)) (ids k ++ ids c)) ks ->
  NoDup (idsF ks) -> In p (idsF ks) ->
  Permutation (idsF (insertF p ref c ks)) (idsF ks ++ ids c).
Proof.
  induction 1 as [|k ks Hk _ IH]; intros Hnd Hp; [destruct Hp|].
  unfold insertF in *. simpl. rewrite !idsF_cons in *.
  destruct (in_dec Nat.eq_dec p (ids k)) as [Hin | Hin].
  - fold (insertF p ref c ks). rewrite insertF_absent.
    + rewrite (Hk (NoDup_app_l _ _ Hnd) Hin).
      rewrite <- !app_assoc. apply Permutation_app_head, Permutation_app_comm.
    + intro Hin'. apply (NoDup_app_disjoint _ _ p Hnd Hin Hin').
  - rewrite insert_sub_absent by exact Hin. rewrite <- app_assoc.
    apply Permutation_app_head. apply IH.
    + apply NoDup_app_r in Hnd. exact Hnd.
    + apply in_app_or in Hp. tauto.
Qed.

Lemma insert_sub_perm (p : NodeId) (ref : option NodeId) (c t : Tree) :
  NoDup (ids t) -> In p (ids t) ->
  Permutation (ids (insert_sub p ref c t)) (ids t ++ ids c).
Proof.
  induction t as [i ks IH] using Tree_ind. intros Hnd Hp. simpl.
  destruct (Nat.eqb_spec i p) as [E|E].
  - simpl. apply perm_skip. fold (idsF (insert_before ref c ks)) (idsF ks).
    rewrite (idsF_perm _ _ (insert_before_perm ref c ks)), idsF_app. simpl.
    rewrite app_nil_r. apply Permutation_refl.
  - simpl. apply perm_skip. fold (idsF ks).
    apply NoDup_cons_iff in Hnd. destruct Hnd as [_ Hnd].
    destruct Hp as [Hp | Hp]; [contradiction|].
    apply (insertF_perm_aux p ref c ks IH Hnd Hp).
Qed.

Lemma insertF_perm (p : NodeId) (ref : option NodeId) (c : Tree) (f : list Tree) :
  NoDup (idsF f) -> In p (idsF f) ->
  Permutation (idsF (insertF p ref c f)) (idsF f ++ ids c).
Proof.
  apply insertF_perm_aux. apply Forall_forall. intros k _. apply insert_sub_perm.
Qed.

Lemma insertF_NoDup (p : NodeId) (ref : option NodeId) (c : Tree) (f : list Tree) :
  NoDup (idsF f ++ ids c) -> NoDup (idsF (insertF p ref c f)).
Proof.
  intro Hnd. destruct (in_dec Nat.eq_dec p (idsF f)) as [Hin | Hin].
  - apply (Permutation_NoDup (Permutation_sym (insertF_perm p ref c f (NoDup_app_l _ _ Hnd) Hin))).
    exact Hnd.
  - rewrite insertF_absent by exact Hin. apply NoDup_app_l in Hnd. exact Hnd.
Qed.

Lemma in_insert_before (ref : option NodeId) (c : Tree) (ks : list Tree) (k : Tree) :
  In k (insert_before ref c ks) <-> k = c \/ In k ks.
Proof.
  split.
  - intro H. apply (Permutation_in _ (insert_before_perm ref c ks)) in H.
    apply in_app_or in H. destruct H as [H | [H | []]]; auto.
  - intro H. apply (Permutation_in _ (Permutation_sym (insert_before_perm ref c ks))).
    apply in_or_app. destruct H as [-> | H]; [right; left; reflexivity | left; exact H].
Qed.

Lemma insert_sub_at (ref : option NodeId) (c s : Tree) :
  insert_sub (root s) ref c s = T (root s) (insert_before ref c (kids s)).
Proof. destruct s as [i ks]. simpl. rewrite Nat.eqb_refl. reflexivity. Qed.

(** The subtrees of a tree after an insertion. *)
Lemma subtrees_insert_sub (p : NodeId) (ref : option NodeId) (c t : Tree) :
  forall s, NoDup (ids t) -> In s (subtrees t) ->
  In (insert_sub p ref c s) (subtrees (insert_sub p ref c t)).
Proof.
  induction t as [i ks IH] using Tree_ind. intros s Hnd Hs.
  rewrite Forall_forall in IH.
  destruct Hs as [<- | Hs]; [apply subtrees_self|].
  apply in_flat_map in Hs. destruct Hs as (k & Hk & Hs).
  simpl in Hnd. apply NoDup_cons_iff in Hnd. destruct Hnd as [Hi Hnd].
  fold (idsF ks) in Hi, Hnd.
  assert (Hkk : NoDup (ids k)).
  { apply in_split in Hk. destruct Hk as (l1 & l2 & ->).
    rewrite idsF_app, idsF_cons in Hnd. apply NoDup_app_r, NoDup_app_l in Hnd. exact Hnd. }
  simpl. destruct (Nat.eqb_spec i p) as [E|E].
  - subst p. rewrite insert_sub_absent.
    + simpl. right. apply in_flat_map. exists k. split; [|exact Hs].
      apply in_insert_before. right. exact Hk.
    + intro Hin. apply Hi. apply in_idsF. exists k. split; [exact Hk|].
      apply (subtrees_ids_incl k s Hs), Hin.
  - simpl. right. apply in_flat_map. exists (insert_sub p ref c k). split.
    + apply in_map, Hk.
    + apply IH; auto.
Qed.

Lemma subtreesF_insertF (p : NodeId) (ref : option NodeId) (c : Tree) (f : list Tree) (s : Tree) :
  NoDup (idsF f) -> In s (subtreesF f) ->
  In (insert_sub p ref c s) (subtreesF (insertF p ref c f)).
Proof.
  intros Hnd Hs. apply in_subtreesF in Hs. destruct Hs as (k & Hk & Hs).
  apply in_subtreesF. exists (insert_sub p ref c k). split.
  - apply in_map, Hk.
  - apply subtrees_insert_sub; [|exact Hs].
    apply in_split in Hk. destruct Hk as (l1 & l2 & ->).
    rewrite idsF_app, idsF_cons in Hnd. apply NoDup_app_r, NoDup_app_l in Hnd. exact Hnd.
Qed.

(** *** Siblings *)

Lemma insert_before_None (c : Tree) (ks : list Tree) :
  insert_before None c ks = ks ++ [c].
Proof. induction ks as [|k ks IH]; simpl; [|rewrite IH]; reflexivity. Qed.

Lemma insert_before_Some (r : NodeId) (c k : Tree) (l1 l2 : list Tree) :
  ~ In r (map root l1) -> root k = r ->
  insert_before (Some r) c (l1 ++ k :: l2) = l1 ++ c :: k :: l2.
Proof.
  intros H Hr. induction l1 as [|x l1 IH]; simpl.
  - rewrite Hr, Nat.eqb_refl. reflexivity.
  - simpl in H. destruct (Nat.eqb_spec (root x) r) as [E|E]; [tauto|].
    rewrite IH by tauto. reflexivity.
Qed.

Lemma next_after_split (n : NodeId) (l1 l2 : list NodeId) :
  ~ In n l1 -> next_after n (l1 ++ n :: l2) = hd_error l2.
Proof.
  intro H. induction l1 as [|x l1 IH]; simpl.
  - rewrite Nat.eqb_refl. reflexivity.
  - simpl in H. destruct (Nat.eqb_spec x n) as [E|E]; [tauto|]. apply IH. tauto.
Qed.

Lemma next_after_insert_before (ref : option NodeId) (c : Tree) (ks : list Tree) :
  ~ In (root c) (map root ks) ->
  match ref with Some r => In r (map root ks) | None => True end ->
  next_after (root c) (map root (insert_before ref c ks)) = ref.
Proof.
  intros Hc Hr. destruct ref as [r|].
  - apply in_map_iff in Hr. destruct Hr as (k & Ek & Hk).
    assert (exists l1 k' l2, ks = l1 ++ k' :: l2 /\ root k' = r /\ ~ In r (map root l1))
      as (l1 & k' & l2 & -> & Ek' & Hl1).
    { clear Hc. induction ks as [|x ks IH]; [destruct Hk|].
      destruct (Nat.eq_dec (root x) r) as [E|E].
      - exists [], x, ks. auto.
      - destruct Hk as [-> | Hk]; [contradiction|].
        destruct (IH Hk) as (l1 & k' & l2 & -> & E' & H').
        exists (x :: l1), k', l2. repeat split; auto.
        simpl. intros [? | ?]; auto. }
    rewrite insert_before_Some by assumption.
    rewrite map_app. simpl. rewrite next_after_split; [rewrite Ek'; reflexivity|].
    intro Hin. apply Hc. rewrite map_app. apply in_or_app. left. exact Hin.
  - rewrite insert_before_None, map_app. simpl.
    rewrite next_after_split; [reflexivity | exact Hc].
Qed.

Lemma next_after_filter (c o : NodeId) (l : list NodeId) :
  c <> o -> next_after c l <> Some o ->
  next_after c (List.filter (fun x => negb (Nat.eqb x o)) l) = next_after c l.
Proof.
  intros Hco. induction l as [|a l IH]; intro H; simpl in *; [reflexivity|].
  destruct (Nat.eqb_spec a o) as [E|E]; simpl.
  - subst a. destruct (Nat.eqb_spec o c) as [E'|E']; [congruence|]. apply IH, H.
  - destruct (Nat.eqb_spec a c) as [E'|E']; [|apply IH, H].
    destruct l as [|b l]; simpl in *; [reflexivity|].
    destruct (Nat.eqb_spec b o) as [Eb|Eb]; [congruence | reflexivity].
Qed.

(** *** Taking a node out and putting it back *)






(* ================================================================== *)
(** * The page under the DOM operations *)

Lemma elem_store (p : Page) (n : NodeId) (e : Elem) :
  elem p n = Some e <-> store p !! n = Some (ElementNode e).
Proof.
  unfold elem. destruct (store p !! n) as [[| |e']|]; split; congruence.
Qed.

Lemma is_element_true (p : Page) (n : NodeId) :
  is_element p n = true <-> exists e, elem p n = Some e.
Proof.
  unfold is_element. destruct (elem p n) as [e|].
  - split; [eauto | reflexivity].
  - split; [discriminate | intros (e & E); discriminate].
Qed.

Lemma contains_true (p : Page) (a b : NodeId) :
  contains p a b = true <->
  exists t, subtreeF a (forest p) = Some t /\ In b (ids t).
Proof.
  unfold contains. destruct (subtreeF a (forest p)) as [t|].
  - rewrite existsb_exists. split.
    + intros (x & Hx & E). apply Nat.eqb_eq in E. subst x. eauto.
    + intros (t' & E & Hb). injection E as <-. exists b. split; [exact Hb | apply Nat.eqb_refl].
  - split; [discriminate | intros (t & E & _); discriminate].
Qed.

Lemma contains_false (p : Page) (a b : NodeId) (t : Tree) :
  subtreeF a (forest p) = Some t -> contains p a b = false -> ~ In b (ids t).
Proof.
  intros E C Hb. assert (contains p a b = true) by (apply contains_true; eauto). congruence.
Qed.

Lemma removeF_forest (p : Page) (n : NodeId) :
  root (document p) <> n ->
  remove_sub n (document p) :: removeF n (others p) = removeF n (forest p).
Proof.
  intro H. unfold forest. rewrite removeF_cons.
  destruct (Nat.eqb_spec (root (document p)) n); [contradiction | reflexivity].
Qed.

Lemma forest_set_trees (doc : Tree) (oth : list Tree) (p : Page) :
  forest (set_trees doc oth p) = doc :: oth.
Proof. reflexivity. Qed.

Lemma next_after_In (n r : NodeId) (l : list NodeId) :
  next_after n l = Some r -> In r l.
Proof.
  induction l as [|a l IH]; simpl; [discriminate|].
  destruct (Nat.eqb a n).
  - destruct l; simpl; [discriminate|]. intro H. injection H as <-. right. left. reflexivity.
  - intro H. right. apply IH, H.
Qed.

(** What a successful [insertBefore] has checked, and the trees it gives. *)
Lemma insertBefore_inr (parent node : NodeId) (child : option NodeId) (p p' : Page) :
  insertBefore parent node child p = inr p' ->
  exists d sn sq,
    store p !! node = Some d /\ d <> DocumentNode /\
    subtreeF node (forest p) = Some sn /\
    subtreeF parent (forest p) = Some sq /\
    is_element p parent = true /\
    contains p node parent = false /\
    (forall r, child = Some r -> parentNode p r = Some parent) /\
    p' = set_trees
           (insert_sub parent
              (match child with
               | Some r => if Nat.eqb r node then nextSibling p node else child
               | None => None
               end) sn (remove_sub node (document p)))
           (insertF parent
              (match child with
               | Some r => if Nat.eqb r node then nextSibling p node else child
               | None => None
               end) sn (removeF node (others p))) p.
Proof.
  unfold insertBefore.
  destruct (store p !! node) as [d|]; [|discriminate].
  destruct (subtreeF node (forest p)) as [sn|]; [|discriminate].
  destruct (subtreeF parent (forest p)) as [sq|]; [|discriminate].
  destruct (is_element p parent); simpl; [|discriminate].
  destruct (contains p node parent); [discriminate|].
  intro H. exists d, sn, sq.
  assert (Hc : forall r, child = Some r -> parentNode p r = Some parent).
  { intros r Er. subst child.
    destruct (parentNode p r) as [q|] eqn:Eq; simpl in H; [|discriminate H].
    destruct (Nat.eqb_spec q parent) as [->|]; [reflexivity | simpl in H; discriminate H]. }
  assert (Hx : (match child with
                | Some r => match parentNode p r with
                            | Some q => negb (Nat.eqb q parent)
                            | None => true
                            end
                | None => false
                end) = false).
  { destruct child as [r|]; [|reflexivity]. rewrite (Hc r eq_refl), Nat.eqb_refl. reflexivity. }
  rewrite Hx in H.
  destruct d; [discriminate | |]; injection H as <-; repeat split; auto; discriminate.
Qed.

Lemma insertBefore_ok (parent node : NodeId) (child : option NodeId) (p : Page)
      (e : Elem) (sn sq : Tree) :
  elem p node = Some e ->
  subtreeF node (forest p) = Some sn ->
  subtreeF parent (forest p) = Some sq ->
  is_element p parent = true ->
  contains p node parent = false ->
  (forall r, child = Some r -> parentNode p r = Some parent) ->
  insertBefore parent node child p =
  inr (set_trees
         (insert_sub parent
            (match child with
             | Some r => if Nat.eqb r node then nextSibling p node else child
             | None => None
             end) sn (remove_sub node (document p)))
         (insertF parent
            (match child with
             | Some r => if Nat.eqb r node then nextSibling p node else child
             | None => None
             end) sn (removeF node (others p))) p).
Proof.
  intros He Hn Hq Hel Hc Hch. unfold insertBefore.
  apply elem_store in He. rewrite He, Hn, Hq, Hel, Hc. simpl.
  destruct child as [r|]; [|reflexivity].
  rewrite (Hch r eq_refl), Nat.eqb_refl. reflexivity.
Qed.

(** Moving the subtree of [n] under [q], before [ref]: the identifiers of
    the forest are kept, and [n] ends as the child of [q] that comes just
    before [ref]. *)
Lemma move_position (F : list Tree) (q n : NodeId) (ref : option NodeId) (sn sq : Tree) :
  NoDup (idsF F) ->
  subtreeF n F = Some sn -> subtreeF q F = Some sq -> ~ In q (ids sn) ->
  (forall r, ref = Some r -> r <> n /\ In r (map root (kids sq))) ->
  NoDup (idsF (insertF q ref sn (removeF n F))) /\
  Permutation (idsF (insertF q ref sn (removeF n F))) (idsF F) /\
  parentF n (insertF q ref sn (removeF n F)) =
    Some (T q (insert_before ref sn (removeF n (kids sq)))) /\
  next_after n (map root (insert_before ref sn (removeF n (kids sq)))) = ref.
Proof.
  intros Hnd Hn Hq Hqn Href.
  pose proof (removeF_perm F n sn Hnd Hn) as P1.
  pose proof (Permutation_NoDup P1 Hnd) as Hnd1.
  destruct (subtreeF_Some n F sn Hn) as [Hsn Ern].
  destruct (subtreeF_Some q F sq Hq) as [Hsq Erq].
  assert (Hq1 : In q (idsF (removeF n F))).
  { apply (removeF_kept F n sn q Hnd Hn); [|exact Hqn].
    rewrite <- Erq. apply (subtreesF_ids_incl F sq Hsq), ids_root. }
  pose proof (insertF_perm q ref sn _ (NoDup_app_l _ _ Hnd1) Hq1) as P2.
  assert (HndF' : NoDup (idsF (insertF q ref sn (removeF n F)))).
  { apply insertF_NoDup. exact Hnd1. }
  assert (Hsq1 : In (remove_sub n sq) (subtreesF (removeF n F))).
  { apply subtreesF_removeF; auto. rewrite Erq. exact Hq1. }
  assert (Hn1 : ~ In n (idsF (removeF n F))).
  { apply (removeF_gone F n sn n Hnd Hn). rewrite <- Ern. apply ids_root. }
  assert (Hnk : ~ In n (map root (removeF n (kids sq)))).
  { intro H. apply Hn1. apply (subtreesF_ids_incl _ _ Hsq1).
    rewrite remove_sub_unfold. simpl. right. apply roots_in_idsF, H. }
  pose proof (subtreesF_insertF q ref sn _ _ (NoDup_app_l _ _ Hnd1) Hsq1) as Hins.
  rewrite remove_sub_unfold in Hins. rewrite Erq in Hins. simpl in Hins.
  rewrite Nat.eqb_refl in Hins.
  split; [exact HndF'|]. split.
  { rewrite P2. symmetry. exact P1. }
  split.
  - apply parentF_of_subtreesF; auto. simpl.
    apply in_map_iff. exists sn. split; [exact Ern|].
    apply in_insert_before. left. reflexivity.
  - rewrite <- Ern at 1. apply next_after_insert_before.
    + rewrite Ern. exact Hnk.
    + destruct ref as [r|]; [|exact I].
      destruct (Href r eq_refl) as [Hrn Hr].
      apply in_map_iff in Hr. destruct Hr as (k & Ek & Hk).
      apply in_map_iff. exists (remove_sub n k). split.
      * rewrite root_remove_sub. exact Ek.
      * apply in_removeF. exists k. repeat split; auto. congruence.
Qed.

(** *** Updates of an element keep the page well formed *)

Lemma store_update_elem_ne (n : NodeId) (f : Elem -> Elem) (p : Page) (m : NodeId) :
  m <> n -> store (update_elem n f p) !! m = store p !! m.
Proof.
  intro H. unfold update_elem. destruct (elem p n); [|reflexivity].
  simpl. apply lookup_insert_ne. congruence.
Qed.

Lemma store_update_elem_None (n : NodeId) (f : Elem -> Elem) (p : Page) (m : NodeId) :
  store (update_elem n f p) !! m = None <-> store p !! m = None.
Proof.
  destruct (Nat.eq_dec m n) as [->|H].
  - unfold update_elem. destruct (elem p n) as [e|] eqn:E; [|reflexivity].
    simpl. rewrite lookup_insert_eq. apply elem_store in E. rewrite E. split; discriminate.
  - rewrite store_update_elem_ne by exact H. reflexivity.
Qed.

Lemma wfPage_update_elem (n : NodeId) (f : Elem -> Elem) (p : Page) :
  wfPage p -> wfPage (update_elem n f p).
Proof.
  intros [Hnd Hb Hd Hdoc]. split.
  - rewrite forest_update_elem. exact Hnd.
  - rewrite forest_update_elem, nextId_update_elem. exact Hb.
  - rewrite forest_update_elem. intros i Hi H.
    apply store_update_elem_None in H. apply (Hd i Hi H).
  - rewrite document_update_elem.
    destruct (Nat.eq_dec (root (document p)) n) as [E|E].
    + unfold update_elem, elem. rewrite <- E, Hdoc. exact Hdoc.
    + rewrite store_update_elem_ne by exact E. exact Hdoc.
Qed.

Lemma parentNode_update_elem (n : NodeId) (f : Elem -> Elem) (p : Page) (m : NodeId) :
  parentNode (update_elem n f p) m = parentNode p m.
Proof. unfold parentNode. rewrite forest_update_elem. reflexivity. Qed.

Lemma nextSibling_update_elem (n : NodeId) (f : Elem -> Elem) (p : Page) (m : NodeId) :
  nextSibling (update_elem n f p) m = nextSibling p m.
Proof. unfold nextSibling. rewrite forest_update_elem. reflexivity. Qed.

Lemma parentElement_update_elem (n : NodeId) (f : Elem -> Elem) (p : Page) (m : NodeId) :
  parentElement (update_elem n f p) m = parentElement p m.
Proof.
  unfold parentElement. rewrite parentNode_update_elem.
  destruct (parentNode p m); [rewrite is_element_update_elem|]; reflexivity.
Qed.

(** *** The snapshot and its restoration *)

Lemma saveElementState_eq (element : NodeId) (s : State) (e : Elem) :
  elem (page s) element = Some e ->
  saveElementState element s = Ok (snapshot (page s) element e) s.
Proof. intro H. unfold saveElementState. rewrite H. reflexivity. Qed.

Lemma restoreElementState_eq (element : NodeId) (state : ElementState) (s : State) :
  restoreElementState (Some element) (Some state) s =
  match s_parent state with
  | Some parent =>
      match insertBefore parent element (s_nextSibling state)
                         (restoreAttrs element state (page s)) with
      | inr p' => Ok tt (set_page p' s)
      | inl ex => Throw ex (set_page (restoreAttrs element state (page s)) s)
      end
  | None => Ok tt (set_page (restoreAttrs element state (page s)) s)
  end.
Proof.
  unfold restoreElementState, bind, onPage, modify. simpl.
  destruct (s_parent state) as [parent|]; [|reflexivity].
  unfold tryPage, appendChild. simpl.
  destruct (s_nextSibling state) as [next|]; simpl;
    fold (restoreAttrs element state (page s));
    destruct (insertBefore parent element _ (restoreAttrs element state (page s)));
    reflexivity.
Qed.

Lemma forest_restoreAttrs (element : NodeId) (state : ElementState) (p : Page) :
  forest (restoreAttrs element state p) = forest p.
Proof. unfold restoreAttrs. rewrite !forest_update_elem. reflexivity. Qed.

Lemma document_restoreAttrs (element : NodeId) (state : ElementState) (p : Page) :
  document (restoreAttrs element state p) = document p.
Proof. unfold restoreAttrs. rewrite !document_update_elem. reflexivity. Qed.

Lemma others_restoreAttrs (element : NodeId) (state : ElementState) (p : Page) :
  others (restoreAttrs element state p) = others p.
Proof. unfold restoreAttrs. rewrite !others_update_elem. reflexivity. Qed.


Lemma elem_restoreAttrs (element : NodeId) (state : ElementState) (p : Page) :
  elem (restoreAttrs element state p) element =
  option_map (fun e => set_classList (stripMarkers (s_className state))
                                     (set_styleAttr (Some (s_style state)) e))
             (elem p element).
Proof.
  unfold restoreAttrs. rewrite !elem_update_elem_eq.
  destruct (elem p element); reflexivity.
Qed.

Lemma elem_restoreAttrs_ne (element : NodeId) (state : ElementState) (p : Page) (m : NodeId) :
  m <> element -> elem (restoreAttrs element state p) m = elem p m.
Proof. intro H. unfold restoreAttrs. rewrite !elem_update_elem_ne by exact H. reflexivity. Qed.





Lemma parentNode_Some (p : Page) (n q : NodeId) :
  parentNode p n = Some q <-> exists sp, parentF n (forest p) = Some sp /\ root sp = q.
Proof.
  unfold parentNode. destruct (parentF n (forest p)) as [sp|]; simpl.
  - split; [intro H; injection H as <-; eauto | intros (sp' & E & <-); congruence].
  - split; [discriminate | intros (sp & E & _); discriminate].
Qed.




(** *** Deciding that a page is well formed *)

Lemma nodupb_sound (l : list NodeId) : nodupb l = true -> NoDup l.
Proof.
  induction l as [|a l IH]; simpl; intro H; [constructor|].
  apply andb_true_iff in H. destruct H as [Ha Hl]. constructor; [|apply IH, Hl].
  intro Hin. apply negb_true_iff in Ha.
  assert (X : existsb (Nat.eqb a) l = true).
  { apply existsb_exists. exists a. split; [exact Hin | apply Nat.eqb_refl]. }
  congruence.
Qed.

Lemma wfPageb_sound (p : Page) : wfPageb p = true -> wfPage p.
Proof.
  unfold wfPageb. rewrite !andb_true_iff, forallb_forall. intros [[Hn Hf] Hd]. split.
  - apply nodupb_sound, Hn.
  - intros i Hi. apply Hf in Hi. apply andb_true_iff in Hi. apply Nat.ltb_lt, Hi.
  - intros i Hi E. apply Hf in Hi. cbv beta in Hi. apply andb_true_iff in Hi.
    rewrite E in Hi. destruct Hi; discriminate.
  - destruct (store p !! root (document p)) as [[| |]|]; try discriminate. reflexivity.
Qed.

Lemma cleanPageb_sound (p : Page) : cleanPageb p = true -> cleanPage p.
Proof.
  unfold cleanPageb. rewrite andb_true_iff, forallb_forall. intros [Hw Hc]. split.
  - apply wfPageb_sound, Hw.
  - intros i d Hi E. apply Hc in Hi. cbv beta in Hi. rewrite E in Hi. exact Hi.
Qed.


(* ================================================================== *)
(** * Invariants *)

(** ** Overlay elements and updates *)

Lemma isOverlay_true (p : Page) (n : NodeId) :
  isOverlay p n = true <-> exists e, elem p n = Some e /\ idAttr e = OVERLAY_ID.
Proof.
  unfold isOverlay, node_matches. destruct (elem p n) as [e|].
  - simpl. rewrite orb_false_r, String.eqb_eq. split.
    + intro H. eauto.
    + intros (e' & E & H). congruence.
  - split; [discriminate | intros (e & E & _); discriminate].
Qed.

Lemma isOverlay_ext (p p' : Page) (n : NodeId) :
  option_map idAttr (elem p' n) = option_map idAttr (elem p n) ->
  isOverlay p' n = isOverlay p n.
Proof.
  unfold isOverlay, node_matches. intro H.
  destruct (elem p' n), (elem p n); simpl in *; try discriminate; [|reflexivity].
  injection H as ->. reflexivity.
Qed.

Lemma isOverlay_update_elem (n : NodeId) (f : Elem -> Elem) (p : Page) (m : NodeId) :
  (forall e, idAttr (f e) = idAttr e) ->
  isOverlay (update_elem n f p) m = isOverlay p m.
Proof.
  intro H. apply isOverlay_ext. rewrite elem_update_elem.
  destruct (Nat.eqb_spec m n) as [->|]; [|reflexivity].
  destruct (elem p n); simpl; [rewrite H|]; reflexivity.
Qed.

Lemma PageInv_update_elem (n : NodeId) (f : Elem -> Elem) (p : Page) :
  PageInv p ->
  (forall e, idAttr (f e) = idAttr e) ->
  (forall e, In n (idsF (forest p)) -> elem p n = Some e -> idAttr e = OVERLAY_ID ->
             overlayShape (f e)) ->
  PageInv (update_elem n f p).
Proof.
  intros [W H1 H2 H3] Hid Hsh. split.
  - apply wfPage_update_elem, W.
  - rewrite document_update_elem. intros i j Hi Hj.
    rewrite !isOverlay_update_elem by exact Hid. apply H1; assumption.
  - rewrite others_update_elem. intros t Ht i Hi.
    rewrite isOverlay_update_elem by exact Hid. apply (H2 t Ht i Hi).
  - rewrite forest_update_elem. intros i e Hi He Hov.
    rewrite elem_update_elem in He. destruct (Nat.eqb_spec i n) as [->|].
    + destruct (elem p n) as [e0|] eqn:E0; [|discriminate]. simpl in He.
      injection He as <-. rewrite Hid in Hov. apply Hsh; auto.
    + apply (H3 i e Hi He Hov).
Qed.

Lemma PageInv_update_plain (n : NodeId) (f : Elem -> Elem) (p : Page) :
  PageInv p ->
  (forall e, idAttr (f e) = idAttr e) ->
  (In n (idsF (forest p)) -> isOverlay p n = false) ->
  PageInv (update_elem n f p).
Proof.
  intros H Hid Hn. apply PageInv_update_elem; auto.
  intros e Hin He Hov. exfalso.
  assert (isOverlay p n = true) by (apply isOverlay_true; eauto).
  rewrite (Hn Hin) in *. discriminate.
Qed.

(** An overlay element is matched by none of the selectors that the
    script uses to look for candidates or for marked elements. *)
Lemma overlayShape_not_matched (e : Elem) :
  idAttr e = OVERLAY_ID -> overlayShape e ->
  matches e [ByTag "video"] = false /\
  matches e [ByTag "iframe"] = false /\
  matches e VIDEO_CONTAINER_SELECTORS = false /\
  matches e [ByClass "pane-fullscreen-selectable"] = false /\
  String.eqb (tagName e) "BODY" || String.eqb (tagName e) "FRAMESET" = false.
Proof.
  intros Hid (Ht & Hc & _). unfold matches. simpl.
  rewrite Hid, Ht. destruct Hc as [-> | ->]; vm_compute; auto.
Qed.

(** ** Removing the overlay *)

Lemma parentT_exists (n : NodeId) (t : Tree) :
  In n (idsF (kids t)) -> exists s, parentT n t = Some s.
Proof.
  induction t as [i ks IH] using Tree_ind. simpl. intro H.
  rewrite Forall_forall in IH.
  destruct (has_child n ks) eqn:C; [eauto|].
  apply in_idsF in H. destruct H as (k & Hk & Hn).
  rewrite ids_unfold in Hn. destruct Hn as [E | Hn].
  - exfalso. assert (has_child n ks = true); [|congruence].
    apply has_child_true, in_map_iff. eauto.
  - destruct (IH k Hk Hn) as (s & Hs).
    destruct (first_some (parentT n) ks) as [u|] eqn:F; [eauto|].
    rewrite first_some_None in F. rewrite (F k Hk) in Hs. discriminate.
Qed.

Lemma getElementById_Some (p : Page) (v : string) (o : NodeId) :
  getElementById p v = Some o ->
  In o (idsF (kids (document p))) /\ node_matches p [ById v] o = true.
Proof. unfold getElementById. apply find_some. Qed.

Lemma getElementById_None (p : Page) (v : string) :
  getElementById p v = None ->
  forall i, In i (idsF (kids (document p))) -> node_matches p [ById v] i = false.
Proof. unfold getElementById. intros H i Hi. apply (find_none _ _ H i Hi). Qed.

Lemma document_not_overlay (p : Page) :
  wfPage p -> isOverlay p (root (document p)) = false.
Proof.
  intro W. unfold isOverlay, node_matches, elem. rewrite (wf_doc p W). reflexivity.
Qed.

Lemma wf_doc_NoDup (p : Page) : wfPage p -> NoDup (ids (document p)).
Proof. intro W. apply (NoDup_app_l _ _ (wf_nodup p W)). Qed.

Lemma wf_doc_others_disjoint (p : Page) (x : NodeId) :
  wfPage p -> In x (ids (document p)) -> In x (idsF (others p)) -> False.
Proof. intro W. apply (NoDup_app_disjoint _ _ x (wf_nodup p W)). Qed.

Lemma subtreeF_forest_doc (p : Page) (n : NodeId) :
  In n (ids (document p)) -> subtreeF n (forest p) = subtree n (document p).
Proof.
  intro H. unfold subtreeF, forest. simpl.
  destruct (subtree n (document p)) as [s|] eqn:E; [reflexivity|].
  apply subtree_None in E. contradiction.
Qed.

Lemma remove_in_document (p : Page) (o : NodeId) (so : Tree) :
  wfPage p -> In o (idsF (kids (document p))) -> subtree o (document p) = Some so ->
  remove o p = set_trees (remove_sub o (document p)) (others p ++ [so]) p.
Proof.
  intros W Ho Hso. unfold remove.
  assert (Hin : In o (ids (document p))) by (rewrite ids_unfold; right; exact Ho).
  destruct (parentT_exists o _ Ho) as (s & Hs).
  assert (Hp : parentNode p o = Some (root s)).
  { unfold parentNode, parentF, forest. simpl. rewrite Hs. reflexivity. }
  rewrite Hp, (subtreeF_forest_doc p o Hin), Hso.
  rewrite removeF_absent; [reflexivity|].
  intro H. apply (wf_doc_others_disjoint p o W Hin H).
Qed.

Lemma remove_sub_doc_perm (p : Page) (o : NodeId) (so : Tree) :
  wfPage p -> In o (idsF (kids (document p))) -> subtree o (document p) = Some so ->
  Permutation (ids (document p)) (ids (remove_sub o (document p)) ++ ids so).
Proof.
  intros W Ho Hso.
  pose proof (removeF_perm [document p] o so) as P.
  unfold idsF in P. simpl in P. rewrite !app_nil_r in P.
  assert (Hr : root (document p) <> o).
  { intro E. pose proof (wf_doc_NoDup p W) as Hnd. rewrite ids_unfold in Hnd.
    apply NoDup_cons_iff in Hnd. destruct Hnd as [Hnd _]. apply Hnd. rewrite E. exact Ho. }
  unfold removeF in P. simpl in P. rewrite root_remove_sub in P.
  destruct (Nat.eqb_spec (root (document p)) o) as [E|_]; [contradiction|].
  simpl in P. rewrite app_nil_r in P. apply P.
  - apply (wf_doc_NoDup p W).
  - unfold subtreeF. simpl. rewrite Hso. reflexivity.
Qed.

Lemma wfPage_perm (p p' : Page) :
  wfPage p ->
  Permutation (idsF (forest p')) (idsF (forest p)) ->
  store p' = store p -> nextId p' = nextId p ->
  root (document p') = root (document p) ->
  wfPage p'.
Proof.
  intros [Hnd Hb Hd Hdoc] P Hs Hn Hr. split.
  - apply (Permutation_NoDup (Permutation_sym P) Hnd).
  - intros i Hi. rewrite Hn. apply Hb. apply (Permutation_in _ P Hi).
  - intros i Hi. rewrite Hs. apply Hd. apply (Permutation_in _ P Hi).
  - rewrite Hs, Hr. exact Hdoc.
Qed.

Lemma isOverlay_store (p p' : Page) (n : NodeId) :
  store p' = store p -> isOverlay p' n = isOverlay p n.
Proof. intro H. unfold isOverlay, node_matches, elem. rewrite H. reflexivity. Qed.

Lemma elem_store_eq (p p' : Page) (n : NodeId) :
  store p' = store p -> elem p' n = elem p n.
Proof. intro H. unfold elem. rewrite H. reflexivity. Qed.

(** After [removeOverlay] the document holds no overlay element. *)
Lemma PageInv_removeOverlayPage (p : Page) :
  PageInv p ->
  PageInv (removeOverlayPage p) /\
  overlayFree (removeOverlayPage p) (ids (document (removeOverlayPage p))) /\
  store (removeOverlayPage p) = store p /\
  nextId (removeOverlayPage p) = nextId p /\
  Permutation (idsF (forest (removeOverlayPage p))) (idsF (forest p)).
Proof.
  intros [W H1 H2 H3]. unfold removeOverlayPage.
  destruct (getElementById p OVERLAY_ID) as [o|] eqn:G.
  - apply getElementById_Some in G. destruct G as [Ho Hov]. fold (isOverlay p o) in Hov.
    assert (Hin : In o (ids (document p))) by (rewrite ids_unfold; right; exact Ho).
    destruct (subtree o (document p)) as [so|] eqn:Hso;
      [|apply subtree_None in Hso; contradiction].
    rewrite (remove_in_document p o so W Ho Hso).
    pose proof (remove_sub_doc_perm p o so W Ho Hso) as P.
    destruct (subtree_Some o _ so Hso) as [Hsub Er].
    assert (Pf : Permutation
                   (idsF (forest (set_trees (remove_sub o (document p)) (others p ++ [so]) p)))
                   (idsF (forest p))).
    { unfold forest. simpl. fold (idsF (others p ++ [so])) (idsF (others p)).
      rewrite idsF_app. unfold idsF at 2. simpl. rewrite app_nil_r.
      rewrite P, <- !app_assoc. apply Permutation_app_head, Permutation_app_comm. }
    assert (Hgone : forall i, In i (ids (remove_sub o (document p))) -> ~ In i (ids so)).
    { intros i Hi Hi'.
      apply (NoDup_app_disjoint _ _ i (Permutation_NoDup P (wf_doc_NoDup p W)) Hi Hi'). }
    assert (Hov' : forall i, isOverlay (set_trees (remove_sub o (document p)) (others p ++ [so]) p) i
                             = isOverlay p i) by (intro i; apply isOverlay_store; reflexivity).
    assert (Hso_nd : NoDup (ids so)) by (apply (subtrees_NoDup _ so (wf_doc_NoDup p W) Hsub)).
    assert (Hroot : In o (ids so)) by (rewrite <- Er; apply ids_root).
    split; [split|].
    + apply (wfPage_perm p); auto. simpl. apply root_remove_sub.
    + simpl. intros i j Hi Hj. rewrite !Hov'.
      apply H1; eapply ids_remove_sub_incl; eassumption.
    + simpl. intros t Ht i Hi. rewrite Hov'. apply in_app_or in Ht.
      destruct Ht as [Ht | [<- | []]]; [apply (H2 t Ht i Hi)|].
      destruct (isOverlay p i) eqn:E; [|reflexivity]. exfalso.
      assert (Hid : In i (ids (document p))).
      { apply (subtrees_ids_incl _ so Hsub). rewrite ids_unfold. right. exact Hi. }
      rewrite (H1 i o Hid Hin E Hov) in Hi.
      rewrite ids_unfold, Er in Hso_nd. apply NoDup_cons_iff in Hso_nd.
      destruct Hso_nd as [Hx _]. contradiction.
    + intros i e Hi He Hid. apply (H3 i e); auto.
      apply (Permutation_in _ Pf Hi).
    + split; [|split; [reflexivity | split; [reflexivity | exact Pf]]].
      simpl. intros i Hi. rewrite Hov'.
      destruct (isOverlay p i) eqn:E; [|reflexivity]. exfalso.
      pose proof (ids_remove_sub_incl o _ i Hi) as Hid.
      rewrite (H1 i o Hid Hin E Hov) in Hi. apply (Hgone o Hi Hroot).
  - split; [split; assumption|].
    split; [|split; [reflexivity | split; [reflexivity | apply Permutation_refl]]].
    intros i Hi. rewrite ids_unfold in Hi. destruct Hi as [<- | Hi].
    + apply document_not_overlay, W.
    + apply (getElementById_None p OVERLAY_ID G i Hi).
Qed.

(** ** Creating the overlay *)

Lemma insertAll_seq_lookup (g : nat -> NodeData) (o a n : nat)
      (st : gmap nat NodeData) (i : nat) :
  insertAll (map (fun k => (k + o, g k)) (seq a n)) st !! i =
  if Nat.leb (a + o) i && Nat.ltb i (a + n + o) then Some (g (i - o)) else st !! i.
Proof.
  revert a. induction n as [|n IH]; intro a; simpl.
  - destruct (Nat.leb_spec (a + o) i), (Nat.ltb_spec i (a + 0 + o)); simpl; try reflexivity; lia.
  - destruct (Nat.eq_dec i (a + o)) as [->|Hne].
    + rewrite lookup_insert_eq.
      destruct (Nat.leb_spec (a + o) (a + o)), (Nat.ltb_spec (a + o) (a + S n + o));
        simpl; try lia. f_equal. f_equal. lia.
    + rewrite lookup_insert_ne by congruence. rewrite IH.
      destruct (Nat.leb_spec (S a + o) i), (Nat.ltb_spec i (S a + n + o)),
               (Nat.leb_spec (a + o) i), (Nat.ltb_spec i (a + S n + o));
        simpl; try reflexivity; lia.
Qed.

Lemma store_withOverlay (p : Page) :
  store (withOverlay p) =
  insertAll (map (fun k => (k + nextId p, overlayData k)) (seq 0 13)) (store p).
Proof. reflexivity. Qed.

Lemma store_withOverlay_old (p : Page) (i : NodeId) :
  i < nextId p -> store (withOverlay p) !! i = store p !! i.
Proof.
  intro H. rewrite store_withOverlay, insertAll_seq_lookup.
  destruct (Nat.leb_spec (0 + nextId p) i); simpl; [lia | reflexivity].
Qed.

Lemma store_withOverlay_new (p : Page) (k : nat) :
  k < 13 -> store (withOverlay p) !! (k + nextId p) = Some (overlayData k).
Proof.
  intro H. rewrite store_withOverlay, insertAll_seq_lookup.
  destruct (Nat.leb_spec (0 + nextId p) (k + nextId p)),
           (Nat.ltb_spec (k + nextId p) (0 + 13 + nextId p)); simpl; try lia.
  f_equal. f_equal. lia.
Qed.

Lemma ids_overlayTree (o : NodeId) :
  ids (overlayTree o) = map (fun k => k + o) (seq 0 13).
Proof. reflexivity. Qed.

Lemma in_overlayTree (o i : NodeId) :
  In i (ids (overlayTree o)) <-> exists k, k < 13 /\ i = k + o.
Proof.
  rewrite ids_overlayTree, in_map_iff. split.
  - intros (k & <- & Hk). apply in_seq in Hk. exists k. split; [lia | reflexivity].
  - intros (k & Hk & ->). exists k. split; [reflexivity | apply in_seq; lia].
Qed.

Lemma overlayTree_NoDup (o : NodeId) : NoDup (ids (overlayTree o)).
Proof.
  rewrite ids_overlayTree. apply Finite.Injective_map_NoDup; [|apply seq_NoDup].
  intros a b H. lia.
Qed.

Lemma elem_withOverlay_old (p : Page) (i : NodeId) :
  i < nextId p -> elem (withOverlay p) i = elem p i.
Proof. intro H. unfold elem. rewrite store_withOverlay_old by exact H. reflexivity. Qed.

Lemma isOverlay_withOverlay_old (p : Page) (i : NodeId) :
  i < nextId p -> isOverlay (withOverlay p) i = isOverlay p i.
Proof.
  intro H. unfold isOverlay, node_matches. rewrite elem_withOverlay_old by exact H. reflexivity.
Qed.

Lemma isOverlay_withOverlay_new (p : Page) (k : nat) :
  k < 13 -> isOverlay (withOverlay p) (k + nextId p) = Nat.eqb k 0.
Proof.
  intro H. unfold isOverlay, node_matches, elem. rewrite store_withOverlay_new by exact H.
  do 13 (destruct k as [|k]; [reflexivity|]). lia.
Qed.

Lemma forest_withOverlay (p : Page) :
  forest (withOverlay p) = forest p ++ [overlayTree (nextId p)].
Proof. reflexivity. Qed.

Lemma idsF_forest_withOverlay (p : Page) :
  idsF (forest (withOverlay p)) = idsF (forest p) ++ ids (overlayTree (nextId p)).
Proof.
  rewrite forest_withOverlay, idsF_app. f_equal.
Qed.

Lemma NoDup_app_intro {A} (l1 l2 : list A) :
  NoDup l1 -> NoDup l2 -> (forall a, In a l1 -> ~ In a l2) -> NoDup (l1 ++ l2).
Proof.
  intros H1 H2 H. induction l1 as [|x l1 IH]; simpl; [exact H2|].
  apply NoDup_cons_iff in H1. destruct H1 as [Hx H1]. constructor.
  - intro Hin. apply in_app_or in Hin. destruct Hin as [Hin | Hin]; [contradiction|].
    apply (H x); [left; reflexivity | exact Hin].
  - apply IH; [exact H1|]. intros a Ha. apply H. right. exact Ha.
Qed.

Lemma PageInv_withOverlay (p : Page) :
  PageInv p -> PageInv (withOverlay p).
Proof.
  intros [W H1 H2 H3]. set (o := nextId p).
  assert (Hold : forall i, In i (idsF (forest p)) -> i < o) by apply (wf_bound p W).
  split; [split|..].
  - rewrite idsF_forest_withOverlay. apply NoDup_app_intro.
    + apply W.
    + apply overlayTree_NoDup.
    + intros a Ha Hb. apply in_overlayTree in Hb. destruct Hb as (k & _ & ->).
      apply Hold in Ha. fold o in Ha. lia.
  - intros i Hi. rewrite idsF_forest_withOverlay in Hi. apply in_app_or in Hi.
    change (nextId (withOverlay p)) with (13 + o).
    destruct Hi as [Hi | Hi]; [apply Hold in Hi; lia|].
    apply in_overlayTree in Hi. destruct Hi as (k & Hk & ->). fold o. lia.
  - intros i Hi. rewrite idsF_forest_withOverlay in Hi. apply in_app_or in Hi.
    destruct Hi as [Hi | Hi].
    + rewrite store_withOverlay_old by (apply Hold, Hi). apply (wf_data p W i Hi).
    + apply in_overlayTree in Hi. destruct Hi as (k & Hk & ->).
      rewrite store_withOverlay_new by exact Hk. discriminate.
  - change (document (withOverlay p)) with (document p).
    rewrite store_withOverlay_old; [apply W|].
    apply Hold. unfold forest. rewrite idsF_cons. apply in_or_app. left. apply ids_root.
  - change (document (withOverlay p)) with (document p). intros i j Hi Hj.
    assert (Hi' : i < o) by (apply Hold; unfold forest; rewrite idsF_cons; apply in_or_app; auto).
    assert (Hj' : j < o) by (apply Hold; unfold forest; rewrite idsF_cons; apply in_or_app; auto).
    rewrite !isOverlay_withOverlay_old by assumption. apply H1; assumption.
  - change (others (withOverlay p)) with (others p ++ [overlayTree o]).
    intros t Ht i Hi. apply in_app_or in Ht. destruct Ht as [Ht | [<- | []]].
    + rewrite isOverlay_withOverlay_old; [apply (H2 t Ht i Hi)|].
      apply Hold. unfold forest. rewrite idsF_cons. apply in_or_app. right.
      apply in_idsF. exists t. split; [exact Ht|]. rewrite ids_unfold. right. exact Hi.
    + assert (Hin : In i (ids (overlayTree o))) by (right; exact Hi).
      apply in_overlayTree in Hin. destruct Hin as (k & Hk & ->).
      unfold o. rewrite isOverlay_withOverlay_new by exact Hk.
      destruct k as [|k]; [|reflexivity]. exfalso.
      pose proof (overlayTree_NoDup o) as Hnd. simpl in Hnd.
      apply NoDup_cons_iff in Hnd. destruct Hnd as [Hnd _]. apply Hnd. exact Hi.
  - intros i e Hi He Hid. rewrite idsF_forest_withOverlay in Hi. apply in_app_or in Hi.
    destruct Hi as [Hi | Hi].
    + rewrite elem_withOverlay_old in He by (apply Hold, Hi). apply (H3 i e Hi He Hid).
    + apply in_overlayTree in Hi. destruct Hi as (k & Hk & ->).
      apply elem_store in He. unfold o in He. rewrite store_withOverlay_new in He by exact Hk.
      do 13 (destruct k as [|k];
             [try discriminate He; injection He as <-; try discriminate Hid;
              repeat split; auto |]).
      lia.
Qed.

(** ** Moving a subtree *)

Lemma ids_insert_sub_incl (p : NodeId) (ref : option NodeId) (c t : Tree) (x : NodeId) :
  In x (ids (insert_sub p ref c t)) -> In x (ids t) \/ In x (ids c).
Proof.
  revert x. induction t as [i ks IH] using Tree_ind. intros x. simpl.
  rewrite Forall_forall in IH. destruct (Nat.eqb i p); simpl.
  - intros [E | H]; [left; left; exact E|].
    fold (idsF (insert_before ref c ks)) in H.
    apply (Permutation_in _ (idsF_perm _ _ (insert_before_perm ref c ks))) in H.
    rewrite idsF_app in H. apply in_app_or in H. destruct H as [H | H].
    + left. right. exact H.
    + right. unfold idsF in H. simpl in H. rewrite app_nil_r in H. exact H.
  - intros [E | H]; [left; left; exact E|].
    apply in_flat_map in H. destruct H as (k' & Hk' & Hx).
    apply in_map_iff in Hk'. destruct Hk' as (k & <- & Hk).
    destruct (IH k Hk x Hx) as [H | H]; [|right; exact H].
    left. right. apply in_flat_map. eauto.
Qed.

Lemma ids_moved_incl (q n : NodeId) (ref : option NodeId) (sn t : Tree) (x : NodeId) :
  In x (ids (insert_sub q ref sn (remove_sub n t))) -> In x (ids t) \/ In x (ids sn).
Proof.
  intro H. apply ids_insert_sub_incl in H. destruct H as [H | H]; [|right; exact H].
  left. apply (ids_remove_sub_incl n t x H).
Qed.

Lemma kids_moved_incl (q n : NodeId) (ref : option NodeId) (sn t : Tree) (x : NodeId) :
  NoDup (ids (insert_sub q ref sn (remove_sub n t))) ->
  In x (idsF (kids (insert_sub q ref sn (remove_sub n t)))) ->
  In x (idsF (kids t)) \/ In x (ids sn).
Proof.
  intros Hnd H.
  assert (Hx : In x (ids (insert_sub q ref sn (remove_sub n t)))).
  { rewrite ids_unfold. right. exact H. }
  assert (Hr : x <> root t).
  { rewrite ids_unfold in Hnd. apply NoDup_cons_iff in Hnd. destruct Hnd as [Hnd _].
    rewrite root_insert_sub, root_remove_sub in Hnd. intros ->. contradiction. }
  apply ids_moved_incl in Hx. destruct Hx as [Hx | Hx]; [|right; exact Hx].
  left. rewrite ids_unfold in Hx. destruct Hx as [E | Hx]; [congruence | exact Hx].
Qed.

(** What a successful [insertBefore] does to the page. *)
Lemma insertBefore_moved (q n : NodeId) (child : option NodeId) (p p' : Page) :
  wfPage p -> insertBefore q n child p = inr p' -> child <> Some n ->
  exists sn sq,
    subtreeF n (forest p) = Some sn /\ subtreeF q (forest p) = Some sq /\
    ~ In q (ids sn) /\
    document p' = insert_sub q child sn (remove_sub n (document p)) /\
    others p' = insertF q child sn (removeF n (others p)) /\
    store p' = store p /\ nextId p' = nextId p /\
    wfPage p' /\
    Permutation (idsF (forest p')) (idsF (forest p)) /\
    parentF n (forest p') = Some (T q (insert_before child sn (removeF n (kids sq)))) /\
    parentNode p' n = Some q /\ nextSibling p' n = child.
Proof.
  intros W E Hne. apply insertBefore_inr in E.
  destruct E as (d & sn & sq & Hd & Hdd & Hn & Hsq & Hel & Hc & Hch & ->).
  assert (Href : (match child with
                  | Some r => if Nat.eqb r n then nextSibling p n else child
                  | None => None
                  end) = child).
  { destruct child as [r|]; [|reflexivity].
    destruct (Nat.eqb_spec r n) as [->|]; [congruence | reflexivity]. }
  rewrite Href.
  assert (Hroot : root (document p) <> n).
  { intro Er. rewrite <- Er, (wf_doc p W) in Hd. congruence. }
  destruct (move_position (forest p) q n child sn sq (wf_nodup p W) Hn Hsq)
    as (Hnd & P & Hp & Hnx).
  { apply (contains_false p n q sn Hn Hc). }
  { intros r Hr. split; [congruence|].
    pose proof (Hch r Hr) as Hpr. apply parentNode_Some in Hpr.
    destruct Hpr as (sp & Hpr & Er). destruct (parentF_Some r _ sp Hpr) as [Hsp Hin].
    destruct (subtreeF_Some q _ sq Hsq) as [Hsq' Erq].
    assert (sp = sq) as -> by (apply (subtreesF_unique (forest p)); auto; [apply W | congruence]).
    exact Hin. }
  rewrite <- (removeF_forest p n Hroot) in Hnd, P, Hp.
  assert (W' : wfPage (set_trees (insert_sub q child sn (remove_sub n (document p)))
                                 (insertF q child sn (removeF n (others p))) p)).
  { apply (wfPage_perm p); auto. simpl. rewrite root_insert_sub, root_remove_sub. reflexivity. }
  pose proof (contains_false p n q sn Hn Hc) as Hq.
  exists sn, sq.
  split; [exact Hn|]. split; [exact Hsq|]. split; [exact Hq|].
  split; [reflexivity|]. split; [reflexivity|]. split; [reflexivity|].
  split; [reflexivity|]. split; [exact W'|]. split; [exact P|].
  split; [exact Hp|]. split.
  - unfold parentNode. rewrite forest_set_trees.
    change (insert_sub q child sn (remove_sub n (document p))
            :: insertF q child sn (removeF n (others p)))
      with (insertF q child sn (remove_sub n (document p) :: removeF n (others p))).
    rewrite Hp. reflexivity.
  - unfold nextSibling. rewrite forest_set_trees.
    change (insert_sub q child sn (remove_sub n (document p))
            :: insertF q child sn (removeF n (others p)))
      with (insertF q child sn (remove_sub n (document p) :: removeF n (others p))).
    rewrite Hp. exact Hnx.
Qed.

Lemma isOverlay_moved (p p' : Page) (i : NodeId) :
  store p' = store p -> isOverlay p' i = isOverlay p i.
Proof. apply isOverlay_store. Qed.

(** Moving a subtree that holds no overlay element keeps the invariant. *)
Lemma PageInv_move (q n : NodeId) (child : option NodeId) (p p' : Page) (sn : Tree) :
  PageInv p -> insertBefore q n child p = inr p' -> child <> Some n ->
  subtreeF n (forest p) = Some sn -> overlayFree p (ids sn) ->
  PageInv p'.
Proof.
  intros [W H1 H2 H3] E Hne Hn Hfree.
  destruct (insertBefore_moved q n child p p' W E Hne)
    as (sn' & sq & Hn' & Hsq & Hq & Hd & Ho & Hs & Hnx & W' & P & _).
  rewrite Hn in Hn'. injection Hn' as <-.
  assert (Hov : forall i, isOverlay p' i = isOverlay p i) by (intro; apply isOverlay_store, Hs).
  split.
  - exact W'.
  - intros i j Hi Hj Oi Oj. rewrite Hov in Oi, Oj. rewrite Hd in Hi, Hj.
    apply ids_moved_incl in Hi, Hj.
    destruct Hi as [Hi | Hi]; [|rewrite (Hfree i Hi) in Oi; discriminate].
    destruct Hj as [Hj | Hj]; [|rewrite (Hfree j Hj) in Oj; discriminate].
    apply H1; assumption.
  - intros t' Ht' i Hi. rewrite Hov. rewrite Ho in Ht'.
    apply in_map_iff in Ht'. destruct Ht' as (t1 & <- & Ht1).
    apply in_removeF in Ht1. destruct Ht1 as (t & Ht & Hr & ->).
    apply kids_moved_incl in Hi.
    + destruct Hi as [Hi | Hi]; [apply (H2 t Ht i Hi) | apply (Hfree i Hi)].
    + assert (Hin : In (insert_sub q child sn (remove_sub n t)) (forest p')).
      { unfold forest. right. rewrite Ho. apply in_map. apply in_removeF. eauto. }
      apply (subtreesF_NoDup (forest p') _ (wf_nodup p' W')).
      apply in_subtreesF. eexists. split; [exact Hin | apply subtrees_self].
  - intros i e Hi He Hid. apply (H3 i e); auto.
    + apply (Permutation_in _ P Hi).
    + rewrite <- (elem_store_eq p p' i Hs). exact He.
Qed.

(** ** Putting the overlay in the document *)

Lemma inserted_subtree (p : NodeId) (ref : option NodeId) (c t : Tree) :
  In p (ids t) -> In c (subtrees (insert_sub p ref c t)).
Proof.
  induction t as [i ks IH] using Tree_ind. simpl. intro H.
  rewrite Forall_forall in IH. destruct (Nat.eqb_spec i p) as [E|E].
  - simpl. right. apply in_flat_map. exists c. split; [|apply subtrees_self].
    apply in_insert_before. left. reflexivity.
  - destruct H as [H | H]; [contradiction|].
    apply in_flat_map in H. destruct H as (k & Hk & Hp).
    simpl. right. apply in_flat_map. exists (insert_sub p ref c k).
    split; [apply in_map, Hk | apply (IH k Hk Hp)].
Qed.

Lemma body_in_document (p : Page) (b : NodeId) :
  body p = Some b -> In b (ids (document p)) /\ is_element p b = true.
Proof.
  unfold body. destruct (documentElement p) as [h|]; [|discriminate].
  destruct (elem p h) as [e|]; [|discriminate].
  destruct (subtree h (document p)) as [t|] eqn:Et; [|discriminate].
  destruct (String.eqb (tagName e) "HTML"); [|discriminate].
  intro H. apply find_some in H. destruct H as [Hb Htag]. split.
  - apply subtree_Some in Et. destruct Et as [Et _].
    apply (subtrees_ids_incl _ t Et). rewrite ids_unfold. right. apply roots_in_idsF, Hb.
  - unfold is_body_tag in Htag. unfold is_element. destruct (elem p b); [reflexivity | discriminate].
Qed.

Lemma body_tag (p : Page) (b : NodeId) :
  body p = Some b ->
  exists e, elem p b = Some e /\
            String.eqb (tagName e) "BODY" || String.eqb (tagName e) "FRAMESET" = true.
Proof.
  unfold body. destruct (documentElement p) as [h|]; [|discriminate].
  destruct (elem p h) as [e|]; [|discriminate].
  destruct (subtree h (document p)) as [t|] eqn:Et; [|discriminate].
  destruct (String.eqb (tagName e) "HTML"); [|discriminate].
  intro H. apply find_some in H. destruct H as [_ Htag].
  unfold is_body_tag in Htag. destruct (elem p b) as [eb|]; [eauto | discriminate].
Qed.

Lemma body_not_overlay (p : Page) (b : NodeId) :
  PageInv p -> body p = Some b -> isOverlay p b = false.
Proof.
  intros H Hb. destruct (body_tag p b Hb) as (e & He & Ht).
  destruct (body_in_document p b Hb) as [Hin _].
  destruct (isOverlay p b) eqn:O; [|reflexivity]. exfalso.
  apply isOverlay_true in O. destruct O as (e' & He' & Hid).
  rewrite He in He'. injection He' as <-.
  assert (Hf : In b (idsF (forest p))).
  { unfold forest. rewrite idsF_cons. apply in_or_app. left. exact Hin. }
  pose proof (pi_shape p H b e Hf He Hid) as Hs.
  destruct (overlayShape_not_matched e Hid Hs) as (_ & _ & _ & _ & X). congruence.
Qed.

Lemma in_forest_doc (p : Page) (i : NodeId) :
  In i (ids (document p)) -> In i (idsF (forest p)).
Proof. intro H. unfold forest. rewrite idsF_cons. apply in_or_app. left. exact H. Qed.

Lemma in_forest_others (p : Page) (i : NodeId) :
  In i (idsF (others p)) -> In i (idsF (forest p)).
Proof. intro H. unfold forest. rewrite idsF_cons. apply in_or_app. right. exact H. Qed.

(** The overlay that [createOverlay] has built goes under [body]; from
    then on it is the one overlay element of the document. *)
Lemma appendOverlay (p : Page) (b : NodeId) :
  PageInv p -> overlayFree p (ids (document p)) ->
  body (withOverlay p) = Some b ->
  exists p2,
    appendChild b (nextId p) (withOverlay p) = inr p2 /\
    PageInv p2 /\
    store p2 = store (withOverlay p) /\ nextId p2 = 13 + nextId p /\
    Permutation (idsF (forest p2)) (idsF (forest (withOverlay p))) /\
    In (nextId p) (idsF (kids (document p2))) /\
    subtree (nextId p) (document p2) = Some (overlayTree (nextId p)) /\
    (forall i, In i (ids (document p2)) -> isOverlay p2 i = true -> i = nextId p).
Proof.
  intros HI Hfree Hb. set (o := nextId p). set (p1 := withOverlay p) in *.
  pose proof (PageInv_withOverlay p HI) as HI1. fold p1 in HI1.
  destruct HI as [W H1 H2 H3]. destruct HI1 as [W1 H11 H12 H13].
  destruct (body_in_document p1 b Hb) as [Hbd Hbe].
  change (document p1) with (document p) in Hbd.
  assert (Hbo : b < o) by (apply (wf_bound p W), in_forest_doc, Hbd).
  assert (Hot : subtreeF o (forest p1) = Some (overlayTree o)).
  { change o with (root (overlayTree o)) at 1.
    apply subtreeF_of_subtreesF; [apply W1|].
    apply in_subtreesF. exists (overlayTree o). split; [|apply subtrees_self].
    unfold p1. rewrite forest_withOverlay. apply in_or_app. right. left. reflexivity. }
  destruct (subtreeF b (forest p1)) as [sb|] eqn:Esb.
  2:{ apply subtreeF_None in Esb. exfalso. apply Esb. apply in_forest_doc. exact Hbd. }
  assert (He : elem p1 o = Some overlayElem).
  { apply elem_store. apply (store_withOverlay_new p 0). lia. }
  assert (Hc : contains p1 o b = false).
  { destruct (contains p1 o b) eqn:C; [|reflexivity]. exfalso.
    apply contains_true in C. destruct C as (t & Et & Hin). rewrite Hot in Et.
    injection Et as <-. apply in_overlayTree in Hin. destruct Hin as (k & _ & ->). lia. }
  pose proof (insertBefore_ok b o None p1 overlayElem _ sb He Hot Esb Hbe Hc) as E.
  assert (Hnone : forall r : nat, @None nat = Some r -> parentNode p1 r = Some b)
    by (intros r Hr; discriminate).
  specialize (E Hnone). unfold appendChild.
  match type of E with _ = inr ?x => set (p2 := x) in * end.
  exists p2. split; [exact E|].
  destruct (insertBefore_moved b o None p1 p2 W1 E) as
      (sn & sq & Hn & Hsq & Hq & Hd & Ho & Hs & Hnx & W2 & P & _); [discriminate|].
  rewrite Hot in Hn. injection Hn as <-.
  assert (Hov : forall i, isOverlay p2 i = isOverlay p1 i) by (intro; apply isOverlay_store, Hs).
  assert (Hnod : ~ In o (ids (document p))).
  { intro H. apply in_forest_doc, (wf_bound p W) in H. fold o in H. lia. }
  assert (Hdoc : document p2 = insert_sub b None (overlayTree o) (document p)).
  { rewrite Hd. change (document p1) with (document p).
    rewrite remove_sub_absent; [reflexivity|].
    intro H. apply Hnod. rewrite ids_unfold. right. exact H. }
  assert (Hoth : others p2 = others p).
  { rewrite Ho. change (others p1) with (others p ++ [overlayTree o]).
    rewrite removeF_app, removeF_cons. simpl root. rewrite Nat.eqb_refl.
    unfold removeF at 2. simpl. rewrite app_nil_r.
    rewrite removeF_absent.
    - apply insertF_absent. intro H. apply (wf_doc_others_disjoint p b W Hbd H).
    - intro H. apply in_forest_others, (wf_bound p W) in H. fold o in H. lia. }
  assert (Pd : Permutation (ids (document p2)) (ids (document p) ++ ids (overlayTree o))).
  { rewrite Hdoc. apply insert_sub_perm; [apply (wf_doc_NoDup p W) | exact Hbd]. }
  assert (Hone : forall i, In i (ids (document p2)) -> isOverlay p2 i = true -> i = o).
  { intros i Hi Oi. rewrite Hov in Oi. apply (Permutation_in _ Pd) in Hi.
    apply in_app_or in Hi. destruct Hi as [Hi | Hi].
    - unfold p1 in Oi. rewrite isOverlay_withOverlay_old in Oi
        by (apply (wf_bound p W), in_forest_doc, Hi).
      rewrite (Hfree i Hi) in Oi. discriminate.
    - apply in_overlayTree in Hi. destruct Hi as (k & Hk & ->).
      unfold p1, o in Oi. rewrite isOverlay_withOverlay_new in Oi by exact Hk.
      apply Nat.eqb_eq in Oi. subst k. reflexivity. }
  split; [split|].
  - exact W2.
  - intros i j Hi Hj Oi Oj. rewrite (Hone i Hi Oi), (Hone j Hj Oj). reflexivity.
  - rewrite Hoth. intros t Ht i Hi. rewrite Hov. unfold p1.
    rewrite isOverlay_withOverlay_old; [apply (H2 t Ht i Hi)|].
    apply (wf_bound p W), in_forest_others, in_idsF. exists t.
    split; [exact Ht|]. rewrite ids_unfold. right. exact Hi.
  - intros i e Hi He' Hid.
    apply (H13 i e); [apply (Permutation_in _ P Hi) | | exact Hid].
    rewrite <- (elem_store_eq p1 p2 i Hs). exact He'.
  - split; [exact Hs|]. split; [rewrite Hnx; reflexivity|]. split; [exact P|].
    assert (Hin : In o (ids (document p2))).
    { apply (Permutation_in _ (Permutation_sym Pd)). apply in_or_app. right.
      apply in_overlayTree. exists 0. split; [lia | reflexivity]. }
    split; [|split; [|exact Hone]].
    + rewrite ids_unfold in Hin. destruct Hin as [Er | Hin]; [|exact Hin].
      exfalso. rewrite Hdoc, root_insert_sub in Er. apply Hnod. rewrite <- Er. apply ids_root.
    + change o with (root (overlayTree o)) at 1.
      apply subtree_of_subtrees; [apply (wf_doc_NoDup p2 W2)|].
      rewrite Hdoc. apply inserted_subtree, Hbd.
Qed.


(* ------------------------------------------------------------------ *)
(** ** The invariant along the events *)

(** *** Rules for computations *)

Lemma triple_ret {A} (P : State -> Prop) (Q : State -> Prop) (a : A) :
  triple P (ret a) (fun _ => P) Q.
Proof. intros s H. exact H. Qed.

Lemma triple_bind {A B} (P : State -> Prop) (m : M A) (R : A -> State -> Prop)
      (k : A -> M B) (R' : B -> State -> Prop) (Q : State -> Prop) :
  triple P m R Q -> (forall a, triple (R a) (k a) R' Q) -> triple P (bind m k) R' Q.
Proof.
  intros Hm Hk s H. unfold bind. specialize (Hm s H).
  destruct (m s) as [a s1|e s1]; [apply (Hk a s1 Hm) | exact Hm].
Qed.

Lemma triple_weaken {A} (P P' : State -> Prop) (m : M A) (R R' : A -> State -> Prop)
      (Q Q' : State -> Prop) :
  triple P m R Q -> (forall s, P' s -> P s) -> (forall a s, R a s -> R' a s) ->
  (forall s, Q s -> Q' s) -> triple P' m R' Q'.
Proof.
  intros H HP HR HQ s Hs. specialize (H s (HP s Hs)).
  destruct (m s); [apply HR | apply HQ]; exact H.
Qed.

Lemma triple_gets {A B} (P : State -> Prop) (f : State -> A) (k : A -> M B)
      (R : B -> State -> Prop) (Q : State -> Prop) :
  (forall a, triple (fun s => P s /\ f s = a) (k a) R Q) ->
  triple P (bind (gets f) k) R Q.
Proof.
  intros H s Hs. unfold bind, gets. apply (H (f s) s). split; [exact Hs | reflexivity].
Qed.

Lemma triple_pre {A} (P P' : State -> Prop) (m : M A) (R : A -> State -> Prop)
      (Q : State -> Prop) :
  (forall s, P' s -> P s) -> triple P m R Q -> triple P' m R Q.
Proof. intros HP H s Hs. apply (H s (HP s Hs)). Qed.

Lemma triple_ret' {A} (P : State -> Prop) (R : A -> State -> Prop) (Q : State -> Prop)
      (a : A) :
  (forall s, P s -> R a s) -> triple P (ret a) R Q.
Proof. intros H s Hs. apply H, Hs. Qed.

Lemma triple_throw {A} (P : State -> Prop) (R : A -> State -> Prop) (Q : State -> Prop)
      (e : Exception) :
  (forall s, P s -> Q s) -> triple P (throw e) R Q.
Proof. intros H s Hs. apply H, Hs. Qed.

Lemma triple_modify (P : State -> Prop) (f : State -> State) (Q : State -> Prop) :
  triple (fun s => P (f s)) (modify f) (fun _ => P) Q.
Proof. intros s H. exact H. Qed.

Lemma triple_forEach {A} (P Q : State -> Prop) (f : A -> M unit) :
  forall l : list A,
  (forall a, In a l -> triple P (f a) (fun _ => P) Q) ->
  triple P (forEach l f) (fun _ => P) Q.
Proof.
  intro l. induction l as [|a l IH]; intro H; simpl.
  - apply triple_ret.
  - eapply triple_bind; [apply H; left; reflexivity|].
    intro u. apply IH. intros b Hb. apply H. right. exact Hb.
Qed.

Lemma triple_stateOf {A} (P Q : State -> Prop) (m : M A) (s : State) :
  triple P m (fun _ => Q) Q -> P s -> Q (stateOf (m s)).
Proof.
  intros H Hs. specialize (H s Hs). destruct (m s); exact H.
Qed.

(** *** More on trees *)

Lemma kids_subtree_incl (t s : Tree) :
  In s (subtrees t) -> incl (idsF (kids s)) (idsF (kids t)).
Proof.
  rewrite subtrees_unfold. intros [<-|H] x Hx; [exact Hx|].
  apply (subtreesF_ids_incl _ _ H). rewrite ids_unfold. right. exact Hx.
Qed.

Lemma subtree_ids_trans (f : list Tree) (s u : Tree) :
  NoDup (idsF f) -> In s (subtreesF f) -> In u (subtreesF f) ->
  In (root u) (ids s) -> In u (subtrees s).
Proof.
  intros Hnd Hs Hu Hr.
  destruct (subtree (root u) s) as [s'|] eqn:E.
  - apply subtree_Some in E. destruct E as [Hin Hroot].
    assert (Hs' : In s' (subtreesF f)).
    { apply in_subtreesF in Hs. destruct Hs as (t & Ht & Hst).
      apply in_subtreesF. exists t. split; [exact Ht|].
      eapply subtrees_trans; eassumption. }
    rewrite <- (subtreesF_unique f s' u Hnd Hs' Hu Hroot). exact Hin.
  - apply subtree_None in E. contradiction.
Qed.

Lemma next_after_neq (n : NodeId) (l : list NodeId) :
  NoDup l -> next_after n l <> Some n.
Proof.
  induction l as [|a l IH]; intro Hnd; simpl; [discriminate|].
  inversion Hnd as [|? ? Hna Hnd']; subst.
  destruct (Nat.eqb_spec a n) as [->|Hne].
  - destruct l as [|b l]; simpl; [discriminate|].
    intro E. injection E as ->. apply Hna. left. reflexivity.
  - apply IH. exact Hnd'.
Qed.

Lemma kids_NoDup (f : list Tree) (s : Tree) :
  NoDup (idsF f) -> In s (subtreesF f) ->
  NoDup (idsF (kids s)) /\ ~ In (root s) (idsF (kids s)).
Proof.
  intros Hnd Hs. pose proof (subtreesF_NoDup f s Hnd Hs) as H.
  rewrite ids_unfold in H. inversion H; subst. split; assumption.
Qed.

Lemma map_root_NoDup (ks : list Tree) : NoDup (idsF ks) -> NoDup (map root ks).
Proof.
  induction ks as [|k ks IH]; intro H; simpl; [constructor|].
  rewrite idsF_cons in H. constructor.
  - intro Hin. apply roots_in_idsF in Hin.
    apply (NoDup_app_disjoint _ _ (root k) H); [apply ids_root | exact Hin].
  - apply IH. apply (NoDup_app_r _ _ H).
Qed.


(** *** States with the same trees and the same overlay elements *)

Lemma contains_forest (p p' : Page) (a b : NodeId) :
  forest p' = forest p -> contains p' a b = contains p a b.
Proof. intro H. unfold contains. rewrite H. reflexivity. Qed.

Lemma Inv_frame (s s' : State) :
  Inv s -> PageInv (page s') ->
  document (page s') = document (page s) -> others (page s') = others (page s) ->
  nextId (page s') = nextId (page s) ->
  (forall i, isOverlay (page s') i = isOverlay (page s) i) ->
  isActive s' = isActive s -> currentElement s' = currentElement s ->
  overlay s' = overlay s -> originalElementState s' = originalElementState s ->
  (forall h, In (CbHintFade h) (timers s') -> In (CbHintFade h) (timers s)) ->
  Inv s'.
Proof.
  intros [HP Hh Hs] HP' Hd Ho Hn Hi Ha Hc Hov Hst Ht. split.
  - exact HP'.
  - intros h Hin. rewrite Hn, Hi. apply Hh, Ht, Hin.
  - rewrite Ha. intro Hact.
    destruct (Hs Hact) as (c & st & o & so & H1 & H2 & H3 & H4 & H5 & H6 & H7 & H8 & H9).
    exists c, st, o, so. rewrite Hc, Hst, Hov, Hi, Hd.
    split; [exact H1|]. split; [exact H2|]. split; [exact H3|]. split; [exact H4|].
    split; [exact H5|]. split; [exact H6|]. split; [exact H7|]. split; [|exact H9].
    intros i Hin. destruct (H8 i Hin) as [Hle|Hc']; [left; exact Hle|right].
    rewrite <- Hc'. apply contains_forest. unfold forest. rewrite Hd, Ho. reflexivity.
Qed.

Lemma Ready_frame (l : list NodeId) (s s' : State) :
  Ready l s -> PageInv (page s') ->
  document (page s') = document (page s) -> others (page s') = others (page s) ->
  nextId (page s') = nextId (page s) ->
  (forall i, isOverlay (page s') i = isOverlay (page s) i) ->
  isActive s' = isActive s -> currentElement s' = currentElement s ->
  overlay s' = overlay s -> originalElementState s' = originalElementState s ->
  (forall h, In (CbHintFade h) (timers s') -> In (CbHintFade h) (timers s)) ->
  Ready l s'.
Proof.
  intros [HI Hl] HP' Hd Ho Hn Hi Ha Hc Hov Hst Ht. split.
  - apply (Inv_frame s s'); assumption.
  - intros n Hn'. rewrite Hi. unfold forest. rewrite Hd, Ho. apply Hl, Hn'.
Qed.

Lemma Ready_Inv (l : list NodeId) (s : State) : Ready l s -> Inv s.
Proof. intros [H _]. exact H. Qed.

Lemma Inv_Ready (s : State) : Inv s -> Ready [] s.
Proof. intro H. split; [exact H | intros n []]. Qed.

Lemma Ready_incl (l l' : list NodeId) (s : State) :
  Ready l s -> incl l' l -> Ready l' s.
Proof. intros [H Hl] Hi. split; [exact H|]. intros n Hn. apply Hl, Hi, Hn. Qed.

Lemma Ready_app (l l' : list NodeId) (s : State) :
  Ready l s ->
  (forall n, In n l' -> In n (idsF (forest (page s))) /\ isOverlay (page s) n = false) ->
  Ready (l ++ l') s.
Proof.
  intros [H Hl] Hl'. split; [exact H|]. intros n Hn.
  apply in_app_or in Hn. destruct Hn; [apply Hl | apply Hl']; assumption.
Qed.

Lemma Ready_update (l : list NodeId) (n : NodeId) (f : Elem -> Elem) (s : State) :
  Ready l s ->
  (forall e, idAttr (f e) = idAttr e) ->
  (forall e, In n (idsF (forest (page s))) -> elem (page s) n = Some e ->
             idAttr e = OVERLAY_ID -> overlayShape (f e)) ->
  Ready l (set_page (update_elem n f (page s)) s).
Proof.
  intros HR Hid Hsh. apply (Ready_frame l s _ HR); simpl; try reflexivity.
  - apply PageInv_update_elem; [apply HR | exact Hid | exact Hsh].
  - apply document_update_elem.
  - apply others_update_elem.
  - apply nextId_update_elem.
  - intro i. apply isOverlay_update_elem. exact Hid.
  - auto.
Qed.

Lemma not_overlay_shape (p : Page) (n : NodeId) (P : Elem -> Prop) :
  (In n (idsF (forest p)) -> isOverlay p n = false) ->
  forall e, In n (idsF (forest p)) -> elem p n = Some e -> idAttr e = OVERLAY_ID -> P e.
Proof.
  intros H e Hin He Hid. exfalso.
  assert (Ht : isOverlay p n = true) by (apply isOverlay_true; exists e; auto).
  rewrite (H Hin) in Ht. discriminate.
Qed.

Lemma triple_update (l : list NodeId) (n : NodeId) (f : Elem -> Elem) (Q : State -> Prop) :
  In n l -> (forall e, idAttr (f e) = idAttr e) ->
  triple (Ready l) (onPage (update_elem n f)) (fun _ => Ready l) Q.
Proof.
  intros Hn Hid s HR. unfold onPage, modify.
  apply Ready_update; [exact HR | exact Hid |].
  apply not_overlay_shape. intros _. apply HR, Hn.
Qed.

(** An update that keeps what makes an overlay element. *)
Lemma triple_update_shape (l : list NodeId) (n : NodeId) (f : Elem -> Elem)
      (Q : State -> Prop) :
  (forall e, idAttr (f e) = idAttr e) ->
  (forall e, overlayShape e -> overlayShape (f e)) ->
  triple (Ready l) (onPage (update_elem n f)) (fun _ => Ready l) Q.
Proof.
  intros Hid Hsh s HR. unfold onPage, modify.
  apply Ready_update; [exact HR | exact Hid |].
  intros e Hin He Hov. apply Hsh.
  apply (pi_shape _ (inv_page _ (Ready_Inv _ _ HR)) n e Hin He Hov).
Qed.

Lemma triple_fields (l : list NodeId) (f : State -> State) (Q : State -> Prop) :
  (forall s, page (f s) = page s /\ isActive (f s) = isActive s /\
             currentElement (f s) = currentElement s /\ overlay (f s) = overlay s /\
             originalElementState (f s) = originalElementState s /\
             forall h, In (CbHintFade h) (timers (f s)) -> In (CbHintFade h) (timers s)) ->
  triple (Ready l) (modify f) (fun _ => Ready l) Q.
Proof.
  intros H s HR. unfold modify.
  destruct (H s) as (Hp & Ha & Hc & Ho & Hst & Ht).
  apply (Ready_frame l s _ HR); try rewrite Hp; try reflexivity; try assumption.
  apply HR.
Qed.

(** *** What the scanner finds is never an overlay element *)

Lemma matched_not_overlay (p : Page) (n : NodeId) (sels : list Selector) :
  PageInv p -> In n (idsF (forest p)) -> node_matches p sels n = true ->
  (forall e, idAttr e = OVERLAY_ID -> overlayShape e -> matches e sels = false) ->
  isOverlay p n = false.
Proof.
  intros HP Hin Hm Hno. destruct (isOverlay p n) eqn:E; [|reflexivity].
  apply isOverlay_true in E. destruct E as (e & He & Hid).
  unfold node_matches in Hm. rewrite He in Hm.
  rewrite (Hno e Hid (pi_shape p HP n e Hin He Hid)) in Hm. discriminate.
Qed.

Lemma kids_doc_forest (p : Page) (n : NodeId) :
  In n (idsF (kids (document p))) -> In n (idsF (forest p)).
Proof.
  intro H. apply in_forest_doc. rewrite ids_unfold. right. exact H.
Qed.

Lemma querySelectorAll_In (p : Page) (sels : list Selector) (n : NodeId) :
  In n (querySelectorAll p sels) ->
  In n (idsF (forest p)) /\ node_matches p sels n = true.
Proof.
  unfold querySelectorAll, querySelectorAllT. intro H. apply filter_In in H.
  destruct H as [H1 H2]. split; [apply kids_doc_forest, H1 | exact H2].
Qed.

Lemma findAllVideos_ready (p : Page) (n : NodeId) :
  PageInv p -> In n (findAllVideos p) ->
  In n (idsF (forest p)) /\ isOverlay p n = false.
Proof.
  intros HP H.
  assert (Hm : In n (idsF (forest p)) /\ node_matches p [ByTag "video"] n = true).
  { unfold findAllVideos in H. apply in_app_or in H. destruct H as [H|H].
    - apply querySelectorAll_In, H.
    - apply in_flat_map in H. destruct H as (fr & _ & H).
      unfold frameVideos in H. destruct (elem p fr) as [e|]; [|contradiction].
      destruct (contentDocument e) as [| |doc]; try contradiction.
      destruct (find (fun t => Nat.eqb (root t) doc) (others p)) as [t|] eqn:E;
        [|contradiction].
      apply find_some in E. destruct E as [Ht _].
      unfold querySelectorAllT in H. apply filter_In in H. destruct H as [H1 H2].
      split; [|exact H2]. apply in_forest_others. apply in_idsF. exists t.
      split; [exact Ht|]. rewrite ids_unfold. right. exact H1. }
  destruct Hm as [Hin Hm]. split; [exact Hin|].
  apply (matched_not_overlay p n _ HP Hin Hm).
  intros e Hid Hsh. apply (overlayShape_not_matched e Hid Hsh).
Qed.

Lemma findVideoIframes_ready (p : Page) (n : NodeId) :
  PageInv p -> In n (findVideoIframes p) ->
  In n (idsF (forest p)) /\ isOverlay p n = false.
Proof.
  intros HP H. unfold findVideoIframes in H. apply filter_In in H. destruct H as [H _].
  apply querySelectorAll_In in H. destruct H as [Hin Hm]. split; [exact Hin|].
  apply (matched_not_overlay p n _ HP Hin Hm).
  intros e Hid Hsh. apply (overlayShape_not_matched e Hid Hsh).
Qed.

Lemma findVideoContainers_ready (p : Page) (n : NodeId) :
  PageInv p -> In n (findVideoContainers p) ->
  In n (idsF (forest p)) /\ isOverlay p n = false.
Proof.
  intros HP H. unfold findVideoContainers in H. apply in_flat_map in H.
  destruct H as (sel & Hsel & H). apply filter_In in H. destruct H as [H _].
  apply querySelectorAll_In in H. destruct H as [Hin Hm]. split; [exact Hin|].
  assert (Hm' : node_matches p VIDEO_CONTAINER_SELECTORS n = true).
  { apply node_matches_exists. exists sel. split; assumption. }
  apply (matched_not_overlay p n _ HP Hin Hm').
  intros e Hid Hsh. apply (overlayShape_not_matched e Hid Hsh).
Qed.

Lemma offerContainer_from (p : Page) (cs : list NodeId) :
  forall acc x, In x (fold_left (offerContainer p) cs acc) ->
                In x acc \/ In (fst x) cs.
Proof.
  induction cs as [|c cs IH]; intros acc x H; simpl in H; [left; exact H|].
  apply IH in H. destruct H as [H|H]; [|right; right; exact H].
  unfold offerContainer in H. destruct (hasFoundIframe p acc c); [left; exact H|].
  apply in_app_or in H. destruct H as [H|[<-|[]]]; [left; exact H|].
  right. left. reflexivity.
Qed.

Lemma getAllSelectableElements_ready (p : Page) (c : NodeId * Kind) :
  PageInv p -> In c (getAllSelectableElements p) ->
  In (fst c) (idsF (forest p)) /\ isOverlay p (fst c) = false.
Proof.
  intros HP H. rewrite getAllSelectableElements_fold in H.
  apply offerContainer_from in H. destruct H as [H|H].
  - apply in_app_or in H. destruct H as [H|H]; apply in_map_iff in H;
      destruct H as (x & <- & H); simpl.
    + apply findAllVideos_ready; assumption.
    + apply findVideoIframes_ready; assumption.
  - apply findVideoContainers_ready; assumption.
Qed.

Lemma findBestPlayableElement_ready (p : Page) (n : NodeId) (k : Kind) :
  PageInv p -> findBestPlayableElement p = Some (n, k) ->
  In n (idsF (forest p)) /\ isOverlay p n = false.
Proof.
  intros HP H. unfold findBestPlayableElement in H.
  destruct (findBestVideo p) as [v|] eqn:Ev.
  { injection H as <- <-. apply findBest_Some, firstBest_In in Ev.
    apply findAllVideos_ready; assumption. }
  destruct (findBestIframe p) as [f|] eqn:Ef.
  { injection H as <- <-. apply findBest_Some, firstBest_In in Ef.
    apply findVideoIframes_ready; assumption. }
  destruct (findBestContainer p) as [c|] eqn:Ec; [|discriminate].
  injection H as <- <-. apply findBest_Some, firstBest_In in Ec.
  apply findVideoContainers_ready; assumption.
Qed.


(** *** Pages with the same nodes *)

Lemma sameNodes_refl (p : Page) : sameNodes p p.
Proof. split; [reflexivity|]. split; [apply Permutation_refl | reflexivity]. Qed.

Lemma sameNodes_trans (p q r : Page) : sameNodes p q -> sameNodes q r -> sameNodes p r.
Proof.
  intros (H1 & H2 & H3) (K1 & K2 & K3). split; [congruence|]. split.
  - eapply Permutation_trans; eassumption.
  - intro i. rewrite K3, H3. reflexivity.
Qed.

Lemma sameNodes_update_elem (n : NodeId) (f : Elem -> Elem) (p : Page) :
  (forall e, idAttr (f e) = idAttr e) -> sameNodes p (update_elem n f p).
Proof.
  intro H. split; [apply nextId_update_elem|]. split.
  - rewrite forest_update_elem. apply Permutation_refl.
  - intro i. apply isOverlay_update_elem, H.
Qed.

Lemma sameNodes_play (n : NodeId) (p : Page) : sameNodes p (play n p).
Proof.
  unfold play. destruct (autoplayAllowed p); [|apply sameNodes_refl].
  apply sameNodes_update_elem. reflexivity.
Qed.

Lemma sameNodes_restoreAttrs (c : NodeId) (st : ElementState) (p : Page) :
  sameNodes p (restoreAttrs c st p).
Proof.
  unfold restoreAttrs.
  repeat (eapply sameNodes_trans; [|apply sameNodes_update_elem; reflexivity]).
  apply sameNodes_refl.
Qed.

Lemma sameNodes_resumePage (st : ElementState) (c : NodeId) (p : Page) :
  sameNodes p (resumePage st c p).
Proof.
  unfold resumePage.
  destruct (_ && _); [apply sameNodes_play | apply sameNodes_refl].
Qed.

Lemma sameNodes_removeOverlayPage (p : Page) :
  PageInv p -> sameNodes p (removeOverlayPage p).
Proof.
  intro HP. destruct (PageInv_removeOverlayPage p HP) as (_ & _ & Hs & Hn & Hperm).
  split; [exact Hn|]. split; [exact Hperm|]. intro i. apply isOverlay_store, Hs.
Qed.

Lemma sameNodes_insertBefore (q n : NodeId) (child : option NodeId) (p p' : Page) :
  wfPage p -> insertBefore q n child p = inr p' -> child <> Some n -> sameNodes p p'.
Proof.
  intros W H Hc.
  destruct (insertBefore_moved q n child p p' W H Hc)
    as (sn & sq & _ & _ & _ & _ & _ & Hs & Hn & _ & Hperm & _).
  split; [exact Hn|]. split; [exact Hperm|]. intro i. apply isOverlay_store, Hs.
Qed.

Lemma sameNodes_In (p p' : Page) (n : NodeId) :
  sameNodes p p' -> In n (idsF (forest p)) -> In n (idsF (forest p')).
Proof.
  intros (_ & H & _) Hn. eapply Permutation_in; [apply Permutation_sym, H | exact Hn].
Qed.

(** *** Updates of an element that is not an overlay element *)

Lemma PageInv_play (n : NodeId) (p : Page) : PageInv p -> PageInv (play n p).
Proof.
  intro HP. unfold play. destruct (autoplayAllowed p); [|exact HP].
  apply PageInv_update_elem; [exact HP | reflexivity |].
  intros e Hin He Hid. apply (pi_shape p HP n e Hin He Hid).
Qed.

Lemma PageInv_resumePage (st : ElementState) (c : NodeId) (p : Page) :
  PageInv p -> PageInv (resumePage st c p).
Proof.
  intro HP. unfold resumePage. destruct (_ && _); [apply PageInv_play|]; exact HP.
Qed.

Lemma plain_step (n : NodeId) (f : Elem -> Elem) (p : Page) :
  (forall e, idAttr (f e) = idAttr e) ->
  PageInv p /\ (In n (idsF (forest p)) -> isOverlay p n = false) ->
  PageInv (update_elem n f p) /\
  (In n (idsF (forest (update_elem n f p))) -> isOverlay (update_elem n f p) n = false).
Proof.
  intros Hid [HP Hn]. split.
  - apply PageInv_update_plain; assumption.
  - rewrite forest_update_elem, (isOverlay_update_elem n f p n Hid). exact Hn.
Qed.

Lemma PageInv_restoreAttrs (c : NodeId) (st : ElementState) (p : Page) :
  PageInv p -> (In c (idsF (forest p)) -> isOverlay p c = false) ->
  PageInv (restoreAttrs c st p).
Proof.
  intros HP Hc. unfold restoreAttrs.
  apply plain_step; [reflexivity|].
  apply plain_step; [reflexivity|].
  apply plain_step; [reflexivity|].
  apply plain_step; [reflexivity|].
  apply plain_step; [reflexivity|].
  split; assumption.
Qed.

(** *** The session of an active state *)

Lemma session_facts (s : State) :
  Inv s -> isActive s = true ->
  exists c st o so sc,
    currentElement s = Some c /\
    originalElementState s = Some st /\
    overlay s = Some o /\
    isOverlay (page s) o = true /\
    In o (idsF (kids (document (page s)))) /\
    subtree o (document (page s)) = Some so /\
    In c (idsF (kids so)) /\
    (forall i, In i (ids so) -> o <= i \/ contains (page s) c i = true) /\
    (forall q, s_parent st = Some q -> q < o) /\
    (forall r, s_nextSibling st = Some r -> r < o) /\
    s_nextSibling st <> Some c /\
    In c (ids (document (page s))) /\
    isOverlay (page s) c = false /\
    subtreeF c (forest (page s)) = Some sc /\
    In sc (subtrees so) /\
    incl (ids sc) (idsF (kids so)) /\
    overlayFree (page s) (ids sc).
Proof.
  intros HI Hact. pose proof (inv_page s HI) as HP.
  destruct (inv_session s HI Hact)
    as (c & st & o & so & H1 & H2 & H3 & H4 & H5 & H6 & H7 & H8 & H9 & H10 & H11).
  pose proof (pi_wf _ HP) as W. pose proof (wf_doc_NoDup _ W) as Hnd.
  destruct (subtree_Some _ _ _ H6) as [Hso Hro].
  pose proof (subtrees_NoDup _ _ Hnd Hso) as Hndso.
  assert (Hcso : In c (ids so)) by (rewrite ids_unfold; right; exact H7).
  assert (Hcd : In c (ids (document (page s)))) by (apply (subtrees_ids_incl _ _ Hso), Hcso).
  assert (Hod : In o (ids (document (page s)))) by (rewrite ids_unfold; right; exact H5).
  assert (Hok : ~ In o (idsF (kids so))).
  { rewrite ids_unfold, Hro in Hndso. inversion Hndso; assumption. }
  destruct (subtree c so) as [sc|] eqn:Esc;
    [|apply subtree_None in Esc; contradiction].
  destruct (subtree_Some _ _ _ Esc) as [Hsc Hrc].
  assert (Hscd : In sc (subtrees (document (page s)))) by (eapply subtrees_trans; eassumption).
  assert (Hincl : incl (ids sc) (idsF (kids so))).
  { rewrite subtrees_unfold in Hsc. destruct Hsc as [E|Hsc].
    - exfalso. apply Hok. replace o with c; [exact H7|].
      rewrite <- Hrc, <- E. exact Hro.
    - apply subtreesF_ids_incl, Hsc. }
  assert (Hfree : overlayFree (page s) (ids sc)).
  { intros i Hi. destruct (isOverlay (page s) i) eqn:E; [|reflexivity].
    exfalso. apply Hok.
    assert (Hid : In i (ids (document (page s)))).
    { apply (subtrees_ids_incl _ _ Hso). rewrite ids_unfold. right. apply Hincl, Hi. }
    rewrite <- (pi_one _ HP i o Hid Hod E H4). apply Hincl, Hi. }
  exists c, st, o, so, sc.
  repeat (split; [assumption|]).
  split; [apply Hfree; rewrite <- Hrc; apply ids_root|].
  split; [|repeat (split; [assumption|]); assumption].
  rewrite (subtreeF_forest_doc _ _ Hcd), <- Hrc.
  apply subtree_of_subtrees; assumption.
Qed.

(** *** Leaving a session *)

Lemma exitPaneFullscreen_inactive (s : State) :
  isActive s = false -> exitPaneFullscreen s = Ok tt s.
Proof.
  intro H. unfold exitPaneFullscreen, bind, gets. rewrite H. reflexivity.
Qed.

Lemma exitPaneFullscreen_active (s : State) (c : NodeId) (st : ElementState) :
  isActive s = true -> currentElement s = Some c -> originalElementState s = Some st ->
  exitPaneFullscreen s =
  match s_parent st with
  | Some q =>
      match insertBefore q c (s_nextSibling st) (restoreAttrs c st (page s)) with
      | inr p' => Ok tt (exitTail st c (set_page p' s))
      | inl ex => Throw ex (set_page (restoreAttrs c st (page s)) s)
      end
  | None => Ok tt (exitTail st c (set_page (restoreAttrs c st (page s)) s))
  end.
Proof.
  intros Ha Hc Hst. unfold exitPaneFullscreen, bind, gets. rewrite Ha. simpl.
  rewrite Hc, Hst. fold (bind (A := unit) (B := unit)).
  rewrite restoreElementState_eq.
  destruct (s_parent st) as [q|].
  - destruct (insertBefore q c (s_nextSibling st) (restoreAttrs c st (page s))) as [ex|p'];
      [reflexivity|].
    unfold exitTail, resumePage.
    destruct (_ && _); reflexivity.
  - unfold exitTail, resumePage.
    destruct (_ && _); reflexivity.
Qed.

Lemma exitTail_Inv (st : ElementState) (c : NodeId) (s : State) :
  PageInv (page s) ->
  (forall h, In (CbHintFade h) (timers s) ->
             h < nextId (page s) /\ isOverlay (page s) h = false) ->
  Inv (exitTail st c s) /\ sameNodes (page s) (page (exitTail st c s)).
Proof.
  intros HP Hh.
  pose proof (PageInv_resumePage st c _ HP) as HP1.
  assert (Hsame : sameNodes (page s) (page (exitTail st c s))).
  { simpl. eapply sameNodes_trans; [apply sameNodes_resumePage|].
    apply sameNodes_removeOverlayPage, HP1. }
  split; [|exact Hsame]. split.
  - apply PageInv_removeOverlayPage, HP1.
  - intros h Hin. destruct Hsame as (Hn & _ & Hi). rewrite Hn, Hi. apply Hh, Hin.
  - simpl. discriminate.
Qed.

Lemma exitPaneFullscreen_Inv (s : State) :
  Inv s ->
  match exitPaneFullscreen s with
  | Ok _ s' => Inv s' /\ isActive s' = false /\ sameNodes (page s) (page s')
  | Throw _ s' => Inv s' /\ sameNodes (page s) (page s')
  end.
Proof.
  intro HI. destruct (isActive s) eqn:Hact.
  2:{ rewrite (exitPaneFullscreen_inactive s Hact).
      split; [exact HI|]. split; [exact Hact | apply sameNodes_refl]. }
  destruct (session_facts s HI Hact)
    as (c & st & o & so & sc & H1 & H2 & H3 & H4 & H5 & H6 & H7 & H8 & H9 & H10 & H11 &
        Hcd & Hco & Hsc & Hscso & Hincl & Hfree).
  rewrite (exitPaneFullscreen_active s c st Hact H1 H2).
  pose proof (inv_page s HI) as HP.
  assert (HP1 : PageInv (restoreAttrs c st (page s))).
  { apply PageInv_restoreAttrs; [exact HP | intros _; exact Hco]. }
  pose proof (sameNodes_restoreAttrs c st (page s)) as Hs1.
  assert (Hh1 : forall p', sameNodes (page s) p' ->
                forall h, In (CbHintFade h) (timers s) ->
                          h < nextId p' /\ isOverlay p' h = false).
  { intros p' (Hn & _ & Hi) h Hin. rewrite Hn, Hi. apply (inv_hint s HI h Hin). }
  destruct (s_parent st) as [q|].
  - destruct (insertBefore q c (s_nextSibling st) (restoreAttrs c st (page s)))
      as [ex|p'] eqn:E.
    + split; [|exact Hs1].
      apply (Inv_frame s); simpl; try reflexivity; try assumption.
      * apply document_restoreAttrs.
      * apply others_restoreAttrs.
      * apply Hs1.
      * apply Hs1.
      * auto.
    + assert (Hs2 : sameNodes (page s) p').
      { eapply sameNodes_trans; [exact Hs1|].
        eapply sameNodes_insertBefore; [apply (pi_wf _ HP1) | exact E | exact H11]. }
      assert (HP2 : PageInv p').
      { apply (PageInv_move q c (s_nextSibling st) _ p' sc HP1 E H11).
        - rewrite forest_restoreAttrs. exact Hsc.
        - intros i Hi. destruct Hs1 as (_ & _ & Hov). rewrite Hov. apply Hfree, Hi. }
      destruct (exitTail_Inv st c (set_page p' s) HP2 (Hh1 p' Hs2)) as [HI' Hs3].
      split; [exact HI'|]. split; [reflexivity|].
      eapply sameNodes_trans; [exact Hs2 | exact Hs3].
  - destruct (exitTail_Inv st c (set_page (restoreAttrs c st (page s)) s) HP1 (Hh1 _ Hs1))
      as [HI' Hs3].
    split; [exact HI'|]. split; [reflexivity|].
    eapply sameNodes_trans; [exact Hs1 | exact Hs3].
Qed.


(** *** Creating the overlay *)

Lemma createOverlay_eq (s : State) :
  createOverlay s =
  match body (page (overlayCreated s)) with
  | Some b =>
      match appendChild b (nextId (removeOverlayPage (page s))) (page (overlayCreated s)) with
      | inr p2 => Ok (nextId (removeOverlayPage (page s)),
                      1 + nextId (removeOverlayPage (page s)))
                     (set_page p2 (overlayCreated s))
      | inl ex => Throw ex (overlayCreated s)
      end
  | None => Throw TypeError (overlayCreated s)
  end.
Proof.
  transitivity
    ((match body (page (overlayCreated s)) with
      | Some b =>
          bind (tryPage (appendChild b (nextId (removeOverlayPage (page s)))))
               (fun _ => ret (nextId (removeOverlayPage (page s)),
                              1 + nextId (removeOverlayPage (page s))))
      | None => throw TypeError
      end) (overlayCreated s)); [reflexivity|].
  destruct (body (page (overlayCreated s))) as [b|]; [|reflexivity].
  unfold bind, tryPage.
  destruct (appendChild b _ (page (overlayCreated s))); reflexivity.
Qed.

Lemma nextId_withOverlay (p : Page) : nextId (withOverlay p) = 13 + nextId p.
Proof. reflexivity. Qed.

Lemma overlayCreated_Inv (s : State) :
  Inv s -> isActive s = false -> Inv (overlayCreated s).
Proof.
  intros HI Hact. pose proof (inv_page s HI) as HP.
  destruct (PageInv_removeOverlayPage _ HP) as (HP0 & Hfree0 & Hst0 & Hn0 & Hperm0).
  split.
  - apply PageInv_withOverlay, HP0.
  - intros h Hin.
    change (page (overlayCreated s)) with (withOverlay (removeOverlayPage (page s))).
    change (In (CbHintFade h)
               (timers s ++ [CbHintFade (11 + nextId (removeOverlayPage (page s)))])) in Hin.
    rewrite nextId_withOverlay.
    apply in_app_or in Hin. destruct Hin as [Hin|[E|[]]].
    + destruct (inv_hint s HI h Hin) as [Hlt Hno]. split; [lia|].
      rewrite isOverlay_withOverlay_old by lia.
      rewrite (isOverlay_store _ _ h Hst0). exact Hno.
    + injection E as <-. split; [lia|].
      apply (isOverlay_withOverlay_new (removeOverlayPage (page s)) 11). lia.
  - simpl. rewrite Hact. discriminate.
Qed.

Lemma createOverlay_spec (l : list NodeId) (s : State) :
  Ready l s -> isActive s = false ->
  match createOverlay s with
  | Throw _ s1 => Inv s1
  | Ok _ s2 =>
      Ready l s2 /\
      isActive s2 = false /\
      currentElement s2 = currentElement s /\
      originalElementState s2 = originalElementState s /\
      overlay s2 = Some (nextId (page s)) /\
      elementContainer s2 = Some (1 + nextId (page s)) /\
      isOverlay (page s2) (nextId (page s)) = true /\
      In (nextId (page s)) (idsF (kids (document (page s2)))) /\
      subtree (nextId (page s)) (document (page s2)) = Some (overlayTree (nextId (page s))) /\
      (forall i, In i (ids (document (page s2))) -> isOverlay (page s2) i = true ->
                 i = nextId (page s))
  end.
Proof.
  intros [HI Hl] Hact. pose proof (inv_page s HI) as HP.
  pose proof (overlayCreated_Inv s HI Hact) as HI1.
  destruct (PageInv_removeOverlayPage _ HP) as (HP0 & Hfree0 & Hst0 & Hn0 & Hperm0).
  rewrite createOverlay_eq.
  destruct (body (page (overlayCreated s))) as [b|] eqn:Hb; [|exact HI1].
  destruct (appendOverlay (removeOverlayPage (page s)) b HP0 Hfree0 Hb)
    as (p2 & E & HP2 & Hst2 & Hn2 & Hperm2 & Hin & Hsub & Huniq).
  change (page (overlayCreated s)) with (withOverlay (removeOverlayPage (page s))).
  rewrite E. rewrite Hn0 in *.
  assert (Hov : forall i, i < nextId (page s) -> isOverlay p2 i = isOverlay (page s) i).
  { intros i Hi. rewrite (isOverlay_store _ _ i Hst2).
    rewrite isOverlay_withOverlay_old by lia. apply isOverlay_store, Hst0. }
  assert (HI2 : Inv (set_page p2 (overlayCreated s))).
  { split.
    - exact HP2.
    - intros h Hh. change (page (set_page p2 (overlayCreated s))) with p2. rewrite Hn2.
      destruct (inv_hint _ HI1 h Hh) as [Hlt Hno].
      change (page (overlayCreated s)) with (withOverlay (removeOverlayPage (page s)))
        in Hlt, Hno.
      rewrite nextId_withOverlay, Hn0 in Hlt. split; [exact Hlt|].
      rewrite (isOverlay_store _ _ h Hst2). exact Hno.
    - simpl. rewrite Hact. discriminate. }
  split.
  { split; [exact HI2|]. intros n Hn. destruct (Hl n Hn) as [Hnf Hno].
    assert (Hlt : n < nextId (page s)) by (apply (wf_bound _ (pi_wf _ HP)), Hnf).
    change (page (set_page p2 (overlayCreated s))) with p2.
    split; [|rewrite Hov by exact Hlt; exact Hno].
    eapply Permutation_in; [apply Permutation_sym, Hperm2|].
    rewrite idsF_forest_withOverlay. apply in_or_app. left.
    eapply Permutation_in; [apply Permutation_sym, Hperm0 | exact Hnf]. }
  change (page (set_page p2 (overlayCreated s))) with p2.
  split; [exact Hact|]. split; [reflexivity|]. split; [reflexivity|].
  split; [simpl; rewrite Hn0; reflexivity|].
  split; [simpl; rewrite Hn0; reflexivity|].
  split; [|repeat (split; [assumption|]); assumption].
  rewrite (isOverlay_store _ _ _ Hst2).
  rewrite <- Hn0.
  apply (isOverlay_withOverlay_new (removeOverlayPage (page s)) 0). lia.
Qed.

(** *** Entering a session *)

Lemma enterPaneFullscreen_not_element (s : State) (n : NodeId) (ty : Kind) :
  isActive s = false -> elem (page s) n = None ->
  enterPaneFullscreen (Some n) ty s = Throw TypeError s.
Proof.
  intros Ha He. unfold enterPaneFullscreen, bind, gets. rewrite Ha. simpl.
  unfold saveElementState. rewrite He. reflexivity.
Qed.

Lemma enterPaneFullscreen_inactive (s : State) (n : NodeId) (ty : Kind) (e : Elem) :
  isActive s = false -> elem (page s) n = Some e ->
  enterPaneFullscreen (Some n) ty s =
  match createOverlay (set_currentElement (Some n)
                         (set_originalElementState (Some (snapshot (page s) n e)) s)) with
  | Throw ex s1 => Throw ex s1
  | Ok _ s2 =>
      match elementContainer s2 with
      | None => Throw TypeError (set_page (markPage n ty (page s2)) s2)
      | Some c =>
          match appendChild c n (markPage n ty (page s2)) with
          | inl ex => Throw ex (set_page (markPage n ty (page s2)) s2)
          | inr p4 => Ok true (enterTail ty (snapshot (page s) n e) n (set_page p4 s2))
          end
      end
  end.
Proof.
  intros Ha He. unfold enterPaneFullscreen. unfold bind at 1. unfold gets at 1.
  rewrite Ha. unfold bind at 1. unfold ret at 1. unfold bind at 1.
  rewrite (saveElementState_eq n s e He).
  unfold bind at 1. unfold modify at 1. unfold bind at 1. unfold modify at 1.
  unfold bind at 1.
  destruct (createOverlay _) as [r s2|ex s1]; [|reflexivity].
  unfold bind, onPage, modify, gets, tryPage, throw, ret. simpl.
  fold (markPage n ty (page s2)).
  destruct (elementContainer s2) as [c|]; [|reflexivity].
  change (page (set_page (markPage n ty (page s2)) s2)) with (markPage n ty (page s2)).
  destruct (appendChild c n (markPage n ty (page s2))) as [ex|p4]; [reflexivity|].
  simpl. unfold enterTail.
  destruct (Kind_eqb ty KVideo && _); reflexivity.
Qed.

Lemma exitPaneFullscreen_Ok_inactive (s s' : State) (u : unit) :
  exitPaneFullscreen s = Ok u s' -> isActive s' = false.
Proof.
  intro H. destruct (isActive s) eqn:Ha.
  - unfold exitPaneFullscreen in H. unfold bind at 1 in H. unfold gets at 1 in H.
    rewrite Ha in H. simpl in H.
    unfold bind at 1 in H. unfold gets at 1 in H.
    unfold bind at 1 in H. unfold gets at 1 in H.
    unfold bind at 1 in H.
    match type of H with
    | match ?m with _ => _ end = _ => destruct m as [v s1|ex s1]; [|discriminate]
    end.
    unfold removeOverlay, bind, onPage, modify in H. simpl in H.
    injection H as _ <-. reflexivity.
  - rewrite (exitPaneFullscreen_inactive s Ha) in H. injection H as _ <-. exact Ha.
Qed.

Lemma enterPaneFullscreen_active (s : State) (n : NodeId) (ty : Kind) :
  isActive s = true ->
  enterPaneFullscreen (Some n) ty s =
  match exitPaneFullscreen s with
  | Ok _ s' => enterPaneFullscreen (Some n) ty s'
  | Throw ex s' => Throw ex s'
  end.
Proof.
  intro Ha. unfold enterPaneFullscreen at 1. unfold bind at 1. unfold gets at 1.
  rewrite Ha. unfold bind at 1.
  destruct (exitPaneFullscreen s) as [u s'|ex s'] eqn:E; [|reflexivity].
  apply exitPaneFullscreen_Ok_inactive in E.
  symmetry. unfold enterPaneFullscreen at 1. unfold bind at 1. unfold gets at 1.
  rewrite E. unfold bind at 1. unfold ret at 1. reflexivity.
Qed.


(** *** Moving the element into the overlay *)

Lemma doc_kept (p : Page) (n : NodeId) (sn : Tree) (x : NodeId) :
  wfPage p -> subtreeF n (forest p) = Some sn -> n <> root (document p) ->
  In x (ids (document p)) -> ~ In x (ids sn) ->
  In x (ids (remove_sub n (document p))).
Proof.
  intros W Hsn Hroot Hx Hnx.
  destruct (in_dec Nat.eq_dec n (idsF (kids (document p)))) as [Hin|Hout].
  - assert (Hnd : In n (ids (document p))) by (rewrite ids_unfold; right; exact Hin).
    rewrite (subtreeF_forest_doc _ _ Hnd) in Hsn.
    pose proof (remove_sub_doc_perm p n sn W Hin Hsn) as Hperm.
    apply (Permutation_in _ Hperm) in Hx. apply in_app_or in Hx.
    destruct Hx; [assumption | contradiction].
  - rewrite (remove_sub_absent _ _ Hout). exact Hx.
Qed.

Lemma filter_single (f : NodeId -> bool) (l : list NodeId) (o : NodeId) :
  NoDup l -> In o l -> f o = true -> (forall i, In i l -> f i = true -> i = o) ->
  List.filter f l = [o].
Proof.
  induction l as [|a l IH]; intros Hnd Hin Hfo Hu; [contradiction|].
  inversion Hnd as [|? ? Hna Hnd']; subst. simpl.
  assert (Hnone : forall l', (forall i, In i l' -> f i = true -> i = o) -> ~ In o l' ->
                             List.filter f l' = []).
  { intros l' Hu' Hno. induction l' as [|b l' IHl']; [reflexivity|]. simpl.
    destruct (f b) eqn:Eb.
    - exfalso. apply Hno. left. apply Hu'; [left; reflexivity | exact Eb].
    - apply IHl'; [intros i Hi; apply Hu'; right; exact Hi | intro H; apply Hno; right; exact H]. }
  destruct Hin as [->|Hin].
  - rewrite Hfo. f_equal. apply Hnone; [|exact Hna].
    intros i Hi. apply Hu. right. exact Hi.
  - destruct (f a) eqn:Ea.
    + exfalso. apply Hna. rewrite (Hu a (or_introl eq_refl) Ea). exact Hin.
    + apply IH; try assumption. intros i Hi. apply Hu. right. exact Hi.
Qed.

Lemma overlaysIn_single (p : Page) (o : NodeId) :
  PageInv p -> In o (ids (document p)) -> isOverlay p o = true -> overlaysIn p = [o].
Proof.
  intros HP Hin Ho. unfold overlaysIn, documentNodes. apply filter_single.
  - apply wf_doc_NoDup, (pi_wf _ HP).
  - exact Hin.
  - exact Ho.
  - intros i Hi Hov. apply (pi_one _ HP i o Hi Hin Hov Ho).
Qed.

Lemma enter_move (p3 p4 : Page) (o n : NodeId) :
  PageInv p3 ->
  isOverlay p3 o = true ->
  In o (idsF (kids (document p3))) ->
  subtree o (document p3) = Some (overlayTree o) ->
  In n (idsF (forest p3)) -> isOverlay p3 n = false -> n < o ->
  appendChild (1 + o) n p3 = inr p4 ->
  PageInv p4 /\ sameNodes p3 p4 /\
  exists sn,
    subtreeF n (forest p3) = Some sn /\
    subtreeF n (forest p4) = Some sn /\
    In o (idsF (kids (document p4))) /\
    subtree o (document p4) = Some (insert_sub (1 + o) None sn (overlayTree o)) /\
    In n (idsF (kids (insert_sub (1 + o) None sn (overlayTree o)))) /\
    (forall i, In i (ids (insert_sub (1 + o) None sn (overlayTree o))) ->
               o <= i \/ In i (ids sn)) /\
    document p4 = insert_sub (1 + o) None sn (remove_sub n (document p3)) /\
    others p4 = insertF (1 + o) None sn (removeF n (others p3)) /\
    parentNode p4 n = Some (1 + o).
Proof.
  intros HP Hov Hin Hsub Hnf Hno Hlt H.
  pose proof (pi_wf _ HP) as W. pose proof (wf_doc_NoDup _ W) as Hnd.
  unfold appendChild in H.
  assert (Hnone : (None : option NodeId) <> Some n) by discriminate.
  destruct (insertBefore_moved (1 + o) n None p3 p4 W H Hnone)
    as (sn & sq & Hsn & Hsq & Hq & Hdoc & Hoth & Hst & Hnx & W4 & Hperm & Hpar & HpN & Hns).
  destruct (subtreeF_Some _ _ _ Hsn) as [Hsnf Hrn].
  destruct (subtree_Some _ _ _ Hsub) as [Hot _].
  assert (Hotf : In (overlayTree o) (subtreesF (forest p3))).
  { apply in_subtreesF. exists (document p3). split; [left; reflexivity | exact Hot]. }
  assert (H1ot : In (1 + o) (ids (overlayTree o))).
  { apply in_overlayTree. exists 1. split; [lia | reflexivity]. }
  assert (Hosn : ~ In o (ids sn)).
  { intro Ho. apply Hq.
    apply (subtrees_ids_incl sn (overlayTree o)); [|exact H1ot].
    apply (subtree_ids_trans (forest p3)); [apply (wf_nodup _ W) | exact Hsnf | exact Hotf |].
    exact Ho. }
  assert (Hod : In o (ids (document p3))) by (rewrite ids_unfold; right; exact Hin).
  assert (Hfree : overlayFree p3 (ids sn)).
  { intros i Hi. destruct (isOverlay p3 i) eqn:E; [|reflexivity]. exfalso.
    rewrite ids_unfold in Hi. destruct Hi as [Hi|Hi].
    - rewrite <- Hi, Hrn, Hno in E. discriminate.
    - apply in_subtreesF in Hsnf. destruct Hsnf as (t & Ht & Hst').
      pose proof (kids_subtree_incl t sn Hst' i Hi) as Hit.
      destruct Ht as [<-|Ht].
      + apply Hosn.
        assert (Hid : In i (ids (document p3))) by (rewrite ids_unfold; right; exact Hit).
        rewrite <- (pi_one _ HP i o Hid Hod E Hov). rewrite ids_unfold. right. exact Hi.
      + rewrite (pi_others _ HP t Ht i Hit) in E. discriminate. }
  assert (HP4 : PageInv p4) by (apply (PageInv_move (1 + o) n None p3 p4 sn HP H Hnone Hsn Hfree)).
  assert (Hsame : sameNodes p3 p4).
  { split; [exact Hnx|]. split; [exact Hperm|]. intro i. apply isOverlay_store, Hst. }
  assert (Hnroot : n <> root (document p3)).
  { intro E. destruct (insertBefore_inr _ _ _ _ _ H) as (d & _ & _ & Hd & Hdn & _).
    rewrite E, (wf_doc _ W) in Hd. injection Hd as <-. apply Hdn. reflexivity. }
  set (d' := remove_sub n (document p3)) in *.
  assert (Hod' : In o (ids d')) by (apply (doc_kept p3 n sn o W Hsn Hnroot Hod Hosn)).
  assert (H1d' : In (1 + o) (ids d')).
  { apply (doc_kept p3 n sn (1 + o) W Hsn Hnroot); [|exact Hq].
    apply (subtrees_ids_incl _ _ Hot), H1ot. }
  assert (Hndd' : NoDup (ids d')) by (apply remove_sub_NoDup, Hnd).
  pose proof (insert_sub_perm (1 + o) None sn d' Hndd' H1d') as Hperm4.
  rewrite <- Hdoc in Hperm4.
  pose proof (wf_doc_NoDup _ W4) as Hnd4.
  assert (Hod4 : In o (ids (document p4))).
  { apply (Permutation_in _ (Permutation_sym Hperm4)). apply in_or_app. left. exact Hod'. }
  assert (Hok4 : In o (idsF (kids (document p4)))).
  { rewrite ids_unfold in Hod4. destruct Hod4 as [E|Hk]; [|exact Hk]. exfalso.
    rewrite Hdoc, root_insert_sub in E. unfold d' in E. rewrite root_remove_sub in E.
    pose proof Hnd as Hnd0. rewrite ids_unfold in Hnd0.
    apply NoDup_cons_iff in Hnd0. destruct Hnd0 as [Hni _].
    apply Hni. rewrite E. exact Hin. }
  assert (Hnot : ~ In n (ids (overlayTree o))).
  { intro Hn. apply in_overlayTree in Hn. destruct Hn as (k & _ & Hk). lia. }
  assert (Hotd' : In (overlayTree o) (subtrees d')).
  { pose proof (subtrees_remove_sub (document p3) (overlayTree o) n Hnd Hot) as X.
    rewrite (remove_sub_absent n (overlayTree o)) in X.
    - apply X. exact Hod'.
    - intro Hn. apply Hnot. rewrite ids_unfold. right. exact Hn. }
  set (so4 := insert_sub (1 + o) None sn (overlayTree o)).
  assert (Hso4 : In so4 (subtrees (document p4))).
  { rewrite Hdoc. apply subtrees_insert_sub; assumption. }
  pose proof (insert_sub_perm (1 + o) None sn (overlayTree o) (overlayTree_NoDup o) H1ot)
    as Hpermso. fold so4 in Hpermso.
  assert (Hrso : root so4 = o) by (unfold so4; rewrite root_insert_sub; reflexivity).
  assert (Hnsn : In n (ids sn)) by (rewrite <- Hrn; apply ids_root).
  assert (Hsn4 : In sn (subtrees (document p4))).
  { rewrite Hdoc. apply inserted_subtree. exact H1d'. }
  split; [exact HP4|]. split; [exact Hsame|].
  exists sn. split; [exact Hsn|]. split.
  { rewrite <- Hrn. apply subtreeF_of_subtreesF; [apply (wf_nodup _ W4)|].
    apply in_subtreesF. exists (document p4). split; [left; reflexivity | exact Hsn4]. }
  split; [exact Hok4|]. split.
  { pose proof (subtree_of_subtrees _ _ Hnd4 Hso4) as X. rewrite Hrso in X. exact X. }
  split.
  { assert (Hn4 : In n (ids so4)).
    { apply (Permutation_in _ (Permutation_sym Hpermso)). apply in_or_app. right. exact Hnsn. }
    rewrite ids_unfold, Hrso in Hn4. destruct Hn4 as [E|Hk]; [lia | exact Hk]. }
  split.
  { intros i Hi. apply (Permutation_in _ Hpermso) in Hi. apply in_app_or in Hi.
    destruct Hi as [Hi|Hi]; [left | right; exact Hi].
    apply in_overlayTree in Hi. destruct Hi as (k & _ & ->). lia. }
  split; [exact Hdoc|]. split; [exact Hoth | exact HpN].
Qed.


(** The nodes that a snapshot records are nodes of the page. *)
Lemma snapshot_fresh (p : Page) (n : NodeId) (e : Elem) :
  wfPage p ->
  (forall q, s_parent (snapshot p n e) = Some q -> q < nextId p) /\
  (forall r, s_nextSibling (snapshot p n e) = Some r -> r < nextId p) /\
  s_nextSibling (snapshot p n e) <> Some n.
Proof.
  intro W. simpl. split; [|split].
  - intros q Hq. unfold parentElement in Hq.
    destruct (parentNode p n) as [q0|] eqn:Ep; [|discriminate].
    destruct (is_element p q0); [|discriminate]. injection Hq as ->.
    apply parentNode_Some in Ep. destruct Ep as (sp & Hsp & <-).
    apply parentF_Some in Hsp. destruct Hsp as [Hsp _].
    apply (wf_bound _ W). rewrite idsF_subtreesF. apply in_map. exact Hsp.
  - intros r Hr. unfold nextSibling in Hr.
    destruct (parentF n (forest p)) as [t|] eqn:Ep; [|discriminate].
    apply parentF_Some in Ep. destruct Ep as [Ht _].
    apply (wf_bound _ W). apply (subtreesF_ids_incl _ _ Ht).
    rewrite ids_unfold. right. apply roots_in_idsF. eapply next_after_In. exact Hr.
  - unfold nextSibling. destruct (parentF n (forest p)) as [t|] eqn:Ep; [|discriminate].
    apply parentF_Some in Ep. destruct Ep as [Ht _].
    apply next_after_neq, map_root_NoDup.
    apply (kids_NoDup (forest p) t (wf_nodup _ W) Ht).
Qed.

Lemma enterPaneFullscreen_inactive_spec (s : State) (n : NodeId) (ty : Kind) :
  Inv s -> isActive s = false ->
  In n (idsF (forest (page s))) -> isOverlay (page s) n = false ->
  match enterPaneFullscreen (Some n) ty s with
  | Throw _ s' => Inv s'
  | Ok r s' =>
      r = true /\ Inv s' /\ isActive s' = true /\
      overlaysIn (page s') = [nextId (page s)]
  end.
Proof.
  intros HI Ha Hnf Hno. pose proof (inv_page s HI) as HP. pose proof (pi_wf _ HP) as W.
  destruct (elem (page s) n) as [e|] eqn:He.
  2:{ rewrite enterPaneFullscreen_not_element by assumption. exact HI. }
  rewrite (enterPaneFullscreen_inactive s n ty e Ha He).
  set (st := snapshot (page s) n e).
  set (s0 := set_currentElement (Some n) (set_originalElementState (Some st) s)).
  assert (HR0 : Ready [n] s0).
  { split.
    - split; [exact HP | apply (inv_hint s HI) |].
      change (isActive s0) with (isActive s). rewrite Ha. discriminate.
    - intros m [<-|[]]. split; assumption. }
  pose proof (createOverlay_spec [n] s0 HR0 Ha) as Hco.
  destruct (createOverlay s0) as [r s2|ex s1]; [|exact Hco].
  change (page s0) with (page s) in Hco.
  change (currentElement s0) with (Some n) in Hco.
  change (originalElementState s0) with (Some st) in Hco.
  set (o := nextId (page s)) in *.
  destruct Hco as (HR2 & Ha2 & Hc2 & Hst2 & Hov2 & Hec2 & Hio & Hin & Hsub & Huniq).
  rewrite Hec2.
  assert (Hlt : n < o) by (apply (wf_bound _ W), Hnf).
  destruct HR2 as [HI2 Hl2]. destruct (Hl2 n (or_introl eq_refl)) as [Hnf2 Hno2].
  assert (HR3 : Ready [n] (set_page (markPage n ty (page s2)) s2)).
  { apply Ready_update; [split; assumption | reflexivity |].
    apply not_overlay_shape. intros _. exact Hno2. }
  set (p3 := markPage n ty (page s2)) in *.
  assert (Hd3 : document p3 = document (page s2)) by apply document_update_elem.
  assert (Hi3 : forall i, isOverlay p3 i = isOverlay (page s2) i).
  { intro i. apply isOverlay_update_elem. reflexivity. }
  assert (Hn3 : nextId p3 = nextId (page s2)) by apply nextId_update_elem.
  destruct (appendChild (1 + o) n p3) as [ex|p4] eqn:E.
  { apply HR3. }
  destruct (enter_move p3 p4 o n)
    as (HP4 & Hs4 & sn & Hsn3 & Hsn4 & Hok4 & Hsub4 & Hnk & Hall & Hdoc4 & Hoth4 & HpN).
  { apply (inv_page _ (Ready_Inv _ _ HR3)). }
  { rewrite Hi3. exact Hio. }
  { rewrite Hd3. exact Hin. }
  { rewrite Hd3. exact Hsub. }
  { unfold p3, markPage. rewrite forest_update_elem. exact Hnf2. }
  { rewrite Hi3. exact Hno2. }
  { exact Hlt. }
  { exact E. }
  set (sf := enterTail ty st n (set_page p4 s2)).
  assert (Hpf : PageInv (page sf) /\ document (page sf) = document p4 /\
                others (page sf) = others p4 /\ nextId (page sf) = nextId p4 /\
                forall i, isOverlay (page sf) i = isOverlay p4 i).
  { unfold sf, enterTail. cbn [page set_page].
    destruct (Kind_eqb ty KVideo && _).
    - split; [apply PageInv_play, HP4|]. unfold play. destruct (autoplayAllowed p4).
      + rewrite document_update_elem, others_update_elem, nextId_update_elem.
        repeat split; try reflexivity. intro i. apply isOverlay_update_elem. reflexivity.
      + repeat split; reflexivity.
    - split; [exact HP4|]. repeat split; reflexivity. }
  destruct Hpf as (HPf & Hdf & Hof & Hnxf & Hif).
  destruct Hs4 as (Hn4 & _ & Hi4).
  assert (Hiof : isOverlay (page sf) o = true) by (rewrite Hif, Hi4, Hi3; exact Hio).
  split; [reflexivity|]. split; [|split; [reflexivity|]].
  2:{ apply overlaysIn_single; [exact HPf | | exact Hiof].
      rewrite Hdf, ids_unfold. right. exact Hok4. }
  split.
  - exact HPf.
  - intros h Hh. change (timers sf) with (timers s2 ++ [CbActivate]) in Hh.
    apply in_app_or in Hh. destruct Hh as [Hh|[Hh|[]]]; [|discriminate].
    destruct (inv_hint _ HI2 h Hh) as [Hb Hn'].
    rewrite Hnxf, Hif, Hn4, Hi4, Hn3, Hi3. split; assumption.
  - intros _. exists n, st, o, (insert_sub (1 + o) None sn (overlayTree o)).
    split; [change (currentElement sf) with (currentElement s2); exact Hc2|].
    split; [change (originalElementState sf) with (originalElementState s2); exact Hst2|].
    split; [exact Hov2|].
    split; [exact Hiof|].
    split; [rewrite Hdf; exact Hok4|].
    split; [rewrite Hdf; exact Hsub4|].
    split; [exact Hnk|].
    split.
    { intros i Hi. destruct (Hall i Hi) as [Hle|Hi']; [left; exact Hle | right].
      apply contains_true. exists sn. split; [|exact Hi'].
      unfold forest. rewrite Hdf, Hof. exact Hsn4. }
    destruct (snapshot_fresh (page s) n e W) as (Hq & Hr & Hne).
    split; [exact Hq|]. split; [exact Hr | exact Hne].
Qed.

Lemma enterPaneFullscreen_spec (s : State) (n : NodeId) (ty : Kind) :
  Inv s -> In n (idsF (forest (page s))) -> isOverlay (page s) n = false ->
  match enterPaneFullscreen (Some n) ty s with
  | Throw _ s' => Inv s'
  | Ok r s' =>
      r = true /\ Inv s' /\ isActive s' = true /\ exists o, overlaysIn (page s') = [o]
  end.
Proof.
  intros HI Hnf Hno. destruct (isActive s) eqn:Ha.
  - rewrite (enterPaneFullscreen_active s n ty Ha).
    pose proof (exitPaneFullscreen_Inv s HI) as He.
    destruct (exitPaneFullscreen s) as [u s1|ex s1]; [|apply He].
    destruct He as (HI1 & Ha1 & Hs).
    pose proof (enterPaneFullscreen_inactive_spec s1 n ty HI1 Ha1) as H.
    destruct (enterPaneFullscreen (Some n) ty s1) as [r s'|ex s'].
    + destruct H as (Hr & HI' & Ha' & Hov).
      * apply (sameNodes_In _ _ _ Hs), Hnf.
      * destruct Hs as (_ & _ & Hi). rewrite Hi. exact Hno.
      * repeat (split; [assumption|]). exists (nextId (page s1)). exact Hov.
    + apply H.
      * apply (sameNodes_In _ _ _ Hs), Hnf.
      * destruct Hs as (_ & _ & Hi). rewrite Hi. exact Hno.
  - pose proof (enterPaneFullscreen_inactive_spec s n ty HI Ha Hnf Hno) as H.
    destruct (enterPaneFullscreen (Some n) ty s) as [r s'|ex s']; [|exact H].
    destruct H as (Hr & HI' & Ha' & Hov).
    repeat (split; [assumption|]). exists (nextId (page s)). exact Hov.
Qed.

Lemma triple_enter (l : list NodeId) (n : NodeId) (ty : Kind) :
  In n l ->
  triple (Ready l) (enterPaneFullscreen (Some n) ty) (fun _ => Inv) Inv.
Proof.
  intros Hn s [HI Hl]. destruct (Hl n Hn) as [Hnf Hno].
  pose proof (enterPaneFullscreen_spec s n ty HI Hnf Hno) as H.
  destruct (enterPaneFullscreen (Some n) ty s); [apply H | exact H].
Qed.

Lemma triple_exit (l : list NodeId) :
  triple (Ready l) exitPaneFullscreen (fun _ => Ready l) Inv.
Proof.
  intros s [HI Hl]. pose proof (exitPaneFullscreen_Inv s HI) as H.
  destruct (exitPaneFullscreen s) as [u s'|ex s']; [|apply H].
  destruct H as (HI' & _ & Hs). split; [exact HI'|].
  intros n Hn. destruct (Hl n Hn) as [Hnf Hno]. split.
  - apply (sameNodes_In _ _ _ Hs), Hnf.
  - destruct Hs as (_ & _ & Hi). rewrite Hi. exact Hno.
Qed.


(** *** The interactive picker *)

Lemma triple_bodyClass (l : list NodeId) (f : list string -> list string) :
  triple (Ready l) (bodyClass f) (fun _ => Ready l) Inv.
Proof.
  intros s HR. unfold bodyClass, bind, gets, throw.
  destruct (body (page s)) as [b|] eqn:Hb; [|apply HR].
  unfold onPage, modify. apply Ready_update; [exact HR | reflexivity |].
  apply not_overlay_shape. intros _.
  apply body_not_overlay; [apply HR | exact Hb].
Qed.

Lemma triple_offer (l : list NodeId) (c : NodeId * Kind) (Q : State -> Prop) :
  In (fst c) l -> triple (Ready l) (offer c) (fun _ => Ready l) Q.
Proof.
  destruct c as [element type]. simpl. intro H. unfold offer.
  eapply triple_bind; [apply triple_update; [exact H | reflexivity]|]. intro.
  eapply triple_bind; [apply triple_update; [exact H | reflexivity]|]. intro.
  eapply triple_bind; [apply triple_update; [exact H | reflexivity]|]. intro.
  apply triple_update; [exact H | reflexivity].
Qed.

Lemma triple_withdraw (l : list NodeId) (element : NodeId) (Q : State -> Prop) :
  In element l -> triple (Ready l) (withdraw element) (fun _ => Ready l) Q.
Proof.
  intro H. unfold withdraw.
  eapply triple_bind; [apply triple_update; [exact H | reflexivity]|]. intro.
  eapply triple_bind; [apply triple_update; [exact H | reflexivity]|]. intro.
  apply triple_update; [exact H|].
  intro e. destruct (paneFullscreenHandler e); reflexivity.
Qed.

Lemma hint_app (h : NodeId) (l : list Callback) (cb : Callback) :
  (forall k, cb <> CbHintFade k) -> In (CbHintFade h) (l ++ [cb]) -> In (CbHintFade h) l.
Proof.
  intros Hcb H. apply in_app_or in H. destruct H as [H|[H|[]]]; [exact H|].
  exfalso. apply (Hcb h). exact H.
Qed.

Lemma in_remove_callback (x cb : Callback) (l : list Callback) :
  In x (remove_callback cb l) -> In x l.
Proof.
  induction l as [|y l IH]; simpl; [auto|].
  destruct (Callback_eqb cb y); [intro; right; assumption|].
  intros [H|H]; [left; exact H | right; apply IH, H].
Qed.

Lemma triple_enableSelectMode (l : list NodeId) :
  triple (Ready l) enableSelectMode (fun _ => Ready l) Inv.
Proof.
  unfold enableSelectMode. apply triple_gets. intros [|].
  { apply triple_ret'. intros s [H _]. exact H. }
  eapply triple_bind.
  { eapply triple_pre; [|apply (triple_fields l)].
    - intros s [H _]. exact H.
    - intro s. simpl. repeat split; auto. }
  intro. eapply triple_bind; [apply triple_bodyClass|]. intro.
  apply triple_gets. intro sel.
  eapply triple_bind.
  { apply (triple_weaken (Ready (l ++ map fst sel)) _ _ (fun _ => Ready (l ++ map fst sel))
                          (fun _ => Ready l) Inv Inv).
    - apply triple_forEach. intros c Hc. apply triple_offer.
      apply in_or_app. right. apply in_map. exact Hc.
    - intros s [HR Hsel]. apply Ready_app; [exact HR|].
      intros n Hn. apply in_map_iff in Hn. destruct Hn as (c & <- & Hc).
      apply getAllSelectableElements_ready; [apply HR | rewrite Hsel; exact Hc].
    - intros ? s HR. apply (Ready_incl _ l _ HR). apply incl_appl, incl_refl.
    - auto. }
  intro. eapply triple_bind.
  { apply (triple_fields l). intro s. simpl. repeat split; auto. }
  intro. eapply triple_bind.
  { apply (triple_fields l). intro s. simpl. repeat split; auto.
    intro h. apply hint_app. discriminate. }
  intro. apply triple_ret'. auto.
Qed.

Lemma triple_disableSelectMode (l : list NodeId) :
  triple (Ready l) disableSelectMode (fun _ => Ready l) Inv.
Proof.
  unfold disableSelectMode. apply triple_gets. intros [|]; simpl.
  2:{ apply triple_ret'. intros s [H _]. exact H. }
  eapply triple_bind.
  { eapply triple_pre; [|apply (triple_fields l)].
    - intros s [H _]. exact H.
    - intro s. simpl. repeat split; auto. }
  intro. eapply triple_bind; [apply triple_bodyClass|]. intro.
  apply triple_gets. intro marked.
  apply (triple_weaken (Ready (l ++ marked)) _ _ (fun _ => Ready (l ++ marked))
                        (fun _ => Ready l) Inv Inv).
  - apply triple_forEach. intros c Hc. apply triple_withdraw.
    apply in_or_app. right. exact Hc.
  - intros s [HR Hsel]. apply Ready_app; [exact HR|].
    intros n Hn. rewrite <- Hsel in Hn. apply querySelectorAll_In in Hn.
    destruct Hn as [Hin Hm]. split; [exact Hin|].
    apply (matched_not_overlay _ n _ (inv_page _ (Ready_Inv _ _ HR)) Hin Hm).
    intros e Hid Hsh. apply (overlayShape_not_matched e Hid Hsh).
  - intros ? s HR. apply (Ready_incl _ l _ HR). apply incl_appl, incl_refl.
  - auto.
Qed.

Lemma triple_handleElementSelect (element : NodeId) (type : Kind) :
  triple (Ready [element]) (handleElementSelect element type) (fun _ => Inv) Inv.
Proof.
  unfold handleElementSelect.
  eapply triple_bind; [apply triple_disableSelectMode|]. intro.
  eapply triple_bind; [apply (triple_enter [element]); left; reflexivity|]. intro.
  apply triple_ret'. auto.
Qed.

Lemma triple_exit_Inv :
  triple Inv exitPaneFullscreen (fun _ => Inv) Inv.
Proof.
  apply (triple_weaken (Ready []) _ _ (fun _ => Ready []) _ Inv Inv).
  - apply triple_exit.
  - apply Inv_Ready.
  - intros ? s. apply Ready_Inv.
  - auto.
Qed.

Lemma triple_disable_Inv :
  triple Inv disableSelectMode (fun _ => Inv) Inv.
Proof.
  apply (triple_weaken (Ready []) _ _ (fun _ => Ready []) _ Inv Inv).
  - apply triple_disableSelectMode.
  - apply Inv_Ready.
  - intros ? s. apply Ready_Inv.
  - auto.
Qed.

Lemma triple_handleKeydown (key : string) :
  triple Inv (handleKeydown key) (fun _ => Inv) Inv.
Proof.
  unfold handleKeydown. apply triple_gets. intro active.
  eapply triple_pre; [intros s [H _]; exact H|].
  destruct (_ && _); [apply triple_exit_Inv | apply triple_ret'; auto].
Qed.

(** *** Messages, callbacks and the other events *)

Lemma triple_onMessage (action : Action) :
  triple Inv (onMessage action) (fun _ => Inv) Inv.
Proof.
  destruct action; simpl.
  - apply triple_gets. intros [[element type]|].
    + eapply triple_bind.
      * eapply triple_pre; [|apply (triple_enter [element]); left; reflexivity].
        intros s [HI Hf]. split; [exact HI|]. intros n [<-|[]].
        apply (findBestPlayableElement_ready _ _ type (inv_page _ HI) Hf).
      * intro. apply triple_ret'. auto.
    + apply triple_ret'. intros s [H _]. exact H.
  - eapply triple_bind.
    { apply (triple_weaken (Ready []) _ _ (fun _ => Ready []) (fun _ => Inv) Inv Inv).
      - apply triple_enableSelectMode.
      - apply Inv_Ready.
      - intros ? s. apply Ready_Inv.
      - auto. }
    intros [[|k]|].
    + eapply triple_bind; [apply triple_disable_Inv|]. intro. apply triple_ret'. auto.
    + apply triple_ret'. auto.
    + apply triple_ret'. auto.
  - eapply triple_bind; [apply triple_exit_Inv|]. intro. apply triple_ret'. auto.
  - apply triple_gets. intro. apply triple_gets. intro.
    apply triple_ret'. intros s [[H _] _]. exact H.
  - apply triple_ret'. auto.
Qed.

Lemma overlayShape_active (e : Elem) :
  overlayShape e ->
  overlayShape (set_classList (add_token "active" (classList e)) e).
Proof.
  intros (Ht & Hc & Hl). split; [exact Ht|]. split; [|exact Hl].
  right. simpl. destruct Hc as [-> | ->]; reflexivity.
Qed.

Lemma PageInv_resize (p : Page) (w h : Q) :
  PageInv p ->
  PageInv (mkPage (document p) (others p) (store p) (nextId p) w h (autoplayAllowed p)).
Proof.
  intros [[Hnd Hb Hd Hdoc] H1 H2 H3]. split; [split|..].
  - exact Hnd.
  - exact Hb.
  - exact Hd.
  - exact Hdoc.
  - exact H1.
  - exact H2.
  - exact H3.
Qed.

Lemma Inv_step (ev : Event) (s : State) :
  Inv s -> enabled ev s -> Inv (stateOf (dispatch ev s)).
Proof.
  intros HI Hen. destruct ev as [action|key|target li|cb|n r m|w h].
  - apply (triple_stateOf Inv Inv); [|exact HI]. simpl.
    eapply triple_bind; [apply triple_onMessage|]. intro. apply triple_ret'. auto.
  - apply (triple_stateOf Inv Inv); [|exact HI]. simpl.
    apply triple_gets. intro active.
    eapply triple_bind.
    { eapply triple_pre; [|apply triple_handleKeydown]. intros s0 [H _]. exact H. }
    intro. destruct (_ && _); [apply triple_ret'; auto|].
    apply triple_gets. intro armed.
    eapply triple_bind.
    { apply (triple_weaken (Ready []) _ _ (fun _ => Ready []) (fun _ => Inv) Inv Inv).
      - apply (triple_fields []). intro s0. simpl. repeat split; auto.
      - intros s0 [H _]. apply Inv_Ready, H.
      - intros ? s0. apply Ready_Inv.
      - auto. }
    intro. destruct (_ && _); [apply triple_disable_Inv | apply triple_ret'; auto].
  - destruct Hen as [Hin Hl].
    destruct (elem (page s) target) as [e|] eqn:He; [|contradiction].
    assert (Hno : isOverlay (page s) target = false).
    { destruct (isOverlay (page s) target) eqn:E; [|reflexivity]. exfalso.
      apply isOverlay_true in E. destruct E as (e' & He' & Hid).
      rewrite He in He'. injection He' as <-.
      destruct (pi_shape _ (inv_page _ HI) target e Hin He Hid) as (_ & _ & Hls).
      rewrite Hls in Hl. exact Hl. }
    apply (triple_stateOf (Ready [target]) Inv).
    2:{ split; [exact HI|]. intros k [<-|[]]. split; assumption. }
    destruct li as [|type]; simpl.
    + eapply triple_weaken; [apply (triple_exit [target]) | auto | | auto].
      intros ? s0. apply Ready_Inv.
    + eapply triple_bind.
      { apply triple_update; [left; reflexivity | reflexivity]. }
      intro. apply triple_handleElementSelect.
  - simpl in Hen. destruct cb as [hint| |]; simpl.
    + unfold bind, modify, onPage. simpl.
      apply (Inv_frame s); simpl; try reflexivity.
      * exact HI.
      * apply PageInv_update_plain; [apply HI | reflexivity |].
        intros _. apply (inv_hint s HI hint Hen).
      * apply document_update_elem.
      * apply others_update_elem.
      * apply nextId_update_elem.
      * intro i. apply isOverlay_update_elem. reflexivity.
      * intros h Hh. eapply in_remove_callback. exact Hh.
    + apply (triple_stateOf (Ready []) Inv); [|apply Inv_Ready, HI].
      eapply triple_bind.
      { apply (triple_fields []). intro s0. simpl. repeat split; auto.
        intros h Hh. eapply in_remove_callback. exact Hh. }
      intro. apply triple_gets. intros [o|].
      * eapply triple_weaken;
          [apply (triple_update_shape [] o _ Inv) | | intros ? s0; apply Ready_Inv | auto].
        -- reflexivity.
        -- apply overlayShape_active.
        -- intros s0 [H _]. exact H.
      * apply triple_throw. intros s0 [H _]. apply Ready_Inv in H. exact H.
    + apply (triple_stateOf (Ready []) Inv); [|apply Inv_Ready, HI].
      eapply triple_bind.
      { apply (triple_fields []). intro s0. simpl. repeat split; auto.
        intros h Hh. eapply in_remove_callback. exact Hh. }
      intro. apply triple_gets. intros [|].
      * eapply triple_weaken;
          [apply (triple_disableSelectMode []) | | intros ? s0; apply Ready_Inv | auto].
        intros s0 [H _]. exact H.
      * apply triple_ret'. intros s0 [H _]. apply Ready_Inv in H. exact H.
  - apply (triple_stateOf (Ready []) Inv); [|apply Inv_Ready, HI]. simpl.
    eapply triple_weaken;
      [apply (triple_update_shape [] n _ Inv) | auto | intros ? s0; apply Ready_Inv | auto].
    + reflexivity.
    + intros e Hsh. exact Hsh.
  - simpl. unfold onPage, modify. simpl.
    apply (Inv_frame s); simpl; try reflexivity.
    + exact HI.
    + apply PageInv_resize, HI.
    + auto.
Qed.

Lemma cleanPage_PageInv (p : Page) : cleanPage p -> PageInv p.
Proof.
  intros [W Hu].
  assert (Hno : forall i, In i (idsF (forest p)) -> isOverlay p i = false).
  { intros i Hi. destruct (isOverlay p i) eqn:E; [|reflexivity]. exfalso.
    apply isOverlay_true in E. destruct E as (e & He & Hid).
    apply elem_store in He. pose proof (Hu i _ Hi He) as H. simpl in H.
    rewrite Hid in H. discriminate. }
  split.
  - exact W.
  - intros i j Hi _ Hov. rewrite (Hno i (in_forest_doc _ _ Hi)) in Hov. discriminate.
  - intros t Ht i Hi. apply Hno. apply in_forest_others. apply in_idsF.
    exists t. split; [exact Ht|]. rewrite ids_unfold. right. exact Hi.
  - intros i e Hi He Hid. exfalso.
    assert (H : isOverlay p i = true) by (apply isOverlay_true; exists e; auto).
    rewrite (Hno i Hi) in H. discriminate.
Qed.

Lemma reachable_Inv (p0 : Page) (s : State) : reachable p0 s -> Inv s.
Proof.
  induction 1 as [Hc|s s' Hr IH (ev & Hen & ->)].
  - split.
    + apply cleanPage_PageInv, Hc.
    + intros h [].
    + discriminate.
  - apply Inv_step; assumption.
Qed.


(** *** The page after the overlay has been removed *)

Lemma getElementById_overlay (p : Page) (o : NodeId) :
  PageInv p -> In o (idsF (kids (document p))) -> isOverlay p o = true ->
  getElementById p OVERLAY_ID = Some o.
Proof.
  intros HP Hin Hov. destruct (getElementById p OVERLAY_ID) as [o'|] eqn:E.
  - apply getElementById_Some in E. destruct E as [Hin' Hm]. f_equal.
    apply (pi_one _ HP); try assumption; rewrite ids_unfold; right; assumption.
  - pose proof (getElementById_None _ _ E o Hin) as Hn.
    change (isOverlay p o = false) in Hn. rewrite Hn in Hov. discriminate.
Qed.

Lemma removeOverlayPage_eq (p : Page) (o : NodeId) (so : Tree) :
  PageInv p -> In o (idsF (kids (document p))) -> isOverlay p o = true ->
  subtree o (document p) = Some so ->
  removeOverlayPage p = set_trees (remove_sub o (document p)) (others p ++ [so]) p.
Proof.
  intros HP Hin Hov Hsub. unfold removeOverlayPage.
  rewrite (getElementById_overlay p o HP Hin Hov).
  apply remove_in_document; [apply (pi_wf _ HP) | exact Hin | exact Hsub].
Qed.

Lemma filter_none {A} (f : A -> bool) (l : list A) :
  (forall a, In a l -> f a = false) -> List.filter f l = [].
Proof.
  induction l as [|a l IH]; intro H; simpl; [reflexivity|].
  rewrite (H a (or_introl eq_refl)). apply IH. intros b Hb. apply H. right. exact Hb.
Qed.

Lemma overlaysIn_removeOverlayPage (p : Page) :
  PageInv p -> overlaysIn (removeOverlayPage p) = [].
Proof.
  intro HP. destruct (PageInv_removeOverlayPage p HP) as (_ & Hfree & _).
  unfold overlaysIn, documentNodes. apply filter_none. exact Hfree.
Qed.

Lemma document_resumePage (st : ElementState) (c : NodeId) (p : Page) :
  document (resumePage st c p) = document p.
Proof.
  unfold resumePage, play. destruct (_ && _); [|reflexivity].
  destruct (autoplayAllowed p); [apply document_update_elem | reflexivity].
Qed.

Lemma others_resumePage (st : ElementState) (c : NodeId) (p : Page) :
  others (resumePage st c p) = others p.
Proof.
  unfold resumePage, play. destruct (_ && _); [|reflexivity].
  destruct (autoplayAllowed p); [apply others_update_elem | reflexivity].
Qed.

Lemma inDocument_true (p : Page) (n : NodeId) :
  inDocument p n = true <-> In n (ids (document p)).
Proof.
  unfold inDocument, documentNodes. rewrite existsb_exists. split.
  - intros (x & Hx & E). apply Nat.eqb_eq in E. subst. exact Hx.
  - intro H. exists n. split; [exact H | apply Nat.eqb_refl].
Qed.

Lemma inDocument_false (p : Page) (n : NodeId) :
  inDocument p n = false <-> ~ In n (ids (document p)).
Proof.
  rewrite <- inDocument_true. destruct (inDocument p n); split; intro H;
    try reflexivity; try discriminate; try (intro; discriminate).
  exfalso. apply H. reflexivity.
Qed.

(** C10, as the code has it.  In a reachable state with a session active
    whose snapshot records no parent element, [exitPaneFullscreen] returns
    normally and clears the session:
    the state is inactive, without current element and without snapshot.
    The element is not inserted anywhere: the trees of the page after the
    call are those of the page before it with the subtree of the overlay,
    which holds the element, detached from the document; so the element,
    which was in the document, is not in it any more, and no overlay
    element is left in the document. *)
Theorem exitPaneFullscreen_no_parent
        (p0 : Page) (s : State) (c : NodeId) (st : ElementState) :
  reachable p0 s ->
  isActive s = true -> currentElement s = Some c -> originalElementState s = Some st ->
  s_parent st = None ->
  exists s' o so,
    exitPaneFullscreen s = Ok tt s' /\
    isActive s' = false /\ currentElement s' = None /\ originalElementState s' = None /\
    overlay s = Some o /\
    subtree o (document (page s)) = Some so /\ In c (idsF (kids so)) /\
    document (page s') = remove_sub o (document (page s)) /\
    others (page s') = others (page s) ++ [so] /\
    inDocument (page s) c = true /\ inDocument (page s') c = false /\
    overlaysIn (page s') = [].
Proof.
  intros Hr Ha Hc Hst Hpar. pose proof (reachable_Inv p0 s Hr) as HI.
  destruct (session_facts s HI Ha)
    as (c' & st' & o & so & sc & H1 & H2 & H3 & H4 & H5 & H6 & H7 & H8 & H9 & H10 & H11 &
        Hcd & Hco & Hsc & Hscso & Hincl & Hfree).
  rewrite Hc in H1. injection H1 as <-. rewrite Hst in H2. injection H2 as <-.
  pose proof (inv_page s HI) as HP.
  assert (HP1 : PageInv (restoreAttrs c st (page s))).
  { apply PageInv_restoreAttrs; [exact HP | intros _; exact Hco]. }
  pose proof (PageInv_resumePage st c _ HP1) as HP2.
  set (p2 := resumePage st c (restoreAttrs c st (page s))) in *.
  assert (Hd2 : document p2 = document (page s)).
  { unfold p2. rewrite document_resumePage. apply document_restoreAttrs. }
  assert (Ho2 : others p2 = others (page s)).
  { unfold p2. rewrite others_resumePage. apply others_restoreAttrs. }
  assert (Hi2 : isOverlay p2 o = true).
  { destruct (sameNodes_resumePage st c (restoreAttrs c st (page s))) as (_ & _ & Hi).
    destruct (sameNodes_restoreAttrs c st (page s)) as (_ & _ & Hi').
    unfold p2. rewrite Hi, Hi'. exact H4. }
  assert (Hrm : removeOverlayPage p2 =
                set_trees (remove_sub o (document (page s))) (others (page s) ++ [so]) p2).
  { rewrite <- Hd2, <- Ho2. apply removeOverlayPage_eq; rewrite ?Hd2; assumption. }
  exists (exitTail st c (set_page (restoreAttrs c st (page s)) s)), o, so.
  split.
  { rewrite (exitPaneFullscreen_active s c st Ha Hc Hst), Hpar. reflexivity. }
  split; [reflexivity|]. split; [reflexivity|]. split; [reflexivity|].
  split; [exact H3|]. split; [exact H6|]. split; [exact H7|].
  change (page (exitTail st c (set_page (restoreAttrs c st (page s)) s)))
    with (removeOverlayPage p2).
  split; [rewrite Hrm; reflexivity|]. split; [rewrite Hrm; reflexivity|].
  split; [apply inDocument_true; exact Hcd|].
  split; [|apply overlaysIn_removeOverlayPage, HP2].
  apply inDocument_false. rewrite Hrm. simpl.
  pose proof (pi_wf _ HP) as W.
  pose proof (remove_sub_doc_perm (page s) o so W H5 H6) as Hperm.
  pose proof (Permutation_NoDup Hperm (wf_doc_NoDup _ W)) as Hnd.
  intro Hin. apply (NoDup_app_disjoint _ _ c Hnd Hin).
  rewrite ids_unfold. right. exact H7.
Qed.


(** *** The position of a node when another subtree is detached *)

Lemma parentNode_forest (p p' : Page) (n : NodeId) :
  forest p' = forest p -> parentNode p' n = parentNode p n.
Proof. intro H. unfold parentNode. rewrite H. reflexivity. Qed.

Lemma nextSibling_forest (p p' : Page) (n : NodeId) :
  forest p' = forest p -> nextSibling p' n = nextSibling p n.
Proof. intro H. unfold nextSibling. rewrite H. reflexivity. Qed.

Lemma forest_resumePage (st : ElementState) (c : NodeId) (p : Page) :
  forest (resumePage st c p) = forest p.
Proof. unfold forest. rewrite document_resumePage, others_resumePage. reflexivity. Qed.

Lemma map_root_removeF (o : NodeId) (ks : list Tree) :
  map root (removeF o ks) = List.filter (fun x => negb (Nat.eqb x o)) (map root ks).
Proof.
  induction ks as [|k ks IH]; [reflexivity|].
  rewrite removeF_cons. simpl. destruct (Nat.eqb (root k) o); simpl; [exact IH|].
  rewrite root_remove_sub, IH. reflexivity.
Qed.

Lemma tree_remove_perm (t : Tree) (n : NodeId) (sn : Tree) :
  NoDup (ids t) -> root t <> n -> subtree n t = Some sn ->
  Permutation (ids t) (ids (remove_sub n t) ++ ids sn).
Proof.
  intros Hnd Hr Hs.
  assert (Hf : idsF [t] = ids t) by (simpl; apply app_nil_r).
  assert (Hrm : removeF n [t] = [remove_sub n t]).
  { rewrite removeF_cons. destruct (Nat.eqb_spec (root t) n); [contradiction | reflexivity]. }
  assert (Hsf : subtreeF n [t] = Some sn).
  { unfold subtreeF. simpl. rewrite Hs. reflexivity. }
  pose proof (removeF_perm [t] n sn) as H. rewrite Hf, Hrm in H.
  simpl in H. rewrite app_nil_r in H. apply H; assumption.
Qed.

Lemma ids_insert_sub_mono (p : NodeId) (ref : option NodeId) (c t : Tree) (x : NodeId) :
  NoDup (ids t) -> In x (ids t) -> In x (ids (insert_sub p ref c t)).
Proof.
  intros Hnd Hx. destruct (in_dec Nat.eq_dec p (ids t)) as [Hp|Hp].
  - apply (Permutation_in _ (Permutation_sym (insert_sub_perm p ref c t Hnd Hp))).
    apply in_or_app. left. exact Hx.
  - rewrite (insert_sub_absent _ _ _ _ Hp). exact Hx.
Qed.

Lemma remove_position (p : Page) (o : NodeId) (so : Tree) (c q : NodeId) :
  wfPage p -> In o (idsF (kids (document p))) -> subtree o (document p) = Some so ->
  parentNode p c = Some q -> c <> o -> ~ In q (ids so) -> nextSibling p c <> Some o ->
  parentNode (remove o p) c = Some q /\ nextSibling (remove o p) c = nextSibling p c.
Proof.
  intros W Hin Hsub Hpar Hco Hq Hns.
  pose proof (wf_doc_NoDup _ W) as Hnd.
  rewrite (remove_in_document p o so W Hin Hsub).
  apply parentNode_Some in Hpar. destruct Hpar as (sp & Hsp & Hrsp).
  destruct (parentF_Some _ _ _ Hsp) as [Hspf Hcsp].
  pose proof (remove_sub_doc_perm p o so W Hin Hsub) as Hperm.
  set (F' := remove_sub o (document p) :: others p ++ [so]).
  assert (HndF : NoDup (idsF F')).
  { apply (Permutation_NoDup (l := idsF (forest p))); [|apply (wf_nodup _ W)].
    unfold F', forest. rewrite !idsF_cons, idsF_app. simpl. rewrite app_nil_r.
    eapply Permutation_trans; [apply Permutation_app_tail, Hperm|].
    rewrite <- !app_assoc. apply Permutation_app_head, Permutation_app_comm. }
  assert (Hroot : root (document p) <> o).
  { intro E. rewrite ids_unfold in Hnd. apply NoDup_cons_iff in Hnd.
    destruct Hnd as [Hni _]. apply Hni. rewrite E. exact Hin. }
  assert (Hod : In o (ids (document p))) by (rewrite ids_unfold; right; exact Hin).
  assert (Hsp' : In (remove_sub o sp) (subtreesF F')).
  { apply in_subtreesF in Hspf. destruct Hspf as (t & Ht & Hst).
    destruct Ht as [<-|Ht].
    - apply in_subtreesF. exists (remove_sub o (document p)). split; [left; reflexivity|].
      apply subtrees_remove_sub; [exact Hnd | exact Hst |].
      pose proof (subtrees_ids_incl _ _ Hst _ (ids_root sp)) as Hqd.
      apply (Permutation_in _ Hperm) in Hqd. apply in_app_or in Hqd.
      destruct Hqd as [Hqd|Hqd]; [exact Hqd|]. exfalso. apply Hq. rewrite <- Hrsp. exact Hqd.
    - rewrite remove_sub_absent.
      + apply in_subtreesF. exists t. split; [|exact Hst].
        right. apply in_or_app. left. exact Ht.
      + intro Ho. apply (wf_doc_others_disjoint p o W Hod).
        apply in_idsF. exists t. split; [exact Ht|].
        apply (subtrees_ids_incl _ _ Hst). rewrite ids_unfold. right. exact Ho. }
  assert (Hroots : map root (kids (remove_sub o sp)) =
                   List.filter (fun x => negb (Nat.eqb x o)) (map root (kids sp))).
  { rewrite remove_sub_unfold. simpl. apply map_root_removeF. }
  assert (Hc' : In c (map root (kids (remove_sub o sp)))).
  { rewrite Hroots. apply filter_In. split; [exact Hcsp|].
    apply negb_true_iff, Nat.eqb_neq. exact Hco. }
  pose proof (parentF_of_subtreesF c F' _ HndF Hsp' Hc') as Hpf.
  unfold parentNode, nextSibling. rewrite forest_set_trees. fold F'. rewrite Hpf, Hsp.
  simpl. rewrite root_remove_sub. split; [f_equal; exact Hrsp|].
  rewrite Hroots. apply next_after_filter; [exact Hco|].
  unfold nextSibling in Hns. rewrite Hsp in Hns. exact Hns.
Qed.

Lemma elem_resumePage (st : ElementState) (c : NodeId) (p : Page) (e : Elem) :
  elem p c = Some e ->
  exists e1, elem (resumePage st c p) c = Some e1 /\
             styleAttr e1 = styleAttr e /\ classList e1 = classList e.
Proof.
  intro He. unfold resumePage, play.
  destruct (_ && _); [|exists e; auto].
  destruct (autoplayAllowed p); [|exists e; auto].
  rewrite elem_update_elem_eq, He. simpl. eexists. split; [reflexivity|]. split; reflexivity.
Qed.

Lemma overlaysIn_le1 (p : Page) : PageInv p -> List.length (overlaysIn p) <= 1.
Proof.
  intro HP. pose proof (wf_doc_NoDup _ (pi_wf _ HP)) as Hnd.
  unfold overlaysIn, documentNodes.
  destruct (List.filter (isOverlay p) (ids (document p))) as [|a [|b l]] eqn:E;
    simpl; try lia.
  exfalso.
  assert (Ha : In a (List.filter (isOverlay p) (ids (document p)))) by (rewrite E; left; reflexivity).
  assert (Hb : In b (List.filter (isOverlay p) (ids (document p))))
    by (rewrite E; right; left; reflexivity).
  apply filter_In in Ha. apply filter_In in Hb.
  destruct Ha as [Ha1 Ha2]. destruct Hb as [Hb1 Hb2].
  pose proof (pi_one _ HP a b Ha1 Hb1 Ha2 Hb2) as Hab. subst b.
  pose proof (NoDup_filter (isOverlay p) Hnd) as Hnf. rewrite E in Hnf.
  apply NoDup_cons_iff in Hnf. destruct Hnf as [Hni _]. apply Hni. left. reflexivity.
Qed.


(** *** What a session that ends normally restores *)

Lemma exitPaneFullscreen_restores (s s1 : State) (c : NodeId) (st : ElementState) :
  Inv s ->
  isActive s = true -> currentElement s = Some c -> originalElementState s = Some st ->
  exitPaneFullscreen s = Ok tt s1 ->
  isActive s1 = false /\
  overlaysIn (page s1) = [] /\
  (forall e, elem (page s) c = Some e ->
             exists e1, elem (page s1) c = Some e1 /\
                        styleAttr e1 = Some (s_style st) /\
                        classList e1 = stripMarkers (s_className st)) /\
  (forall q, s_parent st = Some q ->
             parentNode (page s1) c = Some q /\
             nextSibling (page s1) c = s_nextSibling st).
Proof.
  intros HI Ha Hc Hst Hexit.
  destruct (session_facts s HI Ha)
    as (c' & st' & o & so & sc & H1 & H2 & H3 & H4 & H5 & H6 & H7 & H8 & H9 & H10 & H11 &
        Hcd & Hco & Hsc & Hscso & Hincl & Hfree).
  rewrite Hc in H1. injection H1 as <-. rewrite Hst in H2. injection H2 as <-.
  pose proof (inv_page s HI) as HP. pose proof (pi_wf _ HP) as W.
  pose proof (wf_doc_NoDup _ W) as Hnd.
  assert (HP1 : PageInv (restoreAttrs c st (page s))).
  { apply PageInv_restoreAttrs; [exact HP | intros _; exact Hco]. }
  set (p1 := restoreAttrs c st (page s)) in *.
  assert (Helem : forall X, PageInv X -> store X = store p1 ->
            forall e, elem (page s) c = Some e ->
            exists e1, elem (removeOverlayPage (resumePage st c X)) c = Some e1 /\
                       styleAttr e1 = Some (s_style st) /\
                       classList e1 = stripMarkers (s_className st)).
  { intros X HX HsX e He.
    destruct (PageInv_removeOverlayPage _ (PageInv_resumePage st c X HX)) as (_ & _ & Hs' & _).
    rewrite (elem_store_eq _ _ c Hs').
    assert (HeX : elem X c = Some (set_classList (stripMarkers (s_className st))
                                                 (set_styleAttr (Some (s_style st)) e))).
    { rewrite (elem_store_eq _ _ c HsX). unfold p1. rewrite elem_restoreAttrs, He. reflexivity. }
    destruct (elem_resumePage st c X _ HeX) as (e1 & E1 & E2 & E3).
    exists e1. split; [exact E1|]. rewrite E2, E3. split; reflexivity. }
  rewrite (exitPaneFullscreen_active s c st Ha Hc Hst) in Hexit. fold p1 in Hexit.
  destruct (s_parent st) as [q|] eqn:Hpar.
  2:{ injection Hexit as <-. split; [reflexivity|].
      split; [apply overlaysIn_removeOverlayPage, PageInv_resumePage, HP1|].
      split; [apply (Helem p1 HP1 eq_refl)|]. intros q Hq. discriminate. }
  destruct (insertBefore q c (s_nextSibling st) p1) as [ex|p2] eqn:E; [discriminate|].
  injection Hexit as <-.
  pose proof (pi_wf _ HP1) as W1.
  destruct (insertBefore_moved q c (s_nextSibling st) p1 p2 W1 E H11)
    as (sn & sq & Hsn & Hsq & Hqsn & Hdoc & Hoth & Hst2 & Hnx & W2 & Hperm & Hpf & HpN & Hns).
  unfold p1 in Hsn, Hdoc. rewrite forest_restoreAttrs, Hsc in Hsn. injection Hsn as <-.
  rewrite document_restoreAttrs in Hdoc.
  assert (HP2 : PageInv p2).
  { apply (PageInv_move q c (s_nextSibling st) p1 p2 sc HP1 E H11).
    - unfold p1. rewrite forest_restoreAttrs. exact Hsc.
    - intros i Hi. destruct (sameNodes_restoreAttrs c st (page s)) as (_ & _ & Hov).
      unfold p1. rewrite Hov. apply Hfree, Hi. }
  split; [reflexivity|].
  split; [apply overlaysIn_removeOverlayPage, PageInv_resumePage, HP2|].
  split; [apply (Helem p2 HP2 Hst2)|].
  intros q' Hq'. injection Hq' as <-.
  change (page (exitTail st c (set_page p2 s)))
    with (removeOverlayPage (resumePage st c p2)).
  pose proof (PageInv_resumePage st c p2 HP2) as HP2'.
  set (p2' := resumePage st c p2) in *.
  (* the overlay of the page, before and after the element is moved out *)
  destruct (subtree_Some _ _ _ H6) as [Hso Hro].
  pose proof (subtrees_NoDup _ _ Hnd Hso) as Hndso.
  assert (Hok : ~ In o (idsF (kids so))).
  { pose proof Hndso as X. rewrite ids_unfold, Hro in X.
    apply NoDup_cons_iff in X. apply X. }
  assert (Hcne : c <> o) by (intro X; apply Hok; rewrite <- X; exact H7).
  assert (Hrc : root sc = c) by (apply (subtreeF_Some _ _ _ Hsc)).
  assert (Hod : In o (ids (document (page s)))) by (rewrite ids_unfold; right; exact H5).
  assert (Hroot : root (document (page s)) <> o).
  { intro X. pose proof Hnd as Y. rewrite ids_unfold in Y. apply NoDup_cons_iff in Y.
    destruct Y as [Y _]. apply Y. rewrite X. exact H5. }
  assert (Hcroot : c <> root (document (page s))).
  { intro X. pose proof Hnd as Y. rewrite ids_unfold in Y. apply NoDup_cons_iff in Y.
    destruct Y as [Y _]. apply Y. rewrite <- X.
    apply (kids_subtree_incl _ _ Hso). exact H7. }
  assert (Hosc : ~ In o (ids sc)) by (intro X; apply Hok, Hincl, X).
  pose proof (doc_kept (page s) c sc o W Hsc Hcroot Hod Hosc) as Hod'.
  assert (Hso' : In (remove_sub c so) (subtrees (remove_sub c (document (page s))))).
  { apply subtrees_remove_sub; [exact Hnd | exact Hso | rewrite Hro; exact Hod']. }
  pose proof (remove_sub_NoDup _ c Hnd) as Hndd'.
  pose proof (subtrees_insert_sub q (s_nextSibling st) sc _ _ Hndd' Hso') as Hins.
  assert (Hge : forall i, In i (ids (remove_sub c so)) -> o <= i).
  { intros i Hi. pose proof (ids_remove_sub_incl c so i Hi) as Hiso.
    assert (Hsub : subtree c so = Some sc).
    { rewrite <- Hrc. apply subtree_of_subtrees; assumption. }
    assert (Hrso : root so <> c) by (rewrite Hro; auto).
    pose proof (tree_remove_perm so c sc Hndso Hrso Hsub) as Hp.
    pose proof (Permutation_NoDup Hp Hndso) as Hnd'.
    destruct (H8 i Hiso) as [Hle|Hct]; [exact Hle|]. exfalso.
    apply contains_true in Hct. destruct Hct as (t & Ht & Hit).
    rewrite Hsc in Ht. injection Ht as <-.
    apply (NoDup_app_disjoint _ _ i Hnd' Hi Hit). }
  assert (Hqnot : ~ In q (ids (remove_sub c so))).
  { intro X. apply Hge in X. pose proof (H9 q eq_refl). lia. }
  rewrite (insert_sub_absent _ _ _ _ Hqnot), <- Hdoc in Hins.
  assert (Hd2' : document p2' = document p2) by apply document_resumePage.
  assert (Hf2' : forest p2' = forest p2) by apply forest_resumePage.
  assert (Hrso2 : root (remove_sub c so) = o) by (rewrite root_remove_sub; exact Hro).
  assert (Hsub2 : subtree o (document p2') = Some (remove_sub c so)).
  { rewrite Hd2', <- Hrso2. apply subtree_of_subtrees; [apply wf_doc_NoDup, W2 | exact Hins]. }
  assert (Hin2 : In o (idsF (kids (document p2')))).
  { rewrite Hd2'. rewrite subtrees_unfold in Hins. destruct Hins as [X|X].
    - exfalso. apply Hroot. rewrite <- Hrso2, <- X, Hdoc, root_insert_sub, root_remove_sub.
      reflexivity.
    - rewrite <- Hrso2. apply (subtreesF_ids_incl _ _ X), ids_root. }
  assert (Hi2 : isOverlay p2' o = true).
  { destruct (sameNodes_resumePage st c p2) as (_ & _ & X1).
    destruct (sameNodes_restoreAttrs c st (page s)) as (_ & _ & X2).
    unfold p2'. rewrite X1, (isOverlay_store _ _ o Hst2). unfold p1. rewrite X2. exact H4. }
  unfold removeOverlayPage. rewrite (getElementById_overlay p2' o HP2' Hin2 Hi2).
  destruct (remove_position p2' o (remove_sub c so) c q (pi_wf _ HP2') Hin2 Hsub2)
    as [R1 R2].
  - rewrite (parentNode_forest _ _ c Hf2'). exact HpN.
  - exact Hcne.
  - exact Hqnot.
  - rewrite (nextSibling_forest _ _ c Hf2'), Hns. intro X. pose proof (H10 o X). lia.
  - split; [exact R1|]. rewrite R2, (nextSibling_forest _ _ c Hf2'). exact Hns.
Qed.

(** C5, as the code has it.  In a reachable state with an active session,
    [enterPaneFullscreen] with a node of the page that is not an overlay
    element runs [exitPaneFullscreen] before anything else, and raises
    what that call raises.  When the call returns, the session is over and
    no overlay element is left in the document; the element that had been
    relocated has the recorded string as its style attribute (the empty
    string where it had no such attribute) and the recorded classes without
    the marker classes of the script; and, when a parent element had been
    recorded, the element is a child of it again, before the recorded next
    sibling.  When [enterPaneFullscreen] returns, it returns [true] with a
    session active and exactly one overlay element in the document.  No
    reachable state has two overlay elements in the document. *)
Theorem enterPaneFullscreen_while_active
        (p0 : Page) (s : State) (c : NodeId) (st : ElementState) (n : NodeId) (ty : Kind) :
  reachable p0 s ->
  isActive s = true -> currentElement s = Some c -> originalElementState s = Some st ->
  In n (idsF (forest (page s))) -> isOverlay (page s) n = false ->
  enterPaneFullscreen (Some n) ty s =
    match exitPaneFullscreen s with
    | Ok _ s1 => enterPaneFullscreen (Some n) ty s1
    | Throw ex s1 => Throw ex s1
    end /\
  (forall s1, exitPaneFullscreen s = Ok tt s1 ->
     isActive s1 = false /\
     overlaysIn (page s1) = [] /\
     (forall e, elem (page s) c = Some e ->
                exists e1, elem (page s1) c = Some e1 /\
                           styleAttr e1 = Some (s_style st) /\
                           classList e1 = stripMarkers (s_className st)) /\
     (forall q, s_parent st = Some q ->
                parentNode (page s1) c = Some q /\
                nextSibling (page s1) c = s_nextSibling st)) /\
  (forall r s', enterPaneFullscreen (Some n) ty s = Ok r s' ->
     r = true /\ isActive s' = true /\ exists o, overlaysIn (page s') = [o]) /\
  (forall s2, reachable p0 s2 -> List.length (overlaysIn (page s2)) <= 1).
Proof.
  intros Hr Ha Hc Hst Hn Hno. pose proof (reachable_Inv p0 s Hr) as HI.
  split; [apply enterPaneFullscreen_active, Ha|].
  split; [intros s1 Hexit; apply (exitPaneFullscreen_restores s s1 c st HI Ha Hc Hst Hexit)|].
  split.
  - intros r s' He. pose proof (enterPaneFullscreen_spec s n ty HI Hn Hno) as H.
    rewrite He in H. destruct H as (H1 & _ & H2 & H3). auto.
  - intros s2 Hr2. apply overlaysIn_le1, (inv_page _ (reachable_Inv p0 s2 Hr2)).
Qed.


Lemma reachable_after (p0 : Page) (s : State) (ev : Event) :
  reachable p0 s -> enabled ev s -> reachable p0 (stateOf (dispatch ev s)).
Proof.
  intros Hr He. apply (reach_step p0 s); [exact Hr|]. exists ev. split; [exact He | reflexivity].
Qed.

(** With [pageTwoVideos], [autoFullscreen] relocates the video 4, which has
    no style attribute.  Entering with the video 5 while that session is
    active succeeds, and the video 4 is left with an empty style attribute:
    its style attribute is not what it was before its session. *)
Lemma enterPaneFullscreen_style_not_restored :
  isActive (stateOf (dispatch (EvMessage autoFullscreen) (initial pageTwoVideos))) = true /\
  currentElement (stateOf (dispatch (EvMessage autoFullscreen) (initial pageTwoVideos)))
    = Some 4 /\
  exists s',
    enterPaneFullscreen (Some 5) KVideo
      (stateOf (dispatch (EvMessage autoFullscreen) (initial pageTwoVideos))) = Ok true s' /\
    option_map styleAttr (elem pageTwoVideos 4) = Some None /\
    option_map styleAttr (elem (page s') 4) = Some (Some "").
Proof.
  split; [vm_compute; reflexivity|]. split; [vm_compute; reflexivity|].
  eexists. split; [vm_compute; reflexivity|].
  split; vm_compute; reflexivity.
Qed.

Lemma enterPaneFullscreen_while_active_witness :
  exists s',
    enterPaneFullscreen (Some 5) KVideo
      (stateOf (dispatch (EvMessage autoFullscreen) (initial pageTwoVideos))) = Ok true s' /\
    isActive s' = true /\ exists o, overlaysIn (page s') = [o].
Proof.
  destruct (enterPaneFullscreen_while_active
              pageTwoVideos
              (stateOf (dispatch (EvMessage autoFullscreen) (initial pageTwoVideos)))
              4 (mkElementState 4 (Some 3) (Some 5) "" [] "video" (Some false) (Some 0%Q))
              5 KVideo)
    as (_ & _ & H & _).
  - apply reachable_after; [|exact I].
    apply reach_init, cleanPageb_sound. vm_compute. reflexivity.
  - vm_compute. reflexivity.
  - vm_compute. reflexivity.
  - vm_compute. reflexivity.
  - vm_compute. auto 20.
  - vm_compute. reflexivity.
  - destruct (enterPaneFullscreen (Some 5) KVideo
                (stateOf (dispatch (EvMessage autoFullscreen) (initial pageTwoVideos))))
      as [r s'|ex s'] eqn:E.
    + destruct (H r s' eq_refl) as (-> & Ha & Ho). exists s'. auto.
    + vm_compute in E. discriminate.
Defined.

Lemma exitPaneFullscreen_no_parent_witness :
  exists s',
    exitPaneFullscreen (stateOf (dispatch (EvMessage autoFullscreen) (initial pageFrame)))
      = Ok tt s' /\
    isActive s' = false /\ inDocument (page s') 6 = false.
Proof.
  destruct (exitPaneFullscreen_no_parent
              pageFrame
              (stateOf (dispatch (EvMessage autoFullscreen) (initial pageFrame)))
              6 (mkElementState 6 None None "" [] "video" (Some true) (Some 1%Q)))
    as (s' & o & so & H1 & H2 & _ & _ & _ & _ & _ & _ & _ & _ & H3 & _).
  - apply reachable_after; [|exact I].
    apply reach_init, cleanPageb_sound. vm_compute. reflexivity.
  - vm_compute. reflexivity.
  - vm_compute. reflexivity.
  - vm_compute. reflexivity.
  - reflexivity.
  - exists s'. auto.
Defined.

(** C10, as the specification words it, fails when no session is active.
    On [pageHtml], [autoFullscreen] picks the root element, whose snapshot
    records no parent element, and raises once the overlay is in the
    document.  In the state that is left (no session active, the current
    element and its snapshot set), [exitPaneFullscreen] returns at once
    and changes nothing: the current element and the snapshot stay, and
    the element and the overlay stay in the document. *)
Lemma exitPaneFullscreen_inactive_keeps :
  exists s st,
    reachable pageHtml s /\
    isActive s = false /\ currentElement s = Some 1 /\
    originalElementState s = Some st /\ s_parent st = None /\
    exitPaneFullscreen s = Ok tt s /\
    inDocument (page s) 1 = true /\ overlaysIn (page s) = [5].
Proof.
  exists (stateOf (dispatch (EvMessage autoFullscreen) (initial pageHtml))).
  eexists. split.
  - apply reachable_after; [|exact I].
    apply reach_init, cleanPageb_sound. vm_compute. reflexivity.
  - split; [vm_compute; reflexivity|]. split; [vm_compute; reflexivity|].
    split; [vm_compute; reflexivity|]. split; [reflexivity|].
    split; [vm_compute; reflexivity|]. split; vm_compute; reflexivity.
Qed.

(** A session that cannot be left.  On [pageStale] the video scores
    nothing at first, so [autoFullscreen] picks the [body], and the call
    raises once the overlay is in the document.  When the video has been
    laid out, [autoFullscreen] picks it: the snapshot records the overlay
    that was left behind as its next sibling, and the new session replaces
    that overlay.  The insertion before the recorded sibling then raises in
    every [exitPaneFullscreen], which leaves the session active. *)
Lemma exitPaneFullscreen_can_raise :
  exists s,
    reachable pageStale s /\ isActive s = true /\
    exists s', exitPaneFullscreen s = Throw NotFoundError s' /\ isActive s' = true /\
               exitPaneFullscreen s' = Throw NotFoundError s'.
Proof.
  exists (stateOf (dispatch (EvMessage autoFullscreen)
            (stateOf (dispatch (EvLayout 4 (mkRect 0 0 640 360)
                                         (mkMedia true false (DSeconds 30) 0))
               (stateOf (dispatch (EvMessage autoFullscreen) (initial pageStale))))))).
  split.
  - apply reachable_after; [|exact I]. apply reachable_after; [|exact I].
    apply reachable_after; [|exact I].
    apply reach_init, cleanPageb_sound. vm_compute. reflexivity.
  - split; [vm_compute; reflexivity|].
    eexists. split; [vm_compute; reflexivity|].
    split; vm_compute; reflexivity.
Qed.

(* ================================================================== *)
(** * Further properties of the script *)

(** ** The scorer and the selector *)

(** X1.  The score of an element is never negative; it is positive exactly
    when the element is visible in the viewport, and then it lies between
    the area of the element and three times that area. *)
Theorem getElementScore_range (p : Page) (n : NodeId) (e : Elem) :
  elem p n = Some e ->
  (0 <= getElementScore p n)%Q /\
  ((0 < getElementScore p n)%Q <-> isVisible p (rect e) = true) /\
  (isVisible p (rect e) = true ->
   (width (rect e) * height (rect e) <= getElementScore p n)%Q /\
   (getElementScore p n <= 3 * (width (rect e) * height (rect e)))%Q).
Proof.
  intro He. unfold getElementScore. rewrite He. unfold scoreOf.
  destruct (isVisible p (rect e)) eqn:V; simpl.
  - apply isVisible_true in V. destruct V as (Hw & Hh & _).
    pose proof (Qmult_lt_0_compat _ _ Hw Hh) as Ha.
    set (a := (width (rect e) * height (rect e))%Q) in *.
    match goal with
    | |- (0 <= ?x)%Q /\ _ => assert (H : (a <= x <= 3 * a)%Q)
    end.
    { destruct (String.eqb_spec (tagName e) "IFRAME") as [Et|_].
      - rewrite Et. simpl. destruct (isVideoIframe e); lra.
      - destruct (String.eqb (tagName e) "VIDEO");
          destruct (durationExceeds (duration (media e)) 60);
          destruct (negb (paused (media e)) && negb (ended (media e))); lra. }
    split; [lra|]. split; [split; [reflexivity | intros _; lra] | intros _; lra].
  - split; [apply Qle_refl|]. split; [|discriminate].
    split; [intro H; exfalso; apply (Qlt_irrefl _ H) | discriminate].
Qed.

Lemma getElementScore_range_witness :
  (0 < getElementScore pageTiers 4)%Q.
Proof.
  apply (proj1 (proj2 (getElementScore_range pageTiers 4
           (set_media (mkMedia true false DNaN 0)
              (set_rect (mkRect 0 0 800 450) (newElem "VIDEO"))) eq_refl))).
  vm_compute. reflexivity.
Defined.

Lemma positive_score_visible (p : Page) (n : NodeId) :
  (0 < getElementScore p n)%Q ->
  exists e, elem p n = Some e /\ isVisible p (rect e) = true.
Proof.
  intro H. unfold getElementScore in H. destruct (elem p n) as [e|] eqn:He.
  - exists e. split; [reflexivity|]. unfold scoreOf in H.
    destruct (isVisible p (rect e)); [reflexivity|].
    exfalso. apply (Qlt_irrefl _ H).
  - exfalso. apply (Qlt_irrefl _ H).
Qed.

(** X2.  What the selector returns is an element that is visible in the
    viewport, with a positive score, taken from the list of candidates of
    its kind: a [video] element for the kind video, an [iframe] element for
    the kind frame, an element that matches a container selector for the
    kind container. *)
Theorem findBestPlayableElement_sound (p : Page) (n : NodeId) (k : Kind) :
  findBestPlayableElement p = Some (n, k) ->
  exists e,
    elem p n = Some e /\ isVisible p (rect e) = true /\
    (0 < getElementScore p n)%Q /\
    match k with
    | KVideo => In n (findAllVideos p) /\ toLowerCase (tagName e) = "video"
    | KIframe => In n (findVideoIframes p) /\ toLowerCase (tagName e) = "iframe"
    | KContainer => In n (findVideoContainers p) /\
                    matches e VIDEO_CONTAINER_SELECTORS = true
    end.
Proof.
  intro H. unfold findBestPlayableElement in H.
  assert (Hs : exists l, In n l /\ (0 < getElementScore p n)%Q /\
                 match k with
                 | KVideo => l = findAllVideos p
                 | KIframe => l = findVideoIframes p
                 | KContainer => l = findVideoContainers p
                 end).
  { destruct (findBestVideo p) as [v|] eqn:Ev.
    { injection H as <- <-. apply findBest_Some in Ev.
      exists (findAllVideos p). split; [apply (firstBest_In _ _ _ Ev)|].
      split; [|reflexivity]. destruct Ev as (? & ? & _ & Hp & _). exact Hp. }
    destruct (findBestIframe p) as [f|] eqn:Ef.
    { injection H as <- <-. apply findBest_Some in Ef.
      exists (findVideoIframes p). split; [apply (firstBest_In _ _ _ Ef)|].
      split; [|reflexivity]. destruct Ef as (? & ? & _ & Hp & _). exact Hp. }
    destruct (findBestContainer p) as [c|] eqn:Ec; [|discriminate].
    injection H as <- <-. apply findBest_Some in Ec.
    exists (findVideoContainers p). split; [apply (firstBest_In _ _ _ Ec)|].
    split; [|reflexivity]. destruct Ec as (? & ? & _ & Hp & _). exact Hp. }
  destruct Hs as (l & Hin & Hpos & Hl).
  destruct (positive_score_visible p n Hpos) as (e & He & V).
  exists e. split; [exact He|]. split; [exact V|]. split; [exact Hpos|].
  destruct k; subst l; (split; [exact Hin|]).
  - apply findAllVideos_tag in Hin. unfold node_matches in Hin. rewrite He in Hin.
    simpl in Hin. rewrite orb_false_r in Hin. apply String.eqb_eq, Hin.
  - unfold findVideoIframes in Hin. apply filter_In in Hin. destruct Hin as [Hin _].
    apply filter_In in Hin. destruct Hin as [_ Hin].
    unfold node_matches in Hin. rewrite He in Hin.
    simpl in Hin. rewrite orb_false_r in Hin. apply String.eqb_eq, Hin.
  - unfold findVideoContainers in Hin. apply in_flat_map in Hin.
    destruct Hin as (sel & Hsel & Hin). apply filter_In in Hin. destruct Hin as [Hin _].
    apply filter_In in Hin. destruct Hin as [_ Hin].
    assert (Hm : node_matches p VIDEO_CONTAINER_SELECTORS n = true).
    { apply node_matches_exists. exists sel. split; assumption. }
    unfold node_matches in Hm. rewrite He in Hm. exact Hm.
Qed.

Lemma findBestPlayableElement_sound_witness :
  exists e, elem pageTiers 4 = Some e /\ isVisible pageTiers (rect e) = true.
Proof.
  destruct (findBestPlayableElement_sound pageTiers 4 KVideo) as (e & He & V & _).
  - vm_compute. reflexivity.
  - exists e. split; assumption.
Defined.

(** ** The list of selectable elements *)

Lemma hasFoundIframe_container (p : Page) (acc : list (NodeId * Kind)) (c' c : NodeId) :
  hasFoundIframe p (acc ++ [(c', KContainer)]) c = hasFoundIframe p acc c.
Proof.
  unfold hasFoundIframe. rewrite existsb_app. simpl. apply orb_false_r.
Qed.

Lemma offerContainer_filter (p : Page) (cs : list NodeId) :
  forall acc,
    fold_left (offerContainer p) cs acc =
    acc ++ map (fun c => (c, KContainer))
               (List.filter (fun c => negb (hasFoundIframe p acc c)) cs).
Proof.
  induction cs as [|c cs IH]; intro acc; simpl; [symmetry; apply app_nil_r|].
  rewrite IH. unfold offerContainer.
  destruct (hasFoundIframe p acc c) eqn:E; simpl; [reflexivity|].
  rewrite <- app_assoc. simpl. do 3 f_equal. apply filter_ext. intro c0.
  rewrite hasFoundIframe_container. reflexivity.
Qed.

Lemma hasFoundIframe_candidates (p : Page) (vs fs : list NodeId) (c : NodeId) :
  hasFoundIframe p (map (fun v => (v, KVideo)) vs ++ map (fun i => (i, KIframe)) fs) c =
  existsb (contains p c) fs.
Proof.
  unfold hasFoundIframe. rewrite existsb_app.
  replace (existsb _ (map (fun v => (v, KVideo)) vs)) with false.
  - simpl. induction fs as [|f fs IH]; simpl; [reflexivity|]. rewrite IH. reflexivity.
  - induction vs as [|v vs IH]; simpl; [reflexivity | exact IH].
Qed.

(** X3.  The list of selectable elements is made of all the videos, then
    all the player frames, then the containers that contain none of the
    player frames, each part in the order of its scan; nothing else is
    dropped or reordered. *)
Theorem getAllSelectableElements_eq (p : Page) :
  getAllSelectableElements p =
  map (fun v => (v, KVideo)) (findAllVideos p) ++
  map (fun i => (i, KIframe)) (findVideoIframes p) ++
  map (fun c => (c, KContainer))
      (List.filter (fun c => negb (existsb (contains p c) (findVideoIframes p)))
                   (findVideoContainers p)).
Proof.
  rewrite getAllSelectableElements_fold, offerContainer_filter, <- app_assoc.
  do 3 f_equal. apply filter_ext. intro c.
  rewrite hasFoundIframe_candidates. reflexivity.
Qed.

(** ** The container list counts an element once per selector *)

Lemma count_occ_flat_map {A} (f : A -> list NodeId) (l : list A) (n : NodeId) :
  count_occ Nat.eq_dec (flat_map f l) n =
  list_sum (map (fun a => count_occ Nat.eq_dec (f a) n) l).
Proof.
  induction l as [|a l IH]; simpl; [reflexivity|].
  rewrite count_occ_app, IH. reflexivity.
Qed.

Lemma count_occ_filter_NoDup (g : NodeId -> bool) (l : list NodeId) (n : NodeId) :
  NoDup l ->
  count_occ Nat.eq_dec (List.filter g l) n =
  if existsb (Nat.eqb n) l && g n then 1 else 0.
Proof.
  induction l as [|a l IH]; intro Hnd; [reflexivity|].
  apply NoDup_cons_iff in Hnd. destruct Hnd as [Ha Hnd]. simpl.
  destruct (Nat.eqb_spec n a) as [->|Hne]; simpl.
  - assert (Hz : count_occ Nat.eq_dec (List.filter g l) a = 0).
    { apply count_occ_not_In. intro H. apply filter_In in H. apply Ha, H. }
    destruct (g a); simpl.
    + destruct (Nat.eq_dec a a) as [_|C]; [|contradiction]. rewrite Hz. reflexivity.
    + exact Hz.
  - destruct (g a); simpl; [|apply IH, Hnd].
    destruct (Nat.eq_dec a n) as [E|_]; [exfalso; apply Hne; symmetry; exact E|].
    apply IH, Hnd.
Qed.

Lemma list_sum_indicator {A} (g : A -> bool) (b : bool) (l : list A) :
  list_sum (map (fun a => if b && g a then 1 else 0) l) =
  if b then List.length (List.filter g l) else 0.
Proof.
  induction l as [|a l IH]; simpl; [destruct b; reflexivity|].
  rewrite IH. destruct b; simpl; [|reflexivity]. destruct (g a); reflexivity.
Qed.

Lemma kids_doc_NoDup (p : Page) : wfPage p -> NoDup (idsF (kids (document p))).
Proof.
  intro W. pose proof (wf_doc_NoDup _ W) as H. rewrite ids_unfold in H.
  apply NoDup_cons_iff in H. apply H.
Qed.

(** X4.  The container list holds an element of the document once for
    every selector of the list that it matches, provided it has a frame
    or a video inside it or measures at least 200x150, and not at all
    otherwise.  So an element with the class [video-player] that
    qualifies is listed at least twice: it matches [.video-player] and
    [[class*="video-player"]]. *)
Theorem findVideoContainers_count (p : Page) (n : NodeId) :
  wfPage p ->
  count_occ Nat.eq_dec (findVideoContainers p) n =
    (if existsb (Nat.eqb n) (idsF (kids (document p))) &&
        (hasMedia p n || reasonableSize p n)
     then List.length (List.filter (fun sel => node_matches p [sel] n)
                                   VIDEO_CONTAINER_SELECTORS)
     else 0) /\
  (forall e, In n (idsF (kids (document p))) -> elem p n = Some e ->
             has_token "video-player" (classList e) = true ->
             hasMedia p n || reasonableSize p n = true ->
             2 <= count_occ Nat.eq_dec (findVideoContainers p) n).
Proof.
  intro W. pose proof (kids_doc_NoDup p W) as Hnd.
  assert (Hc : count_occ Nat.eq_dec (findVideoContainers p) n =
               if existsb (Nat.eqb n) (idsF (kids (document p))) &&
                  (hasMedia p n || reasonableSize p n)
               then List.length (List.filter (fun sel => node_matches p [sel] n)
                                             VIDEO_CONTAINER_SELECTORS)
               else 0).
  { unfold findVideoContainers. rewrite count_occ_flat_map.
    rewrite <- list_sum_indicator. f_equal. apply map_ext. intro sel.
    unfold querySelectorAll, querySelectorAllT.
    rewrite (count_occ_filter_NoDup _ _ n (NoDup_filter _ Hnd)).
    assert (Hex : existsb (Nat.eqb n)
                    (List.filter (node_matches p [sel]) (idsF (kids (document p)))) =
                  existsb (Nat.eqb n) (idsF (kids (document p))) && node_matches p [sel] n).
    { destruct (existsb (Nat.eqb n) (List.filter _ _)) eqn:E.
      - apply existsb_exists in E. destruct E as (x & Hx & Ex).
        apply Nat.eqb_eq in Ex. subst x. apply filter_In in Hx. destruct Hx as [Hx Hm].
        rewrite Hm, andb_true_r. symmetry. apply existsb_exists.
        exists n. split; [exact Hx | apply Nat.eqb_refl].
      - destruct (existsb (Nat.eqb n) (idsF (kids (document p)))) eqn:E2; [|reflexivity].
        destruct (node_matches p [sel] n) eqn:Hm; [|reflexivity].
        apply existsb_exists in E2. destruct E2 as (x & Hx & Ex).
        apply Nat.eqb_eq in Ex. subst x.
        assert (X : existsb (Nat.eqb n)
                      (List.filter (node_matches p [sel]) (idsF (kids (document p)))) = true).
        { apply existsb_exists. exists n. split; [|apply Nat.eqb_refl].
          apply filter_In. split; assumption. }
        rewrite X in E. discriminate. }
    rewrite Hex.
    destruct (existsb (Nat.eqb n) (idsF (kids (document p))));
      destruct (node_matches p [sel] n);
      destruct (hasMedia p n || reasonableSize p n); reflexivity. }
  split; [exact Hc|].
  intros e Hin He Ht Hq. rewrite Hc.
  assert (Hex : existsb (Nat.eqb n) (idsF (kids (document p))) = true).
  { apply existsb_exists. exists n. split; [exact Hin | apply Nat.eqb_refl]. }
  rewrite Hex, Hq. simpl.
  assert (H1 : node_matches p [ByClass "video-player"] n = true).
  { unfold node_matches. rewrite He. simpl. rewrite Ht. reflexivity. }
  assert (H2 : node_matches p [ClassContains "video-player"] n = true).
  { unfold node_matches. rewrite He. simpl. rewrite orb_false_r.
    unfold has_token in Ht. apply existsb_exists in Ht. destruct Ht as (x & Hx & Ex).
    apply String.eqb_eq in Ex. subst x.
    apply existsb_exists. exists "video-player". split; [exact Hx | reflexivity]. }
  rewrite H1, H2.
  repeat match goal with
         | |- context [if ?b then _ else _] => destruct b
         end; simpl; lia.
Qed.

Lemma findVideoContainers_count_witness :
  2 <= count_occ Nat.eq_dec (findVideoContainers pageTiers) 7.
Proof.
  apply (proj2 (findVideoContainers_count pageTiers 7
                  (wfPageb_sound pageTiers eq_refl))
               (set_rect (mkRect 0 455 900 500)
                         (set_classList ["video-player"] (newElem "DIV")))).
  - vm_compute. auto 10.
  - reflexivity.
  - reflexivity.
  - vm_compute. reflexivity.
Defined.

(** ** Messages and keys *)

Lemma enterPaneFullscreen_Ok_session (s s' : State) (n : NodeId) (ty : Kind) (r : bool) :
  enterPaneFullscreen (Some n) ty s = Ok r s' ->
  isActive s' = true /\ currentElement s' = Some n.
Proof.
  assert (Hin : forall s0, isActive s0 = false ->
                  enterPaneFullscreen (Some n) ty s0 = Ok r s' ->
                  isActive s' = true /\ currentElement s' = Some n).
  { intros s0 Ha H. destruct (elem (page s0) n) as [e|] eqn:He.
    2:{ rewrite (enterPaneFullscreen_not_element s0 n ty Ha He) in H. discriminate. }
    rewrite (enterPaneFullscreen_inactive s0 n ty e Ha He), createOverlay_eq in H.
    destruct (body _) as [b|]; [|discriminate].
    destruct (appendChild b _ _) as [ex|p2]; [discriminate|].
    cbn [elementContainer set_page overlayCreated] in H.
    destruct (appendChild _ n _) as [ex|p4]; [discriminate|].
    injection H as _ <-. split; reflexivity. }
  intro H. destruct (isActive s) eqn:Ha; [|apply (Hin s Ha H)].
  rewrite (enterPaneFullscreen_active s n ty Ha) in H.
  destruct (exitPaneFullscreen s) as [u s1|ex s1] eqn:E; [|discriminate].
  apply (Hin s1 (exitPaneFullscreen_Ok_inactive _ _ _ E) H).
Qed.

(** X5.  When the handler of [autoFullscreen] answers, either the selector
    found nothing, the answer is the failure "No video or player found on
    this page" and the state is untouched, or the answer is a success that
    names the kind of the element found, and a session is active on that
    element.  The answer "Failed to expand element" is never given. *)
Theorem autoFullscreen_reply (s s' : State) (r : Response) :
  onMessage autoFullscreen s = Ok r s' ->
  (findBestPlayableElement (page s) = None /\
   r = Reply false "No video or player found on this page" /\ s' = s) \/
  (exists n k,
     findBestPlayableElement (page s) = Some (n, k) /\
     r = Reply true (kindLabel k ++ " expanded to pane fullscreen") /\
     isActive s' = true /\ currentElement s' = Some n).
Proof.
  unfold onMessage, bind, gets, ret.
  destruct (findBestPlayableElement (page s)) as [[n k]|] eqn:E.
  - intro H. right. exists n, k. split; [reflexivity|].
    destruct (enterPaneFullscreen (Some n) k s) as [b s1|ex s1] eqn:En; [|discriminate].
    pose proof (enterPaneFullscreen_returns_true _ _ _ _ _ En) as ->.
    injection H as <- <-. split; [reflexivity|].
    apply (enterPaneFullscreen_Ok_session _ _ _ _ _ En).
  - intro H. injection H as <- <-. left. auto.
Qed.

Lemma autoFullscreen_reply_witness :
  returned (onMessage autoFullscreen (initial pageTiers)) =
  Some (Reply true "Video expanded to pane fullscreen").
Proof.
  destruct (onMessage autoFullscreen (initial pageTiers)) as [r s'|ex s'] eqn:E.
  - destruct (autoFullscreen_reply _ _ _ E) as [(H & _)|(n & k & H & -> & _)].
    + vm_compute in H. discriminate.
    + vm_compute in H. injection H as <- <-. reflexivity.
  - vm_compute in E. discriminate.
Defined.

(** X6.  The listener that cancels the select mode on [Escape] is a
    one-shot [keydown] listener: any other key uses it up and changes
    nothing else, and an [Escape] that follows, with no session active,
    changes nothing; whereas an [Escape] that finds the listener armed
    turns the select mode off. *)
Theorem keydown_cancel_one_shot (s : State) (key : string) :
  String.eqb key "Escape" = false -> isActive s = false ->
  dispatch (EvKeydown key) s = Ok tt (set_cancelSelect 0 s) /\
  dispatch (EvKeydown "Escape") (set_cancelSelect 0 s) = Ok tt (set_cancelSelect 0 s) /\
  (forall b, 0 < cancelSelect s -> selectMode s = true -> body (page s) = Some b ->
             exists s', dispatch (EvKeydown "Escape") s = Ok tt s' /\ selectMode s' = false).
Proof.
  intros Hk Ha. split; [|split].
  - unfold dispatch, handleKeydown, bind, gets, modify, ret. rewrite Hk. simpl.
    rewrite andb_false_r. reflexivity.
  - unfold dispatch, handleKeydown, bind, gets, modify, ret. simpl. rewrite Ha. reflexivity.
  - intros b Hc Hs Hb.
    unfold dispatch, handleKeydown, bind, gets, modify, ret. simpl. rewrite Ha. simpl.
    apply Nat.ltb_lt in Hc. rewrite Hc. simpl.
    rewrite (disableSelectMode_active _ b); [|exact Hs | exact Hb].
    eexists. split; reflexivity.
Qed.

Lemma keydown_cancel_one_shot_witness :
  selectMode (stateOf (dispatch (EvKeydown "Escape")
                (stateOf (dispatch (EvKeydown "a")
                   (stateOf (dispatch (EvMessage selectVideo) (initial pageTiers)))))))
  = true.
Proof.
  destruct (keydown_cancel_one_shot
              (stateOf (dispatch (EvMessage selectVideo) (initial pageTiers))) "a")
    as (H1 & H2 & _).
  - reflexivity.
  - vm_compute. reflexivity.
  - rewrite H1. cbn [stateOf]. rewrite H2. vm_compute. reflexivity.
Defined.

(** ** The overlay *)

Lemma getElementById_free (p : Page) :
  overlayFree p (ids (document p)) -> getElementById p OVERLAY_ID = None.
Proof.
  intro Hf. destruct (getElementById p OVERLAY_ID) as [o|] eqn:E; [|reflexivity].
  apply getElementById_Some in E. destruct E as [Hin Hm].
  change (isOverlay p o = true) in Hm.
  rewrite (Hf o) in Hm; [discriminate|]. rewrite ids_unfold. right. exact Hin.
Qed.

Lemma removeOverlayPage_free (p : Page) :
  overlayFree p (ids (document p)) -> removeOverlayPage p = p.
Proof.
  intro Hf. unfold removeOverlayPage. rewrite (getElementById_free p Hf). reflexivity.
Qed.


(** X7.  In a reachable state [removeOverlay] returns, leaves no overlay
    element in the document and no overlay in the variables of the
    script, and doing it again changes nothing. *)
Theorem removeOverlay_idempotent (p0 : Page) (s : State) :
  reachable p0 s ->
  exists s1,
    removeOverlay s = Ok tt s1 /\
    overlaysIn (page s1) = [] /\ overlay s1 = None /\ elementContainer s1 = None /\
    removeOverlay s1 = Ok tt s1.
Proof.
  intro Hr. pose proof (inv_page _ (reachable_Inv p0 s Hr)) as HP.
  destruct (PageInv_removeOverlayPage _ HP) as (_ & Hfree & _).
  eexists. split; [reflexivity|]. cbn [page set_page set_overlay set_elementContainer].
  fold (removeOverlayPage (page s)).
  split; [apply overlaysIn_removeOverlayPage, HP|].
  split; [reflexivity|]. split; [reflexivity|].
  unfold removeOverlay, bind, onPage, modify. cbn.
  fold (removeOverlayPage (page s)).
  fold (removeOverlayPage (removeOverlayPage (page s))).
  rewrite (removeOverlayPage_free _ Hfree). reflexivity.
Qed.

Lemma removeOverlay_idempotent_witness :
  exists s1,
    removeOverlay (stateOf (dispatch (EvMessage autoFullscreen) (initial pageTiers)))
      = Ok tt s1 /\
    overlaysIn (page s1) = [].
Proof.
  destruct (removeOverlay_idempotent pageTiers
              (stateOf (dispatch (EvMessage autoFullscreen) (initial pageTiers))))
    as (s1 & H1 & H2 & _).
  - apply reachable_after; [|exact I].
    apply reach_init, cleanPageb_sound. vm_compute. reflexivity.
  - exists s1. split; assumption.
Defined.

(** X8.  In every reachable state with a session active, the script holds
    a current element, its snapshot and an overlay; that overlay is the one
    overlay element of the document, and the current element, which is not
    an overlay element, is inside it. *)
Theorem active_session_invariant (p0 : Page) (s : State) :
  reachable p0 s -> isActive s = true ->
  exists c st o,
    currentElement s = Some c /\ originalElementState s = Some st /\
    overlay s = Some o /\
    overlaysIn (page s) = [o] /\
    contains (page s) o c = true /\ c <> o /\
    isOverlay (page s) c = false /\ inDocument (page s) c = true.
Proof.
  intros Hr Ha. pose proof (reachable_Inv p0 s Hr) as HI.
  destruct (session_facts s HI Ha)
    as (c & st & o & so & sc & H1 & H2 & H3 & H4 & H5 & H6 & H7 & _ & _ & _ & _ &
        Hcd & Hco & _).
  exists c, st, o. split; [exact H1|]. split; [exact H2|]. split; [exact H3|].
  assert (Hod : In o (ids (document (page s)))) by (rewrite ids_unfold; right; exact H5).
  split; [apply overlaysIn_single; [apply HI | exact Hod | exact H4]|].
  split.
  { apply contains_true. exists so. split.
    - rewrite (subtreeF_forest_doc _ _ Hod). exact H6.
    - rewrite ids_unfold. right. exact H7. }
  split; [intro E; rewrite E, H4 in Hco; discriminate|].
  split; [exact Hco | apply inDocument_true, Hcd].
Qed.

Lemma active_session_invariant_witness :
  exists o, overlaysIn (page (stateOf (dispatch (EvMessage autoFullscreen)
                                        (initial pageTiers)))) = [o].
Proof.
  destruct (active_session_invariant pageTiers
              (stateOf (dispatch (EvMessage autoFullscreen) (initial pageTiers))))
    as (c & st & o & _ & _ & _ & H & _).
  - apply reachable_after; [|exact I].
    apply reach_init, cleanPageb_sound. vm_compute. reflexivity.
  - vm_compute. reflexivity.
  - exists o. exact H.
Defined.

(** ** The select mode, element by element *)

Lemma has_token_add (c : string) (l : list string) : has_token c (add_token c l) = true.
Proof.
  unfold add_token. destruct (has_token c l) eqn:E; [exact E|].
  unfold has_token. rewrite existsb_app. simpl. rewrite String.eqb_refl.
  apply orb_true_r.
Qed.

Lemma has_token_remove (c : string) (l : list string) :
  has_token c (remove_token c l) = false.
Proof.
  unfold has_token, remove_token. induction l as [|a l IH]; simpl; [reflexivity|].
  destruct (String.eqb_spec a c) as [->|Hne]; simpl; [exact IH|].
  rewrite IH. destruct (String.eqb_spec c a); [congruence | reflexivity].
Qed.

Lemma has_token_remove_other (c d : string) (l : list string) :
  c <> d -> has_token c (remove_token d l) = has_token c l.
Proof.
  intro Hne. unfold has_token, remove_token. induction l as [|a l IH]; simpl; [reflexivity|].
  destruct (String.eqb_spec a d) as [->|Had]; simpl.
  - rewrite IH. destruct (String.eqb_spec c d); [contradiction | reflexivity].
  - rewrite IH. reflexivity.
Qed.

Lemma elem_offerPage (c : NodeId * Kind) (p : Page) (m : NodeId) :
  elem (offerPage c p) m =
  if Nat.eqb m (fst c) then option_map (offerElem (snd c)) (elem p m) else elem p m.
Proof.
  destruct c as [n k]. unfold offerPage. cbn [fst snd].
  destruct (Nat.eqb_spec m n) as [->|Hne].
  - rewrite !elem_update_elem_eq. destruct (elem p n); reflexivity.
  - rewrite !elem_update_elem_ne by exact Hne. reflexivity.
Qed.

Lemma elem_fold_offer (l : list (NodeId * Kind)) (p : Page) (m : NodeId) :
  elem (fold_left (fun q c => offerPage c q) l p) m =
  option_map (fun e => fold_left (fun e k => offerElem k e) (offersFor m l) e) (elem p m).
Proof.
  revert p. induction l as [|[n k] l IH]; intro p; cbn [fold_left].
  - destruct (elem p m); reflexivity.
  - rewrite IH, elem_offerPage. unfold offersFor. cbn [List.filter fst snd].
    rewrite (Nat.eqb_sym n m). destruct (Nat.eqb m n); destruct (elem p m); reflexivity.
Qed.

Lemma offers_listeners (ks : list Kind) (e : Elem) :
  listeners (fold_left (fun e k => offerElem k e) ks e) = listeners e ++ map LSelect ks.
Proof.
  revert e. induction ks as [|k ks IH]; intro e; simpl.
  - rewrite app_nil_r. reflexivity.
  - rewrite IH. simpl. rewrite <- app_assoc. reflexivity.
Qed.

Lemma offers_handler (ks : list Kind) (e : Elem) :
  ks <> [] ->
  paneFullscreenHandler (fold_left (fun e k => offerElem k e) ks e) = Some (last ks KVideo) /\
  paneFullscreenType (fold_left (fun e k => offerElem k e) ks e) = Some (last ks KVideo).
Proof.
  revert e. induction ks as [|k ks IH]; intros e H; [contradiction|].
  destruct ks as [|k' ks]; [split; reflexivity|].
  change (last (k :: k' :: ks) KVideo) with (last (k' :: ks) KVideo).
  apply (IH (offerElem k e)). discriminate.
Qed.

Lemma offers_class_kept (ks : list Kind) (e : Elem) :
  has_token "pane-fullscreen-selectable" (classList e) = true ->
  has_token "pane-fullscreen-selectable"
            (classList (fold_left (fun e k => offerElem k e) ks e)) = true.
Proof.
  revert e. induction ks as [|k ks IH]; intros e H; simpl; [exact H|].
  apply IH. simpl. apply has_token_add.
Qed.

Lemma offers_class (ks : list Kind) (e : Elem) :
  ks <> [] ->
  has_token "pane-fullscreen-selectable"
            (classList (fold_left (fun e k => offerElem k e) ks e)) = true.
Proof.
  destruct ks as [|k ks]; intro H; [contradiction|]. simpl.
  apply offers_class_kept. simpl. apply has_token_add.
Qed.

Lemma document_offerPage (c : NodeId * Kind) (p : Page) :
  document (offerPage c p) = document p.
Proof. destruct c. unfold offerPage. rewrite !document_update_elem. reflexivity. Qed.

Lemma body_offerPage (c : NodeId * Kind) (p : Page) : body (offerPage c p) = body p.
Proof.
  destruct c. unfold offerPage.
  rewrite !body_update_elem by (intros; reflexivity). reflexivity.
Qed.

Lemma document_fold_offer (l : list (NodeId * Kind)) (p : Page) :
  document (fold_left (fun q c => offerPage c q) l p) = document p.
Proof.
  revert p. induction l as [|c l IH]; intro p; cbn [fold_left]; [reflexivity|].
  rewrite IH. apply document_offerPage.
Qed.

Lemma body_fold_offer (l : list (NodeId * Kind)) (p : Page) :
  body (fold_left (fun q c => offerPage c q) l p) = body p.
Proof.
  revert p. induction l as [|c l IH]; intro p; cbn [fold_left]; [reflexivity|].
  rewrite IH. apply body_offerPage.
Qed.

Lemma elem_withdrawPage (n : NodeId) (p : Page) (m : NodeId) :
  elem (withdrawPage n p) m =
  if Nat.eqb m n then option_map withdrawElem (elem p m) else elem p m.
Proof.
  unfold withdrawPage. destruct (Nat.eqb_spec m n) as [->|Hne].
  - rewrite !elem_update_elem_eq. destruct (elem p n) as [e|]; [|reflexivity].
    simpl. unfold withdrawElem. destruct e as [? ? ? ? ? ? ? ? ? ? h ?].
    destruct h; reflexivity.
  - rewrite !elem_update_elem_ne by exact Hne. reflexivity.
Qed.

Lemma elem_fold_withdraw (l : list NodeId) (p : Page) (m : NodeId) :
  NoDup l ->
  elem (fold_left (fun q c => withdrawPage c q) l p) m =
  if existsb (Nat.eqb m) l then option_map withdrawElem (elem p m) else elem p m.
Proof.
  revert p. induction l as [|a l IH]; intros p Hnd; cbn [fold_left existsb]; [reflexivity|].
  apply NoDup_cons_iff in Hnd. destruct Hnd as [Ha Hnd].
  rewrite (IH _ Hnd), elem_withdrawPage.
  destruct (Nat.eqb_spec m a) as [->|Hne]; simpl; [|reflexivity].
  destruct (existsb (Nat.eqb a) l) eqn:E; [|reflexivity].
  apply existsb_exists in E. destruct E as (x & Hx & Hax).
  apply Nat.eqb_eq in Hax. subst x. contradiction.
Qed.

Lemma remove_listener_length (x : Listener) (l : list Listener) :
  In x l -> S (List.length (remove_listener x l)) = List.length l.
Proof.
  induction l as [|y l IH]; intro H; [contradiction|]. simpl.
  destruct (Listener_eqb x y) eqn:E; [reflexivity|].
  destruct H as [E0|H].
  - rewrite E0 in E. destruct x as [|k]; [discriminate|]. destruct k; discriminate.
  - simpl. rewrite (IH H). reflexivity.
Qed.

Lemma last_in (ks : list Kind) : ks <> [] -> In (last ks KVideo) ks.
Proof.
  induction ks as [|k ks IH]; intro H; [contradiction|].
  destruct ks as [|k' ks]; [left; reflexivity|].
  right. apply IH. discriminate.
Qed.

(** What the two functions do, one after the other, to an element [m] of
    the page. *)
Lemma select_mode_effect (s : State) (b m : NodeId) (e : Elem) :
  wfPage (page s) -> selectMode s = false -> body (page s) = Some b ->
  elem (page s) m = Some e ->
  exists s1 s2 e1 e2,
    enableSelectMode s =
      Ok (Some (List.length (getAllSelectableElements (markBody b (page s))))) s1 /\
    disableSelectMode s1 = Ok tt s2 /\ selectMode s2 = false /\
    elem (page s1) m = Some e1 /\ elem (page s2) m = Some e2 /\
    listeners e1 =
      listeners e ++
      map LSelect (offersFor m (getAllSelectableElements (markBody b (page s)))) /\
    (offersFor m (getAllSelectableElements (markBody b (page s))) <> [] ->
       has_token "pane-fullscreen-selectable" (classList e1) = true /\
       paneFullscreenHandler e1 =
         Some (last (offersFor m (getAllSelectableElements (markBody b (page s)))) KVideo)) /\
    (In m (ids (document (page s))) ->
       has_token "pane-fullscreen-selectable" (classList e2) = false /\
       (offersFor m (getAllSelectableElements (markBody b (page s))) <> [] ->
          listeners e2 =
            remove_listener
              (LSelect (last (offersFor m (getAllSelectableElements (markBody b (page s))))
                             KVideo))
              (listeners e1))) /\
    (~ In m (ids (document (page s))) -> e2 = e1).
Proof.
  intros W Hs Hb He.
  set (sel := getAllSelectableElements (markBody b (page s))).
  set (ks := offersFor m sel).
  set (p1 := fold_left (fun q c => offerPage c q) sel (markBody b (page s))).
  pose (s1 := mkState p1 (isActive s) (currentElement s) (overlay s) (elementContainer s)
                      (originalElementState s) true (timers s ++ [CbPickTimeout])
                      (S (cancelSelect s))).
  assert (E1 : enableSelectMode s = Ok (Some (List.length sel)) s1)
    by (apply enableSelectMode_fresh; assumption).
  assert (Hb1 : body (page s1) = Some b).
  { change (page s1) with p1. unfold p1. rewrite body_fold_offer, body_markBody. exact Hb. }
  pose proof (disableSelectMode_active s1 b eq_refl Hb1) as E2.
  change (page s1) with p1 in E2.
  set (pu := unmarkBody b p1) in *.
  set (marked := querySelectorAll pu [ByClass "pane-fullscreen-selectable"]) in *.
  (* the element after each step *)
  assert (Hm : exists em, elem (markBody b (page s)) m = Some em /\
                          listeners em = listeners e).
  { unfold markBody. rewrite elem_update_elem.
    destruct (Nat.eqb_spec m b) as [->|_].
    - rewrite He. simpl. eauto.
    - rewrite He. eauto. }
  destruct Hm as (em & Hem & Hlm).
  assert (H1 : elem p1 m = Some (fold_left (fun e k => offerElem k e) ks em)).
  { unfold p1. rewrite elem_fold_offer, Hem. reflexivity. }
  set (e1 := fold_left (fun e k => offerElem k e) ks em) in *.
  assert (Hdoc : document pu = document (page s)).
  { unfold pu, unmarkBody. rewrite document_update_elem. unfold p1.
    rewrite document_fold_offer. unfold markBody. apply document_update_elem. }
  assert (Hu : exists eu, elem pu m = Some eu /\
                 listeners eu = listeners e1 /\
                 paneFullscreenHandler eu = paneFullscreenHandler e1 /\
                 has_token "pane-fullscreen-selectable" (classList eu) =
                 has_token "pane-fullscreen-selectable" (classList e1) /\
                 (m <> b -> eu = e1)).
  { unfold pu, unmarkBody. rewrite elem_update_elem.
    destruct (Nat.eqb_spec m b) as [->|Hne].
    - rewrite H1. simpl. eexists. split; [reflexivity|]. simpl.
      split; [reflexivity|]. split; [reflexivity|].
      split; [apply has_token_remove_other; discriminate | congruence].
    - rewrite H1. eauto 6. }
  destruct Hu as (eu & Heu & Hlu & Hhu & Hcu & Hsame).
  assert (Hnd : NoDup marked).
  { unfold marked, querySelectorAll, querySelectorAllT. apply NoDup_filter.
    rewrite Hdoc. apply kids_doc_NoDup, W. }
  assert (H2 : elem (fold_left (fun q c => withdrawPage c q) marked pu) m =
               if existsb (Nat.eqb m) marked then Some (withdrawElem eu) else Some eu).
  { rewrite (elem_fold_withdraw _ _ _ Hnd), Heu. destruct (existsb _ marked); reflexivity. }
  assert (Hin : existsb (Nat.eqb m) marked = true <->
                In m (idsF (kids (document (page s)))) /\
                has_token "pane-fullscreen-selectable" (classList eu) = true).
  { rewrite existsb_exists. unfold marked, querySelectorAll, querySelectorAllT.
    rewrite Hdoc. split.
    - intros (x & Hx & Hmx). apply Nat.eqb_eq in Hmx. subst x.
      apply filter_In in Hx. destruct Hx as [Hx Hmatch]. split; [exact Hx|].
      unfold node_matches in Hmatch. rewrite Heu in Hmatch. simpl in Hmatch.
      rewrite orb_false_r in Hmatch. exact Hmatch.
    - intros [Hx Hc]. exists m. split; [|apply Nat.eqb_refl].
      apply filter_In. split; [exact Hx|].
      unfold node_matches. rewrite Heu. simpl. rewrite Hc. reflexivity. }
  assert (Hroot : In m (ids (document (page s))) -> In m (idsF (kids (document (page s))))).
  { rewrite ids_unfold. intros [E|H]; [|exact H]. exfalso.
    pose proof (wf_doc _ W) as Hd. unfold elem in He. rewrite <- E, Hd in He. discriminate. }
  exists s1, (mkState (fold_left (fun q c => withdrawPage c q) marked pu)
                      (isActive s1) (currentElement s1) (overlay s1) (elementContainer s1)
                      (originalElementState s1) false (timers s1) (cancelSelect s1)),
         e1, (if existsb (Nat.eqb m) marked then withdrawElem eu else eu).
  split; [exact E1|]. split; [exact E2|]. split; [reflexivity|].
  split; [exact H1|].
  split; [cbn [page]; rewrite H2; destruct (existsb _ marked); reflexivity|].
  split; [unfold e1; rewrite offers_listeners, Hlm; reflexivity|].
  split.
  { intro Hks. split; [apply offers_class, Hks | apply offers_handler, Hks]. }
  split.
  - intro Hd. split.
    + destruct (existsb (Nat.eqb m) marked) eqn:E.
      * unfold withdrawElem. destruct (paneFullscreenHandler eu); simpl;
          apply has_token_remove.
      * destruct (has_token "pane-fullscreen-selectable" (classList eu)) eqn:Ec;
          [|reflexivity].
        assert (X : false = true)
          by (apply Hin; split; [apply Hroot, Hd | reflexivity]).
        discriminate.
    + intro Hks.
      assert (X : existsb (Nat.eqb m) marked = true).
      { apply Hin. split; [apply Hroot, Hd|]. rewrite Hcu. apply offers_class, Hks. }
      rewrite X. unfold withdrawElem. rewrite Hhu.
      destruct (offers_handler ks em Hks) as [Hh _]. fold e1 in Hh. rewrite Hh.
      simpl. rewrite Hlu. reflexivity.
  - intro Hnd'.
    assert (Hmb : m <> b).
    { intros ->. apply Hnd'. apply (body_in_document _ _ Hb). }
    destruct (existsb (Nat.eqb m) marked) eqn:E.
    + destruct (proj1 Hin eq_refl) as [E' _]. exfalso. apply Hnd'.
      rewrite ids_unfold. right. exact E'.
    + apply Hsame, Hmb.
Qed.

(** X9.  The select mode on an element [m] of the document.  Turning the
    mode on adds to [m] one capturing click listener for every entry of
    the list of selectable elements that names [m]; turning it off again
    removes the class [pane-fullscreen-selectable] from [m] but, when [m]
    was listed, only one of these listeners: an element listed [k] times
    is left with [k - 1] listeners more than it had. *)
Theorem select_mode_document_element (s : State) (b m : NodeId) (e : Elem) :
  wfPage (page s) -> selectMode s = false -> body (page s) = Some b ->
  elem (page s) m = Some e -> In m (ids (document (page s))) ->
  exists s1 s2 e1 e2,
    enableSelectMode s =
      Ok (Some (List.length (getAllSelectableElements (markBody b (page s))))) s1 /\
    disableSelectMode s1 = Ok tt s2 /\
    elem (page s1) m = Some e1 /\ elem (page s2) m = Some e2 /\
    listeners e1 =
      listeners e ++
      map LSelect (offersFor m (getAllSelectableElements (markBody b (page s)))) /\
    has_token "pane-fullscreen-selectable" (classList e2) = false /\
    (offersFor m (getAllSelectableElements (markBody b (page s))) <> [] ->
       has_token "pane-fullscreen-selectable" (classList e1) = true /\
       listeners e2 =
         remove_listener
           (LSelect (last (offersFor m (getAllSelectableElements (markBody b (page s))))
                          KVideo))
           (listeners e1) /\
       S (List.length (listeners e2)) =
         List.length (listeners e) +
         List.length (offersFor m (getAllSelectableElements (markBody b (page s))))).
Proof.
  intros W Hs Hb He Hd.
  destruct (select_mode_effect s b m e W Hs Hb He)
    as (s1 & s2 & e1 & e2 & E1 & E2 & _ & H1 & H2 & Hl & Hon & Hdoc & _).
  exists s1, s2, e1, e2.
  destruct (Hdoc Hd) as [Hc Hrem].
  repeat (split; [assumption|]).
  intro Hks. split; [apply Hon, Hks|]. split; [apply Hrem, Hks|].
  rewrite (Hrem Hks), remove_listener_length.
  - rewrite Hl, length_app, length_map. reflexivity.
  - rewrite Hl. apply in_or_app. right. apply in_map, last_in, Hks.
Qed.

Lemma select_mode_document_element_witness :
  exists s1 s2 e2,
    enableSelectMode (initial pageTiers) = Ok (Some 4) s1 /\
    disableSelectMode s1 = Ok tt s2 /\
    elem (page s2) 7 = Some e2 /\
    List.length (listeners e2) = 1.
Proof.
  destruct (elem (page (initial pageTiers)) 7) as [e|] eqn:He;
    [|vm_compute in He; discriminate].
  destruct (select_mode_document_element (initial pageTiers) 3 7 e)
    as (s1 & s2 & e1 & e2 & E1 & E2 & _ & H2 & _ & _ & H).
  - apply wfPageb_sound. vm_compute. reflexivity.
  - reflexivity.
  - vm_compute. reflexivity.
  - exact He.
  - vm_compute. tauto.
  - exists s1, s2, e2. split; [exact E1|]. split; [exact E2|]. split; [exact H2|].
    assert (Hks : offersFor 7 (getAllSelectableElements (markBody 3 (page (initial pageTiers))))
                  <> []) by (vm_compute; discriminate).
    destruct (H Hks) as (_ & _ & Hlen). vm_compute in He. injection He as <-.
    vm_compute in Hlen. injection Hlen as Hlen. exact Hlen.
Defined.

(** X10.  An element of the page that is not in the document of the page,
    such as a video inside the document of a same-origin frame, is never
    withdrawn: when the select mode is turned on and off again it keeps the
    listeners that were added to it, the class and the handler. *)
Theorem select_mode_outside_document (s : State) (b m : NodeId) (e : Elem) :
  wfPage (page s) -> selectMode s = false -> body (page s) = Some b ->
  elem (page s) m = Some e -> ~ In m (ids (document (page s))) ->
  exists s1 s2 e1,
    enableSelectMode s =
      Ok (Some (List.length (getAllSelectableElements (markBody b (page s))))) s1 /\
    disableSelectMode s1 = Ok tt s2 /\ selectMode s2 = false /\
    elem (page s1) m = Some e1 /\ elem (page s2) m = Some e1 /\
    listeners e1 =
      listeners e ++
      map LSelect (offersFor m (getAllSelectableElements (markBody b (page s)))) /\
    (offersFor m (getAllSelectableElements (markBody b (page s))) <> [] ->
       has_token "pane-fullscreen-selectable" (classList e1) = true /\
       paneFullscreenHandler e1 =
         Some (last (offersFor m (getAllSelectableElements (markBody b (page s)))) KVideo)).
Proof.
  intros W Hs Hb He Hd.
  destruct (select_mode_effect s b m e W Hs Hb He)
    as (s1 & s2 & e1 & e2 & E1 & E2 & Hoff & H1 & H2 & Hl & Hon & _ & Hout).
  rewrite (Hout Hd) in H2.
  exists s1, s2, e1. repeat (split; [assumption|]). exact Hon.
Qed.

Lemma select_mode_outside_document_witness :
  exists s1 s2 e1,
    enableSelectMode (initial pageFrame) = Ok (Some 2) s1 /\
    disableSelectMode s1 = Ok tt s2 /\
    elem (page s2) 6 = Some e1 /\
    listeners e1 = [LSelect KVideo] /\
    has_token "pane-fullscreen-selectable" (classList e1) = true.
Proof.
  destruct (elem (page (initial pageFrame)) 6) as [e|] eqn:He;
    [|vm_compute in He; discriminate].
  destruct (select_mode_outside_document (initial pageFrame) 3 6 e)
    as (s1 & s2 & e1 & E1 & E2 & _ & _ & H2 & Hl & H).
  - apply wfPageb_sound. vm_compute. reflexivity.
  - reflexivity.
  - vm_compute. reflexivity.
  - exact He.
  - vm_compute. intuition discriminate.
  - exists s1, s2, e1. split; [exact E1|]. split; [exact E2|]. split; [exact H2|].
    vm_compute in He. injection He as <-.
    split; [exact Hl|]. apply H. vm_compute. discriminate.
Defined.

(** ** Removal and insertion of subtrees commute *)














(** ** A session that is entered and left *)

Lemma subtreeF_In (n : NodeId) (f : list Tree) :
  In n (idsF f) -> exists s, subtreeF n f = Some s.
Proof.
  intro H. destruct (subtreeF n f) as [s|] eqn:E; [eauto|].
  apply subtreeF_None in E. contradiction.
Qed.









(** ** Frames in the list of selectable elements *)

Lemma offersFor_app (n : NodeId) (l1 l2 : list (NodeId * Kind)) :
  offersFor n (l1 ++ l2) = offersFor n l1 ++ offersFor n l2.
Proof. unfold offersFor. rewrite filter_app, map_app. reflexivity. Qed.

Lemma offersFor_absent (n : NodeId) (k : Kind) (l : list NodeId) :
  ~ In n l -> offersFor n (map (fun v => (v, k)) l) = [].
Proof.
  unfold offersFor. induction l as [|a l IH]; intro H; simpl; [reflexivity|].
  destruct (Nat.eqb_spec a n) as [->|_].
  - exfalso. apply H. left. reflexivity.
  - apply IH. intro X. apply H. right. exact X.
Qed.

Lemma offersFor_once (n : NodeId) (k : Kind) (l : list NodeId) :
  NoDup l -> In n l -> offersFor n (map (fun v => (v, k)) l) = [k].
Proof.
  induction l as [|a l IH]; intros Hnd H; [contradiction|].
  apply NoDup_cons_iff in Hnd. destruct Hnd as [Ha Hnd].
  change (map (fun v => (v, k)) (a :: l)) with ([(a, k)] ++ map (fun v => (v, k)) l).
  rewrite offersFor_app. unfold offersFor at 1. simpl.
  destruct (Nat.eqb_spec a n) as [->|Hne].
  - simpl. rewrite (offersFor_absent n k l Ha). reflexivity.
  - simpl. apply IH; [exact Hnd|]. destruct H as [H|H]; [contradiction | exact H].
Qed.

(** X12.  A frame of the list of player frames is offered for selection
    exactly once, as a frame: never as a video, and never as a container,
    even when it matches a container selector. *)
Theorem iframe_offered_once (p : Page) (n : NodeId) :
  wfPage p -> In n (findVideoIframes p) ->
  offersFor n (getAllSelectableElements p) = [KIframe].
Proof.
  intros W Hn.
  rewrite getAllSelectableElements_fold, offerContainer_filter, !offersFor_app.
  assert (Hq : In n (querySelectorAll p [ByTag "iframe"])).
  { unfold findVideoIframes in Hn. apply filter_In in Hn. apply Hn. }
  destruct (querySelectorAll_In _ _ _ Hq) as [Hnf Hm].
  rewrite offersFor_absent.
  2:{ intro Hv. apply findAllVideos_tag in Hv.
      unfold node_matches in Hm, Hv. destruct (elem p n) as [e|]; [|discriminate].
      simpl in Hm, Hv. rewrite orb_false_r in Hm, Hv.
      apply String.eqb_eq in Hm. rewrite Hm in Hv. discriminate. }
  rewrite (offersFor_once n KIframe (findVideoIframes p)); [|
    apply NoDup_filter, NoDup_filter, kids_doc_NoDup, W | exact Hn].
  rewrite offersFor_absent; [reflexivity|].
  intro Hc. apply filter_In in Hc. destruct Hc as [_ Hc].
  apply negb_true_iff in Hc. rewrite hasFoundIframe_candidates in Hc.
  assert (X : existsb (contains p n) (findVideoIframes p) = true); [|congruence].
  apply existsb_exists. exists n. split; [exact Hn|].
  destruct (subtreeF_In n _ Hnf) as (t & Ht).
  apply contains_true. exists t. split; [exact Ht|].
  destruct (subtreeF_Some _ _ _ Ht) as [_ <-]. apply ids_root.
Qed.

Lemma iframe_offered_once_witness :
  offersFor 6 (getAllSelectableElements pageTiers) = [KIframe].
Proof.
  apply iframe_offered_once.
  - apply wfPageb_sound. vm_compute. reflexivity.
  - vm_compute. tauto.
Defined.

(** ** Deferred callbacks that outlive what scheduled them *)

Lemma body_withdrawPage (n : NodeId) (p : Page) : body (withdrawPage n p) = body p.
Proof.
  unfold withdrawPage. rewrite !body_update_elem; [reflexivity | | |];
    intro e; try reflexivity.
  destruct (paneFullscreenHandler e); reflexivity.
Qed.

Lemma body_fold_withdraw (l : list NodeId) (p : Page) :
  body (fold_left (fun q c => withdrawPage c q) l p) = body p.
Proof.
  revert p. induction l as [|c l IH]; intro p; cbn [fold_left]; [reflexivity|].
  rewrite IH. apply body_withdrawPage.
Qed.

Lemma body_unmarkBody (b : NodeId) (p : Page) : body (unmarkBody b p) = body p.
Proof. unfold unmarkBody. apply body_update_elem. reflexivity. Qed.

Lemma in_remove_callback_twice (x : Callback) (l : list Callback) :
  In x (remove_callback x (l ++ [x; x])).
Proof.
  induction l as [|y l IH]; simpl.
  - replace (Callback_eqb x x) with true; [left; reflexivity|].
    destruct x; simpl; [symmetry; apply Nat.eqb_refl | reflexivity | reflexivity].
  - destruct (Callback_eqb x y); [|right; exact IH].
    apply in_or_app. right. left. reflexivity.
Qed.

(** X13.  [disableSelectMode] does not cancel the timeout that
    [enableSelectMode] has set: it is still pending when the select mode
    has been turned off, and when it comes due in a select mode that was
    turned on later, it turns that one off. *)
Theorem pick_timeout_outlives_select_mode (s : State) (b : NodeId) :
  selectMode s = false -> body (page s) = Some b ->
  exists n1 s1 s2 n3 s3 s4,
    enableSelectMode s = Ok n1 s1 /\
    disableSelectMode s1 = Ok tt s2 /\
    selectMode s2 = false /\ timers s2 = timers s ++ [CbPickTimeout] /\
    enableSelectMode s2 = Ok n3 s3 /\
    selectMode s3 = true /\ timers s3 = timers s ++ [CbPickTimeout; CbPickTimeout] /\
    dispatch (EvCallback CbPickTimeout) s3 = Ok tt s4 /\
    selectMode s4 = false /\ In CbPickTimeout (timers s4).
Proof.
  intros Hs Hb.
  pose proof (enableSelectMode_fresh s b Hs Hb) as E1.
  match type of E1 with _ = Ok ?n ?x => set (n1 := n) in *; set (s1 := x) in * end.
  assert (Hb1 : body (page s1) = Some b).
  { unfold s1. cbn [page]. rewrite body_fold_offer, body_markBody. exact Hb. }
  pose proof (disableSelectMode_active s1 b eq_refl Hb1) as E2.
  match type of E2 with _ = Ok _ ?x => set (s2 := x) in * end.
  assert (Hb2 : body (page s2) = Some b).
  { unfold s2. cbn [page]. rewrite body_fold_withdraw, body_unmarkBody. exact Hb1. }
  pose proof (enableSelectMode_fresh s2 b eq_refl Hb2) as E3.
  match type of E3 with _ = Ok ?n ?x => set (n3 := n) in *; set (s3 := x) in * end.
  assert (Hb3 : body (page s3) = Some b).
  { unfold s3. cbn [page]. rewrite body_fold_offer, body_markBody. exact Hb2. }
  set (s3' := set_timers (remove_callback CbPickTimeout (timers s3)) s3).
  pose proof (disableSelectMode_active s3' b eq_refl Hb3) as E4.
  match type of E4 with _ = Ok _ ?x => set (s4 := x) in * end.
  exists n1, s1, s2, n3, s3, s4.
  split; [exact E1|]. split; [exact E2|]. split; [reflexivity|]. split; [reflexivity|].
  split; [exact E3|]. split; [reflexivity|].
  split.
  { change (timers s3) with ((timers s ++ [CbPickTimeout]) ++ [CbPickTimeout]).
    rewrite <- app_assoc. reflexivity. }
  split; [exact E4|]. split; [reflexivity|].
  change (timers s4) with (remove_callback CbPickTimeout
                             ((timers s ++ [CbPickTimeout]) ++ [CbPickTimeout])).
  rewrite <- app_assoc. apply in_remove_callback_twice.
Qed.

Lemma pick_timeout_outlives_select_mode_witness :
  exists n1 s1 s2 n3 s3 s4,
    enableSelectMode (initial pageTiers) = Ok n1 s1 /\
    disableSelectMode s1 = Ok tt s2 /\
    enableSelectMode s2 = Ok n3 s3 /\
    dispatch (EvCallback CbPickTimeout) s3 = Ok tt s4 /\
    selectMode s4 = false /\ In CbPickTimeout (timers s4).
Proof.
  destruct (pick_timeout_outlives_select_mode (initial pageTiers) 3)
    as (n1 & s1 & s2 & n3 & s3 & s4 & H1 & H2 & _ & _ & H3 & _ & _ & H4 & H5 & H6).
  - reflexivity.
  - vm_compute. reflexivity.
  - exists n1, s1, s2, n3, s3, s4. auto 10.
Defined.

Lemma enterPaneFullscreen_Ok_fields (s s' : State) (n : NodeId) (ty : Kind) (r : bool) :
  isActive s = false ->
  enterPaneFullscreen (Some n) ty s = Ok r s' ->
  exists e,
    elem (page s) n = Some e /\
    originalElementState s' = Some (snapshot (page s) n e) /\
    In CbActivate (timers s') /\ selectMode s' = selectMode s.
Proof.
  intros Ha H. destruct (elem (page s) n) as [e|] eqn:He.
  2:{ rewrite (enterPaneFullscreen_not_element s n ty Ha He) in H. discriminate. }
  exists e. split; [reflexivity|].
  rewrite (enterPaneFullscreen_inactive s n ty e Ha He), createOverlay_eq in H.
  destruct (body _) as [b|]; [|discriminate].
  destruct (appendChild b _ _) as [ex|p2]; [discriminate|].
  cbn [elementContainer set_page overlayCreated] in H.
  destruct (appendChild _ n _) as [ex|p4]; [discriminate|].
  injection H as _ <-. split; [reflexivity|]. split; [|reflexivity].
  cbn [timers enterTail]. apply in_or_app. right. left. reflexivity.
Qed.

Lemma exitPaneFullscreen_Ok_fields (s s' : State) (u : unit) :
  exitPaneFullscreen s = Ok u s' ->
  timers s' = timers s /\ (isActive s = true -> overlay s' = None).
Proof.
  destruct (isActive s) eqn:Ha.
  2:{ unfold exitPaneFullscreen, bind, gets. rewrite Ha. simpl. intro H.
      injection H as _ <-. split; [reflexivity | discriminate]. }
  destruct (currentElement s) as [c|] eqn:Hc, (originalElementState s) as [st|] eqn:Hst.
  - rewrite (exitPaneFullscreen_active s c st Ha Hc Hst).
    destruct (s_parent st) as [q|].
    + destruct (insertBefore q c (s_nextSibling st) _) as [ex|p']; [discriminate|].
      intro H. injection H as _ <-. split; reflexivity.
    + intro H. injection H as _ <-. split; reflexivity.
  - unfold exitPaneFullscreen, bind, gets. rewrite Ha. simpl. rewrite ?Hc, ?Hst.
    intro H. injection H as _ <-. split; reflexivity.
  - unfold exitPaneFullscreen, bind, gets. rewrite Ha. simpl. rewrite ?Hc, ?Hst.
    intro H. injection H as _ <-. split; reflexivity.
  - unfold exitPaneFullscreen, bind, gets. rewrite Ha. simpl. rewrite ?Hc, ?Hst.
    intro H. injection H as _ <-. split; reflexivity.
Qed.

(** X14.  The animation-frame callback of [enterPaneFullscreen] is not
    cancelled by [exitPaneFullscreen]: when the session is left before the
    frame, the callback is still pending, finds no overlay and raises a
    [TypeError]. *)
Theorem activate_after_exit (s s1 s2 : State) (n : NodeId) (ty : Kind) (r : bool) :
  enterPaneFullscreen (Some n) ty s = Ok r s1 ->
  exitPaneFullscreen s1 = Ok tt s2 ->
  In CbActivate (timers s2) /\ overlay s2 = None /\
  dispatch (EvCallback CbActivate) s2 =
    Throw TypeError (set_timers (remove_callback CbActivate (timers s2)) s2).
Proof.
  intros H1 H2.
  assert (Hact : isActive s1 = true) by apply (enterPaneFullscreen_Ok_session _ _ _ _ _ H1).
  assert (Hin : In CbActivate (timers s1)).
  { destruct (isActive s) eqn:Ha.
    - rewrite (enterPaneFullscreen_active s n ty Ha) in H1.
      destruct (exitPaneFullscreen s) as [u s0|ex s0] eqn:E; [|discriminate].
      destruct (enterPaneFullscreen_Ok_fields s0 s1 n ty r
                  (exitPaneFullscreen_Ok_inactive _ _ _ E) H1) as (e & _ & _ & X & _).
      exact X.
    - destruct (enterPaneFullscreen_Ok_fields s s1 n ty r Ha H1) as (e & _ & _ & X & _).
      exact X. }
  destruct (exitPaneFullscreen_Ok_fields s1 s2 tt H2) as [Ht Hov].
  specialize (Hov Hact).
  split; [rewrite Ht; exact Hin|]. split; [exact Hov|].
  cbv beta iota delta [dispatch bind modify runCallback gets throw].
  change (overlay (set_timers (remove_callback CbActivate (timers s2)) s2)) with (overlay s2).
  rewrite Hov. reflexivity.
Qed.

Lemma activate_after_exit_witness :
  In CbActivate
     (timers (stateOf (exitPaneFullscreen
                         (stateOf (enterPaneFullscreen (Some 4) KVideo (initial pageTiers)))))).
Proof.
  destruct (enterPaneFullscreen (Some 4) KVideo (initial pageTiers)) as [r s1|ex s1] eqn:E1;
    [|vm_compute in E1; discriminate].
  cbn [stateOf].
  destruct (exitPaneFullscreen s1) as [[] s2|ex s2] eqn:E2.
  - cbn [stateOf]. apply (activate_after_exit _ _ _ _ _ _ E1 E2).
  - exfalso. vm_compute in E1. injection E1 as _ <-. vm_compute in E2. discriminate.
Defined.

(** ** Picking an element *)

Lemma disableSelectMode_clears (s : State) (b m : NodeId) :
  wfPage (page s) -> selectMode s = true -> body (page s) = Some b ->
  In m (ids (document (page s))) ->
  exists s2,
    disableSelectMode s = Ok tt s2 /\ selectMode s2 = false /\
    isActive s2 = isActive s /\
    forall e2, elem (page s2) m = Some e2 ->
               has_token "pane-fullscreen-selectable" (classList e2) = false.
Proof.
  intros W Hs Hb Hd.
  rewrite (disableSelectMode_active s b Hs Hb).
  set (pu := unmarkBody b (page s)).
  set (marked := querySelectorAll pu [ByClass "pane-fullscreen-selectable"]).
  eexists. split; [reflexivity|]. split; [reflexivity|]. split; [reflexivity|].
  cbn [page]. intros e2 He2.
  assert (Hdoc : document pu = document (page s)) by apply document_update_elem.
  assert (Hnd : NoDup marked).
  { unfold marked, querySelectorAll, querySelectorAllT. apply NoDup_filter.
    rewrite Hdoc. apply kids_doc_NoDup, W. }
  rewrite (elem_fold_withdraw _ _ _ Hnd) in He2.
  destruct (existsb (Nat.eqb m) marked) eqn:E.
  - destruct (elem pu m) as [eu|]; [|discriminate]. injection He2 as <-.
    unfold withdrawElem. destruct (paneFullscreenHandler eu); simpl; apply has_token_remove.
  - destruct (has_token "pane-fullscreen-selectable" (classList e2)) eqn:Ec; [|reflexivity].
    exfalso.
    assert (X : existsb (Nat.eqb m) marked = true); [|congruence].
    apply existsb_exists. exists m. split; [|apply Nat.eqb_refl].
    unfold marked, querySelectorAll, querySelectorAllT. apply filter_In. split.
    + rewrite Hdoc. rewrite ids_unfold in Hd. destruct Hd as [Hr|Hk]; [|exact Hk].
      exfalso. assert (Y : is_element (page s) m = true).
      { rewrite <- (is_element_update_elem b
                      (fun e => set_classList
                                  (remove_token "pane-fullscreen-select-mode" (classList e)) e)).
        fold (unmarkBody b (page s)). fold pu. unfold is_element. rewrite He2. reflexivity. }
      unfold is_element, elem in Y. rewrite <- Hr, (wf_doc _ W) in Y. discriminate.
    + unfold node_matches. rewrite He2. simpl. rewrite Ec. reflexivity.
Qed.

(** X15.  A click on an element of the document that is offered for
    selection, with no session active, turns the select mode off before the
    snapshot is taken: when the call returns, a session is active on that
    element and the recorded class list does not contain
    [pane-fullscreen-selectable]. *)
Theorem pick_takes_clean_snapshot (s s1 : State) (b n : NodeId) (ty : Kind) :
  wfPage (page s) -> selectMode s = true -> isActive s = false ->
  body (page s) = Some b -> In n (ids (document (page s))) ->
  dispatch (EvClick n (LSelect ty)) s = Ok tt s1 ->
  selectMode s1 = false /\ isActive s1 = true /\ currentElement s1 = Some n /\
  exists st,
    originalElementState s1 = Some st /\
    has_token "pane-fullscreen-selectable" (s_className st) = false.
Proof.
  intros W Hs Ha Hb Hd H.
  set (f := fun e => set_listeners (remove_listener (LSelect ty) (listeners e)) e).
  set (sA := set_page (update_elem n f (page s)) s).
  change (dispatch (EvClick n (LSelect ty)) s) with (handleElementSelect n ty sA) in H.
  destruct (disableSelectMode_clears sA b n) as (sB & E & HsB & HaB & Hclear).
  { apply wfPage_update_elem, W. }
  { exact Hs. }
  { unfold sA. cbn [page set_page]. rewrite body_update_elem; [exact Hb | reflexivity]. }
  { unfold sA. cbn [page set_page]. rewrite document_update_elem. exact Hd. }
  unfold handleElementSelect, bind in H. rewrite E in H.
  destruct (enterPaneFullscreen (Some n) ty sB) as [r s1'|ex s1'] eqn:En; [|discriminate].
  injection H as <-.
  change (isActive sA) with (isActive s) in HaB. rewrite Ha in HaB.
  destruct (enterPaneFullscreen_Ok_session _ _ _ _ _ En) as [H1 H2].
  destruct (enterPaneFullscreen_Ok_fields sB s1' n ty r HaB En) as (e & He & Hst & _ & Hsel).
  split; [rewrite Hsel; exact HsB|]. split; [exact H1|]. split; [exact H2|].
  eexists. split; [exact Hst|]. apply (Hclear e He).
Qed.

Lemma pick_takes_clean_snapshot_witness :
  exists st,
    originalElementState
      (stateOf (dispatch (EvClick 4 (LSelect KVideo))
                  (stateOf (dispatch (EvMessage selectVideo) (initial pageTiers)))))
      = Some st /\
    has_token "pane-fullscreen-selectable" (s_className st) = false.
Proof.
  destruct (dispatch (EvClick 4 (LSelect KVideo))
              (stateOf (dispatch (EvMessage selectVideo) (initial pageTiers))))
    as [[] s1|ex s1] eqn:E; [|vm_compute in E; discriminate].
  destruct (pick_takes_clean_snapshot
              (stateOf (dispatch (EvMessage selectVideo) (initial pageTiers))) s1 3 4 KVideo)
    as (_ & _ & _ & st & H1 & H2).
  - apply wfPageb_sound. vm_compute. reflexivity.
  - vm_compute. reflexivity.
  - vm_compute. reflexivity.
  - vm_compute. reflexivity.
  - vm_compute. tauto.
  - exact E.
  - exists st. split; [exact H1 | exact H2].
Defined.

(** ** What the script never changes *)

Lemma ownClasses_add (c : string) (l : list string) :
  has_token c SCRIPT_CLASSES = true -> ownClasses (add_token c l) = ownClasses l.
Proof.
  intro H. unfold add_token. destruct (has_token c l); [reflexivity|].
  unfold ownClasses. rewrite filter_app. cbn [List.filter]. rewrite H.
  cbn [negb]. apply app_nil_r.
Qed.

Lemma ownClasses_remove (c : string) (l : list string) :
  has_token c SCRIPT_CLASSES = true -> ownClasses (remove_token c l) = ownClasses l.
Proof.
  intro H. unfold ownClasses, remove_token.
  induction l as [|a l IH]; cbn [List.filter]; [reflexivity|].
  destruct (String.eqb_spec a c) as [->|Hne]; cbn [negb List.filter].
  - rewrite H. cbn [negb]. exact IH.
  - rewrite IH. reflexivity.
Qed.

Lemma sameElement_refl (e : Elem) : sameElement e e.
Proof. repeat split; auto. Qed.

Lemma sameNode_refl (d : NodeData) : sameNode d d.
Proof. destruct d; simpl; [reflexivity | reflexivity | apply sameElement_refl]. Qed.

Lemma sameElement_classes (f : list string -> list string) (e0 e : Elem) :
  (forall l, ownClasses (f l) = ownClasses l) ->
  sameElement e0 e -> sameElement e0 (set_classList (f (classList e)) e).
Proof.
  intros Hf (H1 & H2 & H3 & H4 & H5 & H6 & H7). repeat split; try assumption.
  simpl. rewrite Hf. exact H6.
Qed.

(** An assignment to the element [n] that keeps [sameElement]. *)
Lemma Preserved_update_at (p0 : Page) (n : NodeId) (f : Elem -> Elem) (s : State) :
  (forall e0 e, n < nextId p0 -> elem p0 n = Some e0 -> elem (page s) n = Some e ->
                sameElement e0 e -> sameElement e0 (f e)) ->
  Preserved p0 s -> Preserved p0 (set_page (update_elem n f (page s)) s).
Proof.
  intros Hf (H1 & H2 & H3 & H4). split; [|split; [|split]].
  - cbn [page set_page]. rewrite nextId_update_elem. exact H1.
  - intros m d0 Hm Hd0. cbn [page set_page].
    destruct (H2 m d0 Hm Hd0) as (d & Hd & Hs).
    destruct (Nat.eq_dec m n) as [->|Hne].
    + unfold update_elem. destruct (elem (page s) n) as [e|] eqn:He; [|eauto].
      simpl. rewrite lookup_insert_eq. eexists. split; [reflexivity|].
      apply elem_store in He. rewrite He in Hd. injection Hd as <-.
      destruct d0 as [|t0|e0]; try discriminate Hs.
      simpl. simpl in Hs.
      apply Hf; [exact Hm | apply elem_store; exact Hd0 | reflexivity | exact Hs].
    + rewrite store_update_elem_ne by exact Hne. eauto.
  - exact H3.
  - exact H4.
Qed.

Lemma Preserved_update (p0 : Page) (n : NodeId) (f : Elem -> Elem) (s : State) :
  (forall e0 e, sameElement e0 e -> sameElement e0 (f e)) ->
  Preserved p0 s -> Preserved p0 (set_page (update_elem n f (page s)) s).
Proof. intro Hf. apply Preserved_update_at. intros e0 e _ _ _. apply Hf. Qed.

Lemma Preserved_store (p0 : Page) (s : State) (p' : Page) :
  store p' = store (page s) -> nextId (page s) <= nextId p' ->
  Preserved p0 s -> Preserved p0 (set_page p' s).
Proof.
  intros Hs Hn (H1 & H2 & H3 & H4). split; [|split; [|split]].
  - cbn [page set_page]. lia.
  - cbn [page set_page]. rewrite Hs. exact H2.
  - exact H3.
  - exact H4.
Qed.

Lemma Preserved_fields (p0 : Page) (s s' : State) :
  page s' = page s -> originalElementState s' = originalElementState s ->
  currentElement s' = currentElement s ->
  Preserved p0 s -> Preserved p0 s'.
Proof.
  intros E1 E2 E3 (H1 & H2 & H3 & H4). unfold Preserved. rewrite E1, E2, E3. auto.
Qed.

Lemma Preserved_withOverlay (p0 : Page) (s : State) :
  Preserved p0 s -> Preserved p0 (set_page (withOverlay (page s)) s).
Proof.
  intros (H1 & H2 & H3 & H4). split; [|split; [|split]].
  - cbn [page set_page]. rewrite nextId_withOverlay. lia.
  - intros m d0 Hm Hd0. cbn [page set_page].
    rewrite store_withOverlay_old by lia. apply (H2 m d0 Hm Hd0).
  - exact H3.
  - exact H4.
Qed.

Lemma keeps_update (p0 : Page) (n : NodeId) (f : Elem -> Elem) :
  (forall e0 e, sameElement e0 e -> sameElement e0 (f e)) ->
  keeps p0 (onPage (update_elem n f)).
Proof. intros Hf s H. apply Preserved_update; assumption. Qed.

Lemma keeps_classes (p0 : Page) (n : NodeId) (f : list string -> list string) :
  (forall l, ownClasses (f l) = ownClasses l) ->
  keeps p0 (onPage (update_elem n (fun e => set_classList (f (classList e)) e))).
Proof. intro Hf. apply keeps_update. intros e0 e. apply sameElement_classes, Hf. Qed.

Lemma keeps_modify (p0 : Page) (f : State -> State) :
  (forall s, page (f s) = page s /\ originalElementState (f s) = originalElementState s /\
             currentElement (f s) = currentElement s) ->
  keeps p0 (modify f).
Proof.
  intros Hf s H. destruct (Hf s) as (E1 & E2 & E3).
  apply (Preserved_fields p0 s (f s) E1 E2 E3 H).
Qed.

Lemma keeps_insertBefore (p0 : Page) (parent node : NodeId) (child : option NodeId) :
  keeps p0 (tryPage (insertBefore parent node child)).
Proof.
  intros s H. unfold tryPage.
  destruct (insertBefore parent node child (page s)) as [ex|p'] eqn:E; [exact H|].
  apply insertBefore_inr in E.
  destruct E as (? & ? & ? & _ & _ & _ & _ & _ & _ & _ & ->).
  apply Preserved_store; [reflexivity | apply Nat.le_refl | exact H].
Qed.

Lemma keeps_play (p0 : Page) (n : NodeId) : keeps p0 (onPage (play n)).
Proof.
  intros s H. unfold onPage, modify, play. destruct (autoplayAllowed (page s)).
  - apply Preserved_update; [|exact H]. intros e0 e He. exact He.
  - apply (Preserved_fields p0 s); auto.
Qed.

Lemma store_remove (o : NodeId) (p : Page) :
  store (remove o p) = store p /\ nextId (remove o p) = nextId p.
Proof.
  unfold remove. destruct (parentNode p o); [|auto].
  destruct (subtreeF o (forest p)); auto.
Qed.

Lemma keeps_removeOverlay (p0 : Page) : keeps p0 removeOverlay.
Proof.
  unfold removeOverlay. eapply (triple_bind _ _ (fun _ => Preserved p0)).
  { intros s H. unfold onPage, modify.
    destruct (getElementById (page s) OVERLAY_ID) as [o|].
    - destruct (store_remove o (page s)) as [E1 E2].
      apply Preserved_store; [exact E1 | rewrite E2; apply Nat.le_refl | exact H].
    - apply (Preserved_fields p0 s); auto. }
  intro. eapply triple_bind; [apply keeps_modify; auto|].
  intro. apply keeps_modify. auto.
Qed.

Lemma keeps_createOverlay (p0 : Page) : keeps p0 createOverlay.
Proof.
  unfold createOverlay. eapply triple_bind; [apply keeps_removeOverlay|]. intro.
  eapply (triple_bind _ _ (fun _ => Preserved p0)).
  { intros s H. apply (Preserved_withOverlay p0 s H). }
  intro o. eapply triple_bind; [apply keeps_modify; auto|]. intro.
  eapply triple_bind; [apply keeps_modify; auto|]. intro.
  eapply triple_bind; [apply keeps_modify; auto|]. intro.
  apply triple_gets. intros [b|].
  - eapply triple_pre; [intros s [H _]; exact H|].
    eapply triple_bind; [apply keeps_insertBefore|]. intro. apply triple_ret.
  - apply triple_throw. intros s [H _]. exact H.
Qed.

Lemma snapshotOf_snapshot (p0 : Page) (s : State) (n : NodeId) (e : Elem) :
  Preserved p0 s -> elem (page s) n = Some e ->
  snapshotOf p0 (snapshot (page s) n e).
Proof.
  intros (_ & H2 & _) He e0 Hn He0. cbn [s_element snapshot] in Hn, He0.
  apply elem_store in He0. destruct (H2 n _ Hn He0) as (d & Hd & Hs).
  apply elem_store in He. rewrite He in Hd. injection Hd as <-.
  destruct Hs as (_ & _ & _ & _ & _ & Hc & Hst).
  split; [exact Hc|]. cbn [s_style snapshot].
  destruct Hst as [-> | ->]; reflexivity.
Qed.

Lemma Preserved_restoreAttrs (p0 : Page) (s : State) (c : NodeId) (st : ElementState) :
  Preserved p0 s -> snapshotOf p0 st -> s_element st = c ->
  Preserved p0 (set_page (restoreAttrs c st (page s)) s).
Proof.
  intros H Hst Hc. unfold restoreAttrs.
  assert (Hrm : forall t s', has_token t SCRIPT_CLASSES = true -> Preserved p0 s' ->
            Preserved p0 (set_page
              (update_elem c (fun e => set_classList (remove_token t (classList e)) e)
                           (page s')) s')).
  { intros t s' Ht. apply Preserved_update. intros e0 e.
    apply (sameElement_classes (remove_token t)). intro l. apply ownClasses_remove, Ht. }
  set (s1 := set_page (update_elem c (set_styleAttr (Some (s_style st))) (page s)) s).
  set (s2 := set_page (update_elem c (set_classList (s_className st)) (page s1)) s1).
  assert (H1 : Preserved p0 s1).
  { apply Preserved_update_at; [|exact H]. intros e0 e Hn He0 _ (A1 & A2 & A3 & A4 & A5 & A6 & A7).
    rewrite <- Hc in Hn, He0. destruct (Hst e0 Hn He0) as [_ Hs].
    repeat split; try assumption. right. simpl. rewrite Hs. reflexivity. }
  assert (H2 : Preserved p0 s2).
  { apply Preserved_update_at; [|exact H1]. intros e0 e Hn He0 _ (A1 & A2 & A3 & A4 & A5 & A6 & A7).
    rewrite <- Hc in Hn, He0. destruct (Hst e0 Hn He0) as [Hcl _].
    repeat split; try assumption. }
  apply (Hrm "pane-fullscreen-container"
             (set_page (update_elem c (fun e => set_classList
                          (remove_token "pane-fullscreen-iframe" (classList e)) e)
                        (page (set_page (update_elem c (fun e => set_classList
                          (remove_token "pane-fullscreen-video" (classList e)) e) (page s2)) s2)))
                       s2) eq_refl).
  apply (Hrm "pane-fullscreen-iframe"
             (set_page (update_elem c (fun e => set_classList
                          (remove_token "pane-fullscreen-video" (classList e)) e) (page s2)) s2)
             eq_refl).
  apply (Hrm "pane-fullscreen-video" s2 eq_refl). exact H2.
Qed.

Lemma keeps_restore (p0 : Page) (c : NodeId) (st : ElementState) :
  snapshotOf p0 st -> s_element st = c ->
  keeps p0 (restoreElementState (Some c) (Some st)).
Proof.
  intros Hst Hc s H. rewrite restoreElementState_eq.
  pose proof (Preserved_restoreAttrs p0 s c st H Hst Hc) as H1.
  destruct (s_parent st) as [q|]; [|exact H1].
  destruct (insertBefore q c (s_nextSibling st) (restoreAttrs c st (page s))) as [ex|p'] eqn:E;
    [exact H1|].
  apply insertBefore_inr in E.
  destruct E as (? & ? & ? & _ & _ & _ & _ & _ & _ & _ & ->).
  apply (Preserved_store p0 (set_page (restoreAttrs c st (page s)) s));
    [reflexivity | apply Nat.le_refl | exact H1].
Qed.

Lemma Preserved_reset (p0 : Page) (s : State) :
  Preserved p0 s ->
  Preserved p0 (set_originalElementState None (set_currentElement None s)).
Proof.
  intros (H1 & H2 & _ & _). split; [exact H1|]. split; [exact H2|].
  split; intros; discriminate.
Qed.

Lemma keeps_exit (p0 : Page) : keeps p0 exitPaneFullscreen.
Proof.
  unfold exitPaneFullscreen. apply triple_gets. intros [|]; simpl.
  2:{ apply triple_ret'. intros s [H _]. exact H. }
  apply triple_gets. intro cur. apply triple_gets. intro st.
  eapply (triple_bind _ _ (fun _ => Preserved p0)).
  { destruct cur as [c|], st as [st|];
      try (apply triple_ret'; intros s [[[H _] _] _]; exact H).
    intros s [[[H _] Hc] Hs].
    assert (X : keeps p0 (restoreElementState (Some c) (Some st) ;;
                          (if String.eqb (s_type st) "video" &&
                              match s_wasPlaying st with Some true => true | _ => false end
                           then onPage (play c) else ret tt))).
    { destruct H as (_ & _ & H3 & H4).
      eapply triple_bind; [apply (keeps_restore p0 c st (H3 st Hs) (H4 c st Hc Hs))|].
      intro. destruct (_ && _); [apply keeps_play | apply triple_ret]. }
    apply (X s H). }
  intro. eapply triple_bind; [apply keeps_removeOverlay|]. intro.
  eapply triple_bind; [apply keeps_modify; auto|]. intro.
  intros s H. apply (Preserved_reset p0 s H).
Qed.

Lemma keeps_enter (p0 : Page) (element : option NodeId) (type : Kind) :
  keeps p0 (enterPaneFullscreen element type).
Proof.
  destruct element as [n|]; [|apply triple_ret].
  unfold enterPaneFullscreen. apply triple_gets. intro active.
  eapply triple_pre; [intros s [H _]; exact H|].
  eapply (triple_bind _ _ (fun _ => Preserved p0)).
  { destruct active; [apply keeps_exit | apply triple_ret]. }
  intro.
  eapply (triple_bind _ _ (fun st s => Preserved p0 s /\ snapshotOf p0 st /\ s_element st = n)).
  { intros s H. unfold saveElementState. destruct (elem (page s) n) as [e|] eqn:He; [|exact H].
    split; [exact H|]. split; [apply (snapshotOf_snapshot p0 s n e H He) | reflexivity]. }
  intro st.
  eapply (triple_bind _ _ (fun _ s => Preserved p0 (set_currentElement (Some n) s))).
  { intros s ((H1 & H2 & _ & _) & Hst & Hn). split; [exact H1|]. split; [exact H2|].
    split.
    - intros st' E. injection E as <-. exact Hst.
    - intros c st' Ec E. injection Ec as <-. injection E as <-. exact Hn. }
  intro. eapply (triple_bind _ _ (fun _ => Preserved p0)).
  { intros s H. exact H. }
  intro. eapply triple_bind; [apply keeps_createOverlay|]. intro.
  eapply triple_bind.
  { apply keeps_classes. intro l. apply ownClasses_add. destruct type; reflexivity. }
  intro. apply triple_gets. intro container.
  eapply triple_pre; [intros s [H _]; exact H|].
  eapply (triple_bind _ _ (fun _ => Preserved p0)).
  { destruct container; [apply keeps_insertBefore | apply triple_throw; auto]. }
  intro. eapply (triple_bind _ _ (fun _ => Preserved p0)).
  { destruct (_ && _); [apply keeps_play | apply triple_ret]. }
  intro. eapply triple_bind; [apply keeps_modify; auto|]. intro.
  eapply triple_bind; [apply keeps_modify; auto|]. intro.
  apply triple_ret.
Qed.

Lemma keeps_bodyClass (p0 : Page) (f : list string -> list string) :
  (forall l, ownClasses (f l) = ownClasses l) -> keeps p0 (bodyClass f).
Proof.
  intro Hf. unfold bodyClass. apply triple_gets. intros [b|].
  - eapply triple_pre; [intros s [H _]; exact H|]. apply keeps_classes, Hf.
  - apply triple_throw. intros s [H _]. exact H.
Qed.

Lemma keeps_offer (p0 : Page) (c : NodeId * Kind) : keeps p0 (offer c).
Proof.
  destruct c as [element type]. unfold offer.
  eapply triple_bind.
  { apply keeps_classes. intro l. apply ownClasses_add. reflexivity. }
  intro. eapply triple_bind; [apply keeps_update; intros e0 e He; exact He|].
  intro. eapply triple_bind; [apply keeps_update; intros e0 e He; exact He|].
  intro. apply keeps_update. intros e0 e He. exact He.
Qed.

Lemma keeps_withdraw (p0 : Page) (element : NodeId) : keeps p0 (withdraw element).
Proof.
  unfold withdraw.
  eapply triple_bind.
  { apply keeps_classes. intro l. apply ownClasses_remove. reflexivity. }
  intro. eapply triple_bind; [apply keeps_update; intros e0 e He; exact He|].
  intro. apply keeps_update. intros e0 e He.
  destruct (paneFullscreenHandler e); exact He.
Qed.

Lemma keeps_enableSelectMode (p0 : Page) : keeps p0 enableSelectMode.
Proof.
  unfold enableSelectMode. apply triple_gets. intro on.
  eapply triple_pre; [intros s [H _]; exact H|].
  destruct on; [apply triple_ret|].
  eapply triple_bind; [apply keeps_modify; auto|]. intro.
  eapply triple_bind.
  { apply keeps_bodyClass. intro l. apply ownClasses_add. reflexivity. }
  intro. apply triple_gets. intro selectables.
  eapply triple_pre; [intros s [H _]; exact H|].
  eapply triple_bind; [apply triple_forEach; intros; apply keeps_offer|]. intro.
  eapply triple_bind; [apply keeps_modify; auto|]. intro.
  eapply triple_bind; [apply keeps_modify; auto|]. intro.
  apply triple_ret.
Qed.

Lemma keeps_disableSelectMode (p0 : Page) : keeps p0 disableSelectMode.
Proof.
  unfold disableSelectMode. apply triple_gets. intro on.
  eapply triple_pre; [intros s [H _]; exact H|].
  destruct on; simpl; [|apply triple_ret].
  eapply triple_bind; [apply keeps_modify; auto|]. intro.
  eapply triple_bind.
  { apply keeps_bodyClass. intro l. apply ownClasses_remove. reflexivity. }
  intro. apply triple_gets. intro marked.
  eapply triple_pre; [intros s [H _]; exact H|].
  apply triple_forEach. intros. apply keeps_withdraw.
Qed.

Lemma keeps_handleElementSelect (p0 : Page) (element : NodeId) (type : Kind) :
  keeps p0 (handleElementSelect element type).
Proof.
  unfold handleElementSelect.
  eapply triple_bind; [apply keeps_disableSelectMode|]. intro.
  eapply (triple_bind _ _ (fun _ => Preserved p0));
    [apply (keeps_enter p0 (Some element) type)|].
  intro. apply triple_ret.
Qed.

Lemma keeps_handleKeydown (p0 : Page) (key : string) : keeps p0 (handleKeydown key).
Proof.
  unfold handleKeydown. apply triple_gets. intro active.
  eapply triple_pre; [intros s [H _]; exact H|].
  destruct (_ && _); [apply keeps_exit | apply triple_ret].
Qed.

Lemma keeps_onMessage (p0 : Page) (action : Action) : keeps p0 (onMessage action).
Proof.
  destruct action; simpl.
  - apply triple_gets. intros [[element type]|];
      (eapply triple_pre; [intros s [H _]; exact H|]).
    + eapply (triple_bind _ _ (fun _ => Preserved p0));
        [apply (keeps_enter p0 (Some element) type)|].
      intro. apply triple_ret.
    + apply triple_ret.
  - eapply triple_bind; [apply keeps_enableSelectMode|].
    intros [[|k]|]; try apply triple_ret.
    eapply triple_bind; [apply keeps_disableSelectMode|]. intro. apply triple_ret.
  - eapply triple_bind; [apply keeps_exit|]. intro. apply triple_ret.
  - apply triple_gets. intro. apply triple_gets. intro.
    apply triple_ret'. intros s [[H _] _]. exact H.
  - apply triple_ret.
Qed.

Lemma keeps_runCallback (p0 : Page) (cb : Callback) : keeps p0 (runCallback cb).
Proof.
  destruct cb as [hint| |]; simpl.
  - apply keeps_classes. intro l. apply ownClasses_add. reflexivity.
  - apply triple_gets. intros [o|]; (eapply triple_pre; [intros s [H _]; exact H|]).
    + apply keeps_classes. intro l. apply ownClasses_add. reflexivity.
    + apply triple_throw. auto.
  - apply triple_gets. intro on. eapply triple_pre; [intros s [H _]; exact H|].
    destruct on; [apply keeps_disableSelectMode | apply triple_ret].
Qed.

Lemma keeps_dispatch (p0 : Page) (ev : Event) : keeps p0 (dispatch ev).
Proof.
  destruct ev as [action|key|target li|cb|n r m|w h]; simpl.
  - eapply triple_bind; [apply keeps_onMessage|]. intro. apply triple_ret.
  - apply triple_gets. intro active. eapply triple_pre; [intros s [H _]; exact H|].
    eapply triple_bind; [apply keeps_handleKeydown|]. intro.
    destruct (_ && _); [apply triple_ret|].
    apply triple_gets. intro armed. eapply triple_pre; [intros s [H _]; exact H|].
    eapply triple_bind; [apply keeps_modify; auto|]. intro.
    destruct (_ && _); [apply keeps_disableSelectMode | apply triple_ret].
  - destruct li as [|type].
    + apply keeps_exit.
    + eapply triple_bind; [apply keeps_update; intros e0 e He; exact He|]. intro.
      apply keeps_handleElementSelect.
  - eapply triple_bind; [apply keeps_modify; auto|]. intro. apply keeps_runCallback.
  - apply keeps_update. intros e0 e He. exact He.
  - intros s H. apply Preserved_store; [reflexivity | apply Nat.le_refl | exact H].
Qed.

Lemma reachable_Preserved (p0 : Page) (s : State) : reachable p0 s -> Preserved p0 s.
Proof.
  induction 1 as [Hc|s s' _ IH (ev & _ & ->)].
  - split; [apply Nat.le_refl|]. split.
    + intros m d0 _ Hd. exists d0. split; [exact Hd | apply sameNode_refl].
    + split; intros; discriminate.
  - apply (triple_stateOf (Preserved p0) (Preserved p0)); [apply keeps_dispatch | exact IH].
Qed.

Lemma reachable_clean (p0 : Page) (s : State) : reachable p0 s -> cleanPage p0.
Proof. induction 1; assumption. Qed.

(** X16.  Whatever happens, the script never changes the tag name, the id,
    the [src], the [data-src] or the frame document of an element that was
    on the page when it started; apart from the class names that the script
    adds itself, the class list of such an element stays what it was, and
    its style attribute is either what it was or that value as
    [saveElementState] records it (the empty string when there was none).
    Text nodes are never changed. *)
Theorem script_preserves_page (p0 : Page) (s : State) (m : NodeId) :
  reachable p0 s -> In m (idsF (forest p0)) ->
  (forall e0, elem p0 m = Some e0 ->
     exists e, elem (page s) m = Some e /\
       tagName e = tagName e0 /\ idAttr e = idAttr e0 /\ src e = src e0 /\
       datasetSrc e = datasetSrc e0 /\ contentDocument e = contentDocument e0 /\
       ownClasses (classList e) = ownClasses (classList e0) /\
       (styleAttr e = styleAttr e0 \/
        styleAttr e = Some (match styleAttr e0 with Some v => v | None => "" end))) /\
  (forall t, store p0 !! m = Some (TextNode t) -> store (page s) !! m = Some (TextNode t)).
Proof.
  intros Hr Hm. destruct (reachable_Preserved p0 s Hr) as (_ & H2 & _).
  destruct (reachable_clean p0 s Hr) as [W _].
  pose proof (wf_bound _ W m Hm) as Hlt. split.
  - intros e0 He0. apply elem_store in He0.
    destruct (H2 m _ Hlt He0) as (d & Hd & Hs).
    destruct d as [|t|e]; try contradiction.
    exists e. split; [apply elem_store; exact Hd | exact Hs].
  - intros t Ht. destruct (H2 m _ Hlt Ht) as (d & Hd & Hs).
    simpl in Hs. rewrite Hd, Hs. reflexivity.
Qed.

Lemma script_preserves_page_witness :
  exists e,
    elem (page (stateOf (dispatch (EvMessage exitFullscreen)
                  (stateOf (dispatch (EvMessage autoFullscreen) (initial pageTiers)))))) 4
      = Some e /\
    tagName e = "VIDEO" /\ ownClasses (classList e) = [].
Proof.
  destruct (script_preserves_page pageTiers
              (stateOf (dispatch (EvMessage exitFullscreen)
                 (stateOf (dispatch (EvMessage autoFullscreen) (initial pageTiers))))) 4)
    as [H _].
  - apply reachable_after; [|exact I]. apply reachable_after; [|exact I].
    apply reach_init, cleanPageb_sound. vm_compute. reflexivity.
  - vm_compute. tauto.
  - destruct (elem (page (initial pageTiers)) 4) as [e0|] eqn:E0;
      [|vm_compute in E0; discriminate].
    destruct (H e0 E0) as (e & He & Ht & _ & _ & _ & _ & Hc & _).
    exists e. split; [exact He|].
    vm_compute in E0. injection E0 as <-. split; [exact Ht | exact Hc].
Defined.

(** ** When a session can be entered *)

Lemma body_elem_ext (p p' : Page) :
  document p' = document p ->
  (forall i, In i (ids (document p)) -> elem p' i = elem p i) ->
  body p' = body p.
Proof.
  intros Hd He. unfold body, documentElement. rewrite Hd.
  assert (Hk : forall i, In i (map root (kids (document p))) -> In i (ids (document p))).
  { intros i Hi. rewrite ids_unfold. right. apply roots_in_idsF, Hi. }
  rewrite (find_ext_in (is_element p') (is_element p)).
  2:{ intros i Hi. unfold is_element. rewrite (He i (Hk i Hi)). reflexivity. }
  destruct (find (is_element p) (map root (kids (document p)))) as [h|] eqn:Eh; [|reflexivity].
  apply find_some in Eh. destruct Eh as [Hh _].
  rewrite (He h (Hk h Hh)). destruct (elem p h) as [e|]; [|reflexivity].
  destruct (subtree h (document p)) as [t|] eqn:Et; [|reflexivity].
  destruct (String.eqb (tagName e) "HTML"); [|reflexivity].
  apply find_ext_in. intros i Hi. unfold is_body_tag. rewrite He; [reflexivity|].
  apply subtree_Some in Et. destruct Et as [Et _].
  apply (subtrees_ids_incl _ _ Et). rewrite ids_unfold. right. apply roots_in_idsF, Hi.
Qed.

Lemma body_withOverlay (p : Page) : wfPage p -> body (withOverlay p) = body p.
Proof.
  intro W. apply body_elem_ext; [reflexivity|].
  intros i Hi. apply elem_withOverlay_old, (wf_bound _ W), in_forest_doc, Hi.
Qed.

(** X17.  With no session active and no overlay element in the document,
    [enterPaneFullscreen] on an element of the page returns (with [true])
    exactly when the element does not contain [document.body], and the
    element is then a child of the element container of the new overlay
    and carries the class of its kind; when it contains [document.body]
    (the [html] or [body] element), the call raises
    [HierarchyRequestError] after the overlay has been put in the document:
    no session is active, but [currentElement] is set and the overlay element
    stays in the document. *)
Theorem enterPaneFullscreen_succeeds_iff (p0 : Page) (s : State) (n b : NodeId) (e : Elem)
        (ty : Kind) :
  reachable p0 s -> isActive s = false -> overlaysIn (page s) = [] ->
  body (page s) = Some b ->
  In n (idsF (forest (page s))) -> isOverlay (page s) n = false ->
  elem (page s) n = Some e ->
  (contains (page s) n b = false ->
   exists s1 e1,
     enterPaneFullscreen (Some n) ty s = Ok true s1 /\
     isActive s1 = true /\ overlay s1 = Some (nextId (page s)) /\
     elementContainer s1 = Some (1 + nextId (page s)) /\
     parentNode (page s1) n = Some (1 + nextId (page s)) /\
     elem (page s1) n = Some e1 /\ has_token (markerClass ty) (classList e1) = true) /\
  (contains (page s) n b = true ->
   exists s1,
     enterPaneFullscreen (Some n) ty s = Throw HierarchyRequestError s1 /\
     isActive s1 = false /\ currentElement s1 = Some n /\
     overlaysIn (page s1) = [nextId (page s)]).
Proof.
  intros Hr Ha Hov Hb Hnf Hno He. pose proof (reachable_Inv p0 s Hr) as HI.
  pose proof (inv_page s HI) as HP. pose proof (pi_wf _ HP) as W.
  pose proof (wf_nodup _ W) as Hnd0.
  assert (Hfree : overlayFree (page s) (ids (document (page s)))).
  { intros i Hi. destruct (isOverlay (page s) i) eqn:E; [|reflexivity].
    assert (X : In i (overlaysIn (page s))) by (apply filter_In; split; assumption).
    rewrite Hov in X. contradiction. }
  assert (Hrm : removeOverlayPage (page s) = page s).
  { unfold removeOverlayPage.
    destruct (getElementById (page s) OVERLAY_ID) as [x|] eqn:G; [|reflexivity].
    apply getElementById_Some in G. destruct G as [Hin Hm].
    change (isOverlay (page s) x = true) in Hm.
    rewrite (Hfree x) in Hm; [discriminate|]. rewrite ids_unfold. right. exact Hin. }
  set (o := nextId (page s)).
  assert (Hlt : forall x, In x (idsF (forest (page s))) -> x < o) by apply (wf_bound _ W).
  assert (Hnlt : n < o) by apply Hlt, Hnf.
  destruct (subtreeF n (forest (page s))) as [sn|] eqn:Hsn;
    [|apply subtreeF_None in Hsn; contradiction].
  destruct (subtreeF_Some _ _ _ Hsn) as [Hsnf Hrn].
  (* the overlay is created and put in the document *)
  assert (Hbw : body (withOverlay (page s)) = Some b) by (rewrite body_withOverlay; assumption).
  destruct (appendOverlay (page s) b HP Hfree Hbw)
    as (p2 & E2 & HP2 & Hst2 & Hnx2 & Hperm2 & Hok2 & Hsub2 & Huniq2).
  fold o in E2, Hnx2, Hok2, Hsub2, Huniq2.
  pose proof (pi_wf _ HP2) as W2.
  set (p3 := markPage n ty p2).
  assert (HF1 : forest p2 = insertF b None (overlayTree o) (forest (page s))).
  { pose proof (pi_wf _ (PageInv_withOverlay _ HP)) as WW.
    assert (Hnone : (None : option NodeId) <> Some o) by discriminate.
    pose proof E2 as E2'. unfold appendChild in E2'.
    destruct (insertBefore_moved b o None _ p2 WW E2' Hnone)
      as (so & sb & Hso & _ & _ & Hd & Hoth & _).
    assert (so = overlayTree o) as ->.
    { assert (X : subtreeF (root (overlayTree o)) (forest (withOverlay (page s))) =
                  Some (overlayTree o)).
      { apply subtreeF_of_subtreesF; [apply WW|].
        apply in_subtreesF. exists (overlayTree o). split; [|apply subtrees_self].
        rewrite forest_withOverlay. apply in_or_app. right. left. reflexivity. }
      change (root (overlayTree o)) with o in X. congruence. }
    unfold forest at 1. rewrite Hd, Hoth.
    change (document (withOverlay (page s))) with (document (page s)).
    change (others (withOverlay (page s))) with (others (page s) ++ [overlayTree o]).
    rewrite removeF_app, (removeF_absent o (others (page s))).
    2:{ intro X. assert (o < o); [|lia]. apply Hlt. unfold forest. rewrite idsF_cons.
        apply in_or_app. right. exact X. }
    rewrite (remove_sub_absent o (document (page s))).
    2:{ intro X. assert (o < o); [|lia]. apply Hlt, in_forest_doc.
        rewrite ids_unfold. right. exact X. }
    rewrite removeF_cons. change (root (overlayTree o)) with o. rewrite Nat.eqb_refl.
    change (removeF o []) with (@nil Tree). rewrite app_nil_r. reflexivity. }
  assert (HF3 : forest p3 = forest p2) by apply forest_update_elem.
  assert (Hd3 : document p3 = document p2) by apply document_update_elem.
  assert (Hio2 : isOverlay p2 n = false).
  { rewrite (isOverlay_store _ _ n Hst2), isOverlay_withOverlay_old by exact Hnlt. exact Hno. }
  assert (HP3 : PageInv p3).
  { apply PageInv_update_elem; [exact HP2 | reflexivity |].
    apply not_overlay_shape. intros _. exact Hio2. }
  assert (Hoo3 : isOverlay p3 o = true).
  { unfold p3, markPage. rewrite isOverlay_update_elem by reflexivity.
    rewrite (isOverlay_store _ _ o Hst2). apply (isOverlay_withOverlay_new (page s) 0). lia. }
  (* the subtree of the element, once the overlay is there *)
  assert (Hsn3 : subtreeF n (forest p3) = Some (insert_sub b None (overlayTree o) sn)).
  { rewrite HF3. rewrite <- Hrn at 1. rewrite <- (root_insert_sub b None (overlayTree o) sn).
    apply subtreeF_of_subtreesF; [apply (wf_nodup _ W2)|].
    rewrite HF1. apply subtreesF_insertF; assumption. }
  assert (Hnds : NoDup (ids sn)).
  { destruct (kids_NoDup _ sn Hnd0 Hsnf) as [H1 H2].
    rewrite ids_unfold. apply NoDup_cons; assumption. }
  assert (Hc3 : In (1 + o) (idsF (forest p3))).
  { rewrite HF3. apply (Permutation_in _ (Permutation_sym Hperm2)).
    rewrite idsF_forest_withOverlay. apply in_or_app. right.
    apply in_overlayTree. exists 1. split; [lia | reflexivity]. }
  destruct (subtreeF_In (1 + o) _ Hc3) as (sc & Hsc).
  assert (Hel3 : is_element p3 (1 + o) = true).
  { unfold p3, markPage. rewrite is_element_update_elem. unfold is_element, elem.
    rewrite Hst2. change (1 + o) with (1 + nextId (page s)).
    rewrite (store_withOverlay_new (page s) 1) by lia. reflexivity. }
  assert (Hen3 : exists e3, elem p3 n = Some e3).
  { apply is_element_true. unfold p3, markPage. rewrite is_element_update_elem.
    unfold is_element. rewrite (elem_store_eq _ _ n Hst2), elem_withOverlay_old by exact Hnlt.
    rewrite He. reflexivity. }
  destruct Hen3 as (e3 & He3).
  (* the call, up to the move of the element *)
  rewrite (enterPaneFullscreen_inactive s n ty e Ha He), createOverlay_eq.
  set (st := snapshot (page s) n e).
  set (s0 := set_currentElement (Some n) (set_originalElementState (Some st) s)).
  change (page (overlayCreated s0)) with (withOverlay (removeOverlayPage (page s))).
  change (page s0) with (page s). rewrite Hrm, Hbw. fold o. rewrite E2.
  cbn [elementContainer set_page overlayCreated page].
  change (nextId (removeOverlayPage (page s0))) with (nextId (removeOverlayPage (page s))).
  rewrite Hrm. fold o. fold p3.
  split.
  - intro Hct.
    assert (Hbsn : ~ In b (ids sn)) by apply (contains_false _ _ _ _ Hsn Hct).
    rewrite (insert_sub_absent _ _ _ _ Hbsn) in Hsn3.
    assert (Hct3 : contains p3 n (1 + o) = false).
    { unfold contains. rewrite Hsn3.
      destruct (existsb (Nat.eqb (1 + o)) (ids sn)) eqn:X; [|reflexivity].
      apply existsb_exists in X. destruct X as (x & Hx & Hox).
      apply Nat.eqb_eq in Hox. subst x.
      assert (1 + o < o); [|lia]. apply Hlt, (subtreesF_ids_incl _ _ Hsnf), Hx. }
    pose proof (insertBefore_ok (1 + o) n None p3 e3 sn sc He3 Hsn3 Hsc Hel3 Hct3) as E4.
    match type of E4 with _ -> _ = inr ?x => set (p4 := x) in * end.
    assert (E4' : insertBefore (1 + o) n None p3 = inr p4)
      by (apply E4; intros ? ?; discriminate).
    unfold appendChild. rewrite E4'.
    assert (Hnone : (None : option NodeId) <> Some n) by discriminate.
    destruct (insertBefore_moved (1 + o) n None p3 p4 (pi_wf _ HP3) E4' Hnone)
      as (_ & _ & _ & _ & _ & _ & _ & Hst4 & _ & _ & _ & _ & HpN & _).
    assert (He4 : exists e4, elem p4 n = Some e4 /\
                             has_token (markerClass ty) (classList e4) = true).
    { rewrite (elem_store_eq _ _ n Hst4). unfold p3, markPage. rewrite elem_update_elem_eq.
      rewrite (elem_store_eq _ _ n Hst2), elem_withOverlay_old by exact Hnlt.
      rewrite He. eexists. split; [reflexivity|]. simpl.
      unfold add_token. destruct (has_token (markerClass ty) (classList e)) eqn:X; [exact X|].
      unfold has_token. rewrite existsb_app. simpl. rewrite String.eqb_refl.
      apply orb_true_r. }
    destruct He4 as (e4 & He4 & Hc4).
    set (s1 := enterTail ty st n (set_page p4 (set_page p2 (overlayCreated s0)))).
    assert (Hp1 : parentNode (page s1) n = Some (1 + o) /\
                  exists e1, elem (page s1) n = Some e1 /\
                             has_token (markerClass ty) (classList e1) = true).
    { unfold s1, enterTail. cbn [page set_page].
      destruct (Kind_eqb ty KVideo && _).
      - split.
        + rewrite (parentNode_forest p4); [exact HpN|]. unfold play.
          destruct (autoplayAllowed p4); [apply forest_update_elem | reflexivity].
        + unfold play. destruct (autoplayAllowed p4); [|eauto].
          rewrite elem_update_elem_eq, He4. eexists. split; [reflexivity | exact Hc4].
      - split; [exact HpN | eauto]. }
    destruct Hp1 as (Hp1 & e1 & He1 & Hc1).
    exists s1, e1. split; [reflexivity|]. split; [reflexivity|].
    split.
    { change (overlay s1) with (Some (nextId (removeOverlayPage (page s)))).
      rewrite Hrm. reflexivity. }
    split.
    { change (elementContainer s1) with (Some (1 + nextId (removeOverlayPage (page s)))).
      rewrite Hrm. reflexivity. }
    split; [exact Hp1|]. split; [exact He1 | exact Hc1].
  - intro Hct. apply contains_true in Hct. destruct Hct as (t & Ht & Hbt).
    rewrite Hsn in Ht. injection Ht as <-.
    assert (Hct3 : contains p3 n (1 + o) = true).
    { apply contains_true. eexists. split; [exact Hsn3|].
      apply (Permutation_in _ (Permutation_sym
               (insert_sub_perm b None (overlayTree o) sn Hnds Hbt))).
      apply in_or_app. right. apply in_overlayTree. exists 1. split; [lia | reflexivity]. }
    assert (E4 : appendChild (1 + o) n p3 = inl HierarchyRequestError).
    { unfold appendChild, insertBefore. apply elem_store in He3.
      rewrite He3, Hsn3, Hsc, Hel3, Hct3. reflexivity. }
    rewrite E4. eexists. split; [reflexivity|].
    split; [exact Ha|]. split; [reflexivity|].
    cbn [page set_page].
    apply overlaysIn_single; [exact HP3 | | exact Hoo3].
    rewrite Hd3, ids_unfold. right. exact Hok2.
Qed.

Lemma enterPaneFullscreen_succeeds_iff_witness :
  (exists s1, enterPaneFullscreen (Some 4) KVideo (initial pageTiers) = Ok true s1) /\
  (exists s1, enterPaneFullscreen (Some 3) KContainer (initial pageTiers)
              = Throw HierarchyRequestError s1).
Proof.
  assert (Hr : reachable pageTiers (initial pageTiers)).
  { apply reach_init, cleanPageb_sound. vm_compute. reflexivity. }
  split.
  - destruct (elem (page (initial pageTiers)) 4) as [e|] eqn:E;
      [|vm_compute in E; discriminate].
    destruct (enterPaneFullscreen_succeeds_iff pageTiers (initial pageTiers) 4 3 e KVideo)
      as [H _]; try (vm_compute; reflexivity); try exact Hr; try exact E.
    + vm_compute. tauto.
    + destruct H as (s1 & e1 & H & _); [vm_compute; reflexivity|]. exists s1. exact H.
  - destruct (elem (page (initial pageTiers)) 3) as [e|] eqn:E;
      [|vm_compute in E; discriminate].
    destruct (enterPaneFullscreen_succeeds_iff pageTiers (initial pageTiers) 3 3 e KContainer)
      as [_ H]; try (vm_compute; reflexivity); try exact Hr; try exact E.
    + vm_compute. tauto.
    + destruct H as (s1 & H & _); [vm_compute; reflexivity|]. exists s1. exact H.
Defined.

(** ** The scanner does not see the marks of the select mode *)

Lemma existsb_ext_in {A} (f g : A -> bool) (l : list A) :
  (forall a, In a l -> f a = g a) -> existsb f l = existsb g l.
Proof.
  induction l as [|a l IH]; intro H; simpl; [reflexivity|].
  rewrite (H a (or_introl eq_refl)), IH; [reflexivity|].
  intros b Hb. apply H. right. exact Hb.
Qed.

Lemma flat_map_ext_in {A B} (f g : A -> list B) (l : list A) :
  (forall a, In a l -> f a = g a) -> flat_map f l = flat_map g l.
Proof.
  induction l as [|a l IH]; intro H; simpl; [reflexivity|].
  rewrite (H a (or_introl eq_refl)), IH; [reflexivity|].
  intros b Hb. apply H. right. exact Hb.
Qed.

Lemma scanSame_refl (e : Elem) : scanSame e e.
Proof. repeat split; auto. Qed.

Lemma scanSame_trans (e1 e2 e3 : Elem) : scanSame e1 e2 -> scanSame e2 e3 -> scanSame e1 e3.
Proof.
  intros (A1 & A2 & A3 & A4 & A5 & A6 & A7 & A8) (B1 & B2 & B3 & B4 & B5 & B6 & B7 & B8).
  repeat split; try congruence. intros sel Hs. rewrite (B8 sel Hs). apply A8, Hs.
Qed.

Lemma scanEq_refl (p : Page) : scanEq p p.
Proof.
  repeat split; auto. intro n. destruct (elem p n); [apply scanSame_refl | exact I].
Qed.

Lemma scanEq_trans (p1 p2 p3 : Page) : scanEq p1 p2 -> scanEq p2 p3 -> scanEq p1 p3.
Proof.
  intros (A1 & A2 & A3 & A4 & A5) (B1 & B2 & B3 & B4 & B5).
  repeat split; try congruence. intro n. specialize (A5 n). specialize (B5 n).
  destruct (elem p1 n), (elem p2 n), (elem p3 n); try contradiction; auto.
  eapply scanSame_trans; eassumption.
Qed.

Lemma scanEq_update (n : NodeId) (f : Elem -> Elem) (p : Page) :
  (forall e, scanSame e (f e)) -> scanEq p (update_elem n f p).
Proof.
  intro Hf. split; [apply document_update_elem|]. split; [apply others_update_elem|].
  split; [unfold update_elem; destruct (elem p n); reflexivity|].
  split; [unfold update_elem; destruct (elem p n); reflexivity|].
  intro m. rewrite elem_update_elem. destruct (Nat.eqb_spec m n) as [->|_].
  - destruct (elem p n); simpl; [apply Hf | exact I].
  - destruct (elem p m); [apply scanSame_refl | exact I].
Qed.

(** The class names of the script match none of the container selectors. *)
Lemma script_class_no_selector (v t : string) :
  In t SCRIPT_CLASSES ->
  (In (ByClass v) VIDEO_CONTAINER_SELECTORS -> String.eqb v t = false) /\
  (In (ClassContains v) VIDEO_CONTAINER_SELECTORS -> includes v t = false).
Proof.
  intro Hin. split; intro Hs; simpl in Hs;
    repeat (destruct Hs as [Hs|Hs]; [try discriminate Hs; injection Hs as <-|]);
    try contradiction;
    simpl in Hin;
    repeat (destruct Hin as [<-|Hin]; [reflexivity|]); contradiction.
Qed.

Lemma matches1_add_class (t : string) (e : Elem) (sel : Selector) :
  has_token t SCRIPT_CLASSES = true -> In sel VIDEO_CONTAINER_SELECTORS ->
  matches1 (set_classList (add_token t (classList e)) e) sel = matches1 e sel.
Proof.
  intros Ht Hs.
  assert (Hin : In t SCRIPT_CLASSES).
  { apply existsb_exists in Ht. destruct Ht as (x & Hx & E).
    apply String.eqb_eq in E. subst x. exact Hx. }
  unfold add_token. destruct (has_token t (classList e)); [destruct sel; reflexivity|].
  destruct sel as [tag|v|v|v|v]; try reflexivity; cbn [matches1 classList set_classList].
  - unfold has_token. rewrite existsb_app. cbn [existsb].
    rewrite (proj1 (script_class_no_selector v t Hin) Hs). rewrite !orb_false_r. reflexivity.
  - rewrite existsb_app. cbn [existsb].
    rewrite (proj2 (script_class_no_selector v t Hin) Hs). rewrite !orb_false_r. reflexivity.
Qed.

Lemma matches1_remove_class (t : string) (e : Elem) (sel : Selector) :
  has_token t SCRIPT_CLASSES = true -> In sel VIDEO_CONTAINER_SELECTORS ->
  matches1 (set_classList (remove_token t (classList e)) e) sel = matches1 e sel.
Proof.
  intros Ht Hs.
  assert (Hin : In t SCRIPT_CLASSES).
  { apply existsb_exists in Ht. destruct Ht as (x & Hx & E).
    apply String.eqb_eq in E. subst x. exact Hx. }
  destruct sel as [tag|v|v|v|v]; try reflexivity; cbn [matches1 classList set_classList].
  - pose proof (proj1 (script_class_no_selector v t Hin) Hs) as Hv.
    unfold has_token, remove_token. induction (classList e) as [|a l IH]; [reflexivity|].
    cbn [List.filter existsb]. destruct (String.eqb_spec a t) as [->|Hne]; cbn [negb existsb].
    + rewrite Hv. exact IH.
    + rewrite IH. reflexivity.
  - pose proof (proj2 (script_class_no_selector v t Hin) Hs) as Hv.
    unfold remove_token. induction (classList e) as [|a l IH]; [reflexivity|].
    cbn [List.filter existsb]. destruct (String.eqb_spec a t) as [->|Hne]; cbn [negb existsb].
    + rewrite Hv. exact IH.
    + rewrite IH. reflexivity.
Qed.

Lemma node_matches_scan (p p' : Page) (sels : list Selector) (n : NodeId) :
  scanEq p p' ->
  (forall sel, In sel sels -> In sel VIDEO_CONTAINER_SELECTORS \/ exists t, sel = ByTag t) ->
  node_matches p' sels n = node_matches p sels n.
Proof.
  intros (_ & _ & _ & _ & H) Hs. specialize (H n). unfold node_matches.
  destruct (elem p n) as [e|], (elem p' n) as [e'|]; try contradiction; [|reflexivity].
  destruct H as (Ht & _ & _ & _ & _ & _ & _ & Hm).
  unfold matches. apply existsb_ext_in. intros sel Hsel.
  destruct (Hs sel Hsel) as [Hv|(t & ->)]; [apply Hm, Hv|].
  simpl. rewrite Ht. reflexivity.
Qed.

Lemma tags_scan (tags : list string) :
  forall sel, In sel (map ByTag tags) ->
              In sel VIDEO_CONTAINER_SELECTORS \/ exists t, sel = ByTag t.
Proof. intros sel H. apply in_map_iff in H. destruct H as (t & <- & _). right. eauto. Qed.

Lemma querySelectorAllT_scan (p p' : Page) (sels : list Selector) (t : Tree) :
  scanEq p p' ->
  (forall sel, In sel sels -> In sel VIDEO_CONTAINER_SELECTORS \/ exists t, sel = ByTag t) ->
  querySelectorAllT p' sels t = querySelectorAllT p sels t.
Proof.
  intros H Hs. unfold querySelectorAllT. apply filter_ext. intro n.
  apply node_matches_scan; assumption.
Qed.

Lemma querySelectorAll_scan (p p' : Page) (sels : list Selector) :
  scanEq p p' ->
  (forall sel, In sel sels -> In sel VIDEO_CONTAINER_SELECTORS \/ exists t, sel = ByTag t) ->
  querySelectorAll p' sels = querySelectorAll p sels.
Proof.
  intros H Hs. unfold querySelectorAll. destruct H as (Hd & H').
  rewrite Hd. apply querySelectorAllT_scan; [|exact Hs]. split; assumption.
Qed.

Lemma forest_scan (p p' : Page) : scanEq p p' -> forest p' = forest p.
Proof. intros (Hd & Ho & _). unfold forest. rewrite Hd, Ho. reflexivity. Qed.

Lemma findAllVideos_scan (p p' : Page) : scanEq p p' -> findAllVideos p' = findAllVideos p.
Proof.
  intro H. unfold findAllVideos.
  rewrite !(querySelectorAll_scan p p') by (exact H || apply (tags_scan [_])).
  f_equal. apply flat_map_ext. intro fr. unfold frameVideos.
  pose proof H as (_ & Ho & _ & _ & He). specialize (He fr).
  destruct (elem p fr) as [e|], (elem p' fr) as [e'|]; try contradiction; [|reflexivity].
  destruct He as (_ & _ & _ & _ & _ & Hc & _). rewrite Hc, Ho.
  destruct (contentDocument e) as [| |doc]; try reflexivity.
  destruct (find _ (others p)) as [t|]; [|reflexivity].
  apply querySelectorAllT_scan; [exact H | apply (tags_scan [_])].
Qed.

Lemma selectors_scan :
  forall sel, In sel VIDEO_CONTAINER_SELECTORS ->
              In sel VIDEO_CONTAINER_SELECTORS \/ exists t, sel = ByTag t.
Proof. intros sel H. left. exact H. Qed.

Lemma isPlayerFrame_scan (p p' : Page) (n : NodeId) :
  scanEq p p' -> isPlayerFrame p' n = isPlayerFrame p n.
Proof.
  intro H. unfold isPlayerFrame.
  assert (Hc : closest p' n VIDEO_CONTAINER_SELECTORS = closest p n VIDEO_CONTAINER_SELECTORS).
  { unfold closest. rewrite (forest_scan p p' H). apply find_ext_in. intros m _.
    apply node_matches_scan; [exact H | apply selectors_scan]. }
  rewrite Hc. destruct H as (_ & _ & _ & _ & He). specialize (He n).
  destruct (elem p n) as [e|], (elem p' n) as [e'|]; try contradiction; [|reflexivity].
  destruct He as (_ & _ & Hr & Hs & Hd & _). unfold isVideoIframe. rewrite Hr, Hs, Hd.
  reflexivity.
Qed.

Lemma findVideoIframes_scan (p p' : Page) :
  scanEq p p' -> findVideoIframes p' = findVideoIframes p.
Proof.
  intro H. unfold findVideoIframes.
  rewrite (querySelectorAll_scan p p') by (exact H || apply (tags_scan [_])).
  apply filter_ext. intro n. apply isPlayerFrame_scan, H.
Qed.

Lemma findVideoContainers_scan (p p' : Page) :
  scanEq p p' -> findVideoContainers p' = findVideoContainers p.
Proof.
  intro H. unfold findVideoContainers. apply flat_map_ext_in. intros sel Hsel.
  rewrite (querySelectorAll_scan p p' [sel] H).
  2:{ intros x [<-|[]]. left. exact Hsel. }
  apply filter_ext. intro c. f_equal.
  - unfold hasMedia, querySelector, descendants. rewrite (forest_scan p p' H).
    rewrite (find_ext_in (node_matches p' [ByTag "iframe"; ByTag "video"])
                         (node_matches p [ByTag "iframe"; ByTag "video"])); [reflexivity|].
    intros m _. apply node_matches_scan; [exact H | apply (tags_scan [_; _])].
  - unfold reasonableSize. destruct H as (_ & _ & _ & _ & He). specialize (He c).
    destruct (elem p c) as [e|], (elem p' c) as [e'|]; try contradiction; [|reflexivity].
    destruct He as (_ & _ & Hr & _). rewrite Hr. reflexivity.
Qed.

Lemma getAllSelectableElements_scan (p p' : Page) :
  scanEq p p' -> getAllSelectableElements p' = getAllSelectableElements p.
Proof.
  intro H. rewrite !getAllSelectableElements_fold, !offerContainer_filter.
  rewrite (findAllVideos_scan p p' H), (findVideoIframes_scan p p' H),
          (findVideoContainers_scan p p' H).
  do 2 f_equal. apply filter_ext. intro c. rewrite !hasFoundIframe_candidates.
  f_equal. apply existsb_ext_in. intros f _. unfold contains.
  rewrite (forest_scan p p' H). reflexivity.
Qed.

Lemma getElementScore_scan (p p' : Page) (n : NodeId) :
  scanEq p p' -> getElementScore p' n = getElementScore p n.
Proof.
  intros (_ & _ & Hw & Hh & He). specialize (He n). unfold getElementScore.
  destruct (elem p n) as [e|], (elem p' n) as [e'|]; try contradiction; [|reflexivity].
  destruct He as (Ht & _ & Hr & Hs & Hd & _ & Hm & _).
  unfold scoreOf, isVisible, isVideoIframe. rewrite Ht, Hr, Hs, Hd, Hm, Hw, Hh. reflexivity.
Qed.

Lemma findBest_ext (f g : NodeId -> Q) (l : list NodeId) :
  (forall x, f x = g x) -> findBest f l = findBest g l.
Proof.
  intro H. unfold findBest. generalize (@None NodeId, 0%Q).
  induction l as [|a l IH]; intro acc; simpl; [reflexivity|].
  unfold bestStep at 2 4. rewrite (H a). apply IH.
Qed.

Lemma findBestPlayableElement_scan (p p' : Page) :
  scanEq p p' -> findBestPlayableElement p' = findBestPlayableElement p.
Proof.
  intro H. unfold findBestPlayableElement, findBestVideo, findBestIframe, findBestContainer.
  rewrite (findAllVideos_scan p p' H), (findVideoIframes_scan p p' H),
          (findVideoContainers_scan p p' H).
  rewrite !(findBest_ext (getElementScore p') (getElementScore p))
    by (intro; apply getElementScore_scan, H).
  reflexivity.
Qed.

Lemma scanSame_fields (e e' : Elem) :
  tagName e' = tagName e -> idAttr e' = idAttr e -> classList e' = classList e ->
  rect e' = rect e -> src e' = src e -> datasetSrc e' = datasetSrc e ->
  contentDocument e' = contentDocument e -> media e' = media e ->
  scanSame e e'.
Proof.
  intros H1 H2 H3 H4 H5 H6 H7 H8. repeat split; try assumption.
  intros sel _. destruct sel; simpl; rewrite ?H1, ?H2, ?H3; reflexivity.
Qed.

Lemma scanSame_add (t : string) (e : Elem) :
  has_token t SCRIPT_CLASSES = true ->
  scanSame e (set_classList (add_token t (classList e)) e).
Proof.
  intro Ht. repeat split; try reflexivity. intros sel Hs. apply matches1_add_class; assumption.
Qed.

Lemma scanSame_remove (t : string) (e : Elem) :
  has_token t SCRIPT_CLASSES = true ->
  scanSame e (set_classList (remove_token t (classList e)) e).
Proof.
  intro Ht. repeat split; try reflexivity. intros sel Hs.
  apply matches1_remove_class; assumption.
Qed.

Lemma scans_update (p : Page) (n : NodeId) (f : Elem -> Elem) :
  (forall e, scanSame e (f e)) ->
  triple (fun s => scanEq p (page s)) (onPage (update_elem n f))
         (fun _ s => scanEq p (page s)) (fun s => scanEq p (page s)).
Proof.
  intros Hf s H. cbn [page set_page].
  apply (scanEq_trans p (page s)); [exact H | apply scanEq_update, Hf].
Qed.

Lemma scans_modify (p : Page) (f : State -> State) :
  (forall s, page (f s) = page s) ->
  triple (fun s => scanEq p (page s)) (modify f)
         (fun _ s => scanEq p (page s)) (fun s => scanEq p (page s)).
Proof. intros Hf s H. simpl. rewrite Hf. exact H. Qed.

Lemma scans_bodyClass (p : Page) (f : list string -> list string) :
  (forall e, scanSame e (set_classList (f (classList e)) e)) ->
  triple (fun s => scanEq p (page s)) (bodyClass f)
         (fun _ s => scanEq p (page s)) (fun s => scanEq p (page s)).
Proof.
  intro Hf. unfold bodyClass. apply triple_gets. intros [b|].
  - eapply triple_pre; [intros s [H _]; exact H|]. apply scans_update, Hf.
  - apply triple_throw. intros s [H _]. exact H.
Qed.

Lemma scans_enableSelectMode (p : Page) :
  triple (fun s => scanEq p (page s)) enableSelectMode
         (fun _ s => scanEq p (page s)) (fun s => scanEq p (page s)).
Proof.
  unfold enableSelectMode. apply triple_gets. intro on.
  eapply triple_pre; [intros s [H _]; exact H|].
  destruct on; [apply triple_ret|].
  eapply triple_bind; [apply scans_modify; reflexivity|]. intro.
  eapply triple_bind; [apply scans_bodyClass; intro; apply scanSame_add; reflexivity|].
  intro. apply triple_gets. intro selectables.
  eapply triple_pre; [intros s [H _]; exact H|].
  eapply triple_bind.
  { apply triple_forEach. intros [element type] _. unfold offer.
    eapply triple_bind; [apply scans_update; intro; apply scanSame_add; reflexivity|].
    intro. eapply triple_bind;
      [apply scans_update; intro; apply scanSame_fields; reflexivity|].
    intro. eapply triple_bind;
      [apply scans_update; intro; apply scanSame_fields; reflexivity|].
    intro. apply scans_update. intro. apply scanSame_fields; reflexivity. }
  intro. eapply triple_bind; [apply scans_modify; reflexivity|]. intro.
  eapply triple_bind; [apply scans_modify; reflexivity|]. intro.
  apply triple_ret.
Qed.

Lemma scans_disableSelectMode (p : Page) :
  triple (fun s => scanEq p (page s)) disableSelectMode
         (fun _ s => scanEq p (page s)) (fun s => scanEq p (page s)).
Proof.
  unfold disableSelectMode. apply triple_gets. intro on.
  eapply triple_pre; [intros s [H _]; exact H|].
  destruct on; simpl; [|apply triple_ret].
  eapply triple_bind; [apply scans_modify; reflexivity|]. intro.
  eapply triple_bind; [apply scans_bodyClass; intro; apply scanSame_remove; reflexivity|].
  intro. apply triple_gets. intro marked.
  eapply triple_pre; [intros s [H _]; exact H|].
  apply triple_forEach. intros element _. unfold withdraw.
  eapply triple_bind; [apply scans_update; intro; apply scanSame_remove; reflexivity|].
  intro. eapply triple_bind;
    [apply scans_update; intro; apply scanSame_fields; reflexivity|].
  intro. apply scans_update. intro e.
  destruct (paneFullscreenHandler e); apply scanSame_fields; reflexivity.
Qed.

(** X18.  Turning the select mode on or off changes nothing of what the
    scanner and the selector find: the list of selectable elements and the
    element that [findBestPlayableElement] picks are the same before
    [enableSelectMode], after it, and after a [disableSelectMode] that
    follows; so the count that a fresh [enableSelectMode] returns is the
    number of selectable elements of the page as it was, the count that
    [getStatus] reports. *)
Theorem select_mode_keeps_candidates (s s1 : State) (r : option nat) :
  enableSelectMode s = Ok r s1 ->
  getAllSelectableElements (page s1) = getAllSelectableElements (page s) /\
  findBestPlayableElement (page s1) = findBestPlayableElement (page s) /\
  (selectMode s = false ->
   r = Some (List.length (getAllSelectableElements (page s))) /\
   onMessage getStatus s =
     Ok (Status (isActive s) (Nat.ltb 0 (List.length (getAllSelectableElements (page s))))
                (List.length (getAllSelectableElements (page s)))) s) /\
  (forall s2, disableSelectMode s1 = Ok tt s2 ->
     getAllSelectableElements (page s2) = getAllSelectableElements (page s) /\
     findBestPlayableElement (page s2) = findBestPlayableElement (page s)).
Proof.
  intro E.
  pose proof (scans_enableSelectMode (page s) s (scanEq_refl _)) as H1. rewrite E in H1.
  split; [apply getAllSelectableElements_scan, H1|].
  split; [apply findBestPlayableElement_scan, H1|].
  split.
  - intro Hs. split; [|reflexivity].
    destruct (body (page s)) as [b|] eqn:Hb.
    + rewrite (enableSelectMode_fresh s b Hs Hb) in E. injection E as <- _.
      rewrite (getAllSelectableElements_scan (page s) (markBody b (page s))); [reflexivity|].
      apply scanEq_update. intro. apply scanSame_add. reflexivity.
    + unfold enableSelectMode, bind, gets in E. rewrite Hs in E. simpl in E.
      unfold bodyClass, bind, gets in E. simpl in E. rewrite Hb in E. discriminate.
  - intros s2 E2.
    pose proof (scans_disableSelectMode (page s) s1 H1) as H2. rewrite E2 in H2.
    split; [apply getAllSelectableElements_scan, H2 | apply findBestPlayableElement_scan, H2].
Qed.

Lemma select_mode_keeps_candidates_witness :
  exists s1,
    enableSelectMode (initial pageTiers) = Ok (Some 4) s1 /\
    findBestPlayableElement (page s1) = Some (4, KVideo).
Proof.
  destruct (enableSelectMode (initial pageTiers)) as [r s1|ex s1] eqn:E;
    [|vm_compute in E; discriminate].
  destruct (select_mode_keeps_candidates _ _ _ E) as (_ & H2 & H3 & _).
  destruct (H3 eq_refl) as [-> _].
  exists s1. split; [reflexivity|]. rewrite H2. vm_compute. reflexivity.
Defined.
